(** * Zero-suppressed BDD engine of SCRAM (zbdd.h / zbdd.cc)

    A shallow embedding of the class [Zbdd]: the vertex store, the unique
    table, the compute tables and the algorithms [FetchUniqueTable],
    [Apply], [Minimize], [Subsume], [EliminateComplements] and
    [GenerateCutSets], written as state-passing functions over an explicit
    store of [SetNode]s.

    Conventions.
    - A [VertexPtr] is the id of the vertex it points to.  The two terminals
      of a diagram are [kEmpty_] (id 0, value false) and [kBase_] (id 1,
      value true); [SetNode]s get the ids 2, 3, ... from [set_id_].
    - The fields of a [SetNode] that the code mutates through shared
      pointers ([minimal], [mark], [cut_sets], and the branches cut by
      [CutBranches]) live in the store, so that an update made through one
      pointer is seen through every other pointer to the same node.
    - [int] values are modelled as [Z]; the one place where the code
      compares an [int] with a [size_t] writes the conversion out.
    - An [assert] that fails, a null pointer that is dereferenced and an
      exhausted recursion budget are three distinct errors.
    - A field that the code reads through a pointer after other calls have
      run is read from the store again when those calls can change it (the
      [minimal] flag at the end of [Subsume]); [index], [order], [module]
      and the branches of a node never change before [CutBranches].
    - The recursive functions take a recursion budget [fuel]; the ids of the
      children of a node are smaller than the id of the node, so the budget
      needed is bounded by the ids of the arguments. *)

From stdpp Require Import gmap list.
From Stdlib Require Import ZArith Lia.

Open Scope Z_scope.

(** ** Vertices *)

(** Non-terminal vertices of a ZBDD ([class SetNode : public NonTerminal]).
    The id of the node is the key under which the store holds it. *)
Record SetNode := mkSetNode {
  index : Z;                 (* positive, or negative for a complement *)
  order : Z;
  high : Z;                  (* id of the high/then branch *)
  low : Z;                   (* id of the low/else branch *)
  module : bool;
  minimal : bool;
  mark : bool;
  cut_sets : list (list Z)
}.

(** The accessors [node->high()] and [node->low()], for the functions whose
    parameters are themselves called [high] and [low]. *)
Notation "n '~>high'" := (high n) (at level 1, format "n '~>high'").
Notation "n '~>low'" := (low n) (at level 1, format "n '~>low'").

(** Modelled from the spec: the two terminals of bdd.h, which "reserve ids
    0/1": [Terminal(false)] has id 0 and [Terminal(true)] has id 1. *)
Definition kEmpty_ : Z := 0.
Definition kBase_ : Z := 1.

(** [vertex->terminal()] *)
Definition terminal (v : Z) : bool := (v =? kEmpty_) || (v =? kBase_).

(** [Terminal::Ptr(vertex)->value()] *)
Definition value (v : Z) : bool := v =? kBase_.

(** A reset ([nullptr]) branch pointer. *)
Definition null : Z := -1.

(** Modelled from the spec: the gate types of the enumeration [Operator]
    that zbdd.cc mentions; every function of the engine supports the first
    two only. *)
Inductive Operator := kOrGate | kAndGate | kNullGate.

(** ** The engine state *)

Record Zbdd := mkZbdd {
  limit_order : Z;                       (* kSettings_.limit_order() *)
  root_ : Z;
  unique_table_ : gmap (Z * Z * Z) Z;    (* (index, id_high, id_low) -> live node *)
  and_table_ : gmap (Z * Z * Z) Z;       (* (min_id, max_id, order) -> vertex *)
  or_table_ : gmap (Z * Z * Z) Z;
  minimal_results_ : gmap Z Z;
  subsume_table_ : gmap (Z * Z) Z;
  modules_ : gmap Z Z;
  set_id_ : Z;
  nodes : gmap Z SetNode;                (* the vertex store *)
  cut_sets_ : list (list Z)
}.

(** [Zbdd::Zbdd(const Settings&)] *)
Definition Zbdd_init (limit : Z) : Zbdd :=
  {| limit_order := limit; root_ := null; unique_table_ := ∅;
     and_table_ := ∅; or_table_ := ∅; minimal_results_ := ∅;
     subsume_table_ := ∅; modules_ := ∅; set_id_ := 2; nodes := ∅;
     cut_sets_ := [] |}.

Definition set_nodes (f : gmap Z SetNode → gmap Z SetNode) (s : Zbdd) : Zbdd :=
  {| limit_order := limit_order s; root_ := root_ s;
     unique_table_ := unique_table_ s; and_table_ := and_table_ s;
     or_table_ := or_table_ s; minimal_results_ := minimal_results_ s;
     subsume_table_ := subsume_table_ s; modules_ := modules_ s;
     set_id_ := set_id_ s; nodes := f (nodes s); cut_sets_ := cut_sets_ s |}.

Definition set_unique_table (f : gmap (Z * Z * Z) Z → gmap (Z * Z * Z) Z)
    (s : Zbdd) : Zbdd :=
  {| limit_order := limit_order s; root_ := root_ s;
     unique_table_ := f (unique_table_ s); and_table_ := and_table_ s;
     or_table_ := or_table_ s; minimal_results_ := minimal_results_ s;
     subsume_table_ := subsume_table_ s; modules_ := modules_ s;
     set_id_ := set_id_ s; nodes := nodes s; cut_sets_ := cut_sets_ s |}.

Definition set_and_table (f : gmap (Z * Z * Z) Z → gmap (Z * Z * Z) Z)
    (s : Zbdd) : Zbdd :=
  {| limit_order := limit_order s; root_ := root_ s;
     unique_table_ := unique_table_ s; and_table_ := f (and_table_ s);
     or_table_ := or_table_ s; minimal_results_ := minimal_results_ s;
     subsume_table_ := subsume_table_ s; modules_ := modules_ s;
     set_id_ := set_id_ s; nodes := nodes s; cut_sets_ := cut_sets_ s |}.

Definition set_or_table (f : gmap (Z * Z * Z) Z → gmap (Z * Z * Z) Z)
    (s : Zbdd) : Zbdd :=
  {| limit_order := limit_order s; root_ := root_ s;
     unique_table_ := unique_table_ s; and_table_ := and_table_ s;
     or_table_ := f (or_table_ s); minimal_results_ := minimal_results_ s;
     subsume_table_ := subsume_table_ s; modules_ := modules_ s;
     set_id_ := set_id_ s; nodes := nodes s; cut_sets_ := cut_sets_ s |}.

Definition set_minimal_results (f : gmap Z Z → gmap Z Z) (s : Zbdd) : Zbdd :=
  {| limit_order := limit_order s; root_ := root_ s;
     unique_table_ := unique_table_ s; and_table_ := and_table_ s;
     or_table_ := or_table_ s; minimal_results_ := f (minimal_results_ s);
     subsume_table_ := subsume_table_ s; modules_ := modules_ s;
     set_id_ := set_id_ s; nodes := nodes s; cut_sets_ := cut_sets_ s |}.

Definition set_subsume_table (f : gmap (Z * Z) Z → gmap (Z * Z) Z)
    (s : Zbdd) : Zbdd :=
  {| limit_order := limit_order s; root_ := root_ s;
     unique_table_ := unique_table_ s; and_table_ := and_table_ s;
     or_table_ := or_table_ s; minimal_results_ := minimal_results_ s;
     subsume_table_ := f (subsume_table_ s); modules_ := modules_ s;
     set_id_ := set_id_ s; nodes := nodes s; cut_sets_ := cut_sets_ s |}.

Definition set_modules (f : gmap Z Z → gmap Z Z) (s : Zbdd) : Zbdd :=
  {| limit_order := limit_order s; root_ := root_ s;
     unique_table_ := unique_table_ s; and_table_ := and_table_ s;
     or_table_ := or_table_ s; minimal_results_ := minimal_results_ s;
     subsume_table_ := subsume_table_ s; modules_ := f (modules_ s);
     set_id_ := set_id_ s; nodes := nodes s; cut_sets_ := cut_sets_ s |}.

Definition set_root (r : Z) (s : Zbdd) : Zbdd :=
  {| limit_order := limit_order s; root_ := r;
     unique_table_ := unique_table_ s; and_table_ := and_table_ s;
     or_table_ := or_table_ s; minimal_results_ := minimal_results_ s;
     subsume_table_ := subsume_table_ s; modules_ := modules_ s;
     set_id_ := set_id_ s; nodes := nodes s; cut_sets_ := cut_sets_ s |}.

Definition set_set_id (i : Z) (s : Zbdd) : Zbdd :=
  {| limit_order := limit_order s; root_ := root_ s;
     unique_table_ := unique_table_ s; and_table_ := and_table_ s;
     or_table_ := or_table_ s; minimal_results_ := minimal_results_ s;
     subsume_table_ := subsume_table_ s; modules_ := modules_ s;
     set_id_ := i; nodes := nodes s; cut_sets_ := cut_sets_ s |}.

Definition set_cut_sets_ (c : list (list Z)) (s : Zbdd) : Zbdd :=
  {| limit_order := limit_order s; root_ := root_ s;
     unique_table_ := unique_table_ s; and_table_ := and_table_ s;
     or_table_ := or_table_ s; minimal_results_ := minimal_results_ s;
     subsume_table_ := subsume_table_ s; modules_ := modules_ s;
     set_id_ := set_id_ s; nodes := nodes s; cut_sets_ := c |}.

(** Setters of [SetNode]. *)
Definition with_minimal (flag : bool) (n : SetNode) : SetNode :=
  {| index := index n; order := order n; high := high n; low := low n;
     module := module n; minimal := flag; mark := mark n;
     cut_sets := cut_sets n |}.

Definition with_mark (flag : bool) (n : SetNode) : SetNode :=
  {| index := index n; order := order n; high := high n; low := low n;
     module := module n; minimal := minimal n; mark := flag;
     cut_sets := cut_sets n |}.

Definition with_cut_sets (c : list (list Z)) (n : SetNode) : SetNode :=
  {| index := index n; order := order n; high := high n; low := low n;
     module := module n; minimal := minimal n; mark := mark n;
     cut_sets := c |}.

(** [SetNode::CutBranches] *)
Definition CutBranches (n : SetNode) : SetNode :=
  {| index := index n; order := order n; high := null; low := null;
     module := module n; minimal := minimal n; mark := mark n;
     cut_sets := cut_sets n |}.

(** ** The monad of engine operations *)

Inductive error := AssertionFailure | NullPointer | OutOfFuel.

Inductive result (A : Type) :=
  | Ok (a : A) (s : Zbdd)
  | Err (e : error).
Arguments Ok {A} a s.
Arguments Err {A} e.

Definition M (A : Type) : Type := Zbdd → result A.

Definition ret {A} (a : A) : M A := fun s => Ok a s.

Definition bind {A B} (m : M A) (k : A → M B) : M B :=
  fun s => match m s with
           | Ok a s' => k a s'
           | Err e => Err e
           end.

Notation "'let*' x ':=' e 'in' k" := (bind e (fun x => k))
  (at level 10, x name, e at level 100, k at level 200).
Notation "e1 ';;' e2" := (bind e1 (fun _ => e2))
  (at level 100, e2 at level 200, right associativity).

Definition get {A} (f : Zbdd → A) : M A := fun s => Ok (f s) s.
Definition modify (f : Zbdd → Zbdd) : M unit := fun s => Ok tt (f s).
Definition fail {A} (e : error) : M A := fun _ => Err e.

(** [assert(cond)] *)
Definition assert (cond : bool) : M unit :=
  if cond then ret tt else fail AssertionFailure.

(** [SetNode::Ptr(vertex)] followed by an access to the node. *)
Definition SetNode_Ptr (v : Z) : M SetNode :=
  fun s => match nodes s !! v with
           | Some n => Ok n s
           | None => Err NullPointer
           end.

(** [SetNode::Ptr(vertex)->minimal(flag)] *)
Definition set_minimal (v : Z) (flag : bool) : M unit :=
  let* n := SetNode_Ptr v in
  modify (set_nodes (insert v (with_minimal flag n))).

(** [SetNode::Ptr(vertex)->mark(flag)] *)
Definition set_mark (v : Z) (flag : bool) : M unit :=
  let* n := SetNode_Ptr v in
  modify (set_nodes (insert v (with_mark flag n))).

(** ** The unique table *)

(** [Zbdd::FetchUniqueTable].  The table holds weak pointers and the garbage
    collector erases the key of a node when the node is destroyed, so an
    entry of the table is a pointer that has not expired. *)
Definition FetchUniqueTable (index : Z) (high low : Z) (order : Z)
    (module : bool) : M Z :=
  fun s =>
    match unique_table_ s !! (index, high, low) with
    | Some node => Ok node s
    | None =>
        if 0 <? order then
          let id := set_id_ s in
          Ok id
             (set_unique_table (insert (index, high, low) id)
                (set_nodes
                   (insert id (mkSetNode index order high low module
                                 false false []))
                   (set_set_id (id + 1) s)))
        else Err AssertionFailure
    end.

(** [Zbdd::GarbageCollector::operator()]: the deleter of a [SetNode] whose
    reference count has dropped to zero. *)
Definition GarbageCollector (ptr : Z) : M unit :=
  let* n := SetNode_Ptr ptr in
  modify (set_unique_table (delete (index n, high n, low n))) ;;
  modify (set_nodes (delete ptr)).

(** ** Compute tables *)

(** [Zbdd::FetchComputeTable]: the slot of the table; [None] is the
    [nullptr] of a slot that has no result yet. *)
Definition FetchComputeTable (type : Operator) (arg_one arg_two : Z)
    (order : Z) : M (option Z) :=
  assert (0 <=? order) ;;
  assert (negb (terminal arg_one) && negb (terminal arg_two)) ;;
  assert (negb (arg_one =? 0) && negb (arg_two =? 0)) ;;
  assert (negb (arg_one =? arg_two)) ;;
  let min_id := Z.min arg_one arg_two in
  let max_id := Z.max arg_one arg_two in
  match type with
  | kOrGate => get (fun s => or_table_ s !! (min_id, max_id, order))
  | kAndGate => get (fun s => and_table_ s !! (min_id, max_id, order))
  | _ => fail AssertionFailure
  end.

(** The assignment [result = ...] through the reference returned by
    [FetchComputeTable]. *)
Definition StoreComputeTable (type : Operator) (arg_one arg_two : Z)
    (order : Z) (r : Z) : M unit :=
  let min_id := Z.min arg_one arg_two in
  let max_id := Z.max arg_one arg_two in
  match type with
  | kOrGate => modify (set_or_table (insert (min_id, max_id, order) r))
  | kAndGate => modify (set_and_table (insert (min_id, max_id, order) r))
  | _ => fail AssertionFailure
  end.

(** ** Subsume and Minimize *)

(** The end of [Zbdd::Subsume(high, low)]: the reduction rule, the node of
    the result with the [minimal] flag of [high], and the memoisation. *)
Definition Subsume_emit (high low : Z) (high_node : SetNode)
    (subhigh sublow : Z) : M Z :=
  if terminal subhigh && negb (value subhigh) then
    modify (set_subsume_table (insert (high, low) sublow)) ;;
    ret sublow
  else
    assert (negb (subhigh =? sublow)) ;;
    let* new_high :=
      FetchUniqueTable (index high_node) subhigh sublow
                       (order high_node) (module high_node) in
    let* high_node := SetNode_Ptr high in
    set_minimal new_high (minimal high_node) ;;
    modify (set_subsume_table (insert (high, low) new_high)) ;;
    ret new_high.

(** [Zbdd::Subsume(high, low)] *)
Fixpoint Subsume (fuel : nat) (high low : Z) : M Z :=
  match fuel with
  | O => fail OutOfFuel
  | S fuel =>
    if terminal low then ret (if value low then kEmpty_ else high)
    else if terminal high then ret high
    else
      let* computed := get (fun s => subsume_table_ s !! (high, low)) in
      match computed with
      | Some r => ret r
      | None =>
        let* high_node := SetNode_Ptr high in
        let* low_node := SetNode_Ptr low in
        if (order high_node >? order low_node)
           || ((order high_node =? order low_node)
               && (index high_node <? index low_node))
        then
          let* r := Subsume fuel high (low_node~>low) in
          modify (set_subsume_table (insert (high, low) r)) ;;
          ret r
        else if (order high_node =? order low_node)
                && (index high_node =? index low_node)
        then
          let* subhigh :=
            Subsume fuel (high_node~>high) (low_node~>high) in
          let* subhigh := Subsume fuel subhigh (low_node~>low) in
          let* sublow := Subsume fuel (high_node~>low) (low_node~>low) in
          Subsume_emit high low high_node subhigh sublow
        else
          assert ((order high_node <? order low_node)
                  || ((order high_node =? order low_node)
                      && (index high_node >? index low_node))) ;;
          let* subhigh := Subsume fuel (high_node~>high) low in
          let* sublow := Subsume fuel (high_node~>low) low in
          Subsume_emit high low high_node subhigh sublow
      end
  end.

(** The end of [Zbdd::Minimize]: the check of the result of Subsume, the
    reduction rule, and the node of the result, memoised and flagged. *)
Definition Minimize_emit (vertex : Z) (node : SetNode) (high low : Z)
    : M Z :=
  assert (negb (high =? low)) ;;
  if terminal high && negb (value high) then
    modify (set_minimal_results (insert vertex low)) ;;
    ret low
  else
    let* r :=
      FetchUniqueTable (index node) high low (order node) (module node) in
    modify (set_minimal_results (insert vertex r)) ;;
    set_minimal r true ;;
    ret r.

(** [Zbdd::Minimize] *)
Fixpoint Minimize (fuel : nat) (vertex : Z) : M Z :=
  match fuel with
  | O => fail OutOfFuel
  | S fuel =>
    if terminal vertex then ret vertex
    else
      let* node := SetNode_Ptr vertex in
      if minimal node then ret vertex
      else
        let* result := get (fun s => minimal_results_ s !! vertex) in
        match result with
        | Some r => ret r
        | None =>
          let* high := Minimize fuel (node~>high) in
          let* low := Minimize fuel (node~>low) in
          let* high := Subsume fuel high low in
          Minimize_emit vertex node high low
        end
  end.

(** ** Apply *)

(** [Zbdd::Apply(Operator, TerminalPtr, TerminalPtr)] *)
Definition Apply_terminals (type : Operator) (term_one term_two : Z) : M Z :=
  match type with
  | kOrGate =>
      if value term_one || value term_two then ret kBase_ else ret kEmpty_
  | kAndGate =>
      if negb (value term_one) || negb (value term_two) then ret kEmpty_
      else ret kBase_
  | _ => fail AssertionFailure
  end.

(** [Zbdd::Apply(Operator, SetNodePtr, TerminalPtr)] *)
Definition Apply_terminal (type : Operator) (set_node term : Z) : M Z :=
  match type with
  | kOrGate => if value term then ret kBase_ else ret set_node
  | kAndGate => if negb (value term) then ret kEmpty_ else ret set_node
  | _ => fail AssertionFailure
  end.

(** The end of [Apply(Operator, SetNodePtr, SetNodePtr, int)]: a [high]
    branch that starts with the complement of the variable of [arg_one] is
    replaced by its own [low] branch. *)
Definition drop_complement_branch (one : SetNode) (h : Z) : M Z :=
  if terminal h then ret h
  else
    let* high_node := SetNode_Ptr h in
    if order high_node =? order one then
      assert (index high_node <? index one) ;;
      ret (high_node~>low)
    else ret h.

(** The reduction rules that [Apply] checks before it fetches the node of
    the result, and the minimization of that node. *)
Definition reduce_and_fetch (Minimize : Z → M Z) (one : SetNode) (h l : Z)
    : M Z :=
  if h =? l then ret l
  else if terminal h && negb (value h) then ret l
  else
    let* n := FetchUniqueTable (index one) h l (order one) (module one) in
    Minimize n.

(** [Zbdd::Apply(Operator, SetNodePtr, SetNodePtr, int)], over the
    recursive calls [Apply] of the vertex overload and [Minimize].  The
    computation of the two branches either returns early ([inl]) or yields
    the pair of branches ([inr]).  The operands of a call are evaluated from
    left to right. *)
Definition Apply_sets (Apply : Operator → Z → Z → Z → M Z)
    (Minimize : Z → M Z)
    (type : Operator) (arg_one arg_two : Z) (limit_order : Z) : M Z :=
  let* one := SetNode_Ptr arg_one in
  let* two := SetNode_Ptr arg_two in
  let limit_high :=
    if (index one <? 0) || module one then limit_order - 1 + 1
    else limit_order - 1 in
  let* branches :=
    if (order one =? order two) && (index one =? index two) then
      match type with
      | kOrGate =>
          let* h := Apply kOrGate (one~>high) (two~>high) limit_high in
          let* l := Apply kOrGate (one~>low) (two~>low) limit_order in
          ret (inr (h, l))
      | kAndGate =>
          let* g := Apply kOrGate (two~>high) (two~>low) limit_high in
          let* x := Apply kAndGate (one~>high) g limit_high in
          let* y := Apply kAndGate (one~>low) (two~>high) limit_high in
          let* h := Apply kOrGate x y limit_high in
          let* l := Apply kAndGate (one~>low) (two~>low) limit_order in
          ret (inr (h, l))
      | _ => fail AssertionFailure
      end
    else
      assert ((order one <? order two) || (index one >? index two)) ;;
      match type with
      | kOrGate =>
          if (order one =? order two)
             && (terminal (one~>high) && terminal (two~>high))
          then ret (inl kBase_)
          else
            let* l := Apply kOrGate (one~>low) arg_two limit_order in
            ret (inr (one~>high, l))
      | kAndGate =>
          let* h :=
            if order one =? order two
            then Apply kAndGate (one~>high) (two~>low) limit_high
            else Apply kAndGate (one~>high) arg_two limit_high in
          let* l := Apply kAndGate (one~>low) arg_two limit_order in
          ret (inr (h, l))
      | _ => fail AssertionFailure
      end in
  match branches with
  | inl r => ret r
  | inr (h, l) =>
      let* h := drop_complement_branch one h in
      reduce_and_fetch Minimize one h l
  end.

(** The two conditional [std::swap]s of the vertex overload. *)
Definition order_operands (arg_one arg_two : Z) (one two : SetNode)
    : Z * Z :=
  let '(set_one, set_two, n1, n2) :=
    if order one >? order two then (arg_two, arg_one, two, one)
    else (arg_one, arg_two, one, two) in
  if (order n1 =? order n2) && (index n1 <? index n2)
  then (set_two, set_one) else (set_one, set_two).

(** [Zbdd::Apply(Operator, VertexPtr, VertexPtr, int)] *)
Fixpoint Apply (fuel : nat) (type : Operator) (arg_one arg_two : Z)
    (limit_order : Z) : M Z :=
  match fuel with
  | O => fail OutOfFuel
  | S fuel =>
    if limit_order <? 0 then ret kEmpty_
    else if terminal arg_one && terminal arg_two
    then Apply_terminals type arg_one arg_two
    else if terminal arg_one then Apply_terminal type arg_two arg_one
    else if terminal arg_two then Apply_terminal type arg_one arg_two
    else if arg_one =? arg_two then ret arg_one
    else
      let* result := FetchComputeTable type arg_one arg_two limit_order in
      match result with
      | Some r => ret r
      | None =>
          let* one := SetNode_Ptr arg_one in
          let* two := SetNode_Ptr arg_two in
          let sets := order_operands arg_one arg_two one two in
          let* r :=
            Apply_sets (Apply fuel) (Minimize fuel) type
                       (fst sets) (snd sets) limit_order in
          StoreComputeTable type arg_one arg_two limit_order r ;;
          ret r
      end
  end.

(** ** Complement elimination *)

(** [Zbdd::EliminateComplement], over the recursive call
    [EliminateComplements] that processes the graph of a module.  The map
    [wide_results] that the code passes by pointer is threaded through. *)
Definition EliminateComplement (fuel : nat)
    (EliminateComplements : Z → gmap Z Z → M (Z * gmap Z Z))
    (node_id : Z) (high low : Z) (wide_results : gmap Z Z)
    : M (Z * gmap Z Z) :=
  let* node := SetNode_Ptr node_id in
  let* limit := get limit_order in
  if index node <? 0 then
    let* r := Apply fuel kOrGate high low limit in ret (r, wide_results)
  else if high =? low then ret (low, wide_results)
  else if terminal high && negb (value high) then ret (low, wide_results)
  else
    let* folded :=
      if module node then
        let* entry := get (fun s => modules_ s !! index node) in
        match entry with
        | None => fail NullPointer
        | Some module_root =>
            let* mw := EliminateComplements module_root wide_results in
            let* m := Minimize fuel (fst mw) in
            modify (set_modules (insert (index node) m)) ;;
            if terminal m then
              if negb (value m) then ret (Some low, snd mw)
              else
                let* r := Apply fuel kOrGate high low limit in
                ret (Some r, snd mw)
            else ret (None, snd mw)
        end
      else ret (None, wide_results) in
    match fst folded with
    | Some r => ret (r, snd folded)
    | None =>
        let* r :=
          FetchUniqueTable (index node) high low (order node)
                           (module node) in
        ret (r, snd folded)
    end.

(** [Zbdd::EliminateComplements] *)
Fixpoint EliminateComplements (fuel : nat) (vertex : Z)
    (wide_results : gmap Z Z) : M (Z * gmap Z Z) :=
  match fuel with
  | O => fail OutOfFuel
  | S fuel =>
    if terminal vertex then ret (vertex, wide_results)
    else
      match wide_results !! vertex with
      | Some r => ret (r, wide_results)
      | None =>
          let* node := SetNode_Ptr vertex in
          let* hw := EliminateComplements fuel (node~>high) wide_results in
          let* lw := EliminateComplements fuel (node~>low) (snd hw) in
          let* rw :=
            EliminateComplement fuel (EliminateComplements fuel)
                                vertex (fst hw) (fst lw) (snd lw) in
          ret (fst rw, <[vertex := fst rw]> (snd rw))
      end
  end.

(** ** Traversals: marks and the structural check *)

(** [modules_.find(index)->second] *)
Definition find_module (index : Z) : M Z :=
  fun s => match modules_ s !! index with
           | Some v => Ok v s
           | None => Err NullPointer
           end.

(** [Zbdd::ClearMarks] *)
Fixpoint ClearMarks (fuel : nat) (vertex : Z) : M unit :=
  match fuel with
  | O => fail OutOfFuel
  | S fuel =>
    if terminal vertex then ret tt
    else
      let* node := SetNode_Ptr vertex in
      if negb (mark node) then ret tt
      else
        set_mark vertex false ;;
        (if module node then
           let* m := find_module (index node) in ClearMarks fuel m
         else ret tt) ;;
        ClearMarks fuel (node~>high) ;;
        ClearMarks fuel (node~>low)
  end.

(** The node behind a branch pointer, when the branch is not a terminal. *)
Definition branch_node (v : Z) : M (option SetNode) :=
  if terminal v then ret None
  else let* n := SetNode_Ptr v in ret (Some n).

(** [Zbdd::TestStructure] *)
Fixpoint TestStructure (fuel : nat) (vertex : Z) : M unit :=
  match fuel with
  | O => fail OutOfFuel
  | S fuel =>
    if terminal vertex then ret tt
    else
      let* node := SetNode_Ptr vertex in
      if mark node then ret tt
      else
        set_mark vertex true ;;
        assert (negb (index node =? 0)) ;;
        assert (negb (order node =? 0)) ;;
        assert (negb (node~>high =? null) && negb (node~>low =? null)) ;;
        assert (negb (terminal (node~>high) && negb (value (node~>high)))) ;;
        assert (negb (node~>high =? node~>low)) ;;
        let* high_node := branch_node (node~>high) in
        let* low_node := branch_node (node~>low) in
        assert (match high_node with
                | Some h => negb (order node >=? order h)
                | None => true
                end) ;;
        assert (match low_node with
                | Some l => negb (order node >? order l)
                | None => true
                end) ;;
        assert (match low_node with
                | Some l => negb ((order node =? order l)
                                  && (index node <=? index l))
                | None => true
                end) ;;
        assert (match high_node with
                | Some h => negb (minimal node && negb (minimal h))
                | None => true
                end) ;;
        assert (match low_node with
                | Some l => negb (minimal node && negb (minimal l))
                | None => true
                end) ;;
        (if module node then
           let* m := find_module (index node) in
           assert (negb (terminal m)) ;;
           TestStructure fuel m
         else ret tt) ;;
        TestStructure fuel (node~>high) ;;
        TestStructure fuel (node~>low)
  end.

(** ** Generation of cut sets *)

(** The conversion of an [int] to [size_t] in a comparison of a container
    size with [kSettings_.limit_order()]. *)
Definition to_size_t (z : Z) : Z := z mod 2 ^ 64.

(** [cut_set.size()] *)
Definition size (c : list Z) : Z := Z.of_nat (length c).

(** The loop over [high] for a node that is not a module. *)
Definition extend_cut_sets (limit : Z) (index : Z) (high : list (list Z))
    : list (list Z) :=
  flat_map
    (fun cut_set =>
       if size cut_set =? to_size_t limit then []
       else [cut_set ++ [index]])
    high.

(** The cross-product loop for a module. *)
Definition join_module_sets (limit : Z) (high module : list (list Z))
    : list (list Z) :=
  flat_map
    (fun cut_set =>
       flat_map
         (fun module_set =>
            if size cut_set + size module_set >? to_size_t limit then []
            else [cut_set ++ module_set])
         module)
    high.

Section Generation.

(** [node.use_count()]: the number of owners of the node, counted by the
    control block of [std::shared_ptr].  The vertex store keeps no owner
    counts, so the count is a parameter of the generation. *)
Variable use_count : Zbdd → Z → Z.

(** [Zbdd::GenerateCutSets] *)
Fixpoint GenerateCutSets (fuel : nat) (vertex : Z) : M (list (list Z)) :=
  match fuel with
  | O => fail OutOfFuel
  | S fuel =>
    if terminal vertex then
      if value vertex then ret [[]] else ret []
    else
      let* node := SetNode_Ptr vertex in
      assert (minimal node) ;;
      if mark node then ret (cut_sets node)
      else
        set_mark vertex true ;;
        let* low := GenerateCutSets fuel (node~>low) in
        let* high := GenerateCutSets fuel (node~>high) in
        let* limit := get limit_order in
        let* result :=
          if module node then
            let* module_vertex := find_module (index node) in
            let* module := GenerateCutSets fuel module_vertex in
            ret (low ++ join_module_sets limit high module)
          else ret (low ++ extend_cut_sets limit (index node) high) in
        (let* n := SetNode_Ptr vertex in
         modify (set_nodes (insert vertex (CutBranches n)))) ;;
        let* owners := get (fun s => use_count s vertex) in
        (if owners >? 2 then
           let* n := SetNode_Ptr vertex in
           modify (set_nodes (insert vertex (with_cut_sets result n)))
         else ret tt) ;;
        ret result
  end.

(** The loop of [Analyze] over the modules. *)
Fixpoint minimize_modules (fuel : nat) (entries : list (Z * Z)) : M unit :=
  match entries with
  | [] => ret tt
  | (index, v) :: rest =>
      let* m := Minimize fuel v in
      modify (set_modules (insert index m)) ;;
      minimize_modules fuel rest
  end.

(** The first phase of [Zbdd::Analyze], up to the structural check; the
    logging of [LOG_ZBDD] is off, which leaves its calls of [ClearMarks]. *)
Definition Analyze_minimize (fuel : nat) : M unit :=
  let* entries := get (fun s => map_to_list (modules_ s)) in
  minimize_modules fuel entries ;;
  let* r := get root_ in
  let* r := Minimize fuel r in
  modify (set_root r) ;;
  let* minimal_root :=
    if terminal r then ret true
    else let* n := SetNode_Ptr r in ret (minimal n) in
  assert minimal_root ;;
  ClearMarks fuel r ;;
  TestStructure fuel r ;;
  ClearMarks fuel r ;;
  ClearMarks fuel r ;;
  ClearMarks fuel r.

(** [Zbdd::Analyze].  The reset of [unique_table_] leaves no table to fetch
    from; no node is fetched after it. *)
Definition Analyze (fuel : nat) : M unit :=
  Analyze_minimize fuel ;;
  modify (set_minimal_results (fun _ => ∅)) ;;
  modify (set_unique_table (fun _ => ∅)) ;;
  modify (set_and_table (fun _ => ∅)) ;;
  modify (set_or_table (fun _ => ∅)) ;;
  modify (set_subsume_table (fun _ => ∅)) ;;
  let* r := get root_ in
  let* c := GenerateCutSets fuel r in
  modify (set_cut_sets_ c) ;;
  modify (set_modules (fun _ => ∅)) ;;
  modify (set_root kBase_).

End Generation.

(** ** Construction from a Boolean graph *)

(** Modelled from the spec: the gates of the indexed Boolean graph
    (boolean_graph.h), as far as zbdd.cc reads them: [index()], [type()],
    [order()], [IsModule()], the number of parents, the constant state
    ([None] for a normal gate, [Some false] for [kNullState]), the variable
    arguments with their orders and the gate arguments. *)
#[warnings="-register-all"]
Inductive IGate := mkIGate {
  gate_index : Z;
  gate_type : Operator;
  gate_order : Z;
  IsModule : bool;
  parents_size : Z;
  gate_state : option bool;
  variable_args : list (Z * Z);
  gate_args : list (Z * IGate)
}.

(** The comparison that orders the arguments of a gate: terminals first,
    then set nodes of decreasing order. *)
Definition args_before (s : Zbdd) (lhs rhs : Z) : bool :=
  if terminal lhs then true
  else if terminal rhs then false
  else match nodes s !! lhs, nodes s !! rhs with
       | Some l, Some r => order l >? order r
       | _, _ => false
       end.

(** [std::sort] with that comparison, on the short argument list of a gate:
    the insertion sort that the library runs on a range of at most 16
    elements.  The sorted prefix is kept in reverse; an argument that comes
    before the first element moves to the front, and any other argument
    moves left over the elements that it comes before, so that equivalent
    arguments keep their order. *)
Fixpoint insert_back (s : Zbdd) (x : Z) (sorted : list Z) : list Z :=
  match sorted with
  | [] => [x]
  | y :: rest => if args_before s x y then y :: insert_back s x rest
                 else x :: y :: rest
  end.

Definition insert_arg (s : Zbdd) (sorted : list Z) (x : Z) : list Z :=
  match last sorted with
  | None => [x]
  | Some first => if args_before s x first then sorted ++ [x]
                  else insert_back s x sorted
  end.

Definition sort_args (s : Zbdd) (args : list Z) : list Z :=
  reverse (foldl (insert_arg s) [] args).

(** The loop that folds the sorted arguments with [Apply]. *)
Fixpoint apply_args (fuel : nat) (type : Operator) (result : Z)
    (args : list Z) : M Z :=
  match args with
  | [] => ret result
  | arg :: rest =>
      let* limit := get limit_order in
      let* r := Apply fuel type result arg limit in
      apply_args fuel type r rest
  end.

(** The loop over the variable arguments of a gate. *)
Fixpoint fetch_variables (vars : list (Z * Z)) : M (list Z) :=
  match vars with
  | [] => ret []
  | (i, o) :: rest =>
      let* v := FetchUniqueTable i kBase_ kEmpty_ o false in
      let* vs := fetch_variables rest in
      ret (v :: vs)
  end.

(** [modules_.emplace(index, vertex)]: no effect on an existing entry. *)
Definition emplace_module (index : Z) (v : Z) : M unit :=
  modify (set_modules (fun m => match m !! index with
                                | Some _ => m
                                | None => <[index := v]> m
                                end)).

(** [Zbdd::ConvertGraph].  The table [gates] of the processed gates with
    their use counts is threaded through. *)
Fixpoint ConvertGraph (fuel : nat) (gate : IGate)
    (gates : gmap Z (Z * Z)) : M (Z * gmap Z (Z * Z)) :=
  assert (negb (bool_decide (is_Some (gate_state gate)))) ;;
  match gates !! gate_index gate with
  | Some (result, count) =>
      assert (count <? parents_size gate) ;;
      let count := count + 1 in
      if count =? parents_size gate
      then ret (result, delete (gate_index gate) gates)
      else ret (result, <[gate_index gate := (result, count)]> gates)
  | None =>
      let* vars := fetch_variables (variable_args gate) in
      let* converted :=
        (fix convert_args (l : list (Z * IGate)) (gates : gmap Z (Z * Z))
           : M (list Z * gmap Z (Z * Z)) :=
           match l with
           | [] => ret ([], gates)
           | (i, g) :: rest =>
               assert (0 <? i) ;;
               let* rg := ConvertGraph fuel g gates in
               let* arg :=
                 if IsModule g then
                   if terminal (fst rg) then ret (fst rg)
                   else FetchUniqueTable i kBase_ kEmpty_ (gate_order g) true
                 else ret (fst rg) in
               let* tail := convert_args rest (snd rg) in
               ret (arg :: fst tail, snd tail)
           end) (gate_args gate) gates in
      let* args := get (fun s => sort_args s (vars ++ fst converted)) in
      match args with
      | [] => fail NullPointer
      | first :: rest =>
          let* result := apply_args fuel (gate_type gate) first rest in
          modify (set_and_table (fun _ => ∅)) ;;
          modify (set_or_table (fun _ => ∅)) ;;
          modify (set_subsume_table (fun _ => ∅)) ;;
          modify (set_minimal_results (fun _ => ∅)) ;;
          (if IsModule gate then emplace_module (gate_index gate) result
           else ret tt) ;;
          let gates := snd converted in
          let gates :=
            if parents_size gate >? 1 then
              match gates !! gate_index gate with
              | Some _ => gates
              | None => <[gate_index gate := (result, 1)]> gates
              end
            else gates in
          ret (result, gates)
      end
  end.

(** The epilogue of the constructors: marks are cleared, the structure is
    checked, and [LOG_ZBDD] (logging off) clears the marks again. *)
Definition check_root (fuel : nat) : M unit :=
  let* r := get root_ in
  ClearMarks fuel r ;;
  TestStructure fuel r ;;
  ClearMarks fuel r ;;
  ClearMarks fuel r ;;
  ClearMarks fuel r.

(** [Zbdd::Zbdd(const BooleanGraph*, const Settings&)], for a graph given by
    its root gate and its [coherent()] flag. *)
Definition Zbdd_of_graph (fuel : nat) (root : IGate) (coherent : bool)
    : M unit :=
  (match gate_state root with
   | Some state => modify (set_root (if state then kBase_ else kEmpty_))
   | None =>
       match gate_type root with
       | kNullGate =>
           assert (bool_decide (length (variable_args root) = 1%nat)) ;;
           assert (bool_decide (gate_args root = [])) ;;
           match variable_args root with
           | (child, o) :: _ =>
               if child <? 0 then modify (set_root kBase_)
               else
                 let* v := FetchUniqueTable child kBase_ kEmpty_ o false in
                 modify (set_root v)
           | [] => fail NullPointer
           end
       | _ =>
           let* rg := ConvertGraph fuel root ∅ in
           modify (set_root (fst rg)) ;;
           if negb coherent then
             ClearMarks fuel (fst rg) ;;
             TestStructure fuel (fst rg) ;;
             ClearMarks fuel (fst rg) ;;
             let* rw := EliminateComplements fuel (fst rg) ∅ in
             modify (set_root (fst rw))
           else ret tt
       end
   end) ;;
  check_root fuel.

(** The owners of a vertex in a store that holds no garbage: the local
    pointer of the running call, [root_], the module table (the entry and
    the copy that the caller of a module makes), and the branches of the
    nodes. *)
Definition store_use_count (s : Zbdd) (v : Z) : Z :=
  1 + (if root_ s =? v then 1 else 0)
  + 2 * Z.of_nat (length (filter (λ e, e.2 = v) (map_to_list (modules_ s))))
  + Z.of_nat (length (filter (λ e, (e.2)~>high = v) (map_to_list (nodes s))))
  + Z.of_nat (length (filter (λ e, (e.2)~>low = v) (map_to_list (nodes s)))).

(** * Specification predicates *)

(** A vertex pointer that [Minimize] returns unchanged: a terminal, or a
    node whose [minimal] flag is set. *)
Definition minimal_vertex (s : Zbdd) (v : Z) : Prop :=
  terminal v = true ∨ ∃ n, nodes s !! v = Some n ∧ minimal n = true.

(** The family of sets that a vertex denotes: [kBase_] is the family of the
    empty set, [kEmpty_] the empty family, and a node denotes the sets of
    its low branch together with the sets of its high branch extended with
    its index.  A set is listed from the root downwards. *)
Inductive in_family (s : Zbdd) : Z → list Z → Prop :=
  | in_family_base : in_family s kBase_ []
  | in_family_high v n X :
      terminal v = false → nodes s !! v = Some n →
      in_family s (n~>high) X → in_family s v (index n :: X)
  | in_family_low v n X :
      terminal v = false → nodes s !! v = Some n →
      in_family s (n~>low) X → in_family s v X.

(** The same family, listed; [None] when the budget does not reach the
    terminals. *)
Fixpoint family (fuel : nat) (s : Zbdd) (v : Z) : option (list (list Z)) :=
  match fuel with
  | O => None
  | S fuel =>
    if terminal v then Some (if value v then [[]] else [])
    else match nodes s !! v with
         | None => Some []
         | Some n =>
             match family fuel s (n~>low), family fuel s (n~>high) with
             | Some l, Some h => Some (l ++ map (cons (index n)) h)
             | _, _ => None
             end
         end
  end.


(** The compute table of an operator. *)
Definition compute_table (type : Operator) (s : Zbdd) : gmap (Z * Z * Z) Z :=
  match type with
  | kOrGate => or_table_ s
  | kAndGate => and_table_ s
  | kNullGate => ∅
  end.

(** Every cut set that a node holds in its cache respects the limit order. *)
Definition caches_bounded (s : Zbdd) : Prop :=
  map_Forall (λ _ n, Forall (λ c, size c ≤ limit_order s) (cut_sets n))
             (nodes s).


(** ** Well-formed stores *)

(** A vertex of the diagram: a terminal or a node of the store. *)
Definition vertex (s : Zbdd) (v : Z) : Prop :=
  terminal v = true ∨ is_Some (nodes s !! v).

(** Two versions of a node that differ in the [minimal] flag at most. *)
Definition same_node (n m : SetNode) : Prop :=
  index n = index m ∧ order n = order m ∧ n~>high = m~>high
  ∧ n~>low = m~>low ∧ module n = module m ∧ mark n = mark m
  ∧ cut_sets n = cut_sets m.

(** The state [s'] comes from [s] by allocating nodes and by changing
    [minimal] flags, tables, the root and the modules. *)
Record extends (s s' : Zbdd) : Prop := {
  ext_nodes : ∀ v n, nodes s !! v = Some n →
                     ∃ m, nodes s' !! v = Some m ∧ same_node n m;
  ext_new : ∀ v m, nodes s !! v = None → nodes s' !! v = Some m →
                   set_id_ s ≤ v ∧ mark m = false ∧ cut_sets m = [];
  ext_set_id : set_id_ s ≤ set_id_ s';
  ext_limit : limit_order s' = limit_order s
}.

(** The ordering contract: [n] comes strictly before [m]. *)
Definition before (n m : SetNode) : Prop :=
  order n < order m ∨ (order n = order m ∧ index m < index n).

Definition not_after (n m : SetNode) : Prop :=
  order n < order m ∨ (order n = order m ∧ index m ≤ index n).

(** The vertex [v] may be a branch of the node [n]. *)
Definition above (s : Zbdd) (n : SetNode) (v : Z) : Prop :=
  terminal v = true ∨ ∃ m, nodes s !! v = Some m ∧ before n m.

(** The root of [r] does not come before the root of [v]. *)
Definition root_le (s : Zbdd) (v r : Z) : Prop :=
  terminal r = true
  ∨ ∃ n m, nodes s !! v = Some n ∧ nodes s !! r = Some m ∧ not_after n m.

(** No path from [v] to a terminal has more than [k] nodes. *)
Inductive height_le (s : Zbdd) : Z → nat → Prop :=
  | height_terminal v k : terminal v = true → height_le s v k
  | height_node v n k :
      terminal v = false → nodes s !! v = Some n →
      height_le s (n~>high) k → height_le s (n~>low) k →
      height_le s v (S k).

(** No node under [v] has [kBase_] as its low branch: the empty set belongs
    to the family of no node under [v]. *)
Inductive unit_free (s : Zbdd) : Z → Prop :=
  | unit_free_terminal v : terminal v = true → unit_free s v
  | unit_free_node v n :
      terminal v = false → nodes s !! v = Some n →
      n~>low ≠ kBase_ →
      unit_free s (n~>high) → unit_free s (n~>low) → unit_free s v.

(** The structural invariant of the vertex store and of the unique table. *)
Record store_ok (s : Zbdd) : Prop := {
  ok_set_id : 2 ≤ set_id_ s;
  ok_ids : ∀ v n, nodes s !! v = Some n → 2 ≤ v < set_id_ s;
  ok_branches : ∀ v n, nodes s !! v = Some n →
                       vertex s (n~>high) ∧ vertex s (n~>low)
                       ∧ n~>high < v ∧ n~>low < v;
  ok_reduced : ∀ v n, nodes s !! v = Some n →
                      n~>high ≠ kEmpty_ ∧ n~>high ≠ n~>low;
  ok_ordered : ∀ v n, nodes s !! v = Some n →
                      above s n (n~>high) ∧ above s n (n~>low);
  ok_order : ∀ v n w m, nodes s !! v = Some n → nodes s !! w = Some m →
                        index n = index m → order n = order m;
  ok_unique : ∀ i h l v, unique_table_ s !! (i, h, l) = Some v →
                         ∃ n, nodes s !! v = Some n ∧ index n = i
                              ∧ n~>high = h ∧ n~>low = l;
  ok_positive : ∀ v n, nodes s !! v = Some n → 0 < order n
}.

(** ** Families *)

(** The sets of [high] that include no set of [low]. *)
Definition subsume_family (s : Zbdd) (high low : Z) (X : list Z) : Prop :=
  in_family s high X ∧ ¬ ∃ Y, in_family s low Y ∧ Y ⊆ X.

(** The minimal sets of the family of [v]. *)
Definition minimal_family (s : Zbdd) (v : Z) (X : list Z) : Prop :=
  in_family s v X ∧ ∀ Y, in_family s v Y → Y ⊆ X → X ⊆ Y.

(** No set of the family of [v] properly includes another one. *)
Definition antichain (s : Zbdd) (v : Z) : Prop :=
  ∀ X Y, in_family s v X → in_family s v Y → Y ⊆ X → X ⊆ Y.

(** What a result [r] of Subsume(high, low) satisfies. *)
Record subsume_post (s : Zbdd) (high low r : Z) : Prop := {
  sp_vertex : vertex s r;
  sp_root : root_le s high r;
  sp_height : ∀ k, height_le s high k → height_le s r k;
  sp_family : ∀ X, in_family s r X ↔ subsume_family s high low X
}.

(** What a result [r] of Minimize(v) satisfies. *)
Record minimize_post (s : Zbdd) (v r : Z) : Prop := {
  mp_vertex : vertex s r;
  mp_root : root_le s v r;
  mp_height : ∀ k, height_le s v k → height_le s r k;
  mp_minimal : minimal_vertex s r;
  mp_family : ∀ X, in_family s r X ↔ minimal_family s v X;
  mp_nonempty : v ≠ kEmpty_ → r ≠ kEmpty_
}.

(** The invariant of the engine as far as Subsume depends on it: the store
    is well formed and the subsume table holds results of Subsume. *)
Record sem_ok (s : Zbdd) : Prop := {
  sem_store : store_ok s;
  sem_subsume : ∀ h l r, subsume_table_ s !! (h, l) = Some r →
                         vertex s h ∧ vertex s l ∧ subsume_post s h l r
}.

(** The invariant of the [minimal] flags and of the table of minimal
    results. *)
Record flags_ok (s : Zbdd) : Prop := {
  fl_closed : ∀ v n, nodes s !! v = Some n → minimal n = true →
                     minimal_vertex s (n~>high) ∧ minimal_vertex s (n~>low);
  fl_antichain : ∀ v n, nodes s !! v = Some n → minimal n = true →
                        antichain s v;
  fl_subsume : ∀ k r, subsume_table_ s !! k = Some r → minimal_vertex s r;
  fl_minimal : ∀ v r, minimal_results_ s !! v = Some r →
                      vertex s v ∧ minimize_post s v r
}.

(** The [minimal] flags of [s] are still set in [s']. *)
Definition flags_le (s s' : Zbdd) : Prop :=
  ∀ v, minimal_vertex s v → minimal_vertex s' v.

(** What a run of Subsume(high, low) from [s] to [s'] with the result [r]
    guarantees; the last part holds when the flags are well formed and
    [high] is minimal, as it is in every call that Minimize makes. *)
Definition subsume_result_ok (s : Zbdd) (high low r : Z) (s' : Zbdd) : Prop :=
  sem_ok s' ∧ extends s s' ∧ subsume_post s' high low r
  ∧ minimal_results_ s' = minimal_results_ s
  ∧ (flags_ok s → minimal_vertex s high →
     flags_ok s' ∧ minimal_vertex s' r ∧ flags_le s s').

(** ** Executable checks *)

(** The checks of the invariants on a given state, as functions. *)
Definition beforeb (n m : SetNode) : bool :=
  (order n <? order m) || ((order n =? order m) && (index m <? index n)).

Definition vertexb (s : Zbdd) (v : Z) : bool :=
  terminal v || match nodes s !! v with Some _ => true | None => false end.

Definition aboveb (s : Zbdd) (n : SetNode) (v : Z) : bool :=
  terminal v
  || match nodes s !! v with Some m => beforeb n m | None => false end.

Definition node_okb (s : Zbdd) (v : Z) (n : SetNode) : bool :=
  (2 <=? v) && (v <? set_id_ s)
  && vertexb s (n~>high) && vertexb s (n~>low)
  && (n~>high <? v) && (n~>low <? v)
  && negb (n~>high =? kEmpty_) && negb (n~>high =? n~>low)
  && aboveb s n (n~>high) && aboveb s n (n~>low)
  && (0 <? order n).

Definition store_okb (s : Zbdd) : bool :=
  (2 <=? set_id_ s)
  && forallb (λ vn : Z * SetNode,
       node_okb s vn.1 vn.2
       && forallb (λ wm : Z * SetNode,
            implb (index vn.2 =? index wm.2) (order vn.2 =? order wm.2))
            (map_to_list (nodes s)))
       (map_to_list (nodes s))
  && forallb (λ kv : Z * Z * Z * Z,
       match nodes s !! kv.2 with
       | Some n => (index n =? kv.1.1.1) && (n~>high =? kv.1.1.2)
                   && (n~>low =? kv.1.2)
       | None => false
       end)
       (map_to_list (unique_table_ s)).


(** No node is flagged and no result of Subsume or Minimize is stored. *)
Definition unflaggedb (s : Zbdd) : bool :=
  forallb (λ vn : Z * SetNode, negb (minimal vn.2)) (map_to_list (nodes s))
  && match map_to_list (subsume_table_ s), map_to_list (minimal_results_ s)
     with
     | [], [] => true
     | _, _ => false
     end.

(** What a run of Minimize(v) from [s] to [s'] with the result [r]
    guarantees. *)
Definition minimize_result_ok (s : Zbdd) (v r : Z) (s' : Zbdd) : Prop :=
  sem_ok s' ∧ flags_ok s' ∧ extends s s' ∧ flags_le s s'
  ∧ minimize_post s' v r.

(** ** The structural check *)

(** No node of the store is marked: the state between two traversals. *)
Definition marks_clear (s : Zbdd) : Prop :=
  ∀ v n, nodes s !! v = Some n → mark n = false.

Definition marks_clearb (s : Zbdd) : bool :=
  forallb (λ vn : Z * SetNode, negb (mark vn.2)) (map_to_list (nodes s)).

(** A node without its mark. *)
Definition unmarked (n : SetNode) : SetNode := with_mark false n.

(** The state [s'] differs from [s] in marks only. *)
Record marks_only (s s' : Zbdd) : Prop := {
  mo_nodes : unmarked <$> nodes s' = unmarked <$> nodes s;
  mo_modules : modules_ s' = modules_ s;
  mo_root : root_ s' = root_ s;
  mo_limit : limit_order s' = limit_order s;
  mo_set_id : set_id_ s' = set_id_ s
}.

(** A traversal has been at [v]. *)
Definition visited (s : Zbdd) (v : Z) : Prop :=
  terminal v = true ∨ ∃ n, nodes s !! v = Some n ∧ mark n = true.

(** The edge from the node [n] to its branch [c] respects the ordering
    contract and the closure of the [minimal] flags. *)
Definition branch_ok (s : Zbdd) (n : SetNode) (c : Z) : Prop :=
  terminal c = true
  ∨ ∃ m, nodes s !! c = Some m ∧ before n m
         ∧ (minimal n = true → minimal m = true).

(** The structural invariants of one node. *)
Definition node_ok (s : Zbdd) (n : SetNode) : Prop :=
  n~>high ≠ kEmpty_ ∧ n~>high ≠ n~>low
  ∧ branch_ok s n (n~>high) ∧ branch_ok s n (n~>low).

(** The vertices that a traversal from [r] reaches: along the branches of
    the nodes and through the module table for the nodes that stand for
    modules. *)
Inductive reachable (s : Zbdd) (r : Z) : Z → Prop :=
  | reach_root : reachable s r r
  | reach_high v n :
      reachable s r v → terminal v = false → nodes s !! v = Some n →
      reachable s r (n~>high)
  | reach_low v n :
      reachable s r v → terminal v = false → nodes s !! v = Some n →
      reachable s r (n~>low)
  | reach_module v n m :
      reachable s r v → terminal v = false → nodes s !! v = Some n →
      module n = true → modules_ s !! index n = Some m →
      reachable s r m.

(** The nodes that got their mark between [s] and [s'] satisfy the
    invariants, and the traversal has been at their branches and at their
    module. *)
Definition fresh_marks_ok (s s' : Zbdd) : Prop :=
  ∀ v m, nodes s' !! v = Some m → mark m = true →
    (∃ n, nodes s !! v = Some n ∧ mark n = true)
    ∨ (terminal v = false ∧ node_ok s' m
       ∧ visited s' (m~>high) ∧ visited s' (m~>low)
       ∧ (module m = true →
          ∃ w, modules_ s' !! index m = Some w ∧ visited s' w)).

Definition marks_le (s s' : Zbdd) : Prop :=
  ∀ v, visited s v → visited s' v.

(** A traversal that clears the marks has left [v], or has not to come to
    it. *)
Definition cleared (s : Zbdd) (v : Z) : Prop :=
  terminal v = true ∨ ∃ n, nodes s !! v = Some n ∧ mark n = false.

(** No mark is set from [s] to [s']. *)
Definition marks_ge (s s' : Zbdd) : Prop :=
  ∀ w m', nodes s' !! w = Some m' → mark m' = true →
          ∃ m, nodes s !! w = Some m ∧ mark m = true.

(** The branches and the module of a node whose mark is cleared from [s] to
    [s'] are cleared. *)
Definition fresh_clears_ok (s s' : Zbdd) : Prop :=
  ∀ w m m', nodes s !! w = Some m → mark m = true →
    nodes s' !! w = Some m' → mark m' = false →
    cleared s' (m'~>high) ∧ cleared s' (m'~>low)
    ∧ (module m' = true →
       ∃ x, modules_ s' !! index m' = Some x ∧ cleared s' x).

(** ** Cut sets *)

(** The cut sets of a vertex: the sets of its family, listed from the
    terminal upwards, with every module replaced by a cut set of the
    module. *)
Inductive expanded (s : Zbdd) : Z → list Z → Prop :=
  | expanded_base : expanded s kBase_ []
  | expanded_low v n c :
      terminal v = false → nodes s !! v = Some n →
      expanded s (n~>low) c → expanded s v c
  | expanded_high v n c :
      terminal v = false → nodes s !! v = Some n → module n = false →
      expanded s (n~>high) c → expanded s v (c ++ [index n])
  | expanded_module v n m c cm :
      terminal v = false → nodes s !! v = Some n → module n = true →
      modules_ s !! index n = Some m →
      expanded s (n~>high) c → expanded s m cm →
      expanded s v (c ++ cm).



(** No node holds cut sets. *)
Definition caches_empty (s : Zbdd) : Prop :=
  ∀ v n, nodes s !! v = Some n → cut_sets n = [].

Definition caches_emptyb (s : Zbdd) : bool :=
  forallb (λ vn : Z * SetNode,
             match cut_sets vn.2 with [] => true | _ => false end)
          (map_to_list (nodes s)).

(** The module flag of a node agrees with the module table: the index of a
    node that does not stand for a module is not the index of a module. *)
Definition module_flags_ok (s : Zbdd) : Prop :=
  ∀ v n, nodes s !! v = Some n → module n = false →
         modules_ s !! index n = None.

Definition module_flags_okb (s : Zbdd) : bool :=
  forallb (λ vn : Z * SetNode,
             module vn.2
             || match modules_ s !! index vn.2 with
                | None => true
                | Some _ => false
                end)
          (map_to_list (nodes s)).

(** Every node that stands for a module has an entry in the module
    table. *)
Definition module_entries_ok (s : Zbdd) : Prop :=
  ∀ v n, nodes s !! v = Some n → module n = true →
         is_Some (modules_ s !! index n).

Definition module_entries_okb (s : Zbdd) : bool :=
  forallb (λ vn : Z * SetNode,
             negb (module vn.2)
             || match modules_ s !! index vn.2 with
                | None => false
                | Some _ => true
                end)
          (map_to_list (nodes s)).

(** The identifiers of the nodes are below the next identifier. *)
Definition ids_ok (s : Zbdd) : Prop :=
  ∀ v n, nodes s !! v = Some n → v < set_id_ s.

(** What Subsume and Minimize leave as it is: the modules, the root, and the
    index and the module flag of every node. *)
Record frame (s s' : Zbdd) : Prop := {
  fr_modules : modules_ s' = modules_ s;
  fr_root : root_ s' = root_ s;
  fr_nodes : ∀ v n, nodes s !! v = Some n →
                    ∃ m, nodes s' !! v = Some m ∧ index m = index n
                         ∧ module m = module n;
  fr_flags : module_flags_ok s → module_flags_ok s';
  fr_entries : module_entries_ok s → module_entries_ok s';
  fr_ids : ids_ok s'
}.

(** The cut sets that stand for the variable or the module [x]: [x] itself,
    or the cut sets of the family of the module, with modules nested at most
    [k] deep. *)
Fixpoint expansion (s : Zbdd) (k : nat) (x : Z) (e : list Z) : Prop :=
  match modules_ s !! x with
  | None => e = [x]
  | Some m =>
      match k with
      | O => False
      | S k =>
          ∃ X es, in_family s m X ∧ Forall2 (expansion s k) X es
                  ∧ e = concat (reverse es)
      end
  end.

(** The cut sets of a vertex: a set of its family with an expansion of each
    of its elements. *)
Definition cut_of (s : Zbdd) (k : nat) (v : Z) (c : list Z) : Prop :=
  ∃ X es, in_family s v X ∧ Forall2 (expansion s k) X es
          ∧ c = concat (reverse es).




(** ** The generation of cut sets, exactly *)

(** The cut sets of a vertex that respect the limit order. *)
Definition cut_set (s0 : Zbdd) (v : Z) (c : list Z) : Prop :=
  expanded s0 v c ∧ size c ≤ limit_order s0.

(** A list of cut sets holds exactly the cut sets of [v]. *)
Definition exact (s0 : Zbdd) (v : Z) (l : list (list Z)) : Prop :=
  ∀ c, c ∈ l ↔ cut_set s0 v c.

(** The nodes of a generation that started in [s0]: a node is as it was, or
    the generation is at work under it, or the generation has left it,
    without its branches and with the list [l] as its cut sets. *)
Definition fresh (s0 s : Zbdd) (w : Z) : Prop :=
  nodes s !! w = nodes s0 !! w.

Definition opened (s0 s : Zbdd) (w : Z) : Prop :=
  ∃ n0, nodes s0 !! w = Some n0
        ∧ nodes s !! w = Some (with_mark true n0).

Definition closed (s0 s : Zbdd) (w : Z) (l : list (list Z)) : Prop :=
  ∃ n0, nodes s0 !! w = Some n0
        ∧ nodes s !! w
          = Some (with_cut_sets l (CutBranches (with_mark true n0))).

Record gen_state (s0 s : Zbdd) : Prop := {
  gs_modules : modules_ s = modules_ s0;
  gs_root : root_ s = root_ s0;
  gs_limit : limit_order s = limit_order s0;
  gs_nodes : ∀ w, fresh s0 s w ∨ opened s0 s w ∨ ∃ l, closed s0 s w l
}.

(** The node [p] holds a pointer to [w]. *)
Definition pointer (s : Zbdd) (p w : Z) : Prop :=
  ∃ n, nodes s !! p = Some n ∧ (n~>high = w ∨ n~>low = w).

(** The vertices that are not garbage: the pointers lead to them from the
    root or from the module table. *)
Inductive live (s : Zbdd) : Z → Prop :=
  | live_root : live s (root_ s)
  | live_module x m : modules_ s !! x = Some m → live s m
  | live_pointer p w : live s p → pointer s p w → live s w.

(** The node [p] is an owner of [w]: it is not garbage and holds a pointer
    to [w]. *)
Definition owner (s : Zbdd) (p w : Z) : Prop := live s p ∧ pointer s p w.

(** Nothing owns [w]. *)
Definition orphan (s : Zbdd) (w : Z) : Prop :=
  root_ s ≠ w ∧ (∀ x, modules_ s !! x ≠ Some w) ∧ ∀ p, ¬ owner s p w.

(** At most one of the root and the nodes owns [v], and the module table
    does not. *)
Definition lonely (s : Zbdd) (v : Z) : Prop :=
  (∀ x, modules_ s !! x ≠ Some v)
  ∧ (∀ p q, owner s p v → owner s q v → p = q)
  ∧ (root_ s = v → ∀ p, ¬ owner s p v).

(** A vertex that the generation may still be called on: it has not been
    there, or it is at work above the caller, or the vertex holds its cut
    sets. *)
Definition ok_target (s0 s : Zbdd) (w : Z) : Prop :=
  terminal w = true ∨ fresh s0 s w ∨ opened s0 s w
  ∨ ∃ l, closed s0 s w l ∧ exact s0 w l.

(** No owner but the node [v] holds a pointer to [w]. *)
Definition orphan_but (s : Zbdd) (v w : Z) : Prop :=
  root_ s ≠ w ∧ (∀ x, modules_ s !! x ≠ Some w)
  ∧ ∀ p, owner s p w → p = v.

(** The branches and the module of every node that the generation has not
    been at, and may come to, are such targets. *)
Definition targets_ok (s0 s : Zbdd) : Prop :=
  ∀ p n, live s p → nodes s !! p = Some n → mark n = false →
    ok_target s0 s (n~>high) ∧ ok_target s0 s (n~>low)
    ∧ (module n = true →
       ∀ m, modules_ s !! index n = Some m → ok_target s0 s m).

(** An edge of the diagram: to a branch, or from a node that stands for a
    module to the vertex of the module. *)
Definition edge (s : Zbdd) (v w : Z) : Prop :=
  ∃ n, nodes s !! v = Some n
       ∧ (n~>high = w ∨ n~>low = w
          ∨ (module n = true ∧ modules_ s !! index n = Some w)).

(** The pointers through which GenerateCutSets may be called: the root,
    the entries of the module table, and the pointers of the nodes that the
    generation is at work on. *)
Inductive held (s0 s : Zbdd) : Z → Prop :=
  | held_root : held s0 s (root_ s)
  | held_module x m : modules_ s !! x = Some m → held s0 s m
  | held_pointer p w :
      held s0 s p → opened s0 s p → pointer s p w → held s0 s w.

(** How the nodes change during a call, from [s] to [s']. *)
Definition evolves (s0 s s' : Zbdd) : Prop :=
  ∀ w, (opened s0 s w ↔ opened s0 s' w)
       ∧ (∀ l, closed s0 s w l → closed s0 s' w l)
       ∧ (fresh s0 s' w → fresh s0 s w).

(** The nodes that a call on [v] has left hold their cut sets, unless no
    pointer to them is left; [v] itself may be left without its cut sets
    when the caller is its only owner. *)
Definition left_ok (s0 s s' : Zbdd) (v : Z) : Prop :=
  ∀ w l, fresh s0 s w → closed s0 s' w l →
    exact s0 w l ∨ (w = v ∧ lonely s' v) ∨ (w ≠ v ∧ orphan s' w).

(** The modules are nested: the sets of the family of a module hold modules
    of a smaller rank only. *)
Definition nesting_ok (s : Zbdd) (rank : Z → nat) : Prop :=
  ∀ x m X y, modules_ s !! x = Some m → in_family s m X → y ∈ X →
             is_Some (modules_ s !! y) → (rank y < rank x)%nat.

(** The nodes under [v] that stand for modules have a rank below [k]. *)
Definition bounded (s : Zbdd) (rank : Z → nat) (v : Z) (k : nat) : Prop :=
  ∀ w n, rtc (pointer s) v w → nodes s !! w = Some n → module n = true →
         (rank (index n) < k)%nat.

(** What the minimization phase of Analyze, from [s] to [s1], guarantees;
    [sm] is the state that the minimizations leave, which the traversals
    change in marks only. *)
Record minimized (s sm s1 : Zbdd) : Prop := {
  mz_sem : sem_ok sm;
  mz_flags : flags_ok sm;
  mz_module_flags : module_flags_ok sm;
  mz_extends : extends s sm;
  mz_marks : marks_only (set_root (root_ s1) sm) s1;
  mz_root : minimize_post sm (root_ s) (root_ s1);
  mz_modules : ∀ x v, modules_ sm !! x = Some v →
                      ∃ m, modules_ s !! x = Some m ∧ minimize_post sm m v;
  mz_none : ∀ x, modules_ sm !! x = None → modules_ s !! x = None;
  mz_entries : module_entries_ok s → module_entries_ok sm;
  mz_clear : marks_clear s → marks_clear s1
}.

(** The minimal cut sets that stand for the variable or the module [x]: [x]
    itself, or the minimal cut sets of the module, with modules nested at
    most [k] deep. *)
Fixpoint min_expansion (s : Zbdd) (k : nat) (x : Z) (e : list Z) : Prop :=
  match modules_ s !! x with
  | None => e = [x]
  | Some m =>
      match k with
      | O => False
      | S k =>
          ∃ X es, minimal_family s m X ∧ Forall2 (min_expansion s k) X es
                  ∧ e = concat (reverse es)
      end
  end.

(** The minimal cut sets of a vertex: a minimal set of its family with each
    module replaced by a minimal cut set of the module.  The list starts
    with the last element of the set. *)
Definition min_cut_of (s : Zbdd) (k : nat) (v : Z) (c : list Z) : Prop :=
  ∃ X es, minimal_family s v X ∧ Forall2 (min_expansion s k) X es
          ∧ c = concat (reverse es).

(** Executable forms of the conditions on the modules. *)
Definition modules_okb (s : Zbdd) : bool :=
  forallb (λ e : Z * Z, vertexb s e.2) (map_to_list (modules_ s)).

Definition nesting_okb (fuel : nat) (s : Zbdd) (rank : Z → nat) : bool :=
  forallb (λ e : Z * Z,
             match family fuel s e.2 with
             | Some L =>
                 forallb (forallb (λ y,
                            match modules_ s !! y with
                            | Some _ => (rank y <? rank e.1)%nat
                            | None => true
                            end)) L
             | None => false
             end)
          (map_to_list (modules_ s)).

(** ** The Boolean function of a graph *)

(** Modelled from the spec: the value of a literal and of a gate under the
    assignment [a] of the variables; a negative index stands for the
    complement. *)
Definition eval_literal (a : Z → bool) (i : Z) : bool :=
  if 0 <? i then a i else negb (a (- i)).

Fixpoint eval_gate (a : Z → bool) (g : IGate) : bool :=
  let args :=
    map (λ vo : Z * Z, eval_literal a vo.1) (variable_args g)
    ++ (fix eval_args (l : list (Z * IGate)) : list bool :=
          match l with
          | [] => []
          | (i, h) :: rest =>
              (if 0 <? i then eval_gate a h else negb (eval_gate a h))
              :: eval_args rest
          end) (gate_args g) in
  match gate_type g with
  | kAndGate => forallb id args
  | kOrGate | kNullGate => existsb id args
  end.

(** Modelled from the spec: the variables of [c] imply the function of the
    gate, whatever the other variables are. *)
Definition implicant (g : IGate) (c : list Z) : Prop :=
  ∀ a, (∀ x, x ∈ c → a x = true) → eval_gate a g = true.

(** ** The literals of the nodes *)

(** Every node of [s'] carries the index, the order and the module flag of
    a node of [s]. *)
Definition derived (s s' : Zbdd) : Prop :=
  ∀ v m, nodes s' !! v = Some m →
    ∃ w n, nodes s !! w = Some n ∧ index m = index n
           ∧ order m = order n ∧ module m = module n.

(** Nodes of the same index carry the same module flag. *)
Definition literal_flags_ok (s : Zbdd) : Prop :=
  ∀ v w n m, nodes s !! v = Some n → nodes s !! w = Some m →
    index n = index m → module n = module m.


(** ** What Apply guarantees *)

(** The indices that the sets of a vertex are made of. *)
Definition support (s : Zbdd) (v : Z) (i : Z) : Prop :=
  ∃ X, in_family s v X ∧ i ∈ X.

(** What a result [r] of Apply(type, a, b, limit) satisfies: it is a
    vertex, it may stand below every node that [a] and [b] may stand below,
    and its sets are made of indices of the sets of [a] and [b]. *)
Record apply_post (s : Zbdd) (a b r : Z) : Prop := {
  ap_vertex : vertex s r;
  ap_above : ∀ n, above s n a → above s n b → above s n r;
  ap_support : ∀ i, support s r i → support s a i ∨ support s b i
}.

(** The compute tables of Apply hold results of Apply. *)
Definition apply_tables_ok (s : Zbdd) : Prop :=
  ∀ type x y l r, compute_table type s !! (x, y, l) = Some r →
    vertex s x ∧ vertex s y ∧ apply_post s x y r.

(** The part of the state that Subsume and Minimize do not touch. *)
Record keeps (s s' : Zbdd) : Prop := {
  kp_and : and_table_ s' = and_table_ s;
  kp_or : or_table_ s' = or_table_ s;
  kp_modules : modules_ s' = modules_ s;
  kp_root : root_ s' = root_ s
}.

(** The invariants of the engine hold in [s'], which comes from [s] by
    allocations, flags and table entries. *)
Record progress (s s' : Zbdd) : Prop := {
  pg_sem : sem_ok s';
  pg_flags : flags_ok s';
  pg_tables : apply_tables_ok s';
  pg_extends : extends s s';
  pg_flags_le : flags_le s s';
  pg_modules : modules_ s' = modules_ s;
  pg_root : root_ s' = root_ s
}.

(** What a run of Apply(type, a, b, limit) from [s] to [s'] with the result
    [r] guarantees. *)
Definition apply_result_ok (s : Zbdd) (a b r : Z) (s' : Zbdd) : Prop :=
  progress s s' ∧ apply_post s' a b r.

(** A vertex [v] that the expansion of Apply(x, y) for the node [one] may
    take as a branch of its result. *)
Definition under (s : Zbdd) (one : SetNode) (x y v : Z) : Prop :=
  apply_post s x y v ∧ above s one v.

(** ** Complement elimination *)

(** The vertices under [r]: along the branches of the nodes. *)
Inductive below (s : Zbdd) (r : Z) : Z → Prop :=
  | below_root : below s r r
  | below_high v n :
      below s r v → terminal v = false → nodes s !! v = Some n →
      below s r (n~>high)
  | below_low v n :
      below s r v → terminal v = false → nodes s !! v = Some n →
      below s r (n~>low).

(** No node that a traversal from [v] reaches, along the branches and
    through the module table, carries a negative index. *)
Definition without_complements (s : Zbdd) (v : Z) : Prop :=
  ∀ w n, reachable s v w → nodes s !! w = Some n → 0 ≤ index n.

(** The vertices without complements of [s] are still without complements
    in [s']. *)
Definition persists (s s' : Zbdd) : Prop :=
  ∀ u, vertex s u → without_complements s u → without_complements s' u.

(** What a result [r] of EliminateComplements(v) satisfies. *)
Record eliminate_post (s : Zbdd) (v r : Z) : Prop := {
  ep_vertex : vertex s r;
  ep_above : ∀ n, above s n v → above s n r;
  ep_clean : without_complements s r
}.

(** The table [wide_results] holds results of the elimination. *)
Definition wide_results_ok (s : Zbdd) (wide : gmap Z Z) : Prop :=
  ∀ v r, wide !! v = Some r → vertex s v ∧ eliminate_post s v r.

(** The entries of the module table are vertices. *)
Definition modules_closed (s : Zbdd) : Prop :=
  ∀ x m, modules_ s !! x = Some m → vertex s m.

(** The invariants of the engine between two operations. *)
Record engine_ok (s : Zbdd) : Prop := {
  eg_sem : sem_ok s;
  eg_flags : flags_ok s;
  eg_tables : apply_tables_ok s;
  eg_literals : literal_flags_ok s;
  eg_modules : modules_closed s
}.

(** What a run of EliminateComplements(v) from [s] to [s'] with the result
    [r] and the table [wide] guarantees. *)
Record eliminate_result_ok (s : Zbdd) (v r : Z) (wide : gmap Z Z)
    (s' : Zbdd) : Prop := {
  er_engine : engine_ok s';
  er_extends : extends s s';
  er_flags_le : flags_le s s';
  er_root : root_ s' = root_ s;
  er_post : eliminate_post s' v r;
  er_wide : wide_results_ok s' wide;
  er_persists : persists s s'
}.

(** ** Construction from a Boolean graph *)

(** The loop of [ConvertGraph] over the gate arguments, as a function of its
    own. *)
Fixpoint convert_args (fuel : nat) (l : list (Z * IGate))
    (gates : gmap Z (Z * Z)) : M (list Z * gmap Z (Z * Z)) :=
  match l with
  | [] => ret ([], gates)
  | (i, g) :: rest =>
      assert (0 <? i) ;;
      let* rg := ConvertGraph fuel g gates in
      let* arg :=
        if IsModule g then
          if terminal (fst rg) then ret (fst rg)
          else FetchUniqueTable i kBase_ kEmpty_ (gate_order g) true
        else ret (fst rg) in
      let* tail := convert_args fuel rest (snd rg) in
      ret (arg :: fst tail, snd tail)
  end.

(** The preconditions of the construction on the graph: the variable or the
    module with the index [i] has the positive order [ord i] wherever it
    occurs, and [md i] tells the modules from the variables. *)
Fixpoint graph_okb (ord : Z → Z) (md : Z → bool) (g : IGate) : bool :=
  forallb (λ vo : Z * Z,
             (vo.2 =? ord vo.1) && (0 <? vo.2) && negb (md vo.1))
          (variable_args g)
  && (fix args_okb (l : list (Z * IGate)) : bool :=
        match l with
        | [] => true
        | (i, h) :: rest =>
            implb (IsModule h)
                  ((gate_order h =? ord i) && (0 <? gate_order h) && md i)
            && graph_okb ord md h && args_okb rest
        end) (gate_args g).

(** The invariants of the construction. *)
Record build_ok (ord : Z → Z) (md : Z → bool) (s : Zbdd) : Prop := {
  bd_sem : sem_ok s;
  bd_flags : flags_ok s;
  bd_tables : apply_tables_ok s;
  bd_orders : ∀ v n, nodes s !! v = Some n → order n = ord (index n);
  bd_literals : ∀ v n, nodes s !! v = Some n → module n = md (index n);
  bd_modules : modules_closed s;
  bd_marks : marks_clear s
}.

(** The table of the converted gates holds vertices. *)
Definition gates_ok (s : Zbdd) (gates : gmap Z (Z * Z)) : Prop :=
  ∀ i r c, gates !! i = Some (r, c) → vertex s r.

(** Every node of the store satisfies the structural invariants. *)
Definition structure_ok (s : Zbdd) : Prop :=
  ∀ v n, nodes s !! v = Some n → node_ok s n.

(** * Example inputs *)

(** A gate over variables whose order is their index. *)
Definition gate_of (i : Z) (type : Operator) (vars : list Z)
    (gates : list (Z * IGate)) : IGate :=
  mkIGate i type i false 1 None (map (λ v, (v, v)) vars) gates.



(** The non-coherent graph [(1 & 3 & 4) | (~2 & 3)]. *)
Definition noncoherent_gate : IGate :=
  mkIGate 100 kOrGate 100 false 1 None []
    [(101, gate_of 101 kAndGate [1; 3; 4] []);
     (102, mkIGate 102 kAndGate 102 false 1 None [(-2, 2); (3, 3)] [])].


(** The diagram of [(1 & 2) | (1 & 3) | (2 & 3)] under the limit order 2,
    minimized. *)
Definition two_of_three : M unit :=
  Zbdd_of_graph 30
    (gate_of 100 kOrGate []
       [(101, gate_of 101 kAndGate [1; 2] []);
        (102, gate_of 102 kAndGate [1; 3] []);
        (103, gate_of 103 kAndGate [2; 3] [])]) true ;;
  Analyze_minimize 30.

Definition two_of_three_state : Zbdd :=
  Eval vm_compute in
    match two_of_three (Zbdd_init 2) with
    | Ok _ s => s
    | Err _ => Zbdd_init 2
    end.


(** A diagram built node by node: the vertex 4 holds [{2}, {3}], the vertex
    3 holds [{2}], and the vertex 5 holds [{1, 2}, {1, 3}, {2}], which is
    not minimal. *)
Definition node_by_node : M Z :=
  let* v2 := FetchUniqueTable 3 kBase_ kEmpty_ 3 false in
  let* v3 := FetchUniqueTable 2 kBase_ kEmpty_ 2 false in
  let* v4 := FetchUniqueTable 2 kBase_ v2 2 false in
  FetchUniqueTable 1 v4 v3 1 false.

Definition node_by_node_state : Zbdd :=
  Eval vm_compute in
    match node_by_node (Zbdd_init 3) with
    | Ok _ s => s
    | Err _ => Zbdd_init 3
    end.



(** The graph [3 | M] with the module [M = 1 & 2], after the construction of
    its diagram. *)
Definition module_gate : IGate :=
  gate_of 100 kOrGate [3]
    [(101, mkIGate 101 kAndGate 101 true 1 None [(1, 1); (2, 2)] [])].

Definition module_gate_built : Zbdd :=
  Eval vm_compute in
    match Zbdd_of_graph 30 module_gate true (Zbdd_init 3) with
    | Ok _ s => s
    | Err _ => Zbdd_init 3
    end.

(** A diagram with the module [101], whose vertex 3 holds [{1}, {2}]: the
    root 6 holds [{5, 101}, {5, 3}, {3}], which is not minimal. *)
Definition with_module : M unit :=
  let* v2 := FetchUniqueTable 2 kBase_ kEmpty_ 4 false in
  let* v3 := FetchUniqueTable 1 kBase_ v2 3 false in
  let* v4 := FetchUniqueTable 3 kBase_ kEmpty_ 5 false in
  let* v5 := FetchUniqueTable 101 kBase_ v4 2 true in
  let* v6 := FetchUniqueTable 5 v5 v4 1 false in
  modify (set_modules (insert 101 v3)) ;;
  modify (set_root v6).

Definition with_module_state : Zbdd :=
  Eval vm_compute in
    match with_module (Zbdd_init 3) with
    | Ok _ s => s
    | Err _ => Zbdd_init 3
    end.

Definition with_module_analyzed : Zbdd :=
  Eval vm_compute in
    match Analyze store_use_count 30 with_module_state with
    | Ok _ s => s
    | Err _ => Zbdd_init 3
    end.



(** The rank of the module [101] and of the variables. *)
Definition module_rank (x : Z) : nat := if x =? 101 then 1 else 0.

(** The non-coherent graph [(1 & 3 & 4) | (~2 & 3)] from its construction
    to the end of the analysis, with the limit order 5. *)
Definition noncoherent_analysis : M unit :=
  Zbdd_of_graph 40 noncoherent_gate false ;;
  Analyze store_use_count 40.

(** * Properties *)

(** ** Reasoning about the monad *)

Lemma bind_Ok {A B} (m : M A) (k : A → M B) s b s' :
  bind m k s = Ok b s' ↔ ∃ a s1, m s = Ok a s1 ∧ k a s1 = Ok b s'.
Proof.
  unfold bind. destruct (m s) as [a s1|e]; split.
  - intros H. eauto.
  - intros (a' & s1' & [= -> ->] & H). done.
  - done.
  - intros (a' & s1' & [=] & _).
Qed.

Lemma ret_Ok {A} (a b : A) s s' : ret a s = Ok b s' ↔ a = b ∧ s = s'.
Proof. unfold ret. split; [by intros [= -> ->] | by intros [-> ->]]. Qed.

Lemma get_Ok {A} (f : Zbdd → A) a s s' :
  get f s = Ok a s' ↔ f s = a ∧ s = s'.
Proof. unfold get. split; [by intros [= -> ->] | by intros [-> ->]]. Qed.

Lemma modify_Ok f u s s' : modify f s = Ok u s' ↔ s' = f s.
Proof.
  unfold modify. destruct u. split; [by intros [= <-] | by intros ->].
Qed.

Lemma assert_Ok c u s s' : assert c s = Ok u s' ↔ c = true ∧ s' = s.
Proof.
  unfold assert. destruct c, u; cbn; split;
    try (intros [= ->]; done); try (intros [? ->]; done).
Qed.

Lemma fail_Ok {A} e (a : A) s s' : fail e s = Ok a s' ↔ False.
Proof. done. Qed.

Lemma SetNode_Ptr_Ok v n s s' :
  SetNode_Ptr v s = Ok n s' ↔ nodes s !! v = Some n ∧ s' = s.
Proof.
  unfold SetNode_Ptr. destruct (nodes s !! v); split;
    try (intros [= -> ->]; done); try (intros [[= ->] ->]; done); done.
Qed.

Lemma find_module_Ok i v s s' :
  find_module i s = Ok v s' ↔ modules_ s !! i = Some v ∧ s' = s.
Proof.
  unfold find_module. destruct (modules_ s !! i); split;
    try (intros [= -> ->]; done); try (intros [[= ->] ->]; done); done.
Qed.

(** One step of the inversion of a successful run. *)
Ltac inv_run H :=
  lazymatch type of H with
  | bind _ _ _ = Ok _ _ =>
      let a := fresh "a" in
      let s1 := fresh "s" in
      let H1 := fresh "Hrun" in
      apply bind_Ok in H as (a & s1 & H1 & H); inv_run H1
  | ret _ _ = Ok _ _ => apply ret_Ok in H as [? ?]; subst
  | get _ _ = Ok _ _ => apply get_Ok in H as [? ?]; subst
  | modify _ _ = Ok _ _ => apply modify_Ok in H; subst
  | assert _ _ = Ok _ _ => apply assert_Ok in H as [? ?]; subst
  | fail _ _ = Ok _ _ => discriminate H
  | SetNode_Ptr _ _ = Ok _ _ => apply SetNode_Ptr_Ok in H as [? ?]; subst
  | find_module _ _ = Ok _ _ => apply find_module_Ok in H as [? ?]; subst
  | _ => idtac
  end.

Ltac inv_runs H := repeat (progress inv_run H).

(** The inversion of one bind, with names for the intermediate value, the
    intermediate state and the run of the first computation. *)
Tactic Notation "inv_bind" hyp(H) "as" ident(a) ident(s1) ident(H1) :=
  apply bind_Ok in H as (a & s1 & H1 & H).

(** The inversion of the pure steps; the name of the state before the step
    is kept. *)
Tactic Notation "inv_get" hyp(H) "as" ident(a) :=
  let s1 := fresh "s" in
  let Hx := fresh "Hget" in
  apply bind_Ok in H as (a & s1 & Hx & H);
  apply get_Ok in Hx as [<- <-].

Tactic Notation "inv_ptr" hyp(H) "as" ident(n) ident(Hn) :=
  let s1 := fresh "s" in
  apply bind_Ok in H as (n & s1 & Hn & H);
  apply SetNode_Ptr_Ok in Hn as [Hn ->].

Tactic Notation "inv_assert" hyp(H) "as" ident(Hc) :=
  let s1 := fresh "s" in
  let u := fresh "u" in
  apply bind_Ok in H as (u & s1 & Hc & H);
  apply assert_Ok in Hc as [Hc ->].

Ltac inv_modify H :=
  let s1 := fresh "s" in
  let u := fresh "u" in
  let Hx := fresh "Hmodify" in
  apply bind_Ok in H as (u & s1 & Hx & H);
  apply modify_Ok in Hx as ->.

Ltac inv_ret H := apply ret_Ok in H as [<- <-].

(** Runs through a bind, forwards. *)
Lemma bind_SetNode_Ptr {B} v (k : SetNode → M B) s :
  bind (SetNode_Ptr v) k s
  = match nodes s !! v with
    | Some n => k n s
    | None => Err NullPointer
    end.
Proof. unfold bind, SetNode_Ptr. by destruct (nodes s !! v). Qed.

Lemma bind_ext {A B} (m m' : M A) (k k' : A → M B) s :
  m s = m' s →
  (∀ a s1, m s = Ok a s1 → k a s1 = k' a s1) →
  bind m k s = bind m' k' s.
Proof.
  intros Hm Hk. unfold bind. rewrite <- Hm.
  destruct (m s) as [a s1|e]; [by apply Hk | done].
Qed.

Lemma bind_get {A B} (f : Zbdd → A) (k : A → M B) s :
  bind (get f) k s = k (f s) s.
Proof. done. Qed.

Lemma bind_ret {A B} (a : A) (k : A → M B) s : bind (ret a) k s = k a s.
Proof. done. Qed.

Lemma bind_run {A B} (m : M A) (k : A → M B) s a s1 :
  m s = Ok a s1 → bind m k s = k a s1.
Proof. unfold bind. by intros ->. Qed.

Lemma bind_err {A B} (m : M A) (k : A → M B) s e :
  m s = Err e → bind m k s = Err e.
Proof. unfold bind. by intros ->. Qed.

Lemma bind_modify {B} f (k : unit → M B) s :
  bind (modify f) k s = k tt (f s).
Proof. done. Qed.

Lemma bind_assert_true {B} (k : unit → M B) s :
  bind (assert true) k s = k tt s.
Proof. done. Qed.

(** ** Terminals *)

Lemma terminal_iff v : terminal v = true ↔ v = kEmpty_ ∨ v = kBase_.
Proof. unfold terminal, kEmpty_, kBase_. lia. Qed.

Lemma terminal_false_iff v : terminal v = false ↔ v ≠ kEmpty_ ∧ v ≠ kBase_.
Proof. unfold terminal, kEmpty_, kBase_. lia. Qed.

Lemma terminal_kEmpty : terminal kEmpty_ = true.
Proof. done. Qed.

Lemma terminal_kBase : terminal kBase_ = true.
Proof. done. Qed.

Lemma empty_terminal_iff v :
  terminal v && negb (value v) = true ↔ v = kEmpty_.
Proof. unfold terminal, value, kEmpty_, kBase_. lia. Qed.

(** ** The unique table (claim C4) *)

(** Against claim C4 as stated: [FetchUniqueTable] applies neither the
    zero-suppression rule nor the redundancy rule.  Fetched with [kEmpty_]
    as the high branch, it does not return the low branch but allocates the
    node 2 whose high branch is [kEmpty_]; fetched with the same vertex on
    both branches, it allocates a node as well. *)
Lemma FetchUniqueTable_no_reduction :
  (∃ s', FetchUniqueTable 1 kEmpty_ kBase_ 1 false (Zbdd_init 5) = Ok 2 s'
         ∧ 2 ≠ kBase_
         ∧ nodes (Zbdd_init 5) !! 2 = None
         ∧ high <$> nodes s' !! 2 = Some kEmpty_)
  ∧ (∃ s', FetchUniqueTable 1 kBase_ kBase_ 1 false (Zbdd_init 5) = Ok 2 s'
           ∧ 2 ≠ kBase_
           ∧ nodes (Zbdd_init 5) !! 2 = None
           ∧ is_Some (nodes s' !! 2)).
Proof.
  split; eexists; (split; [reflexivity|]);
    (split; [done|]); (split; [done|]); vm_compute; eauto.
Qed.

(** Claim C4, amended: for every index, order, module flag and vertices
    high and low (the [kEmpty_] terminal and equal branches included),
    [FetchUniqueTable] returns the entry of the unique table for
    (index, high.id, low.id) when there is one and leaves the state as it
    is; otherwise, for a positive order, it returns a node allocated under
    the next id [set_id_], registers it in the table and increments
    [set_id_].  The zero-suppression rule and the redundancy rule are
    applied by the caller before the fetch: the end of [Apply] returns the
    low branch, and creates no node, when the high branch is [kEmpty_] or
    has the id of the low branch. *)
Theorem FetchUniqueTable_spec index high low order module s :
  (∀ node, unique_table_ s !! (index, high, low) = Some node →
     FetchUniqueTable index high low order module s = Ok node s)
  ∧ (unique_table_ s !! (index, high, low) = None → 0 < order →
     ∃ s', FetchUniqueTable index high low order module s
             = Ok (set_id_ s) s'
           ∧ nodes s' !! set_id_ s
             = Some (mkSetNode index order high low module false false [])
           ∧ unique_table_ s' !! (index, high, low) = Some (set_id_ s)
           ∧ set_id_ s' = set_id_ s + 1)
  ∧ (∀ Minimize one,
       reduce_and_fetch Minimize one kEmpty_ low s = Ok low s
       ∧ reduce_and_fetch Minimize one low low s = Ok low s).
Proof.
  split; [|split].
  - intros node Hin. unfold FetchUniqueTable. by rewrite Hin.
  - intros Hnone Hpos. unfold FetchUniqueTable. rewrite Hnone.
    destruct (Z.ltb_spec 0 order) as [_|?]; [|lia].
    eexists. split; [reflexivity|]. cbn.
    rewrite !lookup_insert_eq. done.
  - intros Min one. split.
    + unfold reduce_and_fetch.
      destruct (Z.eqb_spec kEmpty_ low) as [<-|?]; done.
    + unfold reduce_and_fetch. by rewrite Z.eqb_refl.
Qed.

Lemma FetchUniqueTable_spec_witness :
  ∃ s', FetchUniqueTable 1 kBase_ kEmpty_ 1 false (Zbdd_init 5) = Ok 2 s'
        ∧ nodes s' !! 2
          = Some (mkSetNode 1 1 kBase_ kEmpty_ false false false [])
        ∧ unique_table_ s' !! (1, kBase_, kEmpty_) = Some 2
        ∧ set_id_ s' = 3.
Proof.
  destruct (FetchUniqueTable_spec 1 kBase_ kEmpty_ 1 false (Zbdd_init 5))
    as (_ & H & _).
  apply H; [reflexivity | lia].
Defined.

(** ** The terminal cases of Apply (claim C5) *)

(** Against claim C5 as stated: the test of the limit order comes first, so
    with a negative limit order OR(BASE, BASE) is [kEmpty_], not BASE. *)
Lemma Apply_negative_limit_wins :
  Apply 1 kOrGate kBase_ kBase_ (-1) (Zbdd_init 0) = Ok kEmpty_ (Zbdd_init 0)
  ∧ kEmpty_ ≠ kBase_.
Proof. split; [reflexivity | done]. Qed.

(** Claim C5, amended: [Apply] returns [kEmpty_] when the limit order is
    negative, whatever the operands; for a limit order that is not negative
    it satisfies OR(EMPTY, x) = x, OR(BASE, x) = BASE, AND(EMPTY, x) = EMPTY,
    AND(BASE, x) = x, and returns its operand when both operands are the
    same vertex.  None of these cases changes the state. *)
Theorem Apply_terminal_cases fuel type a x limit s :
  (limit < 0 → Apply (S fuel) type a x limit s = Ok kEmpty_ s)
  ∧ (0 ≤ limit →
     Apply (S fuel) kOrGate kEmpty_ x limit s = Ok x s
     ∧ Apply (S fuel) kOrGate kBase_ x limit s = Ok kBase_ s
     ∧ Apply (S fuel) kAndGate kEmpty_ x limit s = Ok kEmpty_ s
     ∧ Apply (S fuel) kAndGate kBase_ x limit s = Ok x s
     ∧ (type = kOrGate ∨ type = kAndGate →
        Apply (S fuel) type x x limit s = Ok x s)).
Proof.
  split.
  - intros Hneg. cbn -[Z.ltb]. destruct (Z.ltb_spec limit 0); [done | lia].
  - intros Hpos. cbn -[Z.ltb Z.eqb terminal].
    destruct (Z.ltb_spec limit 0) as [?|_]; [lia|].
    rewrite terminal_kEmpty, terminal_kBase. cbn -[Z.ltb Z.eqb terminal].
    repeat split.
    + destruct (terminal x) eqn:Hx; [|done].
      apply terminal_iff in Hx as [-> | ->]; done.
    + by destruct (terminal x).
    + by destruct (terminal x).
    + destruct (terminal x) eqn:Hx; [|done].
      apply terminal_iff in Hx as [-> | ->]; done.
    + intros Htype. destruct (terminal x) eqn:Hx; cbn.
      * apply terminal_iff in Hx as [-> | ->];
          destruct Htype as [-> | ->]; done.
      * rewrite Z.eqb_refl. done.
Qed.

Lemma Apply_terminal_cases_witness :
  Apply 1 kOrGate kBase_ kEmpty_ (-1) (Zbdd_init 0) = Ok kEmpty_ (Zbdd_init 0)
  ∧ Apply 1 kAndGate kBase_ kEmpty_ 0 (Zbdd_init 0)
    = Ok kEmpty_ (Zbdd_init 0).
Proof.
  split.
  - destruct (Apply_terminal_cases 0 kOrGate kBase_ kEmpty_ (-1)
                (Zbdd_init 0)) as [H _].
    apply H. lia.
  - destruct (Apply_terminal_cases 0 kOrGate kBase_ kEmpty_ 0
                (Zbdd_init 0)) as [_ H].
    destruct H as (_ & _ & _ & H & _); [lia | exact H].
Defined.

(** ** Commutativity of Apply (claim C10) *)





Lemma FetchComputeTable_Ok type a b limit s r s' :
  FetchComputeTable type a b limit s = Ok r s' →
  s' = s ∧ terminal a = false ∧ terminal b = false ∧ a ≠ b ∧ 0 ≤ limit
  ∧ match type with
    | kOrGate => r = or_table_ s !! (Z.min a b, Z.max a b, limit)
    | kAndGate => r = and_table_ s !! (Z.min a b, Z.max a b, limit)
    | kNullGate => False
    end.
Proof.
  unfold FetchComputeTable. intros H.
  inv_run H. inv_run H. inv_run H. inv_run H.
  destruct type; inv_run H; repeat split; try done; try lia.
  - by destruct (terminal a).
  - by destruct (terminal a), (terminal b).
  - by destruct (terminal a).
  - by destruct (terminal a), (terminal b).
Qed.



Lemma Apply_terminals_pure type a b s r s' :
  Apply_terminals type a b s = Ok r s' →
  s' = s ∧ ∀ s2, Apply_terminals type a b s2 = Ok r s2.
Proof.
  unfold Apply_terminals.
  destruct type; try done;
    match goal with |- (if ?c then _ else _) _ = _ → _ => destruct c end;
    intros H; by inv_run H.
Qed.

Lemma Apply_terminal_pure type a b s r s' :
  Apply_terminal type a b s = Ok r s' →
  s' = s ∧ ∀ s2, Apply_terminal type a b s2 = Ok r s2.
Proof.
  unfold Apply_terminal.
  destruct type; try done;
    match goal with |- (if ?c then _ else _) _ = _ → _ => destruct c end;
    intros H; by inv_run H.
Qed.




(** ** Complement elimination (claim C9) *)



(** ** The order bound of the generated cut sets (claim C3) *)

Lemma to_size_t_id z : 0 ≤ z < 2 ^ 31 → to_size_t z = z.
Proof. intros H. unfold to_size_t. apply Z.mod_small. lia. Qed.

Lemma elem_of_flat_map {A B} (f : A → list B) (l : list A) (y : B) :
  y ∈ flat_map f l ↔ ∃ x, x ∈ l ∧ y ∈ f x.
Proof.
  induction l as [|a l IH]; cbn.
  - rewrite elem_of_nil. split; [done|].
    intros (x & Hx & _). by apply elem_of_nil in Hx.
  - rewrite elem_of_app, IH. split.
    + intros [H | (x & Hx & Hy)].
      * exists a. split; [by left | done].
      * exists x. split; [by right | done].
    + intros (x & Hx & Hy). apply elem_of_cons in Hx as [-> | Hx].
      * by left.
      * right. eauto.
Qed.

Lemma extend_cut_sets_bounded limit index high :
  0 ≤ limit < 2 ^ 31 →
  Forall (λ c, size c ≤ limit) high →
  Forall (λ c, size c ≤ limit) (extend_cut_sets limit index high).
Proof.
  intros Hlim Hhigh. rewrite Forall_forall in Hhigh |- *.
  intros c' Hc'. unfold extend_cut_sets in Hc'.
  apply elem_of_flat_map in Hc' as (c & Hc & Hin).
  rewrite to_size_t_id in Hin by done.
  destruct (Z.eqb_spec (size c) limit) as [|Hne].
  - by apply not_elem_of_nil in Hin.
  - apply list_elem_of_singleton in Hin as ->.
    specialize (Hhigh c Hc). unfold size in *.
    rewrite length_app. cbn. lia.
Qed.

Lemma join_module_sets_bounded limit high module :
  0 ≤ limit < 2 ^ 31 →
  Forall (λ c, size c ≤ limit) (join_module_sets limit high module).
Proof.
  intros Hlim. rewrite Forall_forall.
  intros c' Hc'. unfold join_module_sets in Hc'.
  apply elem_of_flat_map in Hc' as (c & Hc & Hin).
  apply elem_of_flat_map in Hin as (m & Hm & Hin).
  rewrite to_size_t_id in Hin by done.
  destruct (Z.gtb_spec (size c + size m) limit) as [|Hle].
  - by apply not_elem_of_nil in Hin.
  - apply list_elem_of_singleton in Hin as ->.
    unfold size in *. rewrite length_app. lia.
Qed.

Lemma caches_bounded_insert s v n :
  caches_bounded s →
  Forall (λ c, size c ≤ limit_order s) (cut_sets n) →
  caches_bounded (set_nodes (insert v n) s).
Proof.
  intros Hs Hn v' n'. cbn.
  destruct (decide (v = v')) as [<-|Hne].
  - rewrite lookup_insert_eq. by intros [= <-].
  - rewrite lookup_insert_ne by done. apply Hs.
Qed.

Lemma GenerateCutSets_bounded use_count fuel :
  ∀ vertex s result s',
    0 ≤ limit_order s < 2 ^ 31 →
    caches_bounded s →
    GenerateCutSets use_count fuel vertex s = Ok result s' →
    Forall (λ c, size c ≤ limit_order s) result
    ∧ caches_bounded s' ∧ limit_order s' = limit_order s.
Proof.
  induction fuel as [|fuel IH]; intros vertex s result s' Hlim Hs H;
    [done|].
  cbn -[terminal] in H.
  destruct (terminal vertex).
  { destruct (value vertex); inv_run H; repeat split; try done.
    repeat constructor. unfold size. cbn. lia. }
  inv_bind H as node s0 Hnode. inv_run Hnode.
  inv_bind H as u s1 Hmin. inv_run Hmin.
  destruct (mark node) eqn:Hmark.
  { inv_run H. repeat split; try done. by eapply Hs. }
  inv_bind H as u1 s1 Hset. unfold set_mark in Hset. inv_runs Hset.
  inv_bind H as low s2 Hlow.
  inv_bind H as high s3 Hhigh.
  inv_bind H as limit s4 Hget. inv_run Hget.
  inv_bind H as res s5 Hres.
  inv_bind H as u2 s6 Hcut. inv_runs Hcut.
  inv_bind H as owners s7 Hown. inv_run Hown.
  inv_bind H as u3 s8 Hcache. inv_run H.
  rename a into node', a0 into node''.
  assert (caches_bounded (set_nodes (insert vertex (with_mark true node')) s))
    as Hs1.
  { apply caches_bounded_insert; [done|]. cbn. by eapply Hs. }
  apply IH in Hlow as (Hlow & Hs2 & Hl2); [|done|done].
  cbn in Hl2.
  apply IH in Hhigh as (Hhigh & Hs4 & Hl4); [|by rewrite Hl2|done].
  rewrite Hl2 in *.
  assert (Forall (λ c, size c ≤ limit_order s) result
          ∧ caches_bounded s5 ∧ limit_order s5 = limit_order s)
    as (Hresult & Hs5 & Hl5).
  { destruct (module node).
    - inv_bind Hres as mv s6 Hfind. inv_run Hfind.
      inv_bind Hres as ms s7 Hmod. inv_run Hres.
      apply IH in Hmod as (_ & Hs5 & Hl5); [|by rewrite Hl4|done].
      rewrite Hl4 in *. repeat split; try done.
      apply Forall_app. split; [done|].
      by apply join_module_sets_bounded.
    - inv_run Hres. rewrite Hl4 in *. repeat split; try done.
      apply Forall_app. split; [done|].
      by apply extend_cut_sets_bounded. }
  assert (caches_bounded (set_nodes (insert vertex (CutBranches node'')) s5))
    as Hs6.
  { apply caches_bounded_insert; [done|]. cbn. by eapply Hs5. }
  destruct (use_count _ vertex >? 2).
  - inv_runs Hcache. repeat split; try done.
    apply caches_bounded_insert; [done|]. cbn. by rewrite Hl5.
  - inv_run Hcache. done.
Qed.

(** Claim C3: for a limit order that is a positive [int], every cut set
    that [GenerateCutSets] returns has at most [limit_order] elements,
    whatever the owner counts and the budget are, from every state whose
    cached cut sets respect the bound (before the generation no node holds
    a cut set); and the cut sets that are assembled for a module proxy, an
    outer part joined with a set of the module, respect the bound by
    themselves. *)
Theorem GenerateCutSets_order_bound use_count fuel vertex s result s' :
  0 < limit_order s < 2 ^ 31 →
  caches_bounded s →
  GenerateCutSets use_count fuel vertex s = Ok result s' →
  Forall (λ cut_set, size cut_set ≤ limit_order s) result
  ∧ ∀ high module,
      Forall (λ cut_set, size cut_set ≤ limit_order s)
             (join_module_sets (limit_order s) high module).
Proof.
  intros Hlim Hs H. split.
  - eapply GenerateCutSets_bounded in H as (H & _); [done|lia|done].
  - intros high module. apply join_module_sets_bounded. lia.
Qed.

Lemma GenerateCutSets_order_bound_witness :
  Forall (λ cut_set, size cut_set ≤ 2) [[3; 2]; [3; 1]; [2; 1]].
Proof.
  refine (proj1 (GenerateCutSets_order_bound store_use_count 30
                   (root_ two_of_three_state) two_of_three_state
                   [[3; 2]; [3; 1]; [2; 1]] _ _ _ _)).
  - cbn. lia.
  - unfold caches_bounded. apply (bool_decide_unpack _). vm_compute. exact I.
  - vm_compute. reflexivity.
Defined.

(** ** Stores that grow *)

Lemma same_node_refl n : same_node n n.
Proof. by repeat split. Qed.

Lemma same_node_sym n m : same_node n m → same_node m n.
Proof. intros (? & ? & ? & ? & ? & ? & ?). by repeat split. Qed.

Lemma same_node_trans n m k : same_node n m → same_node m k → same_node n k.
Proof.
  intros (? & ? & ? & ? & ? & ? & ?) (? & ? & ? & ? & ? & ? & ?).
  repeat split; congruence.
Qed.

Lemma same_node_with_minimal flag n : same_node n (with_minimal flag n).
Proof. by repeat split. Qed.

Lemma extends_refl s : extends s s.
Proof.
  split; try done; try lia.
  - intros v n Hn. exists n. split; [done | apply same_node_refl].
  - intros v m Hnone Hsome. congruence.
Qed.

Lemma extends_trans s1 s2 s3 :
  extends s1 s2 → extends s2 s3 → extends s1 s3.
Proof.
  intros [N1 W1 I1 L1] [N2 W2 I2 L2]. split; try congruence.
  - intros v n Hn. destruct (N1 v n Hn) as (m & Hm & Hnm).
    destruct (N2 v m Hm) as (k & Hk & Hmk).
    exists k. split; [done | by eapply same_node_trans].
  - intros v k Hnone Hk.
    destruct (nodes s2 !! v) as [m|] eqn:Hm.
    + destruct (W1 v m Hnone Hm) as (Hv & Hmark & Hcuts).
      destruct (N2 v m Hm) as (k' & Hk' & Hmk).
      assert (k' = k) as -> by congruence.
      destruct Hmk as (_ & _ & _ & _ & _ & Hmark' & Hcuts').
      repeat split; [done | congruence | congruence].
    + destruct (W2 v k Hm Hk) as (Hv & Hmark & Hcuts).
      repeat split; [lia | done | done].
  - lia.
Qed.

Lemma vertex_extends s s' v : extends s s' → vertex s v → vertex s' v.
Proof.
  intros Hext [Ht | [n Hn]]; [by left|].
  destruct (ext_nodes _ _ Hext v n Hn) as (m & Hm & _).
  right. by exists m.
Qed.

Lemma vertex_terminal s v : terminal v = true → vertex s v.
Proof. by left. Qed.

Lemma vertex_node s v n : nodes s !! v = Some n → vertex s v.
Proof. right. by exists n. Qed.

Lemma store_ok_not_terminal s v n :
  store_ok s → nodes s !! v = Some n → terminal v = false.
Proof.
  intros Hok Hn. apply (ok_ids _ Hok) in Hn.
  apply terminal_false_iff. unfold kEmpty_, kBase_. lia.
Qed.

Lemma vertex_lt_set_id s v : store_ok s → vertex s v → v < set_id_ s.
Proof.
  intros Hok [Ht | [n Hn]].
  - pose proof (ok_set_id _ Hok).
    apply terminal_iff in Ht as [-> | ->]; unfold kEmpty_, kBase_; lia.
  - apply (ok_ids _ Hok) in Hn. lia.
Qed.

(** ** Families in stores that grow *)

Lemma in_family_extends s s' v X :
  extends s s' → in_family s v X → in_family s' v X.
Proof.
  intros Hext H. induction H as [|v n X Ht Hn Hin IH|v n X Ht Hn Hin IH].
  - constructor.
  - destruct (ext_nodes _ _ Hext v n Hn)
      as (m & Hm & Hi & _ & Hh & _).
    rewrite Hi. eapply in_family_high; [done | done | by rewrite <- Hh].
  - destruct (ext_nodes _ _ Hext v n Hn)
      as (m & Hm & _ & _ & _ & Hl & _).
    eapply in_family_low; [done | done | by rewrite <- Hl].
Qed.

Lemma in_family_restrict s s' v X :
  store_ok s → extends s s' → vertex s v →
  in_family s' v X → in_family s v X.
Proof.
  intros Hok Hext Hv H. induction H as [|v m X Ht Hm Hin IH|v m X Ht Hm Hin IH].
  - constructor.
  - destruct Hv as [Hv | [n Hn]]; [congruence|].
    destruct (ext_nodes _ _ Hext v n Hn)
      as (m' & Hm' & Hi & _ & Hh & _).
    assert (m' = m) as -> by congruence.
    rewrite <- Hi. eapply in_family_high; [done | done |].
    rewrite Hh. apply IH. rewrite <- Hh. by apply (ok_branches _ Hok v n).
  - destruct Hv as [Hv | [n Hn]]; [congruence|].
    destruct (ext_nodes _ _ Hext v n Hn)
      as (m' & Hm' & _ & _ & _ & Hl & _).
    assert (m' = m) as -> by congruence.
    eapply in_family_low; [done | done |].
    rewrite Hl. apply IH. rewrite <- Hl. by apply (ok_branches _ Hok v n).
Qed.

Lemma in_family_extends_iff s s' v X :
  store_ok s → extends s s' → vertex s v →
  in_family s' v X ↔ in_family s v X.
Proof.
  intros. split; [by apply in_family_restrict | by apply in_family_extends].
Qed.

Lemma in_family_kEmpty s X : ¬ in_family s kEmpty_ X.
Proof. intros H. inversion H; subst; done. Qed.

Lemma in_family_kBase s X : in_family s kBase_ X ↔ X = [].
Proof.
  split; [|intros ->; constructor].
  intros H. inversion H; subst; done.
Qed.

Lemma in_family_node s v n X :
  terminal v = false → nodes s !! v = Some n →
  in_family s v X ↔
    in_family s (n~>low) X
    ∨ ∃ X', X = index n :: X' ∧ in_family s (n~>high) X'.
Proof.
  intros Ht Hn. split.
  - intros H. inversion H; subst.
    + done.
    + right. assert (n0 = n) as -> by congruence. eauto.
    + left. assert (n0 = n) as -> by congruence. done.
  - intros [H | (X' & -> & H)].
    + by eapply in_family_low.
    + by eapply in_family_high.
Qed.

(** ** The ordering contract *)

Lemma before_trans n m k : before n m → before m k → before n k.
Proof. unfold before. lia. Qed.

Lemma before_not_after_trans n m k : before n m → not_after m k → before n k.
Proof. unfold before, not_after. lia. Qed.

Lemma not_after_refl n : not_after n n.
Proof. unfold not_after. lia. Qed.

Lemma not_after_trans n m k : not_after n m → not_after m k → not_after n k.
Proof. unfold not_after. lia. Qed.

Lemma above_extends s s' n v : extends s s' → above s n v → above s' n v.
Proof.
  intros Hext [Ht | (m & Hm & Hb)]; [by left|].
  destruct (ext_nodes _ _ Hext v m Hm) as (m' & Hm' & Hi & Ho & _).
  right. exists m'. split; [done|]. unfold before in *. lia.
Qed.

Lemma root_le_extends s s' v r : extends s s' → root_le s v r → root_le s' v r.
Proof.
  intros Hext [Ht | (n & m & Hn & Hm & Hle)]; [by left|].
  destruct (ext_nodes _ _ Hext v n Hn) as (n' & Hn' & Hi & Ho & _).
  destruct (ext_nodes _ _ Hext r m Hm) as (m' & Hm' & Hi' & Ho' & _).
  right. exists n', m'. repeat split; try done.
  unfold not_after in *. lia.
Qed.

Lemma root_le_refl s v : vertex s v → root_le s v v.
Proof.
  intros [Ht | [n Hn]]; [by left|].
  right. exists n, n. repeat split; try done. apply not_after_refl.
Qed.

Lemma root_le_trans s v r r' :
  store_ok s → root_le s v r → root_le s r r' → root_le s v r'.
Proof.
  intros Hok [Ht | (n & m & Hn & Hm & Hle)] [Ht' | (m' & k & Hm' & Hk & Hle')];
    try (by left).
  - by rewrite (store_ok_not_terminal s r m') in Ht.
  - assert (m' = m) as -> by congruence.
    right. exists n, k. repeat split; try done.
    by eapply not_after_trans.
Qed.

Lemma above_root_le s n v r :
  store_ok s → above s n v → root_le s v r → above s n r.
Proof.
  intros Hok [Ht | (m & Hm & Hb)] [Ht' | (m' & k & Hm' & Hk & Hle)];
    try (by left).
  - by rewrite (store_ok_not_terminal s v m') in Ht.
  - assert (m' = m) as -> by congruence.
    right. exists k. split; [done|]. by eapply before_not_after_trans.
Qed.

(** The index of a node occurs in no set of a vertex below the node. *)
Lemma in_family_above s w n v X :
  store_ok s → nodes s !! w = Some n → above s n v →
  in_family s v X → index n ∉ X.
Proof.
  intros Hok Hw Habove H. revert Habove.
  induction H as [|v m X Ht Hm Hin IH|v m X Ht Hm Hin IH]; intros Habove.
  - apply not_elem_of_nil.
  - destruct Habove as [? | (m' & Hm' & Hb)]; [congruence|].
    assert (m' = m) as -> by congruence.
    apply not_elem_of_cons. split.
    + intros Heq. pose proof (ok_order _ Hok _ _ _ _ Hw Hm Heq).
      unfold before in Hb. lia.
    + apply IH. destruct (ok_ordered _ Hok v m Hm) as [[? | (k & Hk & Hb')] _];
        [by left|].
      right. exists k. split; [done|]. by eapply before_trans.
  - destruct Habove as [? | (m' & Hm' & Hb)]; [congruence|].
    assert (m' = m) as -> by congruence.
    apply IH. destruct (ok_ordered _ Hok v m Hm) as [_ [? | (k & Hk & Hb')]];
      [by left|].
    right. exists k. split; [done|]. by eapply before_trans.
Qed.

Lemma in_family_high_fresh s v n X :
  store_ok s → nodes s !! v = Some n →
  in_family s (n~>high) X → index n ∉ X.
Proof.
  intros Hok Hn. eapply in_family_above; [done | done |].
  by apply (ok_ordered _ Hok v n).
Qed.

Lemma in_family_low_fresh s v n X :
  store_ok s → nodes s !! v = Some n →
  in_family s (n~>low) X → index n ∉ X.
Proof.
  intros Hok Hn. eapply in_family_above; [done | done |].
  by apply (ok_ordered _ Hok v n).
Qed.

Lemma in_family_NoDup s v X : store_ok s → in_family s v X → NoDup X.
Proof.
  intros Hok H. induction H as [|v n X Ht Hn Hin IH|v n X Ht Hn Hin IH].
  - constructor.
  - constructor; [|done]. by eapply in_family_high_fresh.
  - done.
Qed.

(** ** Heights *)

Lemma height_le_extends s s' v k :
  extends s s' → height_le s v k → height_le s' v k.
Proof.
  intros Hext H. induction H as [v k Ht|v n k Ht Hn Hh IHh Hl IHl].
  - by constructor.
  - destruct (ext_nodes _ _ Hext v n Hn)
      as (m & Hm & _ & _ & Hhigh & Hlow & _).
    eapply height_node; [done | done | by rewrite <- Hhigh
                        | by rewrite <- Hlow].
Qed.

Lemma height_le_mono s v k k' :
  (k ≤ k')%nat → height_le s v k → height_le s v k'.
Proof.
  intros Hle H. revert k' Hle.
  induction H as [v k Ht|v n k Ht Hn Hh IHh Hl IHl]; intros k' Hle.
  - by constructor.
  - destruct k' as [|k']; [lia|].
    eapply height_node; [done | done | apply IHh; lia | apply IHl; lia].
Qed.

Lemma height_le_exists s v :
  store_ok s → vertex s v → height_le s v (Z.to_nat v).
Proof.
  intros Hok.
  assert (∀ (k : nat) v, v ≤ Z.of_nat k → vertex s v →
                         height_le s v (Z.to_nat v)) as Hall.
  { induction k as [|k IH]; intros w Hle [Ht | [n Hn]];
      try (by constructor).
    - apply (ok_ids _ Hok) in Hn. lia.
    - pose proof (ok_ids _ Hok _ _ Hn) as Hid.
      destruct (ok_branches _ Hok w n Hn) as (Hvh & Hvl & Hh & Hl).
      assert (Z.to_nat w = S (Z.to_nat (w - 1))) as -> by lia.
      eapply height_node;
        [by eapply store_ok_not_terminal | done | |].
      + destruct Hvh as [? | [m Hm]]; [by constructor|].
        apply (height_le_mono _ _ (Z.to_nat (n~>high))); [lia|].
        apply IH; [lia | by eapply vertex_node].
      + destruct Hvl as [? | [m Hm]]; [by constructor|].
        apply (height_le_mono _ _ (Z.to_nat (n~>low))); [lia|].
        apply IH; [lia | by eapply vertex_node]. }
  intros Hv. apply (Hall (Z.to_nat v)); [|done].
  destruct Hv as [Ht | [n Hn]].
  - apply terminal_iff in Ht as [-> | ->]; unfold kEmpty_, kBase_; lia.
  - apply (ok_ids _ Hok) in Hn. lia.
Qed.

(** ** Invariants in stores that grow *)

Lemma unit_free_extends s s' v : extends s s' → unit_free s v → unit_free s' v.
Proof.
  intros Hext H. induction H as [v Ht|v n Ht Hn Hlow Hh IHh Hl IHl].
  - by constructor.
  - destruct (ext_nodes _ _ Hext v n Hn)
      as (m & Hm & _ & _ & Hhigh & Hlow' & _).
    eapply unit_free_node; [done | done | congruence
                           | by rewrite <- Hhigh | by rewrite <- Hlow'].
Qed.

Lemma subsume_family_extends s s' h l X :
  store_ok s → extends s s' → vertex s h → vertex s l →
  subsume_family s' h l X ↔ subsume_family s h l X.
Proof.
  intros Hok Hext Hh Hl. unfold subsume_family.
  rewrite (in_family_extends_iff s s' h) by done.
  split; intros [HX Hnot]; (split; [done|]); intros (Y & HY & Hsub);
    apply Hnot; exists Y; (split; [|done]).
  - by apply (in_family_extends_iff s s' l).
  - by apply (in_family_extends_iff s s' l) in HY.
Qed.

Lemma subsume_post_extends s s' h l r :
  store_ok s → extends s s' → vertex s h → vertex s l →
  subsume_post s h l r → subsume_post s' h l r.
Proof.
  intros Hok Hext Hh Hl [Hv Hroot Hheight Hfam]. split.
  - by eapply vertex_extends.
  - by eapply root_le_extends.
  - intros k Hk. eapply height_le_extends; [done|]. apply Hheight.
    clear Hroot Hheight Hfam Hv Hl.
    induction Hk as [v k Ht|v m k Ht Hm Hhi IHh Hlo IHl]; [by constructor|].
    destruct Hh as [? | [n Hn]]; [congruence|].
    destruct (ext_nodes _ _ Hext v n Hn)
      as (m' & Hm' & _ & _ & Hhigh & Hlow & _).
    assert (m' = m) as -> by congruence.
    destruct (ok_branches _ Hok v n Hn) as (Hvh & Hvl & _).
    eapply height_node; [done | done | |].
    + rewrite Hhigh. apply IHh. by rewrite <- Hhigh.
    + rewrite Hlow. apply IHl. by rewrite <- Hlow.
  - intros X. rewrite (in_family_extends_iff s s' r) by done.
    rewrite subsume_family_extends by done. apply Hfam.
Qed.

Lemma height_le_restrict s s' v k :
  store_ok s → extends s s' → vertex s v →
  height_le s' v k → height_le s v k.
Proof.
  intros Hok Hext Hv Hk.
  induction Hk as [v k Ht|v m k Ht Hm Hhi IHh Hlo IHl]; [by constructor|].
  destruct Hv as [? | [n Hn]]; [congruence|].
  destruct (ext_nodes _ _ Hext v n Hn)
    as (m' & Hm' & _ & _ & Hhigh & Hlow & _).
  assert (m' = m) as -> by congruence.
  destruct (ok_branches _ Hok v n Hn) as (Hvh & Hvl & _).
  eapply height_node; [done | done | |].
  + rewrite Hhigh. apply IHh. by rewrite <- Hhigh.
  + rewrite Hlow. apply IHl. by rewrite <- Hlow.
Qed.

Lemma sem_ok_extends s s' :
  sem_ok s → extends s s' → store_ok s' →
  subsume_table_ s' = subsume_table_ s → sem_ok s'.
Proof.
  intros [Hok Hsub] Hext Hok' Htab. split; [done|].
  intros h l r Hr. rewrite Htab in Hr.
  destruct (Hsub h l r Hr) as (Hh & Hl & Hpost).
  split; [by eapply vertex_extends|].
  split; [by eapply vertex_extends|].
  by apply (subsume_post_extends s s').
Qed.

(** ** FetchUniqueTable *)

Lemma FetchUniqueTable_Ok i h l o md s r s' :
  FetchUniqueTable i h l o md s = Ok r s' →
  (unique_table_ s !! (i, h, l) = Some r ∧ s' = s)
  ∨ (unique_table_ s !! (i, h, l) = None ∧ 0 < o ∧ r = set_id_ s
     ∧ s' = set_unique_table (insert (i, h, l) r)
              (set_nodes (insert r (mkSetNode i o h l md false false []))
                 (set_set_id (r + 1) s))).
Proof.
  unfold FetchUniqueTable. destruct (unique_table_ s !! (i, h, l)) as [v|].
  - intros [= -> ->]. by left.
  - destruct (Z.ltb_spec 0 o); [|done]. intros [= <- <-]. by right.
Qed.

Lemma FetchUniqueTable_store_ok i h l o md s r s' :
  store_ok s → vertex s h → vertex s l →
  h ≠ kEmpty_ → h ≠ l →
  above s (mkSetNode i o h l md false false []) h →
  above s (mkSetNode i o h l md false false []) l →
  (∀ w m, nodes s !! w = Some m → index m = i → order m = o) →
  FetchUniqueTable i h l o md s = Ok r s' →
  store_ok s' ∧ extends s s'
  ∧ (∃ n, nodes s' !! r = Some n ∧ index n = i ∧ order n = o
          ∧ n~>high = h ∧ n~>low = l)
  ∧ ((∃ n, nodes s !! r = Some n) ∧ s' = s
     ∨ nodes s !! r = None
       ∧ nodes s' = <[r := mkSetNode i o h l md false false []]> (nodes s))
  ∧ subsume_table_ s' = subsume_table_ s
  ∧ minimal_results_ s' = minimal_results_ s.
Proof.
  intros Hok Hh Hl Hne Hhl Hah Hal Hord H.
  apply FetchUniqueTable_Ok in H as [[Hin ->] | (Hnone & Ho & -> & ->)].
  - destruct (ok_unique _ Hok _ _ _ _ Hin) as (n & Hn & Hi & Hhigh & Hlow).
    split_and!; try done; try apply extends_refl.
    + exists n. split_and!; try done. by eapply Hord.
    + left. split; [by exists n | done].
  - set (id := set_id_ s).
    set (new := mkSetNode i o h l md false false []).
    assert (nodes s !! id = None) as Hfresh.
    { destruct (nodes s !! id) as [n|] eqn:Hn; [|done].
      apply (ok_ids _ Hok) in Hn. lia. }
    assert (extends s
      (set_unique_table (insert (i, h, l) id)
         (set_nodes (insert id new) (set_set_id (id + 1) s)))) as Hext.
    { split; cbn; try done; try lia.
      - intros v n Hn. exists n. split; [|apply same_node_refl].
        rewrite lookup_insert_ne; [done|]. intros <-. congruence.
      - intros v m Hv Hm. destruct (decide (id = v)) as [<-|Hne'].
        + rewrite lookup_insert_eq in Hm. injection Hm as <-.
          split_and!; first [done | unfold id; lia].
        + rewrite lookup_insert_ne in Hm by done. congruence. }
    assert (∀ v n,
      nodes (set_unique_table (insert (i, h, l) id)
               (set_nodes (insert id new) (set_set_id (id + 1) s))) !! v
      = Some n →
      (v = id ∧ n = new) ∨ (v ≠ id ∧ nodes s !! v = Some n)) as Hcase.
    { cbn. intros v n Hn. destruct (decide (id = v)) as [<-|Hne'].
      - rewrite lookup_insert_eq in Hn. injection Hn as <-. by left.
      - rewrite lookup_insert_ne in Hn by done. right. by split. }
    split_and!; try done.
    + split.
      * cbn. pose proof (ok_set_id _ Hok). unfold id. lia.
      * intros v n Hn. cbn.
        apply Hcase in Hn as [[-> ->] | [Hv Hn]].
        -- pose proof (ok_set_id _ Hok). unfold id. lia.
        -- apply (ok_ids _ Hok) in Hn. lia.
      * intros v n Hn. apply Hcase in Hn as [[-> ->] | [Hv Hn]]; cbn [high low].
        -- split_and!; try (by eapply vertex_extends);
             by apply vertex_lt_set_id.
        -- destruct (ok_branches _ Hok v n Hn) as (? & ? & ? & ?).
           split_and!; try done; by eapply vertex_extends.
      * intros v n Hn. apply Hcase in Hn as [[-> ->] | [Hv Hn]]; [done|].
        by apply (ok_reduced _ Hok v n).
      * intros v n Hn. apply Hcase in Hn as [[-> ->] | [Hv Hn]].
        -- split; by eapply above_extends.
        -- destruct (ok_ordered _ Hok v n Hn).
           split; by eapply above_extends.
      * intros v n w m Hn Hm Heq.
        apply Hcase in Hn as [[-> ->] | [Hv Hn]];
          apply Hcase in Hm as [[-> ->] | [Hw Hm]].
        -- done.
        -- cbn in *. symmetry. by eapply Hord.
        -- cbn in *. by eapply Hord.
        -- by eapply (ok_order _ Hok).
      * cbn. intros i' h' l' v Hv.
        destruct (decide ((i, h, l) = (i', h', l'))) as [[= <- <- <-]|Hk].
        -- rewrite lookup_insert_eq in Hv. injection Hv as <-.
           exists new. by rewrite lookup_insert_eq.
        -- rewrite lookup_insert_ne in Hv by done.
           destruct (ok_unique _ Hok _ _ _ _ Hv) as (n & Hn & ?).
           exists n. split; [|done].
           rewrite lookup_insert_ne; [done|]. intros <-. congruence.
      * intros v n Hn. apply Hcase in Hn as [[-> ->] | [Hv Hn]]; [done|].
        by apply (ok_positive _ Hok v n).
    + exists new. cbn. by rewrite lookup_insert_eq.
    + right. done.
Qed.

(** ** Updates of flags and tables *)

Lemma extends_same_nodes s s' :
  nodes s' = nodes s → set_id_ s' = set_id_ s →
  limit_order s' = limit_order s → extends s s'.
Proof.
  intros Hn Hi Hl. split; try done; try lia.
  - intros v n Hv. exists n. rewrite Hn. split; [done | apply same_node_refl].
  - intros v m Hnone Hsome. rewrite Hn in Hsome. congruence.
Qed.

Lemma store_ok_same_nodes s s' :
  store_ok s → nodes s' = nodes s → set_id_ s' = set_id_ s →
  unique_table_ s' = unique_table_ s → store_ok s'.
Proof.
  intros [A B C D E F G P] Hn Hi Hu.
  split; unfold vertex, above; rewrite ?Hn, ?Hi, ?Hu; done.
Qed.

Lemma extends_set_minimal s v n flag :
  nodes s !! v = Some n →
  extends s (set_nodes (insert v (with_minimal flag n)) s).
Proof.
  intros Hn. split; cbn; try done; try lia.
  - intros w m Hm. destruct (decide (v = w)) as [<-|Hne].
    + rewrite lookup_insert_eq. eexists. split; [done|].
      assert (m = n) as -> by congruence. apply same_node_with_minimal.
    + rewrite lookup_insert_ne by done. exists m.
      split; [done | apply same_node_refl].
  - intros w m Hnone Hm. destruct (decide (v = w)) as [<-|Hne].
    + congruence.
    + rewrite lookup_insert_ne in Hm by done. congruence.
Qed.

Lemma store_ok_reshape s s' :
  store_ok s → extends s s' →
  (∀ v m, nodes s' !! v = Some m → is_Some (nodes s !! v)) →
  unique_table_ s' = unique_table_ s → set_id_ s' = set_id_ s →
  store_ok s'.
Proof.
  intros Hok Hext Hdom Hu Hi.
  assert (∀ v m, nodes s' !! v = Some m →
                 ∃ n, nodes s !! v = Some n ∧ same_node n m) as Hback.
  { intros v m Hm. destruct (Hdom v m Hm) as [n Hn].
    destruct (ext_nodes _ _ Hext v n Hn) as (m' & Hm' & Hsame).
    exists n. split; [done|]. congruence. }
  split.
  - rewrite Hi. apply Hok.
  - intros v m Hm. destruct (Hback v m Hm) as (n & Hn & _).
    rewrite Hi. by apply (ok_ids _ Hok v n).
  - intros v m Hm.
    destruct (Hback v m Hm) as (n & Hn & _ & _ & Hh & Hl & _).
    destruct (ok_branches _ Hok v n Hn) as (? & ? & ? & ?).
    rewrite <- Hh, <- Hl. split_and!; try done; by eapply vertex_extends.
  - intros v m Hm.
    destruct (Hback v m Hm) as (n & Hn & _ & _ & Hh & Hl & _).
    rewrite <- Hh, <- Hl. by apply (ok_reduced _ Hok v n).
  - intros v m Hm.
    destruct (Hback v m Hm) as (n & Hn & Hi' & Ho & Hh & Hl & _).
    destruct (ok_ordered _ Hok v n Hn) as [Hah Hal].
    rewrite <- Hh, <- Hl.
    split; (eapply above_extends; [done|]).
    + destruct Hah as [? | (k & Hk & Hb)]; [by left|].
      right. exists k. split; [done|]. unfold before in *. lia.
    + destruct Hal as [? | (k & Hk & Hb)]; [by left|].
      right. exists k. split; [done|]. unfold before in *. lia.
  - intros v m w k Hm Hk Heq.
    destruct (Hback v m Hm) as (n & Hn & Hi1 & Ho1 & _).
    destruct (Hback w k Hk) as (n' & Hn' & Hi2 & Ho2 & _).
    rewrite <- Ho1, <- Ho2. eapply (ok_order _ Hok); [done | done |].
    congruence.
  - intros i h l v Hv. rewrite Hu in Hv.
    destruct (ok_unique _ Hok _ _ _ _ Hv) as (n & Hn & Hi' & Hh & Hl).
    destruct (ext_nodes _ _ Hext v n Hn)
      as (m & Hm & Hi2 & _ & Hh2 & Hl2 & _).
    exists m. split_and!; congruence.
  - intros v m Hm. destruct (Hback v m Hm) as (n & Hn & _ & Ho & _).
    rewrite <- Ho. by apply (ok_positive _ Hok v n).
Qed.

Lemma set_minimal_Ok v flag u s s' :
  set_minimal v flag s = Ok u s' →
  ∃ n, nodes s !! v = Some n
       ∧ s' = set_nodes (insert v (with_minimal flag n)) s.
Proof.
  unfold set_minimal. intros H. inv_bind H as n s1 Hn. inv_run Hn.
  inv_run H. eauto.
Qed.

Lemma store_ok_set_minimal s v n flag :
  store_ok s → nodes s !! v = Some n →
  store_ok (set_nodes (insert v (with_minimal flag n)) s).
Proof.
  intros Hok Hn. eapply store_ok_reshape; [done | | | done | done].
  - by apply extends_set_minimal.
  - cbn. intros w m Hm. destruct (decide (v = w)) as [<-|Hne]; [by eexists|].
    rewrite lookup_insert_ne in Hm by done. by eexists.
Qed.

(** The invariants, step by step. *)
Lemma sem_ok_step s s' :
  sem_ok s → store_ok s' → extends s s' →
  (∀ h l r, subsume_table_ s' !! (h, l) = Some r →
            subsume_table_ s !! (h, l) = Some r
            ∨ (vertex s' h ∧ vertex s' l ∧ subsume_post s' h l r)) →
  sem_ok s'.
Proof.
  intros [Hok Hsub] Hok' Hext Htab. split; [done|].
  intros h l r Hr. destruct (Htab h l r Hr) as [Hold | Hnew]; [|done].
  destruct (Hsub h l r Hold) as (Hh & Hl & Hpost).
  split; [by eapply vertex_extends|].
  split; [by eapply vertex_extends|].
  by apply (subsume_post_extends s s').
Qed.

(** ** The families of Subsume, node by node *)

Lemma subseteq_cons_r (i : Z) (Y X : list Z) : Y ⊆ X → Y ⊆ i :: X.
Proof. intros H y Hy. apply elem_of_cons. right. by apply H. Qed.

Lemma subseteq_nil_l (X : list Z) : [] ⊆ X.
Proof. intros y Hy. by apply elem_of_nil in Hy. Qed.

Lemma subseteq_nil_r (Y : list Z) : Y ⊆ [] → Y = [].
Proof.
  destruct Y as [|y Y]; [done|]. intros H.
  exfalso. eapply elem_of_nil, H. by left.
Qed.

Lemma subseteq_cons_fresh (i : Z) (Y X : list Z) :
  i ∉ Y → Y ⊆ i :: X ↔ Y ⊆ X.
Proof.
  intros Hi. split; [|apply subseteq_cons_r].
  intros H y Hy. specialize (H y Hy).
  apply elem_of_cons in H as [-> | H]; done.
Qed.

Lemma subseteq_cons_cons (i : Z) (Y X : list Z) :
  i ∉ Y → i :: Y ⊆ i :: X ↔ Y ⊆ X.
Proof.
  intros Hi. split; intros H y Hy.
  - assert (y ∈ i :: X) as Hy' by (apply H; by right).
    apply elem_of_cons in Hy' as [-> | Hy']; done.
  - apply elem_of_cons in Hy as [-> | Hy]; [by left|].
    right. by apply H.
Qed.

Lemma subseteq_cons_not (i : Z) (Y X : list Z) : i ∉ X → ¬ i :: Y ⊆ X.
Proof. intros Hi H. apply Hi, H. by left. Qed.

(** The root of [low] comes first: the sets of [low] with its index include
    no set of [high]. *)
Lemma subsume_family_skip s high low hn ln X :
  store_ok s → nodes s !! high = Some hn → nodes s !! low = Some ln →
  before ln hn →
  subsume_family s high low X ↔ subsume_family s high (ln~>low) X.
Proof.
  intros Hok Hh Hl Hb.
  pose proof (store_ok_not_terminal _ _ _ Hok Hl) as Htl.
  unfold subsume_family. split; intros [HX Hnot]; (split; [done|]).
  - intros (Y & HY & Hsub). apply Hnot. exists Y. split; [|done].
    by eapply in_family_low.
  - intros (Y & HY & Hsub).
    apply (in_family_node _ _ _ _ Htl Hl) in HY as [HY | (Y' & -> & HY)].
    + apply Hnot. eauto.
    + eapply subseteq_cons_not; [|done].
      eapply (in_family_above s low ln high); try done.
      right. eauto.
Qed.

(** Both roots carry the same literal. *)
Lemma subsume_family_same s high low hn ln X :
  store_ok s → nodes s !! high = Some hn → nodes s !! low = Some ln →
  index hn = index ln →
  subsume_family s high low X ↔
    subsume_family s (hn~>low) (ln~>low) X
    ∨ ∃ X', X = index hn :: X'
            ∧ subsume_family s (hn~>high) (ln~>high) X'
            ∧ ¬ ∃ Y, in_family s (ln~>low) Y ∧ Y ⊆ X'.
Proof.
  intros Hok Hh Hl Hi.
  pose proof (store_ok_not_terminal _ _ _ Hok Hh) as Hth.
  pose proof (store_ok_not_terminal _ _ _ Hok Hl) as Htl.
  unfold subsume_family. rewrite (in_family_node _ _ _ _ Hth Hh).
  split.
  - intros [[HX | (X' & -> & HX)] Hnot].
    + left. split; [done|]. intros (Y & HY & Hsub). apply Hnot.
      exists Y. split; [|done]. by eapply in_family_low.
    + right. exists X'. split; [done|]. split; [split; [done|]|].
      * intros (Y & HY & Hsub). apply Hnot. exists (index ln :: Y).
        split; [by eapply in_family_high|].
        rewrite <- Hi. apply subseteq_cons_cons; [|done].
        rewrite Hi. by eapply in_family_high_fresh.
      * intros (Y & HY & Hsub). apply Hnot. exists Y.
        split; [by eapply in_family_low|]. by apply subseteq_cons_r.
  - intros [[HX Hnot] | (X' & -> & [HX Hnot] & Hnot')].
    + split; [by left|]. intros (Y & HY & Hsub).
      apply (in_family_node _ _ _ _ Htl Hl) in HY as [HY | (Y' & -> & HY)].
      * apply Hnot. eauto.
      * eapply subseteq_cons_not; [|done].
        rewrite <- Hi. by eapply in_family_low_fresh.
    + split; [right; eauto|]. intros (Y & HY & Hsub).
      apply (in_family_node _ _ _ _ Htl Hl) in HY as [HY | (Y' & -> & HY)].
      * apply Hnot'. exists Y. split; [done|].
        eapply subseteq_cons_fresh; [|done].
        rewrite Hi. by eapply in_family_low_fresh.
      * apply Hnot. exists Y'. split; [done|].
        rewrite <- Hi in Hsub.
        eapply subseteq_cons_cons; [|done].
        rewrite Hi. by eapply in_family_high_fresh.
Qed.

(** The root of [high] comes first. *)
Lemma subsume_family_diff s high low hn ln X :
  store_ok s → nodes s !! high = Some hn → nodes s !! low = Some ln →
  before hn ln →
  subsume_family s high low X ↔
    subsume_family s (hn~>low) low X
    ∨ ∃ X', X = index hn :: X' ∧ subsume_family s (hn~>high) low X'.
Proof.
  intros Hok Hh Hl Hb.
  pose proof (store_ok_not_terminal _ _ _ Hok Hh) as Hth.
  assert (∀ Y, in_family s low Y → index hn ∉ Y) as Hfresh.
  { intros Y HY. eapply (in_family_above s high hn low); try done.
    right. eauto. }
  unfold subsume_family. rewrite (in_family_node _ _ _ _ Hth Hh).
  split.
  - intros [[HX | (X' & -> & HX)] Hnot]; [by left|].
    right. exists X'. split; [done|]. split; [done|].
    intros (Y & HY & Hsub). apply Hnot. exists Y. split; [done|].
    by apply subseteq_cons_r.
  - intros [[HX Hnot] | (X' & -> & [HX Hnot])].
    + split; [by left | done].
    + split; [right; eauto|]. intros (Y & HY & Hsub).
      apply Hnot. exists Y. split; [done|].
      eapply subseteq_cons_fresh; [|done]. by apply Hfresh.
Qed.

Lemma subsume_family_kEmpty_low s high X :
  subsume_family s high kEmpty_ X ↔ in_family s high X.
Proof.
  unfold subsume_family. split; [by intros [? _]|].
  intros HX. split; [done|]. intros (Y & HY & _).
  by apply in_family_kEmpty in HY.
Qed.

Lemma subsume_family_kBase_low s high X : ¬ subsume_family s high kBase_ X.
Proof.
  intros [_ Hnot]. apply Hnot. exists [].
  split; [constructor | apply subseteq_nil_l].
Qed.

Lemma unit_free_no_unit s v :
  terminal v = false → unit_free s v → ¬ in_family s v [].
Proof.
  intros Ht H. induction H as [v Hv|v n _ Hn Hlow Hh IHh Hl IHl];
    [congruence|].
  intros Hin. apply (in_family_node _ _ _ _ Ht Hn) in Hin
    as [Hin | (X' & [=] & _)].
  destruct (terminal (n~>low)) eqn:Htl.
  - apply terminal_iff in Htl as [Heq | Heq]; [|done].
    rewrite Heq in Hin. by apply in_family_kEmpty in Hin.
  - by apply IHl.
Qed.

Lemma subsume_family_terminal_high s high low X :
  terminal high = true → terminal low = false → unit_free s low →
  subsume_family s high low X ↔ in_family s high X.
Proof.
  intros Hth Htl Hfree. unfold subsume_family.
  split; [by intros [? _]|]. intros HX. split; [done|].
  intros (Y & HY & Hsub).
  apply terminal_iff in Hth as [-> | ->].
  - by apply in_family_kEmpty in HX.
  - apply in_family_kBase in HX as ->.
    apply subseteq_nil_r in Hsub as ->.
    by eapply unit_free_no_unit.
Qed.

(** ** The minimal flags in stores that grow *)

Lemma minimal_vertex_vertex s v : minimal_vertex s v → vertex s v.
Proof. intros [? | (n & Hn & _)]; [by left | by eapply vertex_node]. Qed.

Lemma flags_le_refl s : flags_le s s.
Proof. by intros v. Qed.

Lemma flags_le_trans s1 s2 s3 :
  flags_le s1 s2 → flags_le s2 s3 → flags_le s1 s3.
Proof. intros H1 H2 v Hv. by apply H2, H1. Qed.

Lemma antichain_extends s s' v :
  store_ok s → extends s s' → vertex s v → antichain s v → antichain s' v.
Proof.
  intros Hok Hext Hv Ha X Y HX HY.
  apply (in_family_extends_iff s s' v) in HX, HY; try done. by apply Ha.
Qed.

Lemma minimal_family_extends s s' v X :
  store_ok s → extends s s' → vertex s v →
  minimal_family s' v X ↔ minimal_family s v X.
Proof.
  intros Hok Hext Hv. unfold minimal_family.
  rewrite (in_family_extends_iff s s' v) by done.
  split; intros [HX Hmin]; (split; [done|]); intros Y HY.
  - apply Hmin. by apply (in_family_extends_iff s s' v).
  - apply Hmin. by apply (in_family_extends_iff s s' v) in HY.
Qed.

Lemma minimize_post_extends s s' v r :
  store_ok s → extends s s' → flags_le s s' → vertex s v →
  minimize_post s v r → minimize_post s' v r.
Proof.
  intros Hok Hext Hfl Hv [Hr Hroot Hheight Hmin Hfam Hne]. split.
  - by eapply vertex_extends.
  - by eapply root_le_extends.
  - intros k Hk. eapply height_le_extends; [done|]. apply Hheight.
    by eapply height_le_restrict.
  - by apply Hfl.
  - intros X. rewrite (in_family_extends_iff s s' r) by done.
    rewrite minimal_family_extends by done. apply Hfam.
  - done.
Qed.

(** The flags invariant, step by step: a node whose flag is set in [s'] had
    it set in [s], or its branches are minimal and its family is an
    antichain; the entries of the tables are those of [s] or satisfy the
    invariant in [s']. *)
Lemma flags_ok_step s s' :
  flags_ok s → store_ok s → extends s s' → flags_le s s' →
  (∀ v m, nodes s' !! v = Some m → minimal m = true →
          (∃ n, nodes s !! v = Some n ∧ minimal n = true)
          ∨ (minimal_vertex s' (m~>high) ∧ minimal_vertex s' (m~>low)
             ∧ antichain s' v)) →
  (∀ k r, subsume_table_ s' !! k = Some r →
          subsume_table_ s !! k = Some r ∨ minimal_vertex s' r) →
  (∀ v r, minimal_results_ s' !! v = Some r →
          minimal_results_ s !! v = Some r
          ∨ (vertex s' v ∧ minimize_post s' v r)) →
  flags_ok s'.
Proof.
  intros [Hclosed Hanti Hsub Hmin] Hok Hext Hle Hnodes Hsub' Hmin'. split.
  - intros v m Hm Hflag.
    destruct (Hnodes v m Hm Hflag) as [(n & Hn & Hnflag) | (? & ? & _)];
      [|done].
    destruct (ext_nodes _ _ Hext v n Hn)
      as (m' & Hm' & _ & _ & Hh & Hl & _).
    assert (m' = m) as -> by congruence.
    destruct (Hclosed v n Hn Hnflag). rewrite <- Hh, <- Hl.
    split; by apply Hle.
  - intros v m Hm Hflag.
    destruct (Hnodes v m Hm Hflag) as [(n & Hn & Hnflag) | (_ & _ & ?)];
      [|done].
    eapply antichain_extends; [done | done | by eapply vertex_node|].
    by eapply Hanti.
  - intros k r Hr. destruct (Hsub' k r Hr) as [Hold | ?]; [|done].
    apply Hle. by eapply Hsub.
  - intros v r Hr. destruct (Hmin' v r Hr) as [Hold | ?]; [|done].
    destruct (Hmin v r Hold) as [Hv Hpost].
    split; [by eapply vertex_extends|].
    by apply (minimize_post_extends s s').
Qed.

Lemma flags_le_new_nodes s s' :
  extends s s' →
  (∀ v n m, nodes s !! v = Some n → nodes s' !! v = Some m →
            minimal n = true → minimal m = true) →
  flags_le s s'.
Proof.
  intros Hext Hflags v [Ht | (n & Hn & Hflag)]; [by left|].
  destruct (ext_nodes _ _ Hext v n Hn) as (m & Hm & _).
  right. exists m. split; [done|]. by eapply Hflags.
Qed.

(** ** Subsume *)

Lemma minimal_vertex_extends_same s s' v :
  nodes s' = nodes s → minimal_vertex s v → minimal_vertex s' v.
Proof. unfold minimal_vertex. by intros ->. Qed.

(** The memoisation of a result of Subsume. *)
Lemma subsume_memo_ok s0 s high low r :
  sem_ok s → extends s0 s → vertex s high → vertex s low →
  subsume_post s high low r →
  minimal_results_ s = minimal_results_ s0 →
  (flags_ok s0 → minimal_vertex s0 high →
   flags_ok s ∧ minimal_vertex s r ∧ flags_le s0 s) →
  subsume_result_ok s0 high low r
    (set_subsume_table (insert (high, low) r) s).
Proof.
  intros Hsem Hext0 Hh Hl Hpost Hmin Hflags.
  set (s' := set_subsume_table (insert (high, low) r) s).
  assert (extends s s') as Hext by (by apply extends_same_nodes).
  assert (store_ok s') as Hok'.
  { eapply store_ok_same_nodes; [apply Hsem | done..]. }
  assert (subsume_post s' high low r) as Hpost'.
  { apply (subsume_post_extends s s'); try done. apply Hsem. }
  split_and!; try done.
  - eapply sem_ok_step; [done | done | done |].
    intros h l c Hc. cbn in Hc.
    destruct (decide ((high, low) = (h, l))) as [[= <- <-]|Hne].
    + rewrite lookup_insert_eq in Hc. injection Hc as <-. right.
      split_and!; try done; by eapply vertex_extends.
    + rewrite lookup_insert_ne in Hc by done. by left.
  - by eapply extends_trans.
  - intros Hfl0 Hmin0. destruct (Hflags Hfl0 Hmin0) as (Hfl & Hr & Hle).
    assert (flags_le s s') as Hle' by (by intros v Hv).
    split_and!.
    + eapply (flags_ok_step s s'); try done; [apply Hsem | | |].
      * intros v m Hm Hflag. left. by exists m.
      * intros k c Hc. cbn in Hc.
        destruct (decide ((high, low) = k)) as [<-|Hne].
        -- rewrite lookup_insert_eq in Hc. injection Hc as <-. by right.
        -- rewrite lookup_insert_ne in Hc by done. by left.
      * intros v c Hc. by left.
    + done.
    + by eapply flags_le_trans.
Qed.

Lemma above_same_level s n n' v :
  order n = order n' → index n = index n' → above s n v → above s n' v.
Proof.
  intros Ho Hi [? | (m & Hm & Hb)]; [by left|].
  right. exists m. split; [done|]. unfold before in *. lia.
Qed.

Lemma above_root s v n r :
  nodes s !! v = Some n → above s n r → root_le s v r.
Proof.
  intros Hn [? | (m & Hm & Hb)]; [by left|].
  right. exists n, m. split_and!; try done. unfold before, not_after in *. lia.
Qed.

Lemma height_le_node_inv s v n k :
  terminal v = false → nodes s !! v = Some n → height_le s v k →
  ∃ k', k = S k' ∧ height_le s (n~>high) k' ∧ height_le s (n~>low) k'.
Proof.
  intros Ht Hn H. inversion H; subst; [congruence|].
  assert (n0 = n) as -> by congruence. eauto.
Qed.

(** A fetch keeps the flags. *)
Lemma FetchUniqueTable_flags i h l o md s r s' :
  flags_ok s → store_ok s → store_ok s' → extends s s' →
  ((∃ n, nodes s !! r = Some n) ∧ s' = s
   ∨ nodes s !! r = None
     ∧ nodes s' = <[r := mkSetNode i o h l md false false []]> (nodes s)) →
  subsume_table_ s' = subsume_table_ s →
  minimal_results_ s' = minimal_results_ s →
  flags_ok s' ∧ flags_le s s'.
Proof.
  intros Hfl Hok Hok' Hext Hnodes Hsub Hmin.
  destruct Hnodes as [[_ ->] | [Hnone Hnew]];
    [split; [done | apply flags_le_refl]|].
  assert (flags_le s s') as Hle.
  { apply flags_le_new_nodes; [done|]. intros v n m Hn Hm Hflag.
    rewrite Hnew, lookup_insert_ne in Hm by congruence. congruence. }
  split; [|done].
  eapply (flags_ok_step s s'); try done.
  - intros v m Hm Hflag. left. rewrite Hnew in Hm.
    destruct (decide (r = v)) as [<-|Hne].
    + rewrite lookup_insert_eq in Hm. by injection Hm as <-.
    + rewrite lookup_insert_ne in Hm by done. by exists m.
  - intros k c Hc. left. by rewrite <- Hsub.
  - intros v c Hc. left. by rewrite <- Hmin.
Qed.

(** Setting the flag of a node whose branches are minimal and whose family
    is an antichain keeps the flags. *)
Lemma set_minimal_true_flags s v n :
  flags_ok s → store_ok s → nodes s !! v = Some n →
  minimal_vertex s (n~>high) → minimal_vertex s (n~>low) →
  antichain s v →
  let s' := set_nodes (insert v (with_minimal true n)) s in
  flags_ok s' ∧ flags_le s s' ∧ minimal_vertex s' v.
Proof.
  intros Hfl Hok Hn Hh Hl Hanti s'.
  assert (extends s s') as Hext by (by apply extends_set_minimal).
  assert (flags_le s s') as Hle.
  { apply flags_le_new_nodes; [done|]. intros w k m Hk Hm Hflag.
    unfold s' in Hm. cbn in Hm. destruct (decide (v = w)) as [<-|Hne].
    - rewrite lookup_insert_eq in Hm. by injection Hm as <-.
    - rewrite lookup_insert_ne in Hm by done. congruence. }
  split_and!; try done.
  - eapply (flags_ok_step s s'); try done.
    + intros w m Hm Hflag. unfold s' in Hm. cbn in Hm.
      destruct (decide (v = w)) as [<-|Hne].
      * rewrite lookup_insert_eq in Hm. injection Hm as <-. right. cbn.
        split_and!; try (by apply Hle).
        eapply antichain_extends; [done | done | by eapply vertex_node
                                  | done].
      * rewrite lookup_insert_ne in Hm by done. left. by exists m.
    + intros k c Hc. by left.
    + intros w c Hc. by left.
  - right. exists (with_minimal true n). split; [|done].
    unfold s'. cbn. by rewrite lookup_insert_eq.
Qed.

(** The end of Subsume, given what the calls on the branches guarantee. *)
Lemma Subsume_emit_ok s0 s high low hn subhigh sublow r s' :
  sem_ok s0 → sem_ok s → extends s0 s →
  nodes s0 !! high = Some hn → vertex s0 low →
  vertex s subhigh → vertex s sublow →
  above s hn subhigh → above s hn sublow →
  (∀ k, height_le s high (S k) →
        height_le s subhigh k ∧ height_le s sublow k) →
  (∀ X, subsume_family s high low X ↔
        in_family s sublow X
        ∨ ∃ X', X = index hn :: X' ∧ in_family s subhigh X') →
  minimal_results_ s = minimal_results_ s0 →
  (flags_ok s0 → minimal_vertex s0 high →
   flags_ok s ∧ minimal_vertex s subhigh ∧ minimal_vertex s sublow
   ∧ flags_le s0 s) →
  Subsume_emit high low hn subhigh sublow s = Ok r s' →
  subsume_result_ok s0 high low r s'.
Proof.
  intros Hsem0 Hsem Hext Hhn Hlow Hvh Hvl Hah Hal Hheight Hfam Hmin Hflags H.
  pose proof (sem_store _ Hsem0) as Hok0.
  pose proof (sem_store _ Hsem) as Hok.
  pose proof (store_ok_not_terminal _ _ _ Hok0 Hhn) as Hth.
  destruct (ext_nodes _ _ Hext high hn Hhn)
    as (hn1 & Hhn1 & Hi1 & Ho1 & Hh1 & Hl1 & _).
  assert (vertex s high) as Hhigh by (by eapply vertex_node).
  assert (vertex s low) as Hlow' by (by eapply vertex_extends).
  unfold Subsume_emit in H.
  destruct (terminal subhigh && negb (value subhigh)) eqn:Hempty.
  - (* the reduction rule *)
    apply empty_terminal_iff in Hempty as ->.
    inv_bind H as u s1 Hmemo. inv_run Hmemo. inv_run H.
    apply subsume_memo_ok; try done.
    + split.
      * done.
      * eapply above_root; [done|]. by eapply above_same_level.
      * intros k Hk.
        destruct (height_le_node_inv _ _ _ _ Hth Hhn1 Hk)
          as (k' & -> & _).
        apply (height_le_mono _ _ k'); [lia|]. by apply Hheight.
      * intros X. rewrite Hfam. split; [by left|].
        intros [? | (X' & _ & HX')]; [done|].
        by apply in_family_kEmpty in HX'.
    + intros Hfl0 Hmin0. destruct (Hflags Hfl0 Hmin0) as (? & ? & ? & ?).
      done.
  - (* the node of the result *)
    inv_bind H as u s1 Hne. inv_run Hne.
    inv_bind H as new_high s1 Hfetch.
    inv_bind H as hn2 s2 Hhn2. inv_run Hhn2.
    inv_bind H as u2 s2' Hset.
    apply set_minimal_Ok in Hset as (n1 & Hn1 & ->).
    inv_bind H as u3 s3 Hmemo. inv_run Hmemo. inv_run H.
    rename H1 into Hhn2.
    assert (subhigh ≠ kEmpty_) as Hnonempty.
    { intros Heq. apply empty_terminal_iff in Heq. congruence. }
    assert (subhigh ≠ sublow) as Hdiff by lia.
    assert (above s (mkSetNode (index hn) (order hn) subhigh sublow
                       (module hn) false false []) subhigh) as Hab1
      by (by apply (above_same_level s hn)).
    assert (above s (mkSetNode (index hn) (order hn) subhigh sublow
                       (module hn) false false []) sublow) as Hab2
      by (by apply (above_same_level s hn)).
    assert (∀ w m, nodes s !! w = Some m → index m = index hn →
                   order m = order hn) as Hord.
    { intros w m Hm Heq. rewrite Ho1.
      eapply (ok_order _ Hok); [done | done | congruence]. }
    destruct (FetchUniqueTable_store_ok _ _ _ _ _ _ _ _ Hok Hvh Hvl
                Hnonempty Hdiff Hab1 Hab2 Hord Hfetch)
      as (Hok1 & Hext1 & (n1' & Hn1' & Hi & Ho & Hhigh1 & Hlow1)
          & Hnodes & Hsub1 & Hmin1).
    assert (n1' = n1) as -> by congruence.
    set (flag := minimal hn2) in *.
    set (s2 := set_nodes (insert r (with_minimal flag n1)) s1).
    assert (extends s1 s2) as Hext2 by (by apply extends_set_minimal).
    assert (store_ok s2) as Hok2 by (by apply store_ok_set_minimal).
    assert (sem_ok s1) as Hsem1.
    { eapply (sem_ok_step s s1); try done. intros h l c Hc. left.
      by rewrite <- Hsub1. }
    assert (sem_ok s2) as Hsem2.
    { eapply (sem_ok_step s1 s2); try done. intros h l c Hc. by left. }
    assert (extends s s2) as Hext02 by (by eapply extends_trans).
    assert (nodes s2 !! r = Some (with_minimal flag n1)) as Hnew2.
    { unfold s2. cbn. by rewrite lookup_insert_eq. }
    assert (terminal r = false) as Htn
      by (by eapply store_ok_not_terminal).
    destruct (ext_nodes _ _ Hext02 high hn1 Hhn1)
      as (hn3 & Hhn3 & Hi3 & Ho3 & _).
    apply subsume_memo_ok; try done.
    + by eapply extends_trans.
    + by eapply vertex_extends.
    + by eapply vertex_extends.
    + split.
      * by eapply vertex_node.
      * right. exists hn3, (with_minimal flag n1). split_and!; try done.
        unfold not_after. cbn. lia.
      * intros k Hk.
        destruct (height_le_node_inv _ _ _ _ Hth Hhn3 Hk)
          as (k' & -> & _).
        eapply height_node; [done | done | |]; cbn.
        -- rewrite Hhigh1. eapply height_le_extends; [done|].
           apply Hheight. by eapply height_le_restrict.
        -- rewrite Hlow1. eapply height_le_extends; [done|].
           apply Hheight. by eapply height_le_restrict.
      * intros X. rewrite (in_family_node _ _ _ _ Htn Hnew2). cbn.
        rewrite Hhigh1, Hlow1, Hi.
        rewrite (subsume_family_extends s s2) by done.
        rewrite Hfam.
        rewrite (in_family_extends_iff s s2 sublow) by done.
        split; (intros [? | (X' & -> & HX')]; [by left | right]);
          exists X'; (split; [done|]).
        -- by apply (in_family_extends_iff s s2 subhigh) in HX'.
        -- by apply (in_family_extends_iff s s2 subhigh).
    + cbn. congruence.
    + intros Hfl0 Hmin0.
      destruct (Hflags Hfl0 Hmin0) as (Hfl & Hmh & Hml & Hle).
      destruct (FetchUniqueTable_flags (index hn) subhigh sublow (order hn)
                  (module hn) s r s1) as [Hfl1 Hle1]; try done.
      assert (flag = true) as ->.
      { assert (minimal_vertex s1 high) as [? | (m & Hm & Hflag)]
          by (by apply Hle1, Hle); [congruence|].
        unfold flag. congruence. }
      destruct (set_minimal_true_flags s1 r n1)
        as (Hfl2 & Hle2 & Hmr); try done.
      * rewrite Hhigh1. by apply Hle1.
      * rewrite Hlow1. by apply Hle1.
      * assert (antichain s high) as Hanti.
        { destruct (Hle high Hmin0) as [? | (m & Hm & Hflag)];
            [congruence|].
          by eapply (fl_antichain _ Hfl). }
        intros X Y HX HY.
        assert (∀ Z, in_family s1 r Z → in_family s high Z) as Hsubf.
        { intros Z HZ.
          assert (subsume_family s high low Z) as [? _]; [|done].
          apply Hfam.
          apply (in_family_node _ _ _ _ Htn Hn1) in HZ
            as [HZ | (Z' & -> & HZ)].
          - left. rewrite Hlow1 in HZ.
            by apply (in_family_extends_iff s s1 sublow) in HZ.
          - right. exists Z'. split; [congruence|].
            rewrite Hhigh1 in HZ.
            by apply (in_family_extends_iff s s1 subhigh) in HZ. }
        apply Hanti; by apply Hsubf.
      * split_and!; try done.
        eapply flags_le_trans; [done|]. by eapply flags_le_trans.
Qed.

Lemma unit_free_node_inv s v n :
  terminal v = false → nodes s !! v = Some n → unit_free s v →
  n~>low ≠ kBase_ ∧ unit_free s (n~>high) ∧ unit_free s (n~>low).
Proof.
  intros Ht Hn H. inversion H; subst; [congruence|].
  assert (n0 = n) as -> by congruence. done.
Qed.

Lemma minimal_vertex_node s v n :
  terminal v = false → nodes s !! v = Some n → minimal_vertex s v →
  minimal n = true.
Proof. intros Ht Hn [? | (m & Hm & Hflag)]; congruence. Qed.

(** Every run of Subsume that returns keeps the invariant of the engine and
    returns a vertex that denotes the sets of [high] that include no set of
    [low]. *)
Lemma Subsume_run_ok fuel :
  ∀ high low s r s',
    sem_ok s → vertex s high → vertex s low → unit_free s low →
    Subsume fuel high low s = Ok r s' →
    subsume_result_ok s high low r s'.
Proof.
  induction fuel as [|fuel IH]; intros high low s r s' Hsem Hh Hl Hfree H;
    [done|].
  pose proof (sem_store _ Hsem) as Hok.
  cbn -[terminal] in H.
  destruct (terminal low) eqn:Htl.
  { (* [low] is a terminal *)
    inv_ret H. split_and!; [done | apply extends_refl | | done |].
    - destruct (value low) eqn:Hval.
      + assert (low = kBase_) as -> by (unfold value in Hval; lia).
        split; [by left | by left | by constructor |].
        intros X. split; intros HX.
        * by apply in_family_kEmpty in HX.
        * by apply subsume_family_kBase_low in HX.
      + assert (low = kEmpty_) as ->.
        { apply terminal_iff in Htl as [-> | ->]; done. }
        split; [done | by apply root_le_refl | done |].
        intros X. by rewrite subsume_family_kEmpty_low.
    - intros Hfl Hmin. split_and!; [done | | apply flags_le_refl].
      destruct (value low); [by left | done]. }
  destruct (terminal high) eqn:Hth.
  { (* [high] is a terminal *)
    inv_ret H. split_and!; [done | apply extends_refl | | done |].
    - split; [done | by left | by constructor |].
      intros X. by rewrite subsume_family_terminal_high.
    - intros Hfl Hmin. split_and!; [done | done | apply flags_le_refl]. }
  inv_get H as computed.
  destruct (subsume_table_ s !! (high, low)) as [c|] eqn:Hc.
  { (* the result is in the table *)
    inv_ret H. destruct (sem_subsume _ Hsem _ _ _ Hc) as (_ & _ & Hpost).
    split_and!; [done | apply extends_refl | done | done |].
    intros Hfl Hmin. split_and!; [done | | apply flags_le_refl].
    by eapply (fl_subsume _ Hfl). }
  inv_ptr H as hn Hhn. inv_ptr H as ln Hln.
  destruct (ok_branches _ Hok _ _ Hhn) as (Hvhh & Hvhl & _).
  destruct (ok_branches _ Hok _ _ Hln) as (Hvlh & Hvll & _).
  destruct (ok_ordered _ Hok _ _ Hhn) as (Hahh & Hahl).
  destruct (unit_free_node_inv _ _ _ Htl Hln Hfree) as (_ & Hfrh & Hfrl).
  destruct ((order hn >? order ln)
            || (order hn =? order ln) && (index hn <? index ln)) eqn:Hskip.
  { (* the root of [low] comes first *)
    assert (before ln hn) as Hb by (unfold before; lia).
    inv_bind H as r1 s1 Hrec. inv_modify H. inv_ret H.
    apply IH in Hrec as (Hsem1 & Hext1 & Hpost1 & Hmin1 & Hflags1);
      try done.
    pose proof (sem_store _ Hsem1) as Hok1.
    destruct (ext_nodes _ _ Hext1 _ _ Hhn) as (hn1 & Hhn1 & Hi1 & Ho1 & _).
    destruct (ext_nodes _ _ Hext1 _ _ Hln)
      as (ln1 & Hln1 & Hi2 & Ho2 & _ & Hll & _).
    apply subsume_memo_ok; try done; try (by eapply vertex_extends).
    destruct Hpost1 as [Hv Hroot Hheight Hfam].
    split; try done.
    intros X. rewrite Hfam.
    rewrite (subsume_family_skip s1 high low hn1 ln1) by
      (try done; unfold before in *; lia).
    by rewrite Hll. }
  assert (∀ s3 : Zbdd, extends s s3 → store_ok s3 →
    ∃ hn3, nodes s3 !! high = Some hn3 ∧ index hn3 = index hn
           ∧ order hn3 = order hn ∧ hn3~>high = hn~>high
           ∧ hn3~>low = hn~>low) as Hhigh3.
  { intros s3 Hext3 _.
    destruct (ext_nodes _ _ Hext3 _ _ Hhn) as (m & Hm & ? & ? & ? & ? & _).
    exists m. by split_and!. }
  assert (flags_ok s → minimal_vertex s high →
          minimal_vertex s (hn~>high) ∧ minimal_vertex s (hn~>low))
    as Hbranches.
  { intros Hfl Hmin. eapply (fl_closed _ Hfl); [done|].
    by eapply minimal_vertex_node. }
  destruct ((order hn =? order ln) && (index hn =? index ln)) eqn:Hsame.
  { (* both roots carry the same literal *)
    assert (index hn = index ln) as Hi by lia.
    inv_bind H as sh1 s1 Hrun1. inv_bind H as subhigh s2 Hrun2.
    inv_bind H as sublow s3 Hrun3.
    apply IH in Hrun1 as (Hsem1 & Hext1 & Hpost1 & Hmin1 & Hflags1);
      try done.
    pose proof (sem_store _ Hsem1) as Hok1.
    apply IH in Hrun2 as (Hsem2 & Hext2 & Hpost2 & Hmin2 & Hflags2);
      try done; [|apply Hpost1 | by eapply vertex_extends
                 | by eapply unit_free_extends].
    pose proof (sem_store _ Hsem2) as Hok2.
    assert (extends s s2) as Hext02 by (by eapply extends_trans).
    apply IH in Hrun3 as (Hsem3 & Hext3 & Hpost3 & Hmin3 & Hflags3);
      try done; try (by eapply vertex_extends);
      [|by eapply unit_free_extends].
    pose proof (sem_store _ Hsem3) as Hok3.
    assert (extends s s3) as Hext03 by (by eapply extends_trans).
    assert (extends s1 s3) as Hext13 by (by eapply extends_trans).
    assert (subsume_post s3 (hn~>high) (ln~>high) sh1) as Hpost1'.
    { apply (subsume_post_extends s1 s3); try done;
        by eapply vertex_extends. }
    assert (subsume_post s3 sh1 (ln~>low) subhigh) as Hpost2'.
    { apply (subsume_post_extends s2 s3); try done.
      - apply (vertex_extends s1 s2); [done | apply Hpost1].
      - by apply (vertex_extends s s2). }
    destruct (Hhigh3 s3 Hext03 Hok3) as (hn3 & Hhn3 & Hi3 & Ho3 & Hh3 & Hl3).
    destruct (ext_nodes _ _ Hext03 _ _ Hln)
      as (ln3 & Hln3 & Hi4 & Ho4 & Hlh3 & Hll3 & _).
    eapply (Subsume_emit_ok s s3); try done.
    - apply Hpost2'.
    - apply Hpost3.
    - eapply above_root_le; [done | | apply Hpost2'].
      eapply above_root_le; [done | | apply Hpost1'].
      by apply (above_extends s s3).
    - eapply above_root_le; [done | | apply Hpost3].
      by apply (above_extends s s3).
    - intros k Hk.
      destruct (height_le_node_inv _ _ _ _ Hth Hhn3 Hk)
        as (k' & [= <-] & Hkh & Hkl).
      rewrite Hh3 in Hkh. rewrite Hl3 in Hkl. split.
      + by apply Hpost2', Hpost1'.
      + by apply Hpost3.
    - intros X.
      rewrite (subsume_family_same s3 high low hn3 ln3) by
        (try done; congruence).
      rewrite Hh3, Hl3, Hi3, <- Hlh3, <- Hll3.
      rewrite <- (sp_family _ _ _ _ Hpost3 X).
      split; (intros [? | (X' & -> & HX')]; [by left | right]);
        exists X'; (split; [done|]).
      + apply Hpost2'. split; [|apply HX'].
        apply Hpost1'. apply HX'.
      + apply Hpost2' in HX' as [HX' ?]. by apply Hpost1' in HX'.
    - congruence.
    - intros Hfl Hmin. destruct (Hbranches Hfl Hmin) as [Hmh Hml].
      destruct (Hflags1 Hfl Hmh) as (Hfl1 & Hm1 & Hle1).
      destruct (Hflags2 Hfl1 Hm1) as (Hfl2 & Hm2 & Hle2).
      destruct (Hflags3 Hfl2) as (Hfl3 & Hm3 & Hle3);
        [by apply Hle2, Hle1|].
      split_and!; try done; [by apply Hle3|].
      eapply flags_le_trans; [done|]. by eapply flags_le_trans. }
  (* the root of [high] comes first *)
  inv_assert H as Hfirst.
  assert (before hn ln) as Hb by (unfold before; lia).
  inv_bind H as subhigh s1 Hrun1. inv_bind H as sublow s2 Hrun2.
  apply IH in Hrun1 as (Hsem1 & Hext1 & Hpost1 & Hmin1 & Hflags1);
    try done.
  pose proof (sem_store _ Hsem1) as Hok1.
  apply IH in Hrun2 as (Hsem2 & Hext2 & Hpost2 & Hmin2 & Hflags2);
    try done; try (by eapply vertex_extends);
    [|by eapply unit_free_extends].
  pose proof (sem_store _ Hsem2) as Hok2.
  assert (extends s s2) as Hext02 by (by eapply extends_trans).
  assert (subsume_post s2 (hn~>high) low subhigh) as Hpost1'.
  { apply (subsume_post_extends s1 s2); try done;
      by eapply vertex_extends. }
  destruct (Hhigh3 s2 Hext02 Hok2) as (hn3 & Hhn3 & Hi3 & Ho3 & Hh3 & Hl3).
  destruct (ext_nodes _ _ Hext02 _ _ Hln) as (ln3 & Hln3 & Hi4 & Ho4 & _).
  eapply (Subsume_emit_ok s s2); try done.
  - apply Hpost1'.
  - apply Hpost2.
  - eapply above_root_le; [done | | apply Hpost1'].
    by apply (above_extends s s2).
  - eapply above_root_le; [done | | apply Hpost2].
    by apply (above_extends s s2).
  - intros k Hk.
    destruct (height_le_node_inv _ _ _ _ Hth Hhn3 Hk)
      as (k' & [= <-] & Hkh & Hkl).
    rewrite Hh3 in Hkh. rewrite Hl3 in Hkl. split.
    + by apply Hpost1'.
    + by apply Hpost2.
  - intros X.
    rewrite (subsume_family_diff s2 high low hn3 ln3) by
      (try done; unfold before in *; lia).
    rewrite Hh3, Hl3, Hi3.
    rewrite <- (sp_family _ _ _ _ Hpost2 X).
    split; (intros [? | (X' & -> & HX')]; [by left | right]);
      exists X'; (split; [done|]); by apply Hpost1'.
  - congruence.
  - intros Hfl Hmin. destruct (Hbranches Hfl Hmin) as [Hmh Hml].
    destruct (Hflags1 Hfl Hmh) as (Hfl1 & Hm1 & Hle1).
    destruct (Hflags2 Hfl1) as (Hfl2 & Hm2 & Hle2); [by apply Hle1|].
    split_and!; try done; [by apply Hle2|].
    by eapply flags_le_trans.
Qed.

(** ** Subsume returns *)

(** Every vertex but [kEmpty_] denotes a set. *)
Lemma family_nonempty s v :
  store_ok s → vertex s v → v ≠ kEmpty_ → ∃ X, in_family s v X.
Proof.
  intros Hok Hv. pose proof (height_le_exists s v Hok Hv) as Hk.
  induction Hk as [v k Ht|v n k Ht Hn Hh IHh Hl IHl]; intros Hne.
  - apply terminal_iff in Ht as [-> | ->]; [done|].
    exists []. constructor.
  - destruct (ok_branches _ Hok v n Hn) as (Hvh & _).
    destruct (ok_reduced _ Hok v n Hn) as (Hhe & _).
    destruct (IHh Hvh Hhe) as [X HX].
    exists (index n :: X). by eapply in_family_high.
Qed.

(** A vertex that is flagged minimal holds the empty set nowhere. *)
Lemma minimal_unit_free s v :
  store_ok s → flags_ok s → vertex s v → minimal_vertex s v → unit_free s v.
Proof.
  intros Hok Hfl Hv. pose proof (height_le_exists s v Hok Hv) as Hk.
  induction Hk as [v k Ht|v n k Ht Hn Hh IHh Hl IHl]; intros Hmin.
  - by constructor.
  - pose proof (minimal_vertex_node _ _ _ Ht Hn Hmin) as Hflag.
    destruct (ok_branches _ Hok v n Hn) as (Hvh & Hvl & _).
    destruct (ok_reduced _ Hok v n Hn) as (Hhe & _).
    destruct (fl_closed _ Hfl v n Hn Hflag) as [Hmh Hml].
    eapply unit_free_node; [done | done | | by apply IHh | by apply IHl].
    intros Hbase.
    destruct (family_nonempty s (n~>high) Hok Hvh Hhe) as [X HX].
    assert (in_family s v []) as Hunit.
    { eapply in_family_low; [done | done |]. rewrite Hbase. constructor. }
    assert (in_family s v (index n :: X)) as Hset
      by (by eapply in_family_high).
    pose proof (fl_antichain _ Hfl v n Hn Hflag _ _ Hset Hunit) as Hsub.
    assert (index n ∈ ([] : list Z)) as Hin.
    { apply Hsub; [apply subseteq_nil_l | by left]. }
    by apply elem_of_nil in Hin.
Qed.

(** The two branches of a node whose family is an antichain share no set. *)
Lemma antichain_branches_differ s v n r :
  store_ok s → nodes s !! v = Some n → antichain s v →
  vertex s r → r ≠ kEmpty_ →
  (∀ X, in_family s r X → in_family s (n~>high) X) →
  (∀ X, in_family s r X → in_family s (n~>low) X) →
  False.
Proof.
  intros Hok Hn Ha Hr Hne Hhigh Hlow.
  pose proof (store_ok_not_terminal _ _ _ Hok Hn) as Ht.
  destruct (family_nonempty s r Hok Hr Hne) as [X HX].
  assert (in_family s v (index n :: X)) as H1.
  { eapply in_family_high; [done | done | by apply Hhigh]. }
  assert (in_family s v X) as H2.
  { eapply in_family_low; [done | done | by apply Hlow]. }
  assert (index n ∈ X) as Hin.
  { apply (Ha _ _ H1 H2); [by apply subseteq_cons_r | by left]. }
  eapply in_family_high_fresh; [done | done | by apply Hhigh | done].
Qed.

(** FetchUniqueTable returns a node when the order is positive. *)
Lemma FetchUniqueTable_returns i h l o md s :
  store_ok s → 0 < o →
  ∃ r s', FetchUniqueTable i h l o md s = Ok r s'
          ∧ is_Some (nodes s' !! r)
          ∧ ∀ v, is_Some (nodes s !! v) → is_Some (nodes s' !! v).
Proof.
  intros Hok Ho. unfold FetchUniqueTable.
  destruct (unique_table_ s !! (i, h, l)) as [v|] eqn:Hv.
  - destruct (ok_unique _ Hok _ _ _ _ Hv) as (n & Hn & _).
    exists v, s. by split_and!.
  - destruct (Z.ltb_spec 0 o); [|lia].
    eexists _, _. split; [done|]. cbn. split.
    + by rewrite lookup_insert_eq.
    + intros v [n Hn]. destruct (decide (set_id_ s = v)) as [<-|Hne].
      * by rewrite lookup_insert_eq.
      * by rewrite lookup_insert_ne.
Qed.

(** The end of Subsume returns unless the two branches of the result are
    one vertex. *)
Lemma Subsume_emit_returns s high low hn hn' subhigh sublow :
  store_ok s → nodes s !! high = Some hn' → 0 < order hn →
  (∃ r s', Subsume_emit high low hn subhigh sublow s = Ok r s')
  ∨ (Subsume_emit high low hn subhigh sublow s = Err AssertionFailure
     ∧ subhigh = sublow ∧ subhigh ≠ kEmpty_).
Proof.
  intros Hok Hhigh Ho. unfold Subsume_emit.
  destruct (terminal subhigh && negb (value subhigh)) eqn:Hempty.
  { left. by eexists _, _. }
  destruct (Z.eqb_spec subhigh sublow) as [Heq|Hne].
  { right. split_and!; [done | done |]. intros ->. done. }
  left. cbn [negb]. rewrite bind_assert_true.
  destruct (FetchUniqueTable_returns (index hn) subhigh sublow (order hn)
              (module hn) s Hok Ho) as (r & s1 & Hrun & [n Hn] & Hkeep).
  rewrite (bind_run _ _ _ _ _ Hrun).
  destruct (Hkeep high) as [hn1 Hhn1]; [by eexists|].
  rewrite bind_SetNode_Ptr, Hhn1.
  rewrite (bind_run _ _ _ tt
             (set_nodes (insert r (with_minimal (minimal hn1) n)) s1)).
  - by eexists _, _.
  - unfold set_minimal. by rewrite bind_SetNode_Ptr, Hn.
Qed.

(** Subsume returns when the budget exceeds the heights of its arguments,
    unless an assertion fails; and no assertion fails when [high] is
    flagged minimal. *)
Lemma Subsume_returns fuel :
  ∀ high low s kh kl,
    sem_ok s → vertex s high → vertex s low → unit_free s low →
    height_le s high kh → height_le s low kl → (kh + kl < fuel)%nat →
    (∃ r s', Subsume fuel high low s = Ok r s')
    ∨ (Subsume fuel high low s = Err AssertionFailure
       ∧ ¬ (flags_ok s ∧ minimal_vertex s high)).
Proof.
  induction fuel as [|fuel IH];
    intros high low s kh kl Hsem Hh Hl Hfree Hkh Hkl Hfuel; [lia|].
  pose proof (sem_store _ Hsem) as Hok.
  cbn -[terminal].
  destruct (terminal low) eqn:Htl; [left; by eexists _, _|].
  destruct (terminal high) eqn:Hth; [left; by eexists _, _|].
  rewrite bind_get.
  destruct (subsume_table_ s !! (high, low)) as [c|] eqn:Hc;
    [left; by eexists _, _|].
  destruct Hh as [? | [hn Hhn]]; [congruence|].
  destruct Hl as [? | [ln Hln]]; [congruence|].
  rewrite bind_SetNode_Ptr, Hhn, bind_SetNode_Ptr, Hln.
  destruct (height_le_node_inv _ _ _ _ Hth Hhn Hkh)
    as (kh' & -> & Hkhh & Hkhl).
  destruct (height_le_node_inv _ _ _ _ Htl Hln Hkl)
    as (kl' & -> & Hklh & Hkll).
  destruct (ok_branches _ Hok _ _ Hhn) as (Hvhh & Hvhl & _).
  destruct (ok_branches _ Hok _ _ Hln) as (Hvlh & Hvll & _).
  destruct (unit_free_node_inv _ _ _ Htl Hln Hfree) as (_ & Hfrh & Hfrl).
  pose proof (ok_positive _ Hok _ _ Hhn) as Hpos.
  assert (vertex s high) as Hh by (by eapply vertex_node).
  assert (vertex s low) as Hl by (by eapply vertex_node).
  assert (flags_ok s → minimal_vertex s high →
          minimal_vertex s (hn~>high) ∧ minimal_vertex s (hn~>low)
          ∧ antichain s high) as Hbranches.
  { intros Hfl Hmin.
    pose proof (minimal_vertex_node _ _ _ Hth Hhn Hmin) as Hflag.
    destruct (fl_closed _ Hfl _ _ Hhn Hflag). split_and!; try done.
    by eapply (fl_antichain _ Hfl). }
  destruct ((order hn >? order ln)
            || (order hn =? order ln) && (index hn <? index ln)) eqn:Hskip.
  { (* the root of [low] comes first *)
    destruct (IH high (ln~>low) s (S kh') kl') as [(r1 & s1 & Hrun) | [Hrun Hno]];
      try done; [lia | |].
    - left. rewrite (bind_run _ _ _ _ _ Hrun). by eexists _, _.
    - right. by rewrite (bind_err _ _ _ _ Hrun). }
  destruct ((order hn =? order ln) && (index hn =? index ln)) eqn:Hsame.
  { (* both roots carry the same literal *)
    destruct (IH (hn~>high) (ln~>high) s kh' kl')
      as [(sh1 & s1 & Hrun1) | [Hrun1 Hno]]; try done; [lia | |]; cycle 1.
    { right. rewrite (bind_err _ _ _ _ Hrun1). split; [done|].
      intros [Hfl Hmin]. apply Hno. split; [done|].
      by apply Hbranches. }
    rewrite (bind_run _ _ _ _ _ Hrun1).
    apply Subsume_run_ok in Hrun1
      as (Hsem1 & Hext1 & Hpost1 & _ & Hflags1); try done.
    pose proof (sem_store _ Hsem1) as Hok1.
    destruct (IH sh1 (ln~>low) s1 kh' kl')
      as [(subhigh & s2 & Hrun2) | [Hrun2 Hno]]; try done;
      [apply Hpost1 | by apply (vertex_extends s s1)
       | by apply (unit_free_extends s s1)
       | by apply Hpost1, (height_le_extends s s1)
       | by apply (height_le_extends s s1) | lia | |]; cycle 1.
    { right. rewrite (bind_err _ _ _ _ Hrun2). split; [done|].
      intros [Hfl Hmin]. apply Hno.
      destruct (Hbranches Hfl Hmin) as (Hmh & _).
      destruct (Hflags1 Hfl Hmh) as (? & ? & _). done. }
    rewrite (bind_run _ _ _ _ _ Hrun2).
    apply Subsume_run_ok in Hrun2
      as (Hsem2 & Hext2 & Hpost2 & _ & Hflags2); try done;
      [|apply Hpost1 | by apply (vertex_extends s s1)
       | by apply (unit_free_extends s s1)].
    pose proof (sem_store _ Hsem2) as Hok2.
    assert (extends s s2) as Hext02 by (by eapply extends_trans).
    destruct (IH (hn~>low) (ln~>low) s2 kh' kl')
      as [(sublow & s3 & Hrun3) | [Hrun3 Hno]]; try done;
      [by apply (vertex_extends s s2) | by apply (vertex_extends s s2)
       | by apply (unit_free_extends s s2)
       | by apply (height_le_extends s s2)
       | by apply (height_le_extends s s2) | lia | |]; cycle 1.
    { right. rewrite (bind_err _ _ _ _ Hrun3). split; [done|].
      intros [Hfl Hmin]. apply Hno.
      destruct (Hbranches Hfl Hmin) as (Hmh & Hml & _).
      destruct (Hflags1 Hfl Hmh) as (Hfl1 & Hm1 & Hle1).
      destruct (Hflags2 Hfl1 Hm1) as (Hfl2 & Hm2 & Hle2).
      split; [done|]. by apply Hle2, Hle1. }
    rewrite (bind_run _ _ _ _ _ Hrun3).
    apply Subsume_run_ok in Hrun3
      as (Hsem3 & Hext3 & Hpost3 & _ & Hflags3); try done;
      [|by apply (vertex_extends s s2) | by apply (vertex_extends s s2)
       | by apply (unit_free_extends s s2)].
    pose proof (sem_store _ Hsem3) as Hok3.
    assert (extends s s3) as Hext03 by (by eapply extends_trans).
    destruct (ext_nodes _ _ Hext03 _ _ Hhn)
      as (hn3 & Hhn3 & _ & _ & Hh3 & Hl3 & _).
    destruct (Subsume_emit_returns s3 high low hn hn3 subhigh sublow)
      as [Hrun | (Hrun & Heq & Hne)]; try done; [by left|].
    right. split; [done|]. intros [Hfl Hmin].
    destruct (Hbranches Hfl Hmin) as (Hmh & Hml & Ha).
    apply (antichain_branches_differ s3 high hn3 subhigh); try done.
    - by apply (antichain_extends s s3).
    - apply (vertex_extends s2 s3); [done | apply Hpost2].
    - intros X HX. rewrite <- Hh3.
      apply (in_family_extends_iff s1 s3); [done | by eapply extends_trans
        | by apply (vertex_extends s s1) |].
      apply (in_family_restrict s2 s3) in HX; [|done | done | apply Hpost2].
      apply Hpost2 in HX as [HX _].
      apply (in_family_restrict s1 s2) in HX; [|done | done | apply Hpost1].
      by apply Hpost1 in HX as [HX _].
    - intros X HX. rewrite <- Hl3. rewrite Heq in HX.
      by apply Hpost3 in HX as [HX _]. }
  (* the root of [high] comes first *)
  assert ((order hn <? order ln)
          || (order hn =? order ln) && (index hn >? index ln) = true)
    as -> by lia.
  rewrite bind_assert_true.
  destruct (IH (hn~>high) low s kh' (S kl'))
    as [(subhigh & s1 & Hrun1) | [Hrun1 Hno]]; try done; [lia | |]; cycle 1.
  { right. rewrite (bind_err _ _ _ _ Hrun1). split; [done|].
    intros [Hfl Hmin]. apply Hno. split; [done|]. by apply Hbranches. }
  rewrite (bind_run _ _ _ _ _ Hrun1).
  apply Subsume_run_ok in Hrun1
    as (Hsem1 & Hext1 & Hpost1 & _ & Hflags1); try done.
  pose proof (sem_store _ Hsem1) as Hok1.
  destruct (IH (hn~>low) low s1 kh' (S kl'))
    as [(sublow & s2 & Hrun2) | [Hrun2 Hno]]; try done;
    [by apply (vertex_extends s s1) | by apply (vertex_extends s s1)
     | by apply (unit_free_extends s s1)
     | by apply (height_le_extends s s1)
     | by apply (height_le_extends s s1) | lia | |]; cycle 1.
  { right. rewrite (bind_err _ _ _ _ Hrun2). split; [done|].
    intros [Hfl Hmin]. apply Hno.
    destruct (Hbranches Hfl Hmin) as (Hmh & Hml & _).
    destruct (Hflags1 Hfl Hmh) as (Hfl1 & Hm1 & Hle1).
    split; [done|]. by apply Hle1. }
  rewrite (bind_run _ _ _ _ _ Hrun2).
  apply Subsume_run_ok in Hrun2
    as (Hsem2 & Hext2 & Hpost2 & _ & Hflags2); try done;
    [|by apply (vertex_extends s s1) | by apply (vertex_extends s s1)
     | by apply (unit_free_extends s s1)].
  pose proof (sem_store _ Hsem2) as Hok2.
  assert (extends s s2) as Hext02 by (by eapply extends_trans).
  destruct (ext_nodes _ _ Hext02 _ _ Hhn)
    as (hn3 & Hhn3 & _ & _ & Hh3 & Hl3 & _).
  destruct (Subsume_emit_returns s2 high low hn hn3 subhigh sublow)
    as [Hrun | (Hrun & Heq & Hne)]; try done; [by left|].
  right. split; [done|]. intros [Hfl Hmin].
  destruct (Hbranches Hfl Hmin) as (Hmh & Hml & Ha).
  apply (antichain_branches_differ s2 high hn3 subhigh); try done.
  - by apply (antichain_extends s s2).
  - apply (vertex_extends s1 s2); [done | apply Hpost1].
  - intros X HX. rewrite <- Hh3.
    apply (in_family_extends_iff s1 s2); [done | done
      | by apply (vertex_extends s s1) |].
    apply (in_family_restrict s1 s2) in HX; [|done | done | apply Hpost1].
    by apply Hpost1 in HX as [HX _].
  - intros X HX. rewrite <- Hl3. rewrite Heq in HX.
    by apply Hpost2 in HX as [HX _].
Qed.

(** ** The executable checks are sound *)

Lemma beforeb_before n m : beforeb n m = true → before n m.
Proof. unfold beforeb, before. lia. Qed.

Lemma vertexb_vertex s v : vertexb s v = true → vertex s v.
Proof.
  unfold vertexb, vertex. destruct (terminal v); [by left|].
  destruct (nodes s !! v); [by right | done].
Qed.

Lemma aboveb_above s n v : aboveb s n v = true → above s n v.
Proof.
  unfold aboveb, above. destruct (terminal v); [by left|].
  destruct (nodes s !! v) as [m|]; [|done].
  intros H. right. exists m. split; [done | by apply beforeb_before].
Qed.

Lemma forallb_map_to_list `{Countable K} {A} (f : K * A → bool)
    (m : gmap K A) k a :
  forallb f (map_to_list m) = true → m !! k = Some a → f (k, a) = true.
Proof.
  intros Hall Hk. rewrite forallb_forall in Hall. apply Hall.
  by apply list_elem_of_In, elem_of_map_to_list.
Qed.

Lemma store_okb_sound s : store_okb s = true → store_ok s.
Proof.
  unfold store_okb. intros H.
  apply andb_prop in H as [H Hu]. apply andb_prop in H as [Hid Hn].
  assert (∀ v n, nodes s !! v = Some n →
    node_okb s v n = true
    ∧ ∀ w m, nodes s !! w = Some m →
             implb (index n =? index m) (order n =? order m) = true)
    as Hnode.
  { intros v n Hv.
    pose proof (forallb_map_to_list _ _ _ _ Hn Hv) as Hvn. cbn in Hvn.
    apply andb_prop in Hvn as [Hnb Hall]. split; [done|].
    intros w m Hw. apply (forallb_map_to_list _ _ _ _ Hall Hw). }
  split.
  - lia.
  - intros v n Hv. destruct (Hnode v n Hv) as [Hb _].
    unfold node_okb in Hb. lia.
  - intros v n Hv. destruct (Hnode v n Hv) as [Hb _].
    unfold node_okb in Hb.
    repeat (apply andb_prop in Hb as [Hb ?]).
    split_and!; try lia; by apply vertexb_vertex.
  - intros v n Hv. destruct (Hnode v n Hv) as [Hb _].
    unfold node_okb in Hb.
    repeat (apply andb_prop in Hb as [Hb ?]). lia.
  - intros v n Hv. destruct (Hnode v n Hv) as [Hb _].
    unfold node_okb in Hb.
    repeat (apply andb_prop in Hb as [Hb ?]).
    split; by apply aboveb_above.
  - intros v n w m Hv Hw Heq. destruct (Hnode v n Hv) as [_ Hall].
    specialize (Hall w m Hw). rewrite Heq, Z.eqb_refl in Hall.
    cbn in Hall. lia.
  - intros i h l v Hv.
    pose proof (forallb_map_to_list _ _ _ _ Hu Hv) as Hk. cbn in Hk.
    destruct (nodes s !! v) as [n|]; [|done].
    exists n. split_and!; [done | lia..].
  - intros v n Hv. destruct (Hnode v n Hv) as [Hb _].
    unfold node_okb in Hb. lia.
Qed.


(** A well-formed store with no flag and no stored result satisfies the
    invariants of Subsume and Minimize. *)
Lemma unflaggedb_sound s :
  store_okb s = true → unflaggedb s = true → sem_ok s ∧ flags_ok s.
Proof.
  intros Hok H. apply store_okb_sound in Hok.
  unfold unflaggedb in H. apply andb_prop in H as [Hflags Htables].
  destruct (map_to_list (subsume_table_ s)) eqn:Hs; [|done].
  destruct (map_to_list (minimal_results_ s)) eqn:Hm; [|done].
  apply map_to_list_empty_iff in Hs, Hm.
  assert (∀ v n, nodes s !! v = Some n → minimal n = true → False) as Hno.
  { intros v n Hv Hmin.
    pose proof (forallb_map_to_list _ _ _ _ Hflags Hv) as Hf. cbn in Hf.
    rewrite Hmin in Hf. done. }
  split; split; try done.
  - intros h l r Hr. by rewrite Hs in Hr.
  - intros v n Hv Hmin. by destruct (Hno v n).
  - intros v n Hv Hmin. by destruct (Hno v n).
  - intros k r Hr. by rewrite Hs in Hr.
  - intros v r Hr. by rewrite Hm in Hr.
Qed.

(** ** Subsume: the contract *)




(** ** Minimal sets of a family *)

(** The family of a vertex is finite. *)
Lemma family_listed s v :
  store_ok s → vertex s v →
  ∃ L : list (list Z), ∀ X, in_family s v X ↔ X ∈ L.
Proof.
  intros Hok Hv. pose proof (height_le_exists s v Hok Hv) as Hk.
  induction Hk as [v k Ht|v n k Ht Hn Hh IHh Hl IHl].
  - apply terminal_iff in Ht as [-> | ->].
    + exists []. intros X. rewrite elem_of_nil. split; [|done].
      apply in_family_kEmpty.
    + exists [[]]. intros X. rewrite in_family_kBase.
      rewrite list_elem_of_singleton. done.
  - destruct (ok_branches _ Hok v n Hn) as (Hvh & Hvl & _).
    destruct (IHh Hvh) as [Lh HLh]. destruct (IHl Hvl) as [Ll HLl].
    exists (Ll ++ map (cons (index n)) Lh). intros X.
    rewrite (in_family_node _ _ _ _ Ht Hn), elem_of_app, list_elem_of_fmap.
    rewrite HLl. split; (intros [? | (X' & -> & HX')]; [by left | right]);
      exists X'; (split; [done|]); by apply HLh.
Qed.

(** Whether a set includes a set of a family can be decided. *)
Lemma includes_dec s v (X : list Z) :
  store_ok s → vertex s v →
  (∃ Y, in_family s v Y ∧ Y ⊆ X) ∨ ¬ (∃ Y, in_family s v Y ∧ Y ⊆ X).
Proof.
  intros Hok Hv. destruct (family_listed s v Hok Hv) as [L HL].
  destruct (decide (Exists (λ Y, Y ⊆ X) L)) as [Hyes | Hno].
  - left. apply Exists_exists in Hyes as (Y & HY & Hsub).
    exists Y. split; [by apply HL | done].
  - right. intros (Y & HY & Hsub). apply Hno, Exists_exists.
    exists Y. split; [by apply HL | done].
Qed.

(** A set without duplicates that is properly included in another one is
    shorter. *)
Lemma proper_subset_shorter (Y X : list Z) :
  NoDup Y → Y ⊆ X → ¬ X ⊆ Y → (length Y < length X)%nat.
Proof.
  intros Hnd Hsub Hnot.
  pose proof (NoDup_submseteq Y X Hnd Hsub) as Hms.
  pose proof (submseteq_length _ _ Hms) as Hle.
  destruct (decide (length Y = length X)) as [Heq|]; [|lia].
  exfalso. apply Hnot. intros x Hx.
  assert (X ≡ₚ Y) as Hperm.
  { symmetry. apply submseteq_length_Permutation; [done | lia]. }
  by rewrite <- Hperm.
Qed.

(** Every set of a family includes a minimal set of the family. *)
Lemma minimal_below s v X :
  store_ok s → vertex s v → in_family s v X →
  ∃ Y, minimal_family s v Y ∧ Y ⊆ X.
Proof.
  intros Hok Hv. destruct (family_listed s v Hok Hv) as [L HL].
  assert (∀ (k : nat) X, (length X ≤ k)%nat → in_family s v X →
                         ∃ Y, minimal_family s v Y ∧ Y ⊆ X) as Hall;
    [|by apply (Hall (length X))].
  clear X. induction k as [|k IH]; intros X Hlen HX.
  - exists X. split; [|done]. split; [done|]. intros Y HY Hsub.
    destruct X; [|cbn in Hlen; lia]. apply subseteq_nil_l.
  - destruct (decide (Exists (λ Y, Y ⊆ X ∧ ¬ X ⊆ Y) L)) as [Hyes | Hno].
    + apply Exists_exists in Hyes as (Y & HY & Hsub & Hnot).
      apply HL in HY.
      pose proof (in_family_NoDup _ _ _ Hok HY) as Hnd.
      pose proof (proper_subset_shorter Y X Hnd Hsub Hnot) as Hlt.
      destruct (IH Y) as (Z & HZ & HZY); [lia | done |].
      exists Z. split; [done|]. by etrans.
    + exists X. split; [|done]. split; [done|]. intros Y HY Hsub.
      destruct (decide (X ⊆ Y)) as [|Hnot]; [done|].
      exfalso. apply Hno, Exists_exists. exists Y.
      split_and!; [by apply HL | done | done].
Qed.

(** The minimal sets of a node: the minimal sets of the low branch, and the
    minimal sets of the high branch that include no minimal set of the low
    branch, with the index of the node. *)
Lemma minimal_family_node s v n X :
  store_ok s → nodes s !! v = Some n →
  minimal_family s v X ↔
    minimal_family s (n~>low) X
    ∨ ∃ X', X = index n :: X' ∧ minimal_family s (n~>high) X'
            ∧ ¬ ∃ Y, minimal_family s (n~>low) Y ∧ Y ⊆ X'.
Proof.
  intros Hok Hn.
  pose proof (store_ok_not_terminal _ _ _ Hok Hn) as Ht.
  destruct (ok_branches _ Hok v n Hn) as (Hvh & Hvl & _).
  assert (∀ Y, in_family s (n~>low) Y → index n ∉ Y) as Hfl
    by (intros Y; by apply in_family_low_fresh with v).
  assert (∀ Y, in_family s (n~>high) Y → index n ∉ Y) as Hfh
    by (intros Y; by apply in_family_high_fresh with v).
  split.
  - intros [HX Hmin].
    apply (in_family_node _ _ _ _ Ht Hn) in HX as [HX | (X' & -> & HX')].
    + left. split; [done|]. intros Y HY. apply Hmin.
      by eapply in_family_low.
    + right. exists X'. split_and!; [done | |].
      * split; [done|]. intros Y HY Hsub.
        assert (index n :: X' ⊆ index n :: Y) as Hinc.
        { apply Hmin; [by eapply in_family_high|].
          apply subseteq_cons_cons; [by apply Hfh | done]. }
        apply subseteq_cons_cons in Hinc; [done | by apply Hfh].
      * intros (Y & [HY _] & Hsub).
        assert (index n :: X' ⊆ Y) as Hinc.
        { apply Hmin; [by eapply in_family_low|].
          by apply subseteq_cons_r. }
        eapply subseteq_cons_not; [|done]. by apply Hfl.
  - intros [[HX Hmin] | (X' & -> & [HX' Hmin] & Hno)].
    + split; [by eapply in_family_low|]. intros Y HY Hsub.
      apply (in_family_node _ _ _ _ Ht Hn) in HY as [HY | (Y' & -> & HY')].
      * by apply Hmin.
      * exfalso. eapply subseteq_cons_not; [|done]. by apply Hfl.
    + split; [by eapply in_family_high|]. intros Y HY Hsub.
      apply (in_family_node _ _ _ _ Ht Hn) in HY as [HY | (Y' & -> & HY')].
      * exfalso. destruct (minimal_below s (n~>low) Y Hok Hvl HY)
          as (Z & HZ & HZY).
        apply Hno. exists Z. split; [done|].
        assert (Z ⊆ index n :: X') as Hinc by (by etrans).
        apply subseteq_cons_fresh in Hinc; [done|].
        apply Hfl, HZ.
      * apply subseteq_cons_cons in Hsub; [|by apply Hfh].
        apply subseteq_cons_cons; [by apply Hfh|]. by apply Hmin.
Qed.

(** The minimal sets of a family form an antichain, and the minimal sets of
    an antichain are all its sets. *)
Lemma minimal_family_antichain s v r :
  (∀ X, in_family s r X ↔ minimal_family s v X) → antichain s r.
Proof.
  intros Hfam X Y HX HY Hsub. apply Hfam in HX as [_ Hmin].
  apply Hmin; [|done]. by apply Hfam in HY as [HY _].
Qed.

Lemma antichain_minimal_family s v X :
  antichain s v → in_family s v X ↔ minimal_family s v X.
Proof.
  intros Ha. split; [|by intros [? _]].
  intros HX. split; [done|]. intros Y HY. by apply Ha.
Qed.

(** ** Minimize *)

(** The memoisation of a result of Minimize. *)
Lemma minimize_memo_ok s0 s v r :
  sem_ok s → flags_ok s → extends s0 s → flags_le s0 s →
  vertex s v → minimize_post s v r →
  minimize_result_ok s0 v r (set_minimal_results (insert v r) s).
Proof.
  intros Hsem Hfl Hext0 Hle0 Hv Hpost.
  pose proof (sem_store _ Hsem) as Hok.
  set (s' := set_minimal_results (insert v r) s).
  assert (extends s s') as Hext by (by apply extends_same_nodes).
  assert (store_ok s') as Hok' by (by eapply store_ok_same_nodes).
  assert (flags_le s s') as Hle by (by intros w Hw).
  assert (minimize_post s' v r) as Hpost'
    by (by apply (minimize_post_extends s s')).
  split_and!;
    [| | by eapply extends_trans | by eapply flags_le_trans | done].
  - eapply sem_ok_step; [done | done | done |]. intros h l c Hc. by left.
  - eapply (flags_ok_step s s'); try done.
    + intros w m Hm Hflag. left. by exists m.
    + intros k c Hc. by left.
    + intros w c Hc. cbn in Hc. destruct (decide (v = w)) as [<-|Hne].
      * rewrite lookup_insert_eq in Hc. injection Hc as <-. right.
        split; [by eapply vertex_extends | done].
      * rewrite lookup_insert_ne in Hc by done. by left.
Qed.

(** A terminal or a node that is flagged minimal is its own minimal
    form. *)
Lemma minimize_post_self s v :
  store_ok s → flags_ok s → vertex s v → minimal_vertex s v →
  minimize_post s v v.
Proof.
  intros Hok Hfl Hv Hmin. split; try done.
  - apply root_le_refl. done.
  - intros X. apply antichain_minimal_family.
    destruct Hmin as [Ht | (n & Hn & Hflag)].
    + intros A B HA HB _.
      apply terminal_iff in Ht as [-> | ->].
      * by apply in_family_kEmpty in HA.
      * apply in_family_kBase in HA, HB. by subst.
    + by eapply (fl_antichain _ Hfl).
Qed.

(** The end of Minimize, given what the calls on the branches and Subsume
    guarantee. *)
Lemma Minimize_emit_ok s0 s v n high low r s' :
  sem_ok s → flags_ok s → extends s0 s → flags_le s0 s →
  store_ok s0 → nodes s0 !! v = Some n →
  vertex s high → vertex s low →
  above s n high → above s n low →
  (∀ k, height_le s v (S k) → height_le s high k ∧ height_le s low k) →
  minimal_vertex s high → minimal_vertex s low →
  (∀ X, in_family s low X ↔ minimal_family s (n~>low) X) →
  (∀ X, in_family s high X ↔
        minimal_family s (n~>high) X
        ∧ ¬ ∃ Y, minimal_family s (n~>low) Y ∧ Y ⊆ X) →
  Minimize_emit v n high low s = Ok r s' →
  minimize_result_ok s0 v r s'.
Proof.
  intros Hsem Hfl Hext Hle Hok0 Hn Hvh Hvl Hah Hal Hheight Hmh Hml
    Hflow Hfhigh H.
  pose proof (sem_store _ Hsem) as Hok.
  pose proof (store_ok_not_terminal _ _ _ Hok0 Hn) as Ht.
  destruct (ext_nodes _ _ Hext v n Hn)
    as (n' & Hn' & Hi' & Ho' & Hh' & Hl' & _).
  assert (vertex s v) as Hv by (by eapply vertex_node).
  unfold Minimize_emit in H. inv_assert H as Hdiff.
  assert (high ≠ low) as Hne by lia.
  assert (∀ X, minimal_family s v X ↔
               in_family s low X
               ∨ ∃ X', X = index n :: X' ∧ in_family s high X') as Hfam.
  { intros X. rewrite (minimal_family_node s v n' X Hok Hn').
    rewrite <- Hh', <- Hl', <- Hi', Hflow.
    split; (intros [? | (X' & -> & HX')]; [by left | right]);
      exists X'; (split; [done|]); by apply Hfhigh. }
  destruct (terminal high && negb (value high)) eqn:Hempty.
  - (* the reduction rule *)
    apply empty_terminal_iff in Hempty as ->.
    inv_modify H. inv_ret H.
    apply minimize_memo_ok; try done. split; try done.
    + eapply above_root; [done|]. by eapply above_same_level.
    + intros k Hk.
      destruct (height_le_node_inv _ _ _ _ Ht Hn' Hk) as (k' & -> & _).
      apply (height_le_mono _ _ k'); [lia|]. by apply Hheight.
    + intros X. rewrite Hfam. split; [by left|].
      intros [? | (X' & _ & HX')]; [done|].
      by apply in_family_kEmpty in HX'.
  - (* the node of the result *)
    inv_bind H as r1 s1 Hfetch. inv_modify H.
    inv_bind H as u2 s2 Hset.
    apply set_minimal_Ok in Hset as (n1 & Hn1 & ->). inv_ret H.
    rename r1 into r. cbn in Hn1.
    assert (high ≠ kEmpty_) as Hnonempty.
    { intros Heq. apply empty_terminal_iff in Heq. congruence. }
    assert (above s (mkSetNode (index n) (order n) high low
                       (module n) false false []) high) as Hab1
      by (by apply (above_same_level s n)).
    assert (above s (mkSetNode (index n) (order n) high low
                       (module n) false false []) low) as Hab2
      by (by apply (above_same_level s n)).
    assert (∀ w m, nodes s !! w = Some m → index m = index n →
                   order m = order n) as Hord.
    { intros w m Hm Heq. rewrite Ho'.
      eapply (ok_order _ Hok); [done | done | congruence]. }
    destruct (FetchUniqueTable_store_ok _ _ _ _ _ _ _ _ Hok Hvh Hvl
                Hnonempty Hne Hab1 Hab2 Hord Hfetch)
      as (Hok1 & Hext1 & (n1' & Hn1' & Hi & Ho & Hhigh1 & Hlow1)
          & Hnodes & Hsub1 & Hmin1).
    assert (n1' = n1) as -> by congruence.
    destruct (FetchUniqueTable_flags (index n) high low (order n)
                (module n) s r s1) as [Hfl1 Hle1]; try done.
    assert (sem_ok s1) as Hsem1.
    { eapply (sem_ok_step s s1); try done. intros h l c Hc. left.
      by rewrite <- Hsub1. }
    assert (terminal r = false) as Htr
      by (by eapply store_ok_not_terminal).
    assert (∀ X, in_family s1 r X ↔ minimal_family s1 v X) as Hfam1.
    { intros X. rewrite (in_family_node _ _ _ _ Htr Hn1).
      rewrite Hhigh1, Hlow1, Hi.
      rewrite (minimal_family_extends s s1) by done. rewrite Hfam.
      rewrite (in_family_extends_iff s s1 low) by done.
      split; (intros [? | (X' & -> & HX')]; [by left | right]);
        exists X'; (split; [done|]).
      - by apply (in_family_extends_iff s s1 high) in HX'.
      - by apply (in_family_extends_iff s s1 high). }
    destruct (set_minimal_true_flags s1 r n1)
      as (Hfl2 & Hle2 & Hmr); try done.
    { rewrite Hhigh1. by apply Hle1. }
    { rewrite Hlow1. by apply Hle1. }
    { by apply (minimal_family_antichain s1 v). }
    set (s2 := set_nodes (insert r (with_minimal true n1)) s1) in *.
    assert (extends s1 s2) as Hext2 by (by apply extends_set_minimal).
    assert (store_ok s2) as Hok2 by (by apply store_ok_set_minimal).
    assert (sem_ok s2) as Hsem2.
    { eapply (sem_ok_step s1 s2); try done. intros h l c Hc. by left. }
    assert (extends s s2) as Hext02 by (by eapply extends_trans).
    assert (nodes s2 !! r = Some (with_minimal true n1)) as Hnew2.
    { unfold s2. cbn. by rewrite lookup_insert_eq. }
    destruct (ext_nodes _ _ Hext02 v n' Hn')
      as (n3 & Hn3 & Hi3 & Ho3 & _).
    change (minimize_result_ok s0 v r
              (set_minimal_results (insert v r) s2)).
    apply minimize_memo_ok; try done.
    + by eapply extends_trans.
    + eapply flags_le_trans; [done|]. by eapply flags_le_trans.
    + by eapply vertex_extends.
    + split.
      * by eapply vertex_node.
      * right. exists n3, (with_minimal true n1). split_and!; try done.
        unfold not_after. cbn. lia.
      * intros k Hk.
        destruct (height_le_node_inv _ _ _ _ Ht Hn3 Hk)
          as (k' & -> & _).
        eapply height_node; [done | done | |]; cbn.
        -- rewrite Hhigh1. eapply height_le_extends; [done|].
           apply Hheight. by eapply height_le_restrict.
        -- rewrite Hlow1. eapply height_le_extends; [done|].
           apply Hheight. by eapply height_le_restrict.
      * done.
      * intros X. rewrite (minimal_family_extends s1 s2) by
          (try done; by eapply vertex_extends).
        rewrite <- Hfam1.
        apply (in_family_extends_iff s1 s2); [done | done |].
        by eapply vertex_node.
      * intros _ ->. done.
Qed.

(** Every run of Minimize that returns keeps the invariants of the engine
    and returns a vertex that is flagged minimal and denotes the minimal
    sets of its argument. *)
Lemma Minimize_run_ok fuel :
  ∀ v s r s',
    sem_ok s → flags_ok s → vertex s v →
    Minimize fuel v s = Ok r s' →
    minimize_result_ok s v r s'.
Proof.
  induction fuel as [|fuel IH]; intros v s r s' Hsem Hfl Hv H; [done|].
  pose proof (sem_store _ Hsem) as Hok.
  cbn -[terminal] in H.
  destruct (terminal v) eqn:Ht.
  { inv_ret H. split_and!; [done | done | apply extends_refl
                            | apply flags_le_refl |].
    apply minimize_post_self; try done. by left. }
  inv_ptr H as n Hn.
  destruct (minimal n) eqn:Hflag.
  { inv_ret H. split_and!; [done | done | apply extends_refl
                            | apply flags_le_refl |].
    apply minimize_post_self; try done. right. by exists n. }
  inv_get H as result.
  destruct (minimal_results_ s !! v) as [c|] eqn:Hc.
  { inv_ret H. split_and!; [done | done | apply extends_refl
                            | apply flags_le_refl |].
    by apply (fl_minimal _ Hfl). }
  destruct (ok_branches _ Hok _ _ Hn) as (Hvh & Hvl & _).
  destruct (ok_ordered _ Hok _ _ Hn) as (Hah & Hal).
  inv_bind H as h1 s1 Hrun1. inv_bind H as l1 s2 Hrun2.
  inv_bind H as h2 s3 Hrun3.
  apply IH in Hrun1 as (Hsem1 & Hfl1 & Hext1 & Hle1 & Hpost1); try done.
  pose proof (sem_store _ Hsem1) as Hok1.
  apply IH in Hrun2 as (Hsem2 & Hfl2 & Hext2 & Hle2 & Hpost2);
    try done; [|by apply (vertex_extends s s1)].
  pose proof (sem_store _ Hsem2) as Hok2.
  assert (minimize_post s2 (n~>high) h1) as Hpost1'.
  { by apply (minimize_post_extends s1 s2); try apply (vertex_extends s s1). }
  apply Subsume_run_ok in Hrun3 as (Hsem3 & Hext3 & Hpost3 & Hmin3 & Hflags3);
    try done; [|apply Hpost1' | apply Hpost2 |];
    [|apply minimal_unit_free; try done; apply Hpost2].
  pose proof (sem_store _ Hsem3) as Hok3.
  destruct Hflags3 as (Hfl3 & Hmh2 & Hle3); [done | apply Hpost1'|].
  assert (extends s s2) as Hext02 by (by eapply extends_trans).
  assert (extends s s3) as Hext03 by (by eapply extends_trans).
  assert (minimize_post s3 (n~>high) h1) as Hpost1''.
  { by apply (minimize_post_extends s2 s3);
      try apply (vertex_extends s s2). }
  assert (minimize_post s3 (n~>low) l1) as Hpost2'.
  { by apply (minimize_post_extends s2 s3);
      try apply (vertex_extends s s2). }
  destruct (ext_nodes _ _ Hext03 v n Hn)
    as (n3 & Hn3 & _ & _ & Hh3 & Hl3 & _).
  apply (Minimize_emit_ok s s3 v n h2 l1 r s'); try done.
  - eapply flags_le_trans; [done|]. by eapply flags_le_trans.
  - apply Hpost3.
  - apply Hpost2'.
  - eapply above_root_le; [done | | apply Hpost3].
    eapply above_root_le; [done | | apply Hpost1''].
    by apply (above_extends s s3).
  - eapply above_root_le; [done | | apply Hpost2'].
    by apply (above_extends s s3).
  - intros k Hk.
    destruct (height_le_node_inv _ _ _ _ Ht Hn3 Hk)
      as (k' & [= <-] & Hkh & Hkl).
    rewrite <- Hh3 in Hkh. rewrite <- Hl3 in Hkl. split.
    + by apply Hpost3, Hpost1''.
    + by apply Hpost2'.
  - apply Hpost2'.
  - apply Hpost2'.
  - intros X. rewrite (sp_family _ _ _ _ Hpost3 X). unfold subsume_family.
    rewrite (mp_family _ _ _ Hpost1'' X).
    split; intros [HX Hno]; (split; [done|]);
      intros (Y & HY & Hsub); apply Hno; exists Y; (split; [|done]);
      by apply Hpost2'.
Qed.

(** The end of Minimize returns when the result of Subsume differs from the
    low branch. *)
Lemma Minimize_emit_returns s v n high low :
  store_ok s → 0 < order n → high ≠ low →
  ∃ r s', Minimize_emit v n high low s = Ok r s'.
Proof.
  intros Hok Ho Hne. unfold Minimize_emit.
  destruct (Z.eqb_spec high low) as [|_]; [done|].
  cbn [negb]. rewrite bind_assert_true.
  destruct (terminal high && negb (value high)); [by eexists _, _|].
  destruct (FetchUniqueTable_returns (index n) high low (order n)
              (module n) s Hok Ho) as (r & s1 & Hrun & [m Hm] & _).
  rewrite (bind_run _ _ _ _ _ Hrun), bind_modify.
  rewrite (bind_run _ _ _ tt
             (set_nodes (insert r (with_minimal true m))
                (set_minimal_results (insert v r) s1))).
  - by eexists _, _.
  - unfold set_minimal. by rewrite bind_SetNode_Ptr; cbn; rewrite Hm.
Qed.

(** Minimize returns when the budget exceeds twice the height of its
    argument. *)
Lemma Minimize_returns fuel :
  ∀ v s k,
    sem_ok s → flags_ok s → vertex s v → height_le s v k →
    (2 * k < fuel)%nat →
    ∃ r s', Minimize fuel v s = Ok r s'.
Proof.
  induction fuel as [|fuel IH]; intros v s k Hsem Hfl Hv Hk Hfuel; [lia|].
  pose proof (sem_store _ Hsem) as Hok.
  cbn -[terminal].
  destruct (terminal v) eqn:Ht; [by eexists _, _|].
  destruct Hv as [? | [n Hn]]; [congruence|].
  rewrite bind_SetNode_Ptr, Hn.
  destruct (minimal n) eqn:Hflag; [by eexists _, _|].
  rewrite bind_get.
  destruct (minimal_results_ s !! v) as [c|] eqn:Hc; [by eexists _, _|].
  destruct (height_le_node_inv _ _ _ _ Ht Hn Hk) as (k' & -> & Hkh & Hkl).
  destruct (ok_branches _ Hok _ _ Hn) as (Hvh & Hvl & _).
  destruct (ok_reduced _ Hok _ _ Hn) as (Hhe & _).
  pose proof (ok_positive _ Hok _ _ Hn) as Hpos.
  destruct (IH (n~>high) s k') as (h1 & s1 & Hrun1); try done; [lia|].
  rewrite (bind_run _ _ _ _ _ Hrun1).
  apply Minimize_run_ok in Hrun1
    as (Hsem1 & Hfl1 & Hext1 & Hle1 & Hpost1); try done.
  pose proof (sem_store _ Hsem1) as Hok1.
  destruct (IH (n~>low) s1 k') as (l1 & s2 & Hrun2); try done;
    [by apply (vertex_extends s s1) | by apply (height_le_extends s s1)
     | lia |].
  rewrite (bind_run _ _ _ _ _ Hrun2).
  apply Minimize_run_ok in Hrun2
    as (Hsem2 & Hfl2 & Hext2 & Hle2 & Hpost2); try done;
    [|by apply (vertex_extends s s1)].
  pose proof (sem_store _ Hsem2) as Hok2.
  assert (extends s s2) as Hext02 by (by eapply extends_trans).
  assert (minimize_post s2 (n~>high) h1) as Hpost1'.
  { by apply (minimize_post_extends s1 s2); try apply (vertex_extends s s1). }
  assert (unit_free s2 l1) as Hfree
    by (apply minimal_unit_free; try done; apply Hpost2).
  destruct (Subsume_returns fuel h1 l1 s2 k' k')
    as [(h2 & s3 & Hrun3) | [_ Hno]]; try done;
    [apply Hpost1' | apply Hpost2
     | by apply Hpost1', (height_le_extends s s2)
     | by apply Hpost2, (height_le_extends s s2) | lia | |]; cycle 1.
  { exfalso. apply Hno. split; [done | apply Hpost1']. }
  rewrite (bind_run _ _ _ _ _ Hrun3).
  apply Subsume_run_ok in Hrun3 as (Hsem3 & Hext3 & Hpost3 & _);
    try done; [|apply Hpost1' | apply Hpost2].
  pose proof (sem_store _ Hsem3) as Hok3.
  apply Minimize_emit_returns; [done | done |].
  intros ->.
  assert (vertex s2 h1) as Hvh1 by apply Hpost1'.
  assert (vertex s2 l1) as Hvl1 by apply Hpost2.
  destruct (decide (l1 = kEmpty_)) as [-> | Hne].
  - assert (h1 ≠ kEmpty_) as Hh1 by (by apply Hpost1').
    destruct (family_nonempty s3 h1) as [X HX]; try done;
      [by apply (vertex_extends s2 s3)|].
    apply (in_family_kEmpty s3 X). apply Hpost3. split; [done|].
    intros (Y & HY & _). by apply in_family_kEmpty in HY.
  - destruct (family_nonempty s3 l1) as [X HX]; try done;
      [by apply (vertex_extends s2 s3)|].
    pose proof HX as HX'. apply Hpost3 in HX' as [_ Hno].
    apply Hno. by exists X.
Qed.

(** ** Minimize: idempotence *)

(** Minimize returns a terminal or a node that is flagged minimal as it
    is. *)
Lemma Minimize_minimal_vertex fuel r s :
  minimal_vertex s r → Minimize (S fuel) r s = Ok r s.
Proof.
  intros [Ht | (n & Hn & Hflag)]; cbn -[terminal].
  - by rewrite Ht.
  - destruct (terminal r); [done|].
    by rewrite bind_SetNode_Ptr, Hn, Hflag.
Qed.

(** C7: in a well-formed engine, Minimize(v) returns a vertex [r] that is a
    terminal or is flagged minimal, and Minimize(r) returns the same vertex
    [r], leaving the engine as it is. *)
Theorem Minimize_idempotent fuel fuel' v s :
  sem_ok s → flags_ok s → vertex s v → (2 * Z.to_nat v < fuel)%nat →
  ∃ r s', Minimize fuel v s = Ok r s'
          ∧ minimal_vertex s' r
          ∧ Minimize (S fuel') r s' = Ok r s'.
Proof.
  intros Hsem Hfl Hv Hfuel.
  destruct (Minimize_returns fuel v s (Z.to_nat v)) as (r & s' & Hrun);
    try done; [apply height_le_exists; [apply Hsem | done]|].
  exists r, s'. split; [done|].
  apply Minimize_run_ok in Hrun as (_ & _ & _ & _ & Hpost); try done.
  split; [apply Hpost|]. apply Minimize_minimal_vertex, Hpost.
Qed.

Lemma Minimize_idempotent_witness :
  ∃ r s', Minimize 20 5 node_by_node_state = Ok r s'
          ∧ minimal_vertex s' r
          ∧ Minimize 1 r s' = Ok r s'.
Proof.
  destruct (unflaggedb_sound node_by_node_state) as [Hsem Hfl];
    [vm_compute; reflexivity | vm_compute; reflexivity |].
  apply (Minimize_idempotent 20 0 5 node_by_node_state);
    [done | done | apply vertexb_vertex; vm_compute; reflexivity
     | vm_compute; lia].
Defined.

(** ** The structural check *)

Lemma unmarked_fields n m :
  unmarked n = unmarked m →
  index n = index m ∧ order n = order m ∧ n~>high = m~>high
  ∧ n~>low = m~>low ∧ module n = module m ∧ minimal n = minimal m.
Proof.
  intros H. split_and!.
  - by apply (f_equal index) in H.
  - by apply (f_equal order) in H.
  - by apply (f_equal high) in H.
  - by apply (f_equal low) in H.
  - by apply (f_equal module) in H.
  - by apply (f_equal minimal) in H.
Qed.

Lemma marks_only_refl s : marks_only s s.
Proof. by split. Qed.

Lemma marks_only_sym s s' : marks_only s s' → marks_only s' s.
Proof. intros [? ? ? ? ?]. by split. Qed.

Lemma marks_only_trans s1 s2 s3 :
  marks_only s1 s2 → marks_only s2 s3 → marks_only s1 s3.
Proof. intros [? ? ? ? ?] [? ? ? ? ?]. split; congruence. Qed.

Lemma marks_only_lookup s s' v n :
  marks_only s s' → nodes s !! v = Some n →
  ∃ m, nodes s' !! v = Some m ∧ unmarked m = unmarked n.
Proof.
  intros [H _ _ _ _] Hn.
  assert ((unmarked <$> nodes s') !! v = (unmarked <$> nodes s) !! v) as Hv
    by (by rewrite H).
  rewrite !lookup_fmap, Hn in Hv.
  destruct (nodes s' !! v) as [m|]; [|done].
  exists m. split; [done|]. unfold unmarked in *. cbn in Hv. congruence.
Qed.

Lemma marks_only_set_mark s v n flag :
  nodes s !! v = Some n →
  marks_only s (set_nodes (insert v (with_mark flag n)) s).
Proof.
  intros Hn. split; [|done..]. cbn. rewrite fmap_insert.
  apply insert_id. by rewrite lookup_fmap, Hn.
Qed.

Lemma set_mark_Ok v flag u s s' :
  set_mark v flag s = Ok u s' →
  ∃ n, nodes s !! v = Some n
       ∧ s' = set_nodes (insert v (with_mark flag n)) s.
Proof.
  unfold set_mark. intros H. inv_bind H as n s1 Hn. inv_run Hn.
  inv_run H. eauto.
Qed.

Lemma branch_ok_marks s s' n n' c :
  marks_only s s' → unmarked n = unmarked n' →
  branch_ok s n c → branch_ok s' n' c.
Proof.
  intros Hmo Hn [Ht | (m & Hm & Hb & Hmin)]; [by left|].
  destruct (marks_only_lookup _ _ _ _ Hmo Hm) as (m' & Hm' & Heq).
  apply unmarked_fields in Hn as (Hi & Ho & _ & _ & _ & Hmn).
  apply unmarked_fields in Heq as (Hi' & Ho' & _ & _ & _ & Hmn').
  right. exists m'. split_and!; [done | | by rewrite <- Hmn, Hmn'].
  unfold before in *. lia.
Qed.

Lemma node_ok_marks s s' n n' :
  marks_only s s' → unmarked n = unmarked n' →
  node_ok s n → node_ok s' n'.
Proof.
  intros Hmo Hn (Hhe & Hhl & Hh & Hl).
  pose proof (unmarked_fields _ _ Hn) as (_ & _ & Hhigh & Hlow & _).
  unfold node_ok. rewrite <- Hhigh, <- Hlow.
  split_and!; try done; by eapply branch_ok_marks.
Qed.

Lemma reachable_marks s s' r v :
  marks_only s s' → reachable s r v → reachable s' r v.
Proof.
  intros Hmo H.
  induction H as [|v n _ IH Ht Hn|v n _ IH Ht Hn|v n m _ IH Ht Hn Hmod Hm].
  - constructor.
  - destruct (marks_only_lookup _ _ _ _ Hmo Hn) as (n' & Hn' & Heq).
    apply unmarked_fields in Heq as (_ & _ & <- & _).
    by eapply reach_high.
  - destruct (marks_only_lookup _ _ _ _ Hmo Hn) as (n' & Hn' & Heq).
    apply unmarked_fields in Heq as (_ & _ & _ & <- & _).
    by eapply reach_low.
  - destruct (marks_only_lookup _ _ _ _ Hmo Hn) as (n' & Hn' & Heq).
    apply unmarked_fields in Heq as (Hi & _ & _ & _ & Hmd & _).
    eapply reach_module; [done | done | done | congruence |].
    rewrite (mo_modules _ _ Hmo). congruence.
Qed.

Lemma marks_le_refl s : marks_le s s.
Proof. by intros v. Qed.

Lemma marks_le_trans s1 s2 s3 :
  marks_le s1 s2 → marks_le s2 s3 → marks_le s1 s3.
Proof. intros H1 H2 v Hv. by apply H2, H1. Qed.

Lemma fresh_marks_ok_refl s : fresh_marks_ok s s.
Proof. intros v m Hm Hmark. left. by exists m. Qed.

Lemma fresh_marks_ok_trans s1 s2 s3 :
  marks_only s2 s3 → marks_le s2 s3 →
  fresh_marks_ok s1 s2 → fresh_marks_ok s2 s3 → fresh_marks_ok s1 s3.
Proof.
  intros Hmo Hle H12 H23 v m Hm Hmark.
  destruct (H23 v m Hm Hmark) as [(n & Hn & Hnm) | Hnew]; [|by right].
  destruct (H12 v n Hn Hnm) as [Hold | (Ht & Hok & Hvh & Hvl & Hmod)];
    [by left|].
  right.
  destruct (marks_only_lookup _ _ _ _ Hmo Hn) as (m' & Hm' & Heq).
  assert (m' = m) as -> by congruence.
  pose proof (unmarked_fields _ _ Heq) as (Hi & _ & Hh & Hl & Hmd & _).
  split_and!; [done | by eapply node_ok_marks | | |].
  - rewrite Hh. by apply Hle.
  - rewrite Hl. by apply Hle.
  - intros Hmm. destruct Hmod as (w & Hw & Hvw); [congruence|].
    exists w. split; [|by apply Hle].
    rewrite (mo_modules _ _ Hmo). congruence.
Qed.

Lemma branch_node_Ok v r s s' :
  branch_node v s = Ok r s' →
  s' = s ∧ (terminal v = true ∧ r = None
            ∨ terminal v = false ∧ ∃ n, nodes s !! v = Some n ∧ r = Some n).
Proof.
  unfold branch_node. destruct (terminal v) eqn:Ht; intros H.
  - inv_ret H. split; [done|]. by left.
  - inv_ptr H as n Hn. inv_ret H. split; [done|]. right. eauto.
Qed.

(** A run of TestStructure that returns has changed marks only, has not
    cleared any, has been at its argument, and has checked the nodes that
    it has marked. *)
Lemma TestStructure_ok fuel :
  ∀ v s u s',
    TestStructure fuel v s = Ok u s' →
    marks_only s s' ∧ marks_le s s' ∧ visited s' v ∧ fresh_marks_ok s s'.
Proof.
  induction fuel as [|fuel IH]; intros v s u s' H; [done|].
  cbn -[terminal] in H.
  destruct (terminal v) eqn:Ht.
  { inv_ret H. split_and!; [apply marks_only_refl | apply marks_le_refl
                            | by left | apply fresh_marks_ok_refl]. }
  inv_ptr H as n Hn.
  destruct (mark n) eqn:Hmark.
  { inv_ret H. split_and!; [apply marks_only_refl | apply marks_le_refl
                            | right; by exists n
                            | apply fresh_marks_ok_refl]. }
  inv_bind H as u1 s1 Hset. apply set_mark_Ok in Hset as (n' & Hn' & ->).
  assert (n' = n) as -> by congruence. clear Hn'.
  set (s1 := set_nodes (insert v (with_mark true n)) s) in *.
  inv_assert H as Hindex. inv_assert H as Horder. inv_assert H as Hnull.
  inv_assert H as Hreduced. inv_assert H as Hdiff.
  inv_bind H as high_node s2 Hhigh.
  apply branch_node_Ok in Hhigh as [-> Hhigh].
  inv_bind H as low_node s2 Hlow.
  apply branch_node_Ok in Hlow as [-> Hlow].
  inv_assert H as Hoh. inv_assert H as Hol. inv_assert H as Hil.
  inv_assert H as Hmh. inv_assert H as Hml.
  inv_bind H as um s2 Hmodule. inv_bind H as uh s3 Hrun_high.
  assert (marks_only s s1) as Hmo1 by (by apply marks_only_set_mark).
  assert (nodes s1 !! v = Some (with_mark true n)) as Hv1.
  { unfold s1. cbn. by rewrite lookup_insert_eq. }
  assert (marks_le s s1) as Hle1.
  { intros w [Hw | (m & Hm & Hmm)]; [by left|]. right.
    destruct (decide (v = w)) as [<-|Hne]; [by eexists|].
    exists m. unfold s1. cbn. by rewrite lookup_insert_ne. }
  assert (node_ok s1 (with_mark true n)) as Hnode.
  { unfold node_ok. cbn [high low with_mark]. split_and!.
    - intros Heq. rewrite Heq in Hreduced. done.
    - lia.
    - destruct Hhigh as [[Hth _] | (Hth & h & Hh & ->)]; [by left|].
      right. exists h. split_and!; [done | unfold before; cbn; lia |].
      cbn. intros Hmin. rewrite Hmin in Hmh. by destruct (minimal h).
    - destruct Hlow as [[Htl _] | (Htl & l & Hl & ->)]; [by left|].
      right. exists l. split_and!; [done | unfold before; cbn; lia |].
      cbn. intros Hmin. rewrite Hmin in Hml. by destruct (minimal l). }
  assert (marks_only s1 s2 ∧ marks_le s1 s2 ∧ fresh_marks_ok s1 s2
          ∧ (module n = true →
             ∃ w, modules_ s2 !! index n = Some w ∧ visited s2 w))
    as (Hmo2 & Hle2 & Hfr2 & Hmod2).
  { destruct (module n) eqn:Hmod.
    - inv_bind Hmodule as m sm Hfind. apply find_module_Ok in Hfind as [Hm ->].
      inv_assert Hmodule as Hnt.
      apply IH in Hmodule as (Hmo & Hle & Hvis & Hfr).
      split_and!; try done. intros _. exists m. split; [|done].
      by rewrite (mo_modules _ _ Hmo).
    - inv_ret Hmodule.
      split_and!; [apply marks_only_refl | apply marks_le_refl
                   | apply fresh_marks_ok_refl | done]. }
  apply IH in Hrun_high as (Hmo3 & Hle3 & Hvis3 & Hfr3).
  apply IH in H as (Hmo4 & Hle4 & Hvis4 & Hfr4).
  assert (marks_only s1 s') as Hmo14.
  { eapply marks_only_trans; [done|]. by eapply marks_only_trans. }
  assert (marks_le s1 s') as Hle14.
  { eapply marks_le_trans; [done|]. by eapply marks_le_trans. }
  assert (fresh_marks_ok s1 s') as Hfr14.
  { apply (fresh_marks_ok_trans s1 s3 s'); try done.
    by apply (fresh_marks_ok_trans s1 s2 s3). }
  split_and!.
  - by eapply marks_only_trans.
  - by eapply marks_le_trans.
  - apply Hle14. right. by eexists.
  - intros w m Hm Hmm.
    destruct (Hfr14 w m Hm Hmm) as [(n1 & Hn1 & Hnm) | Hnew]; [|by right].
    destruct (decide (v = w)) as [<-|Hne].
    + right. assert (n1 = with_mark true n) as -> by congruence.
      destruct (marks_only_lookup _ _ _ _ Hmo14 Hv1) as (m' & Hm' & Heq).
      assert (m' = m) as -> by congruence.
      pose proof (unmarked_fields _ _ Heq) as (Hi & _ & Hh & Hl & Hmd & _).
      cbn in Hi, Hh, Hl, Hmd.
      split_and!; [done | by eapply node_ok_marks | | |].
      * rewrite Hh. by apply Hle4.
      * by rewrite Hl.
      * intros Hmodm. destruct Hmod2 as (x & Hx & Hvx); [congruence|].
        exists x. split.
        -- rewrite (mo_modules _ _ Hmo4), (mo_modules _ _ Hmo3). congruence.
        -- by apply Hle4, Hle3.
    + left. exists n1. split; [|done].
      unfold s1 in Hn1. cbn in Hn1. by rewrite lookup_insert_ne in Hn1.
Qed.


(** ClearMarks changes marks only and sets none. *)
Lemma ClearMarks_ok fuel :
  ∀ v s u s',
    ClearMarks fuel v s = Ok u s' →
    marks_only s s' ∧ (marks_clear s → marks_clear s').
Proof.
  induction fuel as [|fuel IH]; intros v s u s' H; [done|].
  cbn -[terminal] in H.
  destruct (terminal v) eqn:Ht; [inv_ret H; split; [apply marks_only_refl | done]|].
  inv_ptr H as n Hn.
  destruct (mark n) eqn:Hmark; cbn [negb] in H;
    [|inv_ret H; split; [apply marks_only_refl | done]].
  inv_bind H as u1 s1 Hset. apply set_mark_Ok in Hset as (n' & Hn' & ->).
  assert (n' = n) as -> by congruence. clear Hn'.
  set (s1 := set_nodes (insert v (with_mark false n)) s) in *.
  inv_bind H as um s2 Hmodule. inv_bind H as uh s3 Hrun_high.
  assert (marks_only s s1) as Hmo1 by (by apply marks_only_set_mark).
  assert (marks_clear s → marks_clear s1) as Hc1.
  { intros Hc w m Hm. unfold s1 in Hm. cbn in Hm.
    destruct (decide (v = w)) as [<-|Hne].
    - rewrite lookup_insert_eq in Hm. by injection Hm as <-.
    - rewrite lookup_insert_ne in Hm by done. by eapply Hc. }
  assert (marks_only s1 s2 ∧ (marks_clear s1 → marks_clear s2))
    as (Hmo2 & Hc2).
  { destruct (module n).
    - inv_bind Hmodule as m sm Hfind. apply find_module_Ok in Hfind as [Hm ->].
      by apply IH in Hmodule.
    - inv_ret Hmodule. split; [apply marks_only_refl | done]. }
  apply IH in Hrun_high as (Hmo3 & Hc3).
  apply IH in H as (Hmo4 & Hc4).
  split; [|by intros ?; apply Hc4, Hc3, Hc2, Hc1].
  eapply marks_only_trans; [done|].
  eapply marks_only_trans; [done|]. by eapply marks_only_trans.
Qed.







Lemma marks_clearb_sound s : marks_clearb s = true → marks_clear s.
Proof.
  intros H v n Hn.
  pose proof (forallb_map_to_list _ _ _ _ H Hn) as Hv. cbn in Hv.
  by destruct (mark n).
Qed.



(** ** The marks after the traversals *)

(** The check marks only vertices that it reaches. *)
Lemma TestStructure_marks_reachable fuel :
  ∀ v s u s',
    TestStructure fuel v s = Ok u s' →
    ∀ w m, nodes s' !! w = Some m → mark m = true →
           (∃ n, nodes s !! w = Some n ∧ mark n = true) ∨ reachable s v w.
Proof.
  induction fuel as [|fuel IH]; intros v s u s' H; [done|].
  cbn -[terminal] in H.
  destruct (terminal v) eqn:Ht.
  { inv_ret H. intros w m Hm Hmm. left. by exists m. }
  inv_ptr H as n Hn.
  destruct (mark n) eqn:Hmark.
  { inv_ret H. intros w m Hm Hmm. left. by exists m. }
  inv_bind H as u1 s1 Hset. apply set_mark_Ok in Hset as (n' & Hn' & ->).
  assert (n' = n) as -> by congruence. clear Hn'.
  set (s1 := set_nodes (insert v (with_mark true n)) s) in *.
  inv_assert H as Hindex. inv_assert H as Horder. inv_assert H as Hnull.
  inv_assert H as Hreduced. inv_assert H as Hdiff.
  inv_bind H as high_node s2 Hhigh.
  apply branch_node_Ok in Hhigh as [-> Hhigh].
  inv_bind H as low_node s2 Hlow.
  apply branch_node_Ok in Hlow as [-> Hlow].
  inv_assert H as Hoh. inv_assert H as Hol. inv_assert H as Hil.
  inv_assert H as Hmh. inv_assert H as Hml.
  inv_bind H as um s2 Hmodule. inv_bind H as uh s3 Hrun_high.
  assert (marks_only s s1) as Hmo1 by (by apply marks_only_set_mark).
  assert (∀ w m, nodes s1 !! w = Some m → mark m = true →
                 (∃ k, nodes s !! w = Some k ∧ mark k = true)
                 ∨ reachable s v w) as Hstep1.
  { intros w m Hm Hmm. destruct (decide (v = w)) as [<-|Hne].
    - right. constructor.
    - left. exists m. unfold s1 in Hm. cbn in Hm.
      by rewrite lookup_insert_ne in Hm. }
  assert (marks_only s1 s2
          ∧ ∀ w m, nodes s2 !! w = Some m → mark m = true →
                   (∃ k, nodes s1 !! w = Some k ∧ mark k = true)
                   ∨ reachable s v w) as (Hmo2 & Hstep2).
  { destruct (module n) eqn:Hmod.
    - inv_bind Hmodule as x sm Hfind. apply find_module_Ok in Hfind as [Hx ->].
      inv_assert Hmodule as Hnt.
      pose proof (TestStructure_ok _ _ _ _ _ Hmodule) as (Hmo & _).
      split; [done|]. intros w m Hm Hmm.
      destruct (IH _ _ _ _ Hmodule w m Hm Hmm) as [? | Hr]; [by left|].
      right. apply (reachable_marks s1 s); [by apply marks_only_sym|].
      assert (reachable s1 v x) as Hvx.
      { apply (reach_module s1 v v (with_mark true n));
          [constructor | done | | done | done].
        unfold s1. cbn. by rewrite lookup_insert_eq. }
      clear -Hvx Hr. induction Hr; [done | by eapply reach_high
                                    | by eapply reach_low
                                    | by eapply reach_module].
    - inv_ret Hmodule. split; [apply marks_only_refl|].
      intros w m Hm Hmm. left. by exists m. }
  pose proof (TestStructure_ok _ _ _ _ _ Hrun_high) as (Hmo3 & _).
  assert (marks_only s s2) as Hmo02 by (by eapply marks_only_trans).
  assert (marks_only s s3) as Hmo03 by (by eapply marks_only_trans).
  assert (∀ c, (c = n~>high ∨ c = n~>low) → ∀ w, ∀ t, marks_only s t →
               reachable t c w → reachable s v w) as Hbelow.
  { intros c Hc w t Hmo Hr.
    apply (reachable_marks t s) in Hr; [|by apply marks_only_sym].
    assert (reachable s v c) as Hvc.
    { destruct Hc as [-> | ->];
        [by apply (reach_high s v v n); [constructor|..]
        | by apply (reach_low s v v n); [constructor|..]]. }
    clear -Hvc Hr. induction Hr; [done | by eapply reach_high
                                  | by eapply reach_low
                                  | by eapply reach_module]. }
  intros w m Hm Hmm.
  destruct (IH _ _ _ _ H w m Hm Hmm) as [(k3 & Hk3 & Hkm3) | Hr];
    [|right; by apply (Hbelow (n~>low)) with (t := s3); [right|..]].
  destruct (IH _ _ _ _ Hrun_high w k3 Hk3 Hkm3) as [(k2 & Hk2 & Hkm2) | Hr];
    [|right; by apply (Hbelow (n~>high)) with (t := s2); [left|..]].
  destruct (Hstep2 w k2 Hk2 Hkm2) as [(k1 & Hk1 & Hkm1) | Hr]; [|by right].
  by apply (Hstep1 w k1).
Qed.

Lemma marks_ge_refl s : marks_ge s s.
Proof. intros w m Hm Hmm. by exists m. Qed.

Lemma marks_ge_trans s1 s2 s3 :
  marks_ge s1 s2 → marks_ge s2 s3 → marks_ge s1 s3.
Proof.
  intros H1 H2 w m Hm Hmm. destruct (H2 w m Hm Hmm) as (k & Hk & Hkm).
  by apply (H1 w k).
Qed.

Lemma cleared_ge s s' x :
  marks_only s s' → marks_ge s s' → cleared s x → cleared s' x.
Proof.
  intros Hmo Hge [Ht | (n & Hn & Hnm)]; [by left|]. right.
  destruct (marks_only_lookup _ _ _ _ Hmo Hn) as (m & Hm & _).
  exists m. split; [done|]. destruct (mark m) eqn:Hmm; [|done].
  destruct (Hge x m Hm Hmm) as (k & Hk & Hkm). congruence.
Qed.

Lemma fresh_clears_ok_refl s : fresh_clears_ok s s.
Proof. intros w m m' Hm Hmm Hm' Hmm'. congruence. Qed.

Lemma fresh_clears_ok_trans s1 s2 s3 :
  marks_only s1 s2 → marks_only s2 s3 → marks_ge s2 s3 →
  fresh_clears_ok s1 s2 → fresh_clears_ok s2 s3 → fresh_clears_ok s1 s3.
Proof.
  intros Hmo12 Hmo23 Hge H12 H23 w m1 m3 Hm1 Hmm1 Hm3 Hmm3.
  destruct (marks_only_lookup _ _ _ _ Hmo12 Hm1) as (m2 & Hm2 & _).
  destruct (mark m2) eqn:Hmm2; [by apply (H23 w m2 m3)|].
  destruct (H12 w m1 m2 Hm1 Hmm1 Hm2 Hmm2) as (Hh & Hl & Hmod).
  destruct (marks_only_lookup _ _ _ _ Hmo23 Hm2) as (m3' & Hm3' & Heq).
  assert (m3' = m3) as -> by congruence.
  apply unmarked_fields in Heq as (Hi & _ & Hhigh & Hlow & Hmd & _).
  rewrite Hhigh, Hlow, Hi, Hmd. split_and!.
  - by apply (cleared_ge s2 s3).
  - by apply (cleared_ge s2 s3).
  - intros Hmodule. destruct (Hmod Hmodule) as (x & Hx & Hcx).
    exists x. split; [by rewrite (mo_modules _ _ Hmo23)|].
    by apply (cleared_ge s2 s3).
Qed.

(** ClearMarks sets no mark, leaves its argument without a mark, and
    clears the branches and the module of every node that it clears. *)
Lemma ClearMarks_clears fuel :
  ∀ v s u s',
    ClearMarks fuel v s = Ok u s' →
    marks_ge s s' ∧ cleared s' v ∧ fresh_clears_ok s s'.
Proof.
  induction fuel as [|fuel IH]; intros v s u s' H; [done|].
  cbn -[terminal] in H.
  destruct (terminal v) eqn:Ht.
  { inv_ret H. split_and!; [apply marks_ge_refl | by left
                            | apply fresh_clears_ok_refl]. }
  inv_ptr H as n Hn.
  destruct (mark n) eqn:Hmark; cbn [negb] in H.
  2:{ inv_ret H. split_and!; [apply marks_ge_refl | right; by exists n
                              | apply fresh_clears_ok_refl]. }
  inv_bind H as u1 s1 Hset. apply set_mark_Ok in Hset as (n' & Hn' & ->).
  assert (n' = n) as -> by congruence. clear Hn'.
  set (s1 := set_nodes (insert v (with_mark false n)) s) in *.
  inv_bind H as um s2 Hmodule. inv_bind H as uh s3 Hrun_high.
  assert (marks_only s s1) as Hmo1 by (by apply marks_only_set_mark).
  assert (nodes s1 !! v = Some (with_mark false n)) as Hv1.
  { unfold s1. cbn. by rewrite lookup_insert_eq. }
  assert (marks_ge s s1) as Hge1.
  { intros w m Hm Hmm. destruct (decide (v = w)) as [<-|Hne].
    - rewrite Hv1 in Hm. by injection Hm as <-.
    - exists m. unfold s1 in Hm. cbn in Hm.
      by rewrite lookup_insert_ne in Hm. }
  assert (marks_only s1 s2 ∧ marks_ge s1 s2 ∧ fresh_clears_ok s1 s2
          ∧ (module n = true →
             ∃ x, modules_ s2 !! index n = Some x ∧ cleared s2 x))
    as (Hmo2 & Hge2 & Hfr2 & Hmod2).
  { destruct (module n) eqn:Hmod.
    - inv_bind Hmodule as x sm Hfind. apply find_module_Ok in Hfind as [Hx ->].
      pose proof (ClearMarks_ok _ _ _ _ _ Hmodule) as (Hmo & _).
      apply IH in Hmodule as (Hge & Hcx & Hfr).
      split_and!; try done. intros _. exists x. split; [|done].
      by rewrite (mo_modules _ _ Hmo).
    - inv_ret Hmodule.
      split_and!; [apply marks_only_refl | apply marks_ge_refl
                   | apply fresh_clears_ok_refl | done]. }
  pose proof (ClearMarks_ok _ _ _ _ _ Hrun_high) as (Hmo3 & _).
  pose proof (ClearMarks_ok _ _ _ _ _ H) as (Hmo4 & _).
  apply IH in Hrun_high as (Hge3 & Hch3 & Hfr3).
  apply IH in H as (Hge4 & Hcl4 & Hfr4).
  assert (marks_only s1 s3) as Hmo13 by (by eapply marks_only_trans).
  assert (marks_only s1 s') as Hmo14 by (by eapply marks_only_trans).
  assert (marks_ge s1 s') as Hge14.
  { eapply marks_ge_trans; [done|]. by eapply marks_ge_trans. }
  assert (fresh_clears_ok s1 s') as Hfr14.
  { apply (fresh_clears_ok_trans s1 s3 s'); try done.
    by apply (fresh_clears_ok_trans s1 s2 s3). }
  assert (cleared s' v) as Hcv.
  { apply (cleared_ge s1 s'); try done. right. by eexists. }
  split_and!; [by eapply marks_ge_trans | done |].
  intros w m m' Hm Hmm Hm' Hmm'.
  destruct (decide (v = w)) as [<-|Hne].
  - destruct (marks_only_lookup _ _ _ _ Hmo14 Hv1) as (k & Hk & Heq).
    assert (k = m') as -> by congruence.
    apply unmarked_fields in Heq as (Hi & _ & Hhigh & Hlow & Hmd & _).
    cbn in Hi, Hhigh, Hlow, Hmd. rewrite Hhigh, Hlow, Hi, Hmd.
    split_and!; [by apply (cleared_ge s3 s') | done |].
    intros Hmdl. destruct (Hmod2 Hmdl) as (x & Hx & Hcx).
    exists x. split.
    + by rewrite (mo_modules _ _ Hmo4), (mo_modules _ _ Hmo3).
    + apply (cleared_ge s3 s'); try done. by apply (cleared_ge s2 s3).
  - apply (Hfr14 w m m'); try done.
    unfold s1. cbn. by rewrite lookup_insert_ne.
Qed.

(** The marks that a check sets in a store without marks are cleared by the
    traversal that follows it. *)
Lemma traversal_clears fuel fuel' r s u t u' f :
  (∀ w n, nodes s !! w = Some n → terminal w = false) →
  marks_clear s → TestStructure fuel r s = Ok u t →
  ClearMarks fuel' r t = Ok u' f → marks_clear f.
Proof.
  intros Hids Hclear Htest Hrun.
  pose proof (TestStructure_marks_reachable _ _ _ _ _ Htest) as Honly.
  pose proof (TestStructure_ok _ _ _ _ _ Htest) as (Hmo & Hle & Hvis & Hfr).
  pose proof (ClearMarks_ok _ _ _ _ _ Hrun) as (Hmo' & _).
  apply ClearMarks_clears in Hrun as (Hge & Hcr & Hfc).
  assert (∀ v, reachable t r v → visited t v ∧ cleared f v) as Hreach.
  { intros v Hv.
    induction Hv as [|v n _ IH Ht Hn|v n _ IH Ht Hn|v n m _ IH Ht Hn Hmd Hm].
    - done.
    - destruct IH as [[? | (n' & Hn' & Hmm)] [? | (k & Hk & Hkm)]];
        try congruence.
      assert (n' = n) as -> by congruence.
      destruct (marks_only_lookup _ _ _ _ Hmo' Hn) as (k' & Hk' & Heq).
      assert (k' = k) as -> by congruence.
      apply unmarked_fields in Heq as (_ & _ & Hhigh & _).
      split.
      + destruct (Hfr v n Hn Hmm) as [(n0 & Hn0 & Hnm) | (_ & _ & ? & _)];
          [|done]. rewrite (Hclear v n0 Hn0) in Hnm. done.
      + rewrite <- Hhigh. by destruct (Hfc v n k Hn Hmm Hk Hkm).
    - destruct IH as [[? | (n' & Hn' & Hmm)] [? | (k & Hk & Hkm)]];
        try congruence.
      assert (n' = n) as -> by congruence.
      destruct (marks_only_lookup _ _ _ _ Hmo' Hn) as (k' & Hk' & Heq).
      assert (k' = k) as -> by congruence.
      apply unmarked_fields in Heq as (_ & _ & _ & Hlow & _).
      split.
      + destruct (Hfr v n Hn Hmm)
          as [(n0 & Hn0 & Hnm) | (_ & _ & _ & ? & _)]; [|done].
        rewrite (Hclear v n0 Hn0) in Hnm. done.
      + rewrite <- Hlow. by destruct (Hfc v n k Hn Hmm Hk Hkm) as (_ & ? & _).
    - destruct IH as [[? | (n' & Hn' & Hmm)] [? | (k & Hk & Hkm)]];
        try congruence.
      assert (n' = n) as -> by congruence.
      destruct (marks_only_lookup _ _ _ _ Hmo' Hn) as (k' & Hk' & Heq).
      assert (k' = k) as -> by congruence.
      apply unmarked_fields in Heq as (Hi & _ & _ & _ & Hmodule & _).
      split.
      + destruct (Hfr v n Hn Hmm)
          as [(n0 & Hn0 & Hnm) | (_ & _ & _ & _ & Hmod)].
        { rewrite (Hclear v n0 Hn0) in Hnm. done. }
        destruct (Hmod Hmd) as (x & Hx & Hvx). congruence.
      + destruct (Hfc v n k Hn Hmm Hk Hkm) as (_ & _ & Hmod).
        destruct Hmod as (x & Hx & Hcx); [congruence|].
        rewrite (mo_modules _ _ Hmo'), Hi, Hm in Hx. congruence. }
  intros w m Hm. destruct (mark m) eqn:Hmm; [|done].
  destruct (Hge w m Hm Hmm) as (k & Hk & Hkm).
  destruct (Honly w k Hk Hkm) as [(n0 & Hn0 & Hnm) | Hr].
  { rewrite (Hclear w n0 Hn0) in Hnm. done. }
  apply (reachable_marks s t) in Hr; [|done].
  destruct (Hreach w Hr) as [_ [Ht | (m' & Hm' & Hmm')]]; [|congruence].
  destruct (marks_only_lookup _ _ _ _ (marks_only_sym _ _ Hmo) Hk)
    as (k' & Hk' & _).
  rewrite (Hids w k' Hk') in Ht. done.
Qed.

(** ** The generation of cut sets *)

Section GenerationSound.

Variable use_count : Zbdd → Z → Z.



End GenerationSound.

(** ** What the minimization leaves as it is *)

Lemma frame_refl s : ids_ok s → frame s s.
Proof. intros Hids. split; try done. intros v n Hn. by exists n. Qed.

Lemma frame_trans s1 s2 s3 : frame s1 s2 → frame s2 s3 → frame s1 s3.
Proof.
  intros [M1 R1 N1 F1 E1 I1] [M2 R2 N2 F2 E2 I2].
  split; [congruence | congruence | | | | done].
  - intros v n Hn. destruct (N1 v n Hn) as (m & Hm & Hi & Hmd).
    destruct (N2 v m Hm) as (k & Hk & Hi' & Hmd').
    exists k. split_and!; [done | congruence | congruence].
  - intros H. by apply F2, F1.
  - intros H. by apply E2, E1.
Qed.

Lemma frame_same_nodes s s' :
  ids_ok s →
  nodes s' = nodes s → set_id_ s' = set_id_ s →
  modules_ s' = modules_ s → root_ s' = root_ s →
  frame s s'.
Proof.
  intros Hids Hn Hi Hm Hr. split; try done.
  - intros v n Hv. exists n. by rewrite Hn.
  - intros H v n Hv Hmd. rewrite Hm. rewrite Hn in Hv. by eapply H.
  - intros H v n Hv Hmd. rewrite Hm. rewrite Hn in Hv. by eapply H.
  - intros v n Hv. rewrite Hi. rewrite Hn in Hv. by eapply Hids.
Qed.

Lemma FetchUniqueTable_frame i h l o md s r s' :
  ids_ok s →
  (∃ w k, nodes s !! w = Some k ∧ index k = i ∧ module k = md) →
  FetchUniqueTable i h l o md s = Ok r s' →
  frame s s'.
Proof.
  intros Hids (w & k & Hk & Hi & Hmd) H.
  apply FetchUniqueTable_Ok in H as [[_ ->] | (Hnone & _ & -> & ->)];
    [by apply frame_refl|].
  assert (nodes s !! set_id_ s = None) as Hfresh.
  { destruct (nodes s !! set_id_ s) as [n|] eqn:Hn; [|done].
    apply Hids in Hn. lia. }
  split; unfold module_flags_ok, module_entries_ok, ids_ok; cbn; try done.
  - intros v n Hn. exists n. rewrite lookup_insert_ne; [done|].
    intros <-. congruence.
  - intros H v n Hn Hm. destruct (decide (set_id_ s = v)) as [<-|Hne].
    + rewrite lookup_insert_eq in Hn. injection Hn as <-. cbn in *.
      rewrite <- Hi. eapply H; [done | congruence].
    + rewrite lookup_insert_ne in Hn by done. by eapply H.
  - intros H v n Hn Hm. destruct (decide (set_id_ s = v)) as [<-|Hne].
    + rewrite lookup_insert_eq in Hn. injection Hn as <-. cbn in *.
      rewrite <- Hi. eapply H; [done | congruence].
    + rewrite lookup_insert_ne in Hn by done. by eapply H.
  - intros v n Hn. destruct (decide (set_id_ s = v)) as [<-|Hne]; [lia|].
    rewrite lookup_insert_ne in Hn by done. apply Hids in Hn. lia.
Qed.

Lemma set_minimal_frame v flag u s s' :
  ids_ok s → set_minimal v flag s = Ok u s' → frame s s'.
Proof.
  intros Hids H. apply set_minimal_Ok in H as (n & Hn & ->).
  split; unfold module_flags_ok, module_entries_ok, ids_ok; cbn; try done.
  - intros w m Hm. destruct (decide (v = w)) as [<-|Hne].
    + rewrite lookup_insert_eq. eexists. split; [done|].
      assert (m = n) as -> by congruence. done.
    + rewrite lookup_insert_ne by done. by exists m.
  - intros H w m Hm Hmd. destruct (decide (v = w)) as [<-|Hne].
    + rewrite lookup_insert_eq in Hm. injection Hm as <-.
      by apply (H v n).
    + rewrite lookup_insert_ne in Hm by done. by eapply H.
  - intros H w m Hm Hmd. destruct (decide (v = w)) as [<-|Hne].
    + rewrite lookup_insert_eq in Hm. injection Hm as <-.
      by apply (H v n).
    + rewrite lookup_insert_ne in Hm by done. by eapply H.
  - intros w m Hm. destruct (decide (v = w)) as [<-|Hne].
    + by eapply Hids.
    + rewrite lookup_insert_ne in Hm by done. by eapply Hids.
Qed.

Lemma Subsume_emit_frame high low hn hn' subhigh sublow s r s' :
  ids_ok s → nodes s !! high = Some hn' →
  index hn' = index hn → module hn' = module hn →
  Subsume_emit high low hn subhigh sublow s = Ok r s' →
  frame s s'.
Proof.
  intros Hids Hhigh Hi Hmd H. unfold Subsume_emit in H.
  destruct (terminal subhigh && negb (value subhigh)).
  - inv_modify H. inv_ret H. by apply frame_same_nodes.
  - inv_assert H as Hne. inv_bind H as new_high s1 Hfetch.
    apply FetchUniqueTable_frame in Hfetch as Hfr1; [|done|by eauto].
    inv_ptr H as hn2 Hhn2. inv_bind H as u2 s2 Hset.
    apply set_minimal_frame in Hset as Hfr2; [|apply Hfr1].
    inv_modify H. inv_ret H.
    eapply frame_trans; [done|]. eapply frame_trans; [done|].
    apply frame_same_nodes; [apply Hfr2 | done..].
Qed.

Lemma Subsume_frame fuel :
  ∀ high low s r s',
    ids_ok s → Subsume fuel high low s = Ok r s' → frame s s'.
Proof.
  induction fuel as [|fuel IH]; intros high low s r s' Hids H; [done|].
  cbn -[terminal] in H.
  destruct (terminal low); [inv_ret H; by apply frame_refl|].
  destruct (terminal high); [inv_ret H; by apply frame_refl|].
  inv_get H as computed.
  destruct (subsume_table_ s !! (high, low));
    [inv_ret H; by apply frame_refl|].
  inv_ptr H as hn Hhn. inv_ptr H as ln Hln.
  destruct ((order hn >? order ln)
            || (order hn =? order ln) && (index hn <? index ln)).
  { inv_bind H as r1 s1 Hrun. apply IH in Hrun; [|done].
    inv_modify H. inv_ret H. eapply frame_trans; [done|].
    apply frame_same_nodes; [apply Hrun | done..]. }
  destruct ((order hn =? order ln) && (index hn =? index ln)).
  - inv_bind H as sh1 s1 Hrun1. apply IH in Hrun1; [|done].
    inv_bind H as subhigh s2 Hrun2. apply IH in Hrun2; [|apply Hrun1].
    inv_bind H as sublow s3 Hrun3. apply IH in Hrun3; [|apply Hrun2].
    assert (frame s s3) as Hfr.
    { eapply frame_trans; [done|]. by eapply frame_trans. }
    destruct (fr_nodes _ _ Hfr high hn Hhn) as (hn3 & Hhn3 & Hi & Hmd).
    eapply frame_trans; [done|].
    eapply Subsume_emit_frame; [apply Hfr | done..].
  - inv_assert H as Hfirst.
    inv_bind H as subhigh s1 Hrun1. apply IH in Hrun1; [|done].
    inv_bind H as sublow s2 Hrun2. apply IH in Hrun2; [|apply Hrun1].
    assert (frame s s2) as Hfr by (by eapply frame_trans).
    destruct (fr_nodes _ _ Hfr high hn Hhn) as (hn3 & Hhn3 & Hi & Hmd).
    eapply frame_trans; [done|].
    eapply Subsume_emit_frame; [apply Hfr | done..].
Qed.

Lemma Minimize_frame fuel :
  ∀ v s r s',
    ids_ok s → Minimize fuel v s = Ok r s' → frame s s'.
Proof.
  induction fuel as [|fuel IH]; intros v s r s' Hids H; [done|].
  cbn -[terminal] in H.
  destruct (terminal v); [inv_ret H; by apply frame_refl|].
  inv_ptr H as n Hn.
  destruct (minimal n); [inv_ret H; by apply frame_refl|].
  inv_get H as result.
  destruct (minimal_results_ s !! v); [inv_ret H; by apply frame_refl|].
  inv_bind H as h1 s1 Hrun1. apply IH in Hrun1; [|done].
  inv_bind H as l1 s2 Hrun2. apply IH in Hrun2; [|apply Hrun1].
  inv_bind H as h2 s3 Hrun3. apply Subsume_frame in Hrun3; [|apply Hrun2].
  assert (frame s s3) as Hfr.
  { eapply frame_trans; [done|]. by eapply frame_trans. }
  destruct (fr_nodes _ _ Hfr v n Hn) as (n3 & Hn3 & Hi & Hmd).
  eapply frame_trans; [done|].
  unfold Minimize_emit in H. inv_assert H as Hne.
  destruct (terminal h2 && negb (value h2)).
  - inv_modify H. inv_ret H. apply frame_same_nodes; [apply Hfr | done..].
  - inv_bind H as r1 s4 Hfetch.
    apply FetchUniqueTable_frame in Hfetch as Hfr4;
      [|apply Hfr|by eauto].
    inv_modify H. inv_bind H as u2 s5 Hset.
    apply set_minimal_frame in Hset as Hfr5;
      [|by intros w m Hm; apply (fr_ids _ _ Hfr4 w m)].
    inv_ret H. eapply frame_trans; [done|].
    eapply frame_trans; [|done].
    apply frame_same_nodes; [apply Hfr4 | done..].
Qed.

(** ** Antichains of cut sets *)

Section Lifting.

(** A family [F] of sets of variables, and the lists [E x] and [E' x] that
    may stand for a variable [x] on the two sides of an inclusion. *)
Variable F : list Z → Prop.
Variables E E' : Z → list Z → Prop.

Hypothesis F_NoDup : ∀ X, F X → NoDup X.
Hypothesis F_antichain : ∀ X Y, F X → F Y → X ⊆ Y → Y ⊆ X.
Hypothesis E_nonempty : ∀ x e, E x e → e ≠ [].
Hypothesis E_disjoint :
  ∀ X Y x y ex ey a,
    F X → F Y → x ∈ X → y ∈ Y → E x ex → E' y ey → a ∈ ex → a ∈ ey →
    x = y.
Hypothesis E_antichain :
  ∀ X x e e', F X → x ∈ X → E x e → E' x e' → e ⊆ e' → e' ⊆ e.







End Lifting.

(** ** The cut sets of a minimized diagram *)

Lemma expansion_var s k x e :
  modules_ s !! x = None → expansion s k x e ↔ e = [x].
Proof. intros H. destruct k; cbn; by rewrite H. Qed.

Lemma expansion_module s k x m e :
  modules_ s !! x = Some m →
  expansion s k x e ↔ ∃ k0, k = S k0 ∧ cut_of s k0 m e.
Proof.
  intros H. destruct k as [|k]; cbn; rewrite H.
  - split; [done | by intros (k0 & ? & _)].
  - split.
    + intros Hc. by exists k.
    + by intros (k0 & [= <-] & Hc).
Qed.

Lemma expansion_mono s k :
  ∀ k' x e, (k ≤ k')%nat → expansion s k x e → expansion s k' x e.
Proof.
  induction k as [|k IH]; intros k' x e Hle H;
    destruct (modules_ s !! x) as [m|] eqn:Hm.
  - by destruct (proj1 (expansion_module _ _ _ _ _ Hm) H) as (k0 & ? & _).
  - apply (expansion_var _ _ _ _ Hm) in H.
    by apply (expansion_var _ _ _ _ Hm).
  - destruct (proj1 (expansion_module _ _ _ _ _ Hm) H)
      as (k0 & [= <-] & X & es & HX & Hes & ->).
    destruct k' as [|k']; [lia|].
    apply (expansion_module _ _ _ _ _ Hm). exists k'. split; [done|].
    exists X, es. split_and!; [done | | done].
    eapply Forall2_impl; [done|]. intros y e Hy. apply IH; [lia | done].
  - apply (expansion_var _ _ _ _ Hm) in H.
    by apply (expansion_var _ _ _ _ Hm).
Qed.


(** A cut set of a vertex is a set of its family with its modules
    expanded. *)
Lemma expanded_cut_of s v c :
  module_flags_ok s → expanded s v c → ∃ k, cut_of s k v c.
Proof.
  intros Hfl H.
  induction H as [|v n c Ht Hn _ IH|v n c Ht Hn Hmd _ IH
                  |v n m c cm Ht Hn Hmd Hm _ IHh _ IHm].
  - exists O, [], []. split_and!; [constructor | constructor | done].
  - destruct IH as (k & X & es & HX & Hes & ->).
    exists k, X, es. split_and!; [by eapply in_family_low | done | done].
  - destruct IH as (k & X & es & HX & Hes & ->).
    exists k, (index n :: X), ([index n] :: es).
    split_and!; [by eapply in_family_high | |].
    + constructor; [|done]. apply expansion_var; [|done].
      by eapply Hfl.
    + rewrite reverse_cons, concat_app. cbn. by rewrite ?app_nil_r.
  - destruct IHh as (k1 & X & es & HX & Hes & ->).
    destruct IHm as (k2 & Hcm).
    exists (S (k1 + k2)), (index n :: X), (cm :: es).
    split_and!; [by eapply in_family_high | |].
    + constructor.
      * apply (expansion_module _ _ _ _ _ Hm). exists (k1 + k2)%nat.
        split; [done|]. destruct Hcm as (Xm & esm & HXm & Hesm & ->).
        exists Xm, esm. split_and!; [done | | done].
        eapply Forall2_impl; [done|]. intros y e Hy.
        eapply expansion_mono; [|done]. lia.
      * eapply Forall2_impl; [done|]. intros y e Hy.
        eapply expansion_mono; [|done]. lia.
    + rewrite reverse_cons, concat_app. cbn. by rewrite ?app_nil_r.
Qed.



(** ** The minimization phase of Analyze *)


(** A change of the root or of the modules keeps the invariants. *)
Lemma invariants_same_tables s s' :
  nodes s' = nodes s → set_id_ s' = set_id_ s →
  limit_order s' = limit_order s → unique_table_ s' = unique_table_ s →
  subsume_table_ s' = subsume_table_ s →
  minimal_results_ s' = minimal_results_ s →
  extends s s' ∧ flags_le s s'
  ∧ (sem_ok s → sem_ok s') ∧ (sem_ok s → flags_ok s → flags_ok s').
Proof.
  intros Hn Hi Hl Hu Hs Hm.
  assert (extends s s') as Hext by (by apply extends_same_nodes).
  assert (flags_le s s') as Hle.
  { intros v Hv. unfold minimal_vertex. by rewrite Hn. }
  assert (sem_ok s → sem_ok s') as Hsem.
  { intros Hsem. eapply sem_ok_step; [done | | done |].
    - eapply store_ok_same_nodes; [apply Hsem | done..].
    - intros h l r Hr. left. by rewrite <- Hs. }
  split_and!; try done.
  intros Hsem0 Hfl. eapply (flags_ok_step s s'); try done.
  - apply Hsem0.
  - intros v m Hv Hflag. left. exists m. by rewrite <- Hn.
  - intros k r Hr. left. by rewrite <- Hs.
  - intros v r Hr. left. by rewrite <- Hm.
Qed.

Lemma store_ok_ids s : store_ok s → ids_ok s.
Proof. intros Hok v n Hn. apply (ok_ids _ Hok) in Hn. lia. Qed.

Lemma caches_empty_extends s s' :
  extends s s' → caches_empty s → caches_empty s'.
Proof.
  intros Hext Hc v m Hm.
  destruct (nodes s !! v) as [n|] eqn:Hn.
  - destruct (ext_nodes _ _ Hext v n Hn)
      as (m' & Hm' & _ & _ & _ & _ & _ & _ & Hcuts).
    assert (m' = m) as -> by congruence. rewrite <- Hcuts. by eapply Hc.
  - by destruct (ext_new _ _ Hext v m Hn Hm) as (_ & _ & ?).
Qed.

Lemma marks_clear_extends s s' :
  extends s s' → marks_clear s → marks_clear s'.
Proof.
  intros Hext Hc v m Hm.
  destruct (nodes s !! v) as [n|] eqn:Hn.
  - destruct (ext_nodes _ _ Hext v n Hn)
      as (m' & Hm' & _ & _ & _ & _ & _ & Hmark & _).
    assert (m' = m) as -> by congruence. rewrite <- Hmark. by eapply Hc.
  - by destruct (ext_new _ _ Hext v m Hn Hm) as (_ & ? & _).
Qed.

(** The loop of Analyze over the modules: every module is replaced by its
    minimal form. *)
Lemma minimize_modules_ok fuel entries :
  ∀ t u t',
    sem_ok t → flags_ok t → module_flags_ok t →
    NoDup entries.*1 →
    (∀ x v, (x, v) ∈ entries → vertex t v ∧ is_Some (modules_ t !! x)) →
    minimize_modules fuel entries t = Ok u t' →
    sem_ok t' ∧ flags_ok t' ∧ module_flags_ok t'
    ∧ extends t t' ∧ flags_le t t' ∧ root_ t' = root_ t
    ∧ (∀ x, x ∉ entries.*1 → modules_ t' !! x = modules_ t !! x)
    ∧ (∀ x v, (x, v) ∈ entries →
              ∃ r, modules_ t' !! x = Some r ∧ minimize_post t' v r)
    ∧ (module_entries_ok t → module_entries_ok t').
Proof.
  induction entries as [|[x v] rest IH];
    intros t u t' Hsem Hfl Hmf Hnd Hent H; cbn in H.
  - inv_ret H.
    split_and!; [done | done | done | apply extends_refl
                 | apply flags_le_refl | done | done | | done].
    intros x v Hin. by apply elem_of_nil in Hin.
  - cbn in Hnd. apply NoDup_cons in Hnd as [Hx Hnd].
    destruct (Hent x v) as [Hv [mx Hmx]]; [by left|].
    inv_bind H as m t1 Hrun. inv_modify H.
    pose proof (Minimize_frame _ _ _ _ _
                  (store_ok_ids _ (sem_store _ Hsem)) Hrun) as Hfr.
    apply Minimize_run_ok in Hrun
      as (Hsem1 & Hfl1 & Hext1 & Hle1 & Hpost1); try done.
    set (t2 := set_modules (insert x m) t1) in *.
    destruct (invariants_same_tables t1 t2)
      as (Hext2 & Hle2 & Hsem2 & Hfl2); try done.
    assert (module_flags_ok t2) as Hmf2.
    { intros w n Hn Hmd. unfold t2. cbn.
      pose proof (fr_flags _ _ Hfr Hmf w n Hn Hmd) as Hnone.
      destruct (decide (x = index n)) as [->|Hne].
      - rewrite (fr_modules _ _ Hfr) in Hnone. congruence.
      - by rewrite lookup_insert_ne. }
    assert (extends t t2) as Hext02 by (by eapply extends_trans).
    assert (flags_le t t2) as Hle02 by (by eapply flags_le_trans).
    assert (module_entries_ok t → module_entries_ok t2) as Hme2.
    { intros Hme w n Hn Hmd. unfold t2. cbn.
      pose proof (fr_entries _ _ Hfr Hme w n Hn Hmd) as Hsome.
      destruct (decide (x = index n)) as [->|Hne].
      - rewrite lookup_insert_eq. by eexists.
      - by rewrite lookup_insert_ne. }
    apply IH in H as (Hsem' & Hfl' & Hmf' & Hext' & Hle' & Hroot'
                      & Hkeep & Hdone & Hme'); try done; cycle 1.
    { by apply Hsem2. }
    { by apply Hfl2. }
    { intros y w Hin. destruct (Hent y w) as [Hw [my Hmy]]; [by right|].
      split; [by eapply vertex_extends|]. unfold t2. cbn.
      destruct (decide (x = y)) as [->|Hne].
      - rewrite lookup_insert_eq. by eexists.
      - rewrite lookup_insert_ne by done.
        rewrite (fr_modules _ _ Hfr). by eexists. }
    split_and!; try done.
    + by eapply extends_trans.
    + by eapply flags_le_trans.
    + rewrite Hroot'. unfold t2. cbn. apply Hfr.
    + intros y Hy. cbn in Hy. apply not_elem_of_cons in Hy as [Hne Hy].
      rewrite (Hkeep y Hy). unfold t2. cbn.
      rewrite lookup_insert_ne by done. by rewrite (fr_modules _ _ Hfr).
    + intros y w Hin. apply elem_of_cons in Hin as [[= -> ->] | Hin].
      * exists m. split.
        -- rewrite (Hkeep x Hx). unfold t2. cbn. by rewrite lookup_insert_eq.
        -- apply (minimize_post_extends t1 t');
             [apply Hsem1 | by eapply extends_trans
              | by eapply flags_le_trans | by eapply vertex_extends
              | done].
      * by apply Hdone.
    + intros Hme. by apply Hme', Hme2.
Qed.


(** The minimization phase of Analyze. *)
Lemma Analyze_minimize_run fuel s u s1 :
  sem_ok s → flags_ok s → module_flags_ok s →
  vertex s (root_ s) →
  (∀ x m, modules_ s !! x = Some m → vertex s m) →
  Analyze_minimize fuel s = Ok u s1 →
  ∃ sm, minimized s sm s1.
Proof.
  intros Hsem Hfl Hmf Hroot Hmods H.
  pose proof (sem_store _ Hsem) as Hok.
  unfold Analyze_minimize in H. inv_get H as entries.
  inv_bind H as u1 t Hloop.
  apply minimize_modules_ok in Hloop
    as (Hsem1 & Hfl1 & Hmf1 & Hext1 & Hle1 & Hroot1 & Hkeep & Hdone & Hme1);
    try done; [|apply NoDup_fst_map_to_list|]; cycle 1.
  { intros x v Hin. apply elem_of_map_to_list in Hin.
    split; [by apply (Hmods x v) | by eexists]. }
  inv_get H as r0. inv_bind H as r sm Hrun. rewrite Hroot1 in Hrun.
  pose proof (Minimize_frame _ _ _ _ _
                (store_ok_ids _ (sem_store _ Hsem1)) Hrun) as Hfr.
  apply Minimize_run_ok in Hrun
    as (Hsem2 & Hfl2 & Hext2 & Hle2 & Hpost); try done;
    [|by eapply vertex_extends].
  pose proof (sem_store _ Hsem2) as Hok2.
  assert (extends s sm) as Hext by (by eapply extends_trans).
  inv_modify H. inv_bind H as flag s3 Hflag. inv_assert H as Hminimal.
  assert (s3 = set_root r sm) as ->.
  { destruct (terminal r); [by inv_ret Hflag|].
    inv_ptr Hflag as n Hn. by inv_ret Hflag. }
  inv_bind H as uc1 s4 Hc1. inv_bind H as ut s5 Htest.
  inv_bind H as uc2 s6 Hc2. inv_bind H as uc3 s7 Hc3.
  pose proof (traversal_clears fuel fuel r s4 ut s5 uc2 s6) as Hclears.
  pose proof (ClearMarks_ok _ _ _ _ _ Hc1) as [Hmo1 Hk1].
  pose proof (TestStructure_ok _ _ _ _ _ Htest) as (Hmo2 & _).
  pose proof (ClearMarks_ok _ _ _ _ _ Hc2) as [Hmo3 _].
  pose proof (ClearMarks_ok _ _ _ _ _ Hc3) as [Hmo4 Hk4].
  pose proof (ClearMarks_ok _ _ _ _ _ H) as [Hmo5 Hk5].
  assert (marks_only (set_root r sm) s1) as Hmo.
  { eapply marks_only_trans; [done|]. eapply marks_only_trans; [done|].
    eapply marks_only_trans; [done|]. by eapply marks_only_trans. }
  assert (root_ s1 = r) as Hr1 by (by rewrite (mo_root _ _ Hmo)).
  exists sm. split; rewrite ?Hr1; try done.
  - by apply Hfr.
  - intros x v Hv. rewrite (fr_modules _ _ Hfr) in Hv.
    destruct (modules_ s !! x) as [m|] eqn:Hm.
    + exists m. split; [done|].
      destruct (Hdone x m) as (r' & Hr' & Hpost');
        [by apply elem_of_map_to_list|].
      assert (r' = v) as -> by congruence.
      apply (minimize_post_extends t sm);
        [apply Hsem1 | done | done | | done].
      eapply vertex_extends; [done|]. by apply (Hmods x m).
    + rewrite Hkeep in Hv; [congruence|].
      intros Hin. apply list_elem_of_fmap in Hin as ([y w] & -> & Hin).
      apply elem_of_map_to_list in Hin. cbn in Hm. congruence.
  - intros x Hx. rewrite (fr_modules _ _ Hfr) in Hx.
    destruct (modules_ s !! x) as [m|] eqn:Hm; [|done].
    destruct (Hdone x m) as (r' & Hr' & _);
      [by apply elem_of_map_to_list|]. congruence.
  - intros Hme. by apply Hfr, Hme1.
  - intros Hclear. apply Hk5, Hk4.
    assert (marks_clear (set_root r sm)) as Hclear_m.
    { intros v n Hn. apply (marks_clear_extends s sm Hext Hclear v n Hn). }
    apply Hclears; [|by apply Hk1 | done | done].
    intros w n Hn.
    destruct (marks_only_lookup _ _ _ _ (marks_only_sym _ _ Hmo1) Hn)
      as (k & Hk & _).
    apply (ok_ids _ Hok2) in Hk. apply terminal_false_iff.
    unfold kEmpty_, kBase_. lia.
Qed.


(** ** The cut sets of Analyze form an antichain *)

Lemma caches_emptyb_sound s : caches_emptyb s = true → caches_empty s.
Proof.
  intros H v n Hn.
  pose proof (forallb_map_to_list _ _ _ _ H Hn) as Hv. cbn in Hv.
  by destruct (cut_sets n).
Qed.

Lemma module_flags_okb_sound s :
  module_flags_okb s = true → module_flags_ok s.
Proof.
  intros H v n Hn Hmd.
  pose proof (forallb_map_to_list _ _ _ _ H Hn) as Hv. cbn in Hv.
  rewrite Hmd in Hv. by destruct (modules_ s !! index n).
Qed.



(** ** The states of a generation *)

Section Status.

Variable s0 : Zbdd.
Hypothesis Hok0 : store_ok s0.
Hypothesis Hmarks0 : marks_clear s0.
Hypothesis Hcaches0 : caches_empty s0.

Lemma node_not_null v n : nodes s0 !! v = Some n → v ≠ null.
Proof. intros Hn ->. apply (ok_ids _ Hok0) in Hn. unfold null in Hn. lia. Qed.

Lemma vertex_not_null v : vertex s0 v → v ≠ null.
Proof.
  intros [Ht | [n Hn]]; [|by eapply node_not_null].
  intros ->. done.
Qed.

Lemma fresh_not_opened s w : fresh s0 s w → opened s0 s w → False.
Proof.
  unfold fresh. intros Hf (n0 & Hn0 & Hn). rewrite Hn, Hn0 in Hf.
  apply (inj Some) in Hf. apply (f_equal mark) in Hf. cbn in Hf.
  rewrite (Hmarks0 w n0 Hn0) in Hf. done.
Qed.

Lemma fresh_not_closed s w l : fresh s0 s w → closed s0 s w l → False.
Proof.
  unfold fresh. intros Hf (n0 & Hn0 & Hn). rewrite Hn, Hn0 in Hf.
  apply (inj Some) in Hf. apply (f_equal mark) in Hf. cbn in Hf.
  rewrite (Hmarks0 w n0 Hn0) in Hf. done.
Qed.

Lemma opened_not_closed s w l : opened s0 s w → closed s0 s w l → False.
Proof.
  intros (n0 & Hn0 & Hn) (n0' & Hn0' & Hn').
  assert (n0' = n0) as -> by congruence. rewrite Hn in Hn'.
  apply (inj Some) in Hn'. apply (f_equal high) in Hn'. cbn in Hn'.
  destruct (ok_branches _ Hok0 w n0 Hn0) as (Hvh & _).
  by apply vertex_not_null in Hvh.
Qed.

Lemma closed_functional s w l l' :
  closed s0 s w l → closed s0 s w l' → l = l'.
Proof.
  intros (n0 & Hn0 & Hn) (n0' & Hn0' & Hn'). rewrite Hn in Hn'.
  apply (inj Some) in Hn'. by apply (f_equal cut_sets) in Hn'.
Qed.

Lemma fresh_node s w n :
  fresh s0 s w → nodes s !! w = Some n →
  nodes s0 !! w = Some n ∧ mark n = false.
Proof.
  unfold fresh. intros Hf Hn. rewrite Hn in Hf. split; [done|].
  by eapply Hmarks0.
Qed.

Lemma unmarked_fresh s w n :
  gen_state s0 s → nodes s !! w = Some n → mark n = false → fresh s0 s w.
Proof.
  intros Hgs Hn Hm.
  destruct (gs_nodes _ _ Hgs w) as [? | [(n0 & _ & Hn') | (l & n0 & _ & Hn')]];
    [done | |]; rewrite Hn in Hn'; injection Hn' as ->; done.
Qed.

Lemma cached_node (n : SetNode) l :
  cut_sets n = l →
  with_cut_sets l (CutBranches (with_mark true n))
  = CutBranches (with_mark true n).
Proof. intros <-. by destruct n. Qed.

(** The pointers of a node that the generation has not left are those of
    the diagram. *)
Lemma pointer_inv s p w :
  gen_state s0 s → pointer s p w → w ≠ null →
  pointer s0 p w ∧ (fresh s0 s p ∨ opened s0 s p).
Proof.
  intros Hgs (n & Hn & Hbr) Hw.
  destruct (gs_nodes _ _ Hgs p)
    as [Hf | [(n0 & Hn0 & Hn') | (l & n0 & Hn0 & Hn')]].
  - split; [|by left]. exists n. split; [|done].
    by apply (fresh_node s p n).
  - split; [|right; by exists n0]. exists n0. split; [done|].
    rewrite Hn in Hn'. by injection Hn' as ->.
  - rewrite Hn in Hn'. injection Hn' as ->. cbn in Hbr.
    by destruct Hbr as [<- | <-].
Qed.

Lemma pointer_fresh s p w :
  fresh s0 s p → pointer s0 p w → pointer s p w.
Proof. intros Hf (n & Hn & Hbr). exists n. by rewrite Hf. Qed.

Lemma pointer_opened s p w :
  opened s0 s p → pointer s0 p w → pointer s p w.
Proof.
  intros (n0 & Hn0 & Hn) (n & Hn' & Hbr).
  assert (n = n0) as -> by congruence. by eexists.
Qed.

(** The pointers only go away. *)
Lemma pointer_evolves s s' p w :
  gen_state s0 s → gen_state s0 s' → evolves s0 s s' →
  pointer s' p w → w ≠ null → pointer s p w.
Proof.
  intros Hgs Hgs' Hev Hp Hw.
  destruct (pointer_inv s' p w Hgs' Hp Hw) as [Hp0 [Hf | Ho]].
  - apply pointer_fresh; [|done]. by apply (Hev p).
  - apply pointer_opened; [|done]. by apply (Hev p).
Qed.

Lemma evolves_refl s : evolves s0 s s.
Proof. by intros w. Qed.

Lemma evolves_trans s1 s2 s3 :
  evolves s0 s1 s2 → evolves s0 s2 s3 → evolves s0 s1 s3.
Proof.
  intros H1 H2 w. destruct (H1 w) as (Ho1 & Hc1 & Hf1).
  destruct (H2 w) as (Ho2 & Hc2 & Hf2). split_and!.
  - by rewrite Ho1.
  - intros l Hl. by apply Hc2, Hc1.
  - intros Hf. by apply Hf1, Hf2.
Qed.

(** The nodes of a generation are the nodes of the diagram. *)
Lemma gen_state_node s p n :
  gen_state s0 s → nodes s !! p = Some n → p ≠ null.
Proof.
  intros Hgs Hn.
  destruct (gs_nodes _ _ Hgs p) as [Hf | [(n0 & Hn0 & _) | (l & n0 & Hn0 & _)]];
    [|by apply (node_not_null p n0)..].
  unfold fresh in Hf. rewrite Hn in Hf. by apply (node_not_null p n).
Qed.

(** Garbage stays garbage. *)
Lemma live_mono s s' :
  gen_state s0 s' → root_ s' = root_ s → modules_ s' = modules_ s →
  (∀ p w, pointer s' p w → w ≠ null → pointer s p w) →
  ∀ w, live s' w → w ≠ null → live s w.
Proof.
  intros Hgs' Hr Hm Hp w Hw. induction Hw as [|x m Hx|p w Hlive IH Hpw].
  - intros _. rewrite Hr. constructor.
  - intros _. rewrite Hm in Hx. by eapply live_module.
  - intros Hw. apply (live_pointer s p w); [|by apply Hp].
    apply IH. destruct Hpw as (n & Hn & _). by apply (gen_state_node s' p n).
Qed.

Lemma live_evolves s s' w :
  gen_state s0 s → gen_state s0 s' → evolves s0 s s' →
  live s' w → w ≠ null → live s w.
Proof.
  intros Hgs Hgs' Hev. apply live_mono; [done | | |].
  - by rewrite (gs_root _ _ Hgs'), (gs_root _ _ Hgs).
  - by rewrite (gs_modules _ _ Hgs'), (gs_modules _ _ Hgs).
  - intros p x Hp Hx. by apply (pointer_evolves s s').
Qed.

(** The pointers through which the generation is called are not garbage,
    and stay as long as the nodes that hold them are at work. *)
Lemma held_live s w : held s0 s w → live s w.
Proof.
  induction 1 as [|x m Hx|p w _ IH _ Hp].
  - constructor.
  - by eapply live_module.
  - by eapply live_pointer.
Qed.

Lemma held_mono s s' :
  root_ s' = root_ s → modules_ s' = modules_ s →
  (∀ p, opened s0 s p → opened s0 s' p) →
  ∀ w, held s0 s w → held s0 s' w.
Proof.
  intros Hr Hm Ho w Hw. induction Hw as [|x m Hx|p w _ IH Hop Hp].
  - rewrite <- Hr. constructor.
  - rewrite <- Hm in Hx. by eapply held_module.
  - pose proof (Ho p Hop) as Hop'.
    apply (held_pointer s0 s' p w); [done | done |].
    destruct Hop as (n0 & Hn0 & Hn). destruct Hp as (n & Hn' & Hbr).
    apply (pointer_opened s' p w); [done|].
    exists n0. split; [done|]. rewrite Hn in Hn'. by injection Hn' as <-.
Qed.

Lemma orphan_but_evolves s s' v w :
  gen_state s0 s → gen_state s0 s' → evolves s0 s s' → w ≠ null →
  orphan_but s v w → orphan_but s' v w.
Proof.
  intros Hgs Hgs' Hev Hw (Hr & Hm & Hp). split_and!.
  - by rewrite (gs_root _ _ Hgs'), <- (gs_root _ _ Hgs).
  - intros x. by rewrite (gs_modules _ _ Hgs'), <- (gs_modules _ _ Hgs).
  - intros p [Hlive Hpw]. apply Hp. split; [|by eapply pointer_evolves].
    apply (live_evolves s s'); try done.
    destruct Hpw as (n & Hn & _). by apply (gen_state_node s' p n).
Qed.

(** A target stays a target through a call as long as an owner holds it. *)
Lemma ok_target_step s s' top w :
  gen_state s0 s' → evolves s0 s s' → left_ok s0 s s' top →
  ok_target s0 s w → ¬ orphan s' w → (w = top → ¬ lonely s' top) →
  ok_target s0 s' w.
Proof.
  intros Hgs' Hev Hleft Hw Hno Hnl.
  destruct Hw as [Ht | [Hf | [Ho | (l & Hl & Hex)]]].
  - by left.
  - destruct (gs_nodes _ _ Hgs' w) as [Hf' | [Ho' | (l & Hl)]].
    + right. by left.
    + right. right. by left.
    + destruct (Hleft w l Hf Hl) as [Hex | [[-> Hlonely] | [_ Horphan]]].
      * right. right. right. by exists l.
      * by destruct Hnl.
      * done.
  - right. right. left. by apply (Hev w).
  - right. right. right. exists l. split; [|done]. by apply (Hev w).
Qed.

End Status.

(** ** Owner counts *)

Lemma filter_length_1 {A} (P : A → Prop) `{∀ x, Decision (P x)}
    (l : list A) a :
  a ∈ l → P a → (1 ≤ length (filter P l))%nat.
Proof.
  intros Ha HP.
  assert (a ∈ filter P l) as Hin by (by apply list_elem_of_filter).
  destruct (filter P l); [by apply elem_of_nil in Hin | cbn; lia].
Qed.

Lemma filter_length_2 {A} (P : A → Prop) `{∀ x, Decision (P x)}
    (l : list A) a b :
  a ∈ l → b ∈ l → a ≠ b → P a → P b → (2 ≤ length (filter P l))%nat.
Proof.
  intros Ha Hb Hne HPa HPb.
  assert (a ∈ filter P l) as Hina by (by apply list_elem_of_filter).
  assert (b ∈ filter P l) as Hinb by (by apply list_elem_of_filter).
  destruct (filter P l) as [|x [|y k]]; cbn; try lia.
  - by apply elem_of_nil in Hina.
  - apply list_elem_of_singleton in Hina, Hinb. congruence.
Qed.

(** A vertex with at most two owners, the running call included, has no
    owner but its caller. *)
Lemma store_use_count_lonely s v :
  store_use_count s v ≤ 2 → lonely s v.
Proof.
  unfold store_use_count. intros Hcount.
  set (mods := filter (λ e : Z * Z, e.2 = v) (map_to_list (modules_ s)))
    in *.
  set (highs := filter (λ e : Z * SetNode, (e.2)~>high = v)
                       (map_to_list (nodes s))) in *.
  set (lows := filter (λ e : Z * SetNode, (e.2)~>low = v)
                      (map_to_list (nodes s))) in *.
  assert (∀ p n, nodes s !! p = Some n → n~>high = v →
                 (1 ≤ length highs)%nat) as Hhigh.
  { intros p n Hn Hh.
    apply (filter_length_1 _ _ (p, n)); [|done].
    by apply elem_of_map_to_list. }
  assert (∀ p n, nodes s !! p = Some n → n~>low = v →
                 (1 ≤ length lows)%nat) as Hlow.
  { intros p n Hn Hl.
    apply (filter_length_1 _ _ (p, n)); [|done].
    by apply elem_of_map_to_list. }
  split_and!.
  - intros x Hx.
    assert (1 ≤ length mods)%nat.
    { apply (filter_length_1 _ _ (x, v)); [|done].
      by apply elem_of_map_to_list. }
    destruct (root_ s =? v); lia.
  - intros p q [_ (n & Hn & Hbr)] [_ (m & Hm & Hbr')].
    destruct (decide (p = q)) as [|Hne]; [done|]. exfalso.
    assert ((p, n) ≠ (q, m)) as Hne' by congruence.
    assert ((p, n) ∈ map_to_list (nodes s)) as Hp
      by (by apply elem_of_map_to_list).
    assert ((q, m) ∈ map_to_list (nodes s)) as Hq
      by (by apply elem_of_map_to_list).
    destruct Hbr as [Hh | Hl], Hbr' as [Hh' | Hl'].
    + pose proof (filter_length_2 (λ e : Z * SetNode, (e.2)~>high = v)
                    _ _ _ Hp Hq Hne' Hh Hh').
      fold highs in H. destruct (root_ s =? v); lia.
    + pose proof (Hhigh p n Hn Hh). pose proof (Hlow q m Hm Hl').
      destruct (root_ s =? v); lia.
    + pose proof (Hlow p n Hn Hl). pose proof (Hhigh q m Hm Hh').
      destruct (root_ s =? v); lia.
    + pose proof (filter_length_2 (λ e : Z * SetNode, (e.2)~>low = v)
                    _ _ _ Hp Hq Hne' Hl Hl').
      fold lows in H. destruct (root_ s =? v); lia.
  - intros Hroot p [_ (n & Hn & Hbr)].
    rewrite Hroot, Z.eqb_refl in Hcount.
    destruct Hbr as [Hh | Hl].
    + pose proof (Hhigh p n Hn Hh). lia.
    + pose proof (Hlow p n Hn Hl). lia.
Qed.

(** ** GenerateCutSets returns the cut sets *)

Lemma expanded_kBase s c : expanded s kBase_ c ↔ c = [].
Proof.
  split; [|intros ->; constructor].
  intros H. by inversion H.
Qed.

Lemma expanded_kEmpty s c : expanded s kEmpty_ c ↔ False.
Proof. split; [|done]. intros H. by inversion H. Qed.

Lemma expanded_node s v n c :
  terminal v = false → nodes s !! v = Some n →
  expanded s v c ↔
    expanded s (n~>low) c
    ∨ (module n = false
       ∧ ∃ ch, c = ch ++ [index n] ∧ expanded s (n~>high) ch)
    ∨ (module n = true
       ∧ ∃ m ch cm, modules_ s !! index n = Some m ∧ c = ch ++ cm
                    ∧ expanded s (n~>high) ch ∧ expanded s m cm).
Proof.
  intros Ht Hn. split.
  - intros H. inversion H as [Hv|v' n' c' _ Hn' Hl|v' n' c' _ Hn' Hmd Hh
                              |v' n' m c' cm _ Hn' Hmd Hm Hh Hcm]; subst.
    + done.
    + assert (n' = n) as -> by congruence. by left.
    + assert (n' = n) as -> by congruence. right. left. eauto.
    + assert (n' = n) as -> by congruence. right. right.
      split; [done|]. by exists m, c', cm.
  - intros [Hl | [[Hmd (ch & -> & Hh)]
                 | [Hmd (m & ch & cm & Hm & -> & Hh & Hcm)]]].
    + by eapply expanded_low.
    + by eapply expanded_high.
    + by eapply expanded_module.
Qed.

Lemma elem_of_extend_cut_sets limit i high c :
  0 ≤ limit < 2 ^ 31 →
  c ∈ extend_cut_sets limit i high ↔
    ∃ ch, ch ∈ high ∧ size ch ≠ limit ∧ c = ch ++ [i].
Proof.
  intros Hlim. unfold extend_cut_sets. rewrite elem_of_flat_map.
  rewrite to_size_t_id by done.
  split; intros (ch & Hch & H); exists ch.
  - destruct (Z.eqb_spec (size ch) limit); [by apply elem_of_nil in H|].
    apply list_elem_of_singleton in H. done.
  - destruct H as [Hne ->]. split; [done|].
    destruct (Z.eqb_spec (size ch) limit); [done|].
    by apply list_elem_of_singleton.
Qed.

Lemma elem_of_join_module_sets limit high module c :
  0 ≤ limit < 2 ^ 31 →
  c ∈ join_module_sets limit high module ↔
    ∃ ch cm, ch ∈ high ∧ cm ∈ module ∧ size ch + size cm ≤ limit
             ∧ c = ch ++ cm.
Proof.
  intros Hlim. unfold join_module_sets. rewrite elem_of_flat_map.
  rewrite to_size_t_id by done. split.
  - intros (ch & Hch & H). apply elem_of_flat_map in H as (cm & Hcm & H).
    destruct (Z.gtb_spec (size ch + size cm) limit);
      [by apply elem_of_nil in H|].
    apply list_elem_of_singleton in H. by exists ch, cm.
  - intros (ch & cm & Hch & Hcm & Hle & ->). exists ch. split; [done|].
    apply elem_of_flat_map. exists cm. split; [done|].
    destruct (Z.gtb_spec (size ch + size cm) limit); [lia|].
    by apply list_elem_of_singleton.
Qed.

Lemma size_app (a b : list Z) : size (a ++ b) = size a + size b.
Proof. unfold size. rewrite length_app. lia. Qed.

Lemma size_nonneg (a : list Z) : 0 ≤ size a.
Proof. unfold size. lia. Qed.

(** The list that GenerateCutSets assembles for a node from the cut sets of
    its branches and of its module. *)
Lemma exact_node s0 v n low high :
  0 ≤ limit_order s0 < 2 ^ 31 →
  terminal v = false → nodes s0 !! v = Some n → module n = false →
  exact s0 (n~>low) low → exact s0 (n~>high) high →
  exact s0 v (low ++ extend_cut_sets (limit_order s0) (index n) high).
Proof.
  intros Hlim Ht Hn Hmd Hl Hh c.
  rewrite elem_of_app, elem_of_extend_cut_sets by done.
  unfold cut_set. rewrite (expanded_node s0 v n c Ht Hn). split.
  - intros [Hc | (ch & Hch & Hne & ->)].
    + apply Hl in Hc as [Hc Hs]. split; [by left | done].
    + apply Hh in Hch as [Hch Hs].
      assert (size [index n] = 1) as Hone by done.
      split; [|rewrite size_app, Hone; lia].
      right. left. split; [done|]. by exists ch.
  - intros [[Hc | [[_ (ch & -> & Hch)] | [Hmd' _]]] Hs];
      [| |congruence].
    + left. by apply Hl.
    + right. exists ch. rewrite size_app in Hs.
      assert (size [index n] = 1) as Hone by done. rewrite Hone in Hs.
      split_and!; [|lia|done]. apply Hh. split; [done | lia].
Qed.

Lemma exact_module s0 v n m low high mod_sets :
  0 ≤ limit_order s0 < 2 ^ 31 →
  terminal v = false → nodes s0 !! v = Some n → module n = true →
  modules_ s0 !! index n = Some m →
  exact s0 (n~>low) low → exact s0 (n~>high) high → exact s0 m mod_sets →
  exact s0 v (low ++ join_module_sets (limit_order s0) high mod_sets).
Proof.
  intros Hlim Ht Hn Hmd Hm Hl Hh Hmod c.
  rewrite elem_of_app, elem_of_join_module_sets by done.
  unfold cut_set. rewrite (expanded_node s0 v n c Ht Hn). split.
  - intros [Hc | (ch & cm & Hch & Hcm & Hle & ->)].
    + apply Hl in Hc as [Hc Hs]. split; [by left | done].
    + apply Hh in Hch as [Hch _]. apply Hmod in Hcm as [Hcm _].
      split; [|by rewrite size_app].
      right. right. split; [done|]. by exists m, ch, cm.
  - intros [[Hc | [[Hmd' _]
                  | [_ (m' & ch & cm & Hm' & -> & Hch & Hcm)]]] Hs];
      [|congruence|].
    + left. by apply Hl.
    + assert (m' = m) as -> by congruence.
      right. exists ch, cm. rewrite size_app in Hs.
      pose proof (size_nonneg ch). pose proof (size_nonneg cm).
      split_and!; [| |done|done].
      * apply Hh. split; [done | lia].
      * apply Hmod. split; [done | lia].
Qed.

Section ExactRun.

Variable use_count : Zbdd → Z → Z.
Variable s0 : Zbdd.
Hypothesis Hcount : ∀ t v, use_count t v ≤ 2 → lonely t v.
Hypothesis Hok0 : store_ok s0.
Hypothesis Hmarks0 : marks_clear s0.
Hypothesis Hcaches0 : caches_empty s0.
Hypothesis Hacyclic : ∀ v, ¬ tc (edge s0) v v.
Hypothesis Hlimit : 0 ≤ limit_order s0 < 2 ^ 31.

(** The states of the nodes that an update does not touch. *)
Lemma status_same s t w :
  nodes t !! w = nodes s !! w →
  (fresh s0 t w ↔ fresh s0 s w) ∧ (opened s0 t w ↔ opened s0 s w)
  ∧ (∀ l, closed s0 t w l ↔ closed s0 s w l).
Proof. unfold fresh, opened, closed. by intros ->. Qed.

Lemma update_other s v (N : SetNode) w :
  w ≠ v → nodes (set_nodes (insert v N) s) !! w = nodes s !! w.
Proof. intros Hne. cbn. by rewrite lookup_insert_ne. Qed.

Lemma gen_state_update s v (N : SetNode) :
  gen_state s0 s →
  (fresh s0 (set_nodes (insert v N) s) v
   ∨ opened s0 (set_nodes (insert v N) s) v
   ∨ ∃ l, closed s0 (set_nodes (insert v N) s) v l) →
  gen_state s0 (set_nodes (insert v N) s).
Proof.
  intros [Hm Hr Hl Hn] Hv. split; [done | done | done |].
  intros w. destruct (decide (w = v)) as [->|Hne]; [done|].
  destruct (status_same s (set_nodes (insert v N) s) w
              (update_other s v N w Hne)) as (Hf & Ho & Hc).
  destruct (Hn w) as [? | [? | (l & ?)]].
  - left. by apply Hf.
  - right. left. by apply Ho.
  - right. right. exists l. by apply Hc.
Qed.

(** What a call below the node [v], which the generation is at work on,
    leaves behind. *)
Lemma left_inner s s' v top w l :
  gen_state s0 s' → left_ok s0 s s' top →
  opened s0 s' v → live s' v → pointer s0 v top → top ≠ null →
  fresh s0 s w → closed s0 s' w l →
  exact s0 w l ∨ orphan_but s' v w.
Proof.
  intros Hgs' Hleft Hv Hlive Hp Hnull Hf Hc.
  assert (owner s' v top) as Hp'.
  { split; [done|]. by apply (pointer_opened s0 s' v top). }
  destruct (Hleft w l Hf Hc)
    as [Hex | [[-> (Hm & Huniq & Hroot)] | [_ (Hr & Hm & Hno)]]].
  - by left.
  - right. split_and!; [|done|].
    + intros Hr. by apply (Hroot Hr v).
    + intros p Hpt. by apply Huniq.
  - right. split_and!; [done | done |]. intros p Hpt.
    by destruct (Hno p).
Qed.

Lemma left_inner_module s s' v top w l x :
  left_ok s0 s s' top → modules_ s' !! x = Some top →
  fresh s0 s w → closed s0 s' w l →
  exact s0 w l ∨ orphan_but s' v w.
Proof.
  intros Hleft Hx Hf Hc.
  destruct (Hleft w l Hf Hc)
    as [Hex | [[-> (Hm & _)] | [_ (Hr & Hm & Hno)]]].
  - by left.
  - by destruct (Hm x).
  - right. split_and!; [done | done |]. intros p Hpt.
    by destruct (Hno p).
Qed.

(** The same, over the calls that the generation has made below [v] so
    far. *)
Lemma left_acc s1 sa sb v :
  gen_state s0 sa → gen_state s0 sb → evolves s0 sa sb →
  (∀ w l, fresh s0 s1 w → closed s0 sa w l →
          exact s0 w l ∨ orphan_but sa v w) →
  (∀ w l, fresh s0 sa w → closed s0 sb w l →
          exact s0 w l ∨ orphan_but sb v w) →
  ∀ w l, fresh s0 s1 w → closed s0 sb w l →
         exact s0 w l ∨ orphan_but sb v w.
Proof.
  intros Hgsa Hgsb Hev Hprev Hstep w l Hf Hc.
  destruct (gs_nodes _ _ Hgsa w) as [Hfa | [Hoa | (l' & Hca)]].
  - by apply Hstep.
  - exfalso. apply (opened_not_closed s0 Hok0 sb w l); [|done].
    by apply (Hev w).
  - assert (closed s0 sb w l') as Hcb by (by apply (Hev w)).
    assert (l' = l) as -> by (by eapply closed_functional).
    destruct (Hprev w l Hf Hca) as [? | Horph]; [by left|]. right.
    destruct Hc as (n0 & Hn0 & _).
    apply (orphan_but_evolves s0 Hok0 Hmarks0 sa sb v w); try done.
    by apply (node_not_null s0 Hok0 w n0).
Qed.

(** A target of the node [v], on which the generation is at work, stays a
    target through a call below [v]. *)
Lemma ok_target_pending s s' v top w :
  gen_state s0 s' → evolves s0 s s' → left_ok s0 s s' top →
  opened s0 s' v → live s' v → pointer s0 v top → pointer s0 v w →
  w ≠ top → ok_target s0 s w → ok_target s0 s' w.
Proof.
  intros Hgs' Hev Hleft Hv Hlive Hptop Hpw Hne Hw.
  apply (ok_target_step s0 s s' top w); try done.
  intros (_ & _ & Hno). apply (Hno v). split; [done|].
  by apply (pointer_opened s0 s' v w).
Qed.

Lemma ok_target_module s s' top w x :
  gen_state s0 s' → evolves s0 s s' → left_ok s0 s s' top →
  modules_ s' !! x = Some w →
  ok_target s0 s w → ok_target s0 s' w.
Proof.
  intros Hgs' Hev Hleft Hx Hw.
  apply (ok_target_step s0 s s' top w); try done.
  - intros (_ & Hno & _). by apply (Hno x).
  - intros -> (Hno & _). by apply (Hno x).
Qed.

Lemma ok_target_other s v (N : SetNode) w :
  w ≠ v → ok_target s0 s w → ok_target s0 (set_nodes (insert v N) s) w.
Proof.
  intros Hne Hw.
  destruct (status_same s (set_nodes (insert v N) s) w
              (update_other s v N w Hne)) as (Hf & Ho & Hc).
  destruct Hw as [? | [? | [? | (l & ? & ?)]]].
  - by left.
  - right. left. by apply Hf.
  - right. right. left. by apply Ho.
  - right. right. right. exists l. split; [|done]. by apply Hc.
Qed.

(** GenerateCutSets returns the cut sets of its argument that respect the
    limit order, when the owner counts are at least those of the store. *)
Lemma GenerateCutSets_exact fuel :
  ∀ v s r s',
    gen_state s0 s → targets_ok s0 s → ok_target s0 s v → held s0 s v →
    (∀ w, opened s0 s w → tc (edge s0) w v) →
    GenerateCutSets use_count fuel v s = Ok r s' →
    exact s0 v r ∧ gen_state s0 s' ∧ targets_ok s0 s'
    ∧ evolves s0 s s' ∧ left_ok s0 s s' v.
Proof.
  induction fuel as [|fuel IH];
    intros v s r s' Hgs Htargets Hv Hheld Hanc H; [done|].
  assert (left_ok s0 s s v) as Hleft_refl.
  { intros w l Hf Hc. by destruct (fresh_not_closed s0 Hmarks0 s w l). }
  cbn -[terminal] in H.
  destruct (terminal v) eqn:Ht.
  { assert (exact s0 v r ∧ s' = s) as [Hex ->].
    { destruct (value v) eqn:Hval; inv_ret H; (split; [|done]); intros c;
        unfold cut_set.
      - assert (v = kBase_) as -> by (unfold value in Hval; lia).
        rewrite list_elem_of_singleton, expanded_kBase. split.
        + intros ->. split; [done | unfold size; cbn; lia].
        + by intros [-> _].
      - assert (v = kEmpty_) as ->.
        { apply terminal_iff in Ht as [-> | ->]; done. }
        rewrite elem_of_nil, expanded_kEmpty. by split; [|intros []]. }
    split_and!; try done; apply evolves_refl. }
  inv_ptr H as n Hn. inv_assert H as Hminimal.
  assert (¬ opened s0 s v) as Hnot_open.
  { intros Ho. apply (Hacyclic v). by apply Hanc. }
  destruct (mark n) eqn:Hmark.
  { inv_ret H.
    destruct Hv as [? | [Hf | [? | (l & (n0 & Hn0 & Hn') & Hex)]]];
      [congruence | | done |].
    - apply (fresh_node s0 Hmarks0 s v n) in Hf as [_ ?]; congruence.
    - rewrite Hn in Hn'. injection Hn' as ->. cbn.
      split_and!; try done; apply evolves_refl. }
  pose proof (unmarked_fresh s0 s v n Hgs Hn Hmark) as Hfresh.
  destruct (fresh_node s0 Hmarks0 s v n Hfresh Hn) as [Hn0 _].
  destruct (Htargets v n (held_live s0 s v Hheld) Hn Hmark)
    as (Hth & Htl & Htm).
  destruct (ok_branches _ Hok0 v n Hn0) as (Hvh & Hvl & _).
  destruct (ok_reduced _ Hok0 v n Hn0) as (_ & Hhl).
  assert (pointer s0 v (n~>high)) as Hph by (exists n; by split; [|left]).
  assert (pointer s0 v (n~>low)) as Hpl by (exists n; by split; [|right]).
  assert (edge s0 v (n~>high)) as Heh by (exists n; split; [done|]; by left).
  assert (edge s0 v (n~>low)) as Hel
    by (exists n; split; [done|]; right; by left).
  assert (v ≠ null) as Hv_null by (by apply (node_not_null s0 Hok0 v n)).
  inv_bind H as u1 s1 Hset. apply set_mark_Ok in Hset as (n' & Hn' & ->).
  assert (n' = n) as -> by congruence. clear Hn'.
  set (s1 := set_nodes (insert v (with_mark true n)) s) in *.
  assert (nodes s1 !! v = Some (with_mark true n)) as Hv1.
  { unfold s1. cbn. by rewrite lookup_insert_eq. }
  assert (opened s0 s1 v) as Hopen1 by (by exists n).
  assert (gen_state s0 s1) as Hgs1.
  { apply gen_state_update; [done|]. right. by left. }
  assert (∀ w, w ≠ v → ok_target s0 s w → ok_target s0 s1 w) as Hother1.
  { intros w Hne Hw. by apply ok_target_other. }
  assert (∀ w, ok_target s0 s w → ok_target s0 s1 w) as Hkeep1.
  { intros w Hw. destruct (decide (w = v)) as [->|Hne]; [|by apply Hother1].
    right. right. by left. }
  assert (∀ p w, pointer s1 p w → pointer s p w) as Hpointer1.
  { intros p w (k & Hk & Hbr). destruct (decide (p = v)) as [->|Hne].
    - rewrite Hv1 in Hk. injection Hk as <-. by exists n.
    - exists k. split; [|done]. unfold s1 in Hk.
      by rewrite update_other in Hk. }
  assert (held s0 s1 v) as Hheld1.
  { apply (held_mono s0 s s1); try done. intros p Hp.
    assert (p ≠ v) as Hne by (by intros ->).
    by apply (status_same s s1 p
                (update_other s v (with_mark true n) p Hne)). }
  assert (∀ sb, gen_state s0 sb → evolves s0 s1 sb →
                held s0 sb v ∧ live sb v) as Hheld_later.
  { intros sb Hgsb Hevb.
    assert (held s0 sb v) as Hh; [|split; [done | by apply (held_live s0)]].
    apply (held_mono s0 s1 sb); try done.
    - by rewrite (gs_root _ _ Hgsb), (gs_root _ _ Hgs1).
    - by rewrite (gs_modules _ _ Hgsb), (gs_modules _ _ Hgs1).
    - intros p Hp. by apply (Hevb p). }
  assert (targets_ok s0 s1) as Htargets1.
  { intros p k Hlive Hk Hkm. assert (p ≠ v) as Hne.
    { intros ->. rewrite Hv1 in Hk. by injection Hk as <-. }
    unfold s1 in Hk. rewrite update_other in Hk by done.
    assert (live s p) as Hlive0.
    { apply (live_mono s0 Hok0 s s1); try done.
      - intros q w Hq _. by apply Hpointer1.
      - by apply (gen_state_node s0 Hok0 s p k). }
    destruct (Htargets p k Hlive0 Hk Hkm) as (Hh & Hl & Hm).
    split_and!; [by apply Hkeep1 | by apply Hkeep1 |].
    intros Hmd m Hm'. apply Hkeep1. by apply Hm. }
  assert (∀ w, opened s0 s1 w → w = v ∨ opened s0 s w) as Hopened1.
  { intros w Ho. destruct (decide (w = v)) as [->|Hne]; [by left|]. right.
    by apply (status_same s s1 w (update_other s v _ w Hne)). }
  assert (∀ w t, edge s0 v t → opened s0 s1 w → tc (edge s0) w t) as Hanc1.
  { intros w t Het Ho. destruct (Hopened1 w Ho) as [-> | Ho'].
    - by apply tc_once.
    - eapply tc_r; [|done]. by apply Hanc. }
  assert (∀ t, edge s0 v t → t ≠ v) as Hself.
  { intros t Het ->. apply (Hacyclic v). by apply tc_once. }
  inv_bind H as low s2 Hrun_low. inv_bind H as high s3 Hrun_high.
  inv_get H as limit. inv_bind H as result s4 Hresult.
  apply IH in Hrun_low as (Hlow & Hgs2 & Htargets2 & Hev2 & Hleft2);
    [| done | done | by apply Hother1; [apply Hself|]
     | apply (held_pointer s0 s1 v); [done | done |];
       by apply (pointer_opened s0 s1 v)
     | intros w Ho; by apply Hanc1].
  assert (opened s0 s2 v) as Hopen2 by (by apply (Hev2 v)).
  destruct (Hheld_later s2 Hgs2 Hev2) as [Hheld2 Hlive2].
  assert (∀ w l, fresh s0 s1 w → closed s0 s2 w l →
                 exact s0 w l ∨ orphan_but s2 v w) as Hacc2.
  { intros w l. apply (left_inner s1 s2 v (n~>low)); try done.
    by apply (vertex_not_null s0 Hok0). }
  apply IH in Hrun_high as (Hhigh & Hgs3 & Htargets3 & Hev3 & Hleft3);
    [| done | done
     | apply (ok_target_pending s1 s2 v (n~>low)); try done;
       by apply Hother1; [apply Hself|]
     | apply (held_pointer s0 s2 v); [done | done |];
       by apply (pointer_opened s0 s2 v)
     | intros w Ho; apply Hanc1; [done|]; by apply (Hev2 w)].
  assert (opened s0 s3 v) as Hopen3 by (by apply (Hev3 v)).
  assert (evolves s0 s1 s3) as Hev13 by (by apply (evolves_trans s0 s1 s2)).
  destruct (Hheld_later s3 Hgs3 Hev13) as [Hheld3 Hlive3].
  assert (∀ w l, fresh s0 s1 w → closed s0 s3 w l →
                 exact s0 w l ∨ orphan_but s3 v w) as Hacc3.
  { apply (left_acc s1 s2 s3 v); try done.
    intros w l. apply (left_inner s2 s3 v (n~>high)); try done.
    by apply (vertex_not_null s0 Hok0). }
  assert (exact s0 v result ∧ gen_state s0 s4 ∧ targets_ok s0 s4
          ∧ evolves s0 s1 s4
          ∧ ∀ w l, fresh s0 s1 w → closed s0 s4 w l →
                   exact s0 w l ∨ orphan_but s4 v w)
    as (Hresult_ok & Hgs4 & Htargets4 & Hev14 & Hacc4).
  { rewrite (gs_limit _ _ Hgs3) in Hresult.
    destruct (module n) eqn:Hmodule.
    - inv_bind Hresult as mv sm Hfind.
      apply find_module_Ok in Hfind as [Hmv ->].
      inv_bind Hresult as ms s5 Hrun_module. inv_ret Hresult.
      assert (modules_ s0 !! index n = Some mv) as Hmv0
        by (by rewrite <- (gs_modules _ _ Hgs3)).
      assert (edge s0 v mv) as Hem.
      { exists n. split; [done|]. right. by right. }
      apply IH in Hrun_module as (Hmod & Hgs5 & Htargets5 & Hev5 & Hleft5);
        [| done | done | | by apply (held_module s0 s3 (index n))
         | intros w Ho; apply Hanc1; [done|]; by apply (Hev13 w)].
      + split_and!; [by apply (exact_module s0 v n mv) | done | done
                     | by apply (evolves_trans s0 s1 s3) |].
        apply (left_acc s1 s3 s5 v); try done.
        intros w l. apply (left_inner_module s3 s5 v mv w l (index n));
          [done|]. by rewrite (gs_modules _ _ Hgs5).
      + apply (ok_target_module s2 s3 (n~>high) mv (index n)); try done.
        apply (ok_target_module s1 s2 (n~>low) mv (index n)); try done.
        * by rewrite (gs_modules _ _ Hgs2).
        * apply Hother1; [by apply Hself|]. apply Htm; [done|].
          by rewrite (gs_modules _ _ Hgs).
    - inv_ret Hresult. split_and!; try done.
      by apply (exact_node s0 v n). }
  assert (opened s0 s4 v) as Hopen4 by (by apply (Hev14 v)).
  clear Hresult.
  assert (∀ sf lf,
            modules_ sf = modules_ s4 → root_ sf = root_ s4 →
            limit_order sf = limit_order s4 →
            (∀ w, w ≠ v → nodes sf !! w = nodes s4 !! w) →
            closed s0 sf v lf → exact s0 v lf ∨ lonely sf v →
            gen_state s0 sf ∧ targets_ok s0 sf ∧ evolves s0 s sf
            ∧ left_ok s0 s sf v) as Hclose.
  { intros sf lf Hmodules Hroot Hlim Hsame Hclosed Hlast.
    assert (gen_state s0 sf) as Hgsf.
    { split.
      - by rewrite Hmodules, (gs_modules _ _ Hgs4).
      - by rewrite Hroot, (gs_root _ _ Hgs4).
      - by rewrite Hlim, (gs_limit _ _ Hgs4).
      - intros w. destruct (decide (w = v)) as [->|Hne].
        { right. right. by exists lf. }
        destruct (status_same s4 sf w (Hsame w Hne)) as (Hf & Ho & Hc).
        destruct (gs_nodes _ _ Hgs4 w) as [? | [? | (l & ?)]].
        + left. by apply Hf.
        + right. left. by apply Ho.
        + right. right. exists l. by apply Hc. }
    assert (∀ p k, nodes sf !! p = Some k → mark k = false →
                   p ≠ v ∧ nodes s4 !! p = Some k) as Hunmarked.
    { intros p k Hk Hkm. assert (p ≠ v) as Hne.
      { intros ->. destruct Hclosed as (k0 & _ & Hk').
        rewrite Hk in Hk'. by injection Hk' as ->. }
      split; [done|]. by rewrite <- (Hsame p Hne). }
    assert (∀ q, opened s0 s q → opened s0 sf q) as Hopened.
    { intros q Hq. assert (q ≠ v) as Hqne by (by intros ->).
      apply (status_same s4 sf q (Hsame q Hqne)). apply (Hev14 q).
      by apply (status_same s s1 q (update_other s v _ q Hqne)). }
    assert (root_ sf = root_ s) as Hroot0
      by (by rewrite Hroot, (gs_root _ _ Hgs4), (gs_root _ _ Hgs)).
    assert (modules_ sf = modules_ s) as Hmodules0
      by (by rewrite Hmodules, (gs_modules _ _ Hgs4), (gs_modules _ _ Hgs)).
    assert (∀ p k, lonely sf v → nodes sf !! p = Some k → mark k = false →
                   ¬ owner sf p v) as Hlonely.
    { intros p k (Hno_module & Hunique & Hno_root) Hk Hkm Hp.
      inversion Hheld as [Hr | x m Hx Hm | q w Hq Hqo Hqv Hw].
      - by apply (Hno_root (eq_trans Hroot0 Hr) p).
      - apply (Hno_module x). by rewrite Hmodules0.
      - destruct (pointer_inv s0 Hmarks0 s q v Hgs Hqv Hv_null) as [Hqv0 _].
        pose proof (Hopened q Hqo) as Hqf.
        assert (p = q) as ->.
        { apply Hunique; [done|]. split.
          - apply (held_live s0). by apply (held_mono s0 s sf).
          - by apply (pointer_opened s0 sf q v). }
        destruct Hqf as (k0 & _ & Hk'). rewrite Hk in Hk'.
        by injection Hk' as ->. }
    assert (∀ p w, pointer sf p w → w ≠ null → pointer s4 p w) as Hpointer.
    { intros p w (k & Hk & Hbr) Hw. destruct (decide (p = v)) as [->|Hne].
      - destruct Hclosed as (k0 & _ & Hk'). rewrite Hk in Hk'.
        injection Hk' as ->. cbn in Hbr. by destruct Hbr.
      - exists k. split; [|done]. by rewrite <- (Hsame p Hne). }
    assert (∀ p, live sf p → p ≠ null → live s4 p) as Hlive.
    { by apply (live_mono s0 Hok0 s4 sf). }
    assert (∀ w, ok_target s0 s4 w →
                 (w = v → lonely sf v → False) → ok_target s0 sf w)
      as Hkeep.
    { intros w Hw Hwv. destruct (decide (w = v)) as [->|Hne].
      - destruct Hlast as [Hex | Hl]; [|by destruct Hwv].
        right. right. right. by exists lf.
      - destruct (status_same s4 sf w (Hsame w Hne)) as (Hf & Ho & Hc).
        destruct Hw as [? | [? | [? | (l & ? & ?)]]].
        + by left.
        + right. left. by apply Hf.
        + right. right. left. by apply Ho.
        + right. right. right. exists l. split; [|done]. by apply Hc. }
    split_and!; [done | | |].
    - intros p k Hlive_p Hk Hkm.
      destruct (Hunmarked p k Hk Hkm) as [Hne Hk4].
      assert (live s4 p) as Hlive4.
      { apply Hlive; [done|]. by apply (gen_state_node s0 Hok0 sf p k). }
      destruct (Htargets4 p k Hlive4 Hk4 Hkm) as (Hh & Hl & Hm).
      split_and!.
      + apply Hkeep; [done|]. intros Hwv Hl'.
        apply (Hlonely p k Hl' Hk Hkm). split; [done|].
        exists k. split; [done|]. by left.
      + apply Hkeep; [done|]. intros Hwv Hl'.
        apply (Hlonely p k Hl' Hk Hkm). split; [done|].
        exists k. split; [done|]. by right.
      + intros Hmd m Hm'. apply Hkeep.
        * apply Hm; [done|]. by rewrite <- Hmodules.
        * intros -> (Hno_module & _). by apply (Hno_module (index k)).
    - intros w. destruct (decide (w = v)) as [->|Hne].
      + split_and!.
        * split; [done|]. intros Ho.
          by destruct (opened_not_closed s0 Hok0 sf v lf).
        * intros l Hl. by destruct (fresh_not_closed s0 Hmarks0 s v l).
        * done.
      + destruct (status_same s4 sf w (Hsame w Hne)) as (Hf & Ho & Hc).
        destruct (status_same s s1 w (update_other s v _ w Hne))
          as (Hf1 & Ho1 & Hc1).
        destruct (Hev14 w) as (Ho14 & Hc14 & Hf14). split_and!.
        * by rewrite Ho, <- Ho14, <- Ho1.
        * intros l Hl. by apply Hc, Hc14, Hc1.
        * intros Hfw. by apply Hf1, Hf14, Hf.
    - intros w l Hfw Hcw. destruct (decide (w = v)) as [->|Hne].
      + assert (l = lf) as -> by (by apply (closed_functional s0 sf v)).
        destruct Hlast as [? | ?]; [by left|]. right. by left.
      + destruct (status_same s4 sf w (Hsame w Hne)) as (Hf & Ho & Hc).
        destruct (status_same s s1 w (update_other s v _ w Hne))
          as (Hf1 & Ho1 & Hc1).
        apply Hf1 in Hfw. apply Hc in Hcw.
        destruct (Hacc4 w l Hfw Hcw) as [? | (Hr & Hm & Hp)]; [by left|].
        right. right. split; [done|]. split_and!.
        * by rewrite Hroot.
        * intros x. by rewrite Hmodules.
        * intros p [Hlive_p Hpw].
          assert (w ≠ null) as Hw_null.
          { destruct Hcw as (k0 & Hk0 & _).
            by apply (node_not_null s0 Hok0 w k0). }
          assert (p ≠ null) as Hp_null.
          { destruct Hpw as (k & Hk & _).
            by apply (gen_state_node s0 Hok0 sf p k). }
          assert (p = v) as ->.
          { apply Hp. split; [by apply Hlive | by apply Hpointer]. }
          destruct Hpw as (k & Hk & Hbr).
          destruct Hclosed as (k0 & _ & Hk'). rewrite Hk in Hk'.
          injection Hk' as ->. cbn in Hbr. by destruct Hbr. }
  assert (nodes s4 !! v = Some (with_mark true n)) as Hv4.
  { destruct Hopen4 as (k0 & Hk0 & Hk4). congruence. }
  pose proof (Hcaches0 v n Hn0) as Hcache0.
  inv_bind H as u2 s5 Hcut. inv_ptr Hcut as k Hk. inv_run Hcut.
  assert (k = with_mark true n) as -> by congruence. clear Hk.
  set (s5 := set_nodes (insert v (CutBranches (with_mark true n))) s4) in *.
  inv_get H as owners.
  destruct (use_count s5 v >? 2) eqn:Howners.
  - inv_bind H as u3 s6 Hcache. inv_ptr Hcache as k5 Hk5. inv_run Hcache.
    inv_ret H.
    assert (k5 = CutBranches (with_mark true n)) as ->.
    { unfold s5 in Hk5. cbn in Hk5. rewrite lookup_insert_eq in Hk5.
      congruence. }
    split; [done|]. apply (Hclose _ result); try done.
    + intros w Hne. cbn. by rewrite !lookup_insert_ne.
    + exists n. split; [done|]. cbn. by rewrite lookup_insert_eq.
    + by left.
  - inv_bind H as u3 s6 Hcache. inv_ret Hcache. inv_ret H.
    split; [done|]. apply (Hclose _ []); try done.
    + intros w Hne. cbn. by rewrite lookup_insert_ne.
    + exists n. split; [done|]. cbn. rewrite lookup_insert_eq.
      by rewrite (cached_node n []).
    + right. apply Hcount. lia.
Qed.

End ExactRun.
(** ** Nested modules *)

(** The index of a node under [v] belongs to a set of the family of [v]. *)
Lemma index_in_family s v w n :
  store_ok s → rtc (pointer s) v w → nodes s !! w = Some n →
  ∃ X, in_family s v X ∧ index n ∈ X.
Proof.
  intros Hok Hr Hn. induction Hr as [v|v u w (k & Hk & Hbr) _ IH].
  - destruct (ok_branches _ Hok v n Hn) as (Hvh & _).
    destruct (ok_reduced _ Hok v n Hn) as (Hne & _).
    destruct (family_nonempty s _ Hok Hvh Hne) as (Y & HY).
    exists (index n :: Y). split; [|by left].
    eapply in_family_high; [|done|done].
    apply (ok_ids _ Hok) in Hn. apply terminal_false_iff.
    unfold kEmpty_, kBase_. lia.
  - destruct (IH Hn) as (X & HX & Hin).
    assert (terminal v = false) as Ht.
    { apply (ok_ids _ Hok) in Hk. apply terminal_false_iff.
      unfold kEmpty_, kBase_. lia. }
    destruct Hbr as [<- | <-].
    + exists (index k :: X). split; [by eapply in_family_high | by right].
    + exists X. split; [by eapply in_family_low | done].
Qed.

Section Nesting.

Variable s : Zbdd.
Variable rank : Z → nat.
Hypothesis Hok : store_ok s.
Hypothesis Hentries : module_entries_ok s.
Hypothesis Hnest : nesting_ok s rank.

Lemma module_bounded x m :
  modules_ s !! x = Some m → bounded s rank m (rank x).
Proof.
  intros Hx w n Hr Hn Hmd.
  destruct (index_in_family s m w n Hok Hr Hn) as (X & HX & Hin).
  apply (Hnest x m X (index n)); try done. by apply (Hentries w n).
Qed.

Lemma bounded_pointer v w k :
  pointer s v w → bounded s rank v k → bounded s rank w k.
Proof.
  intros Hp Hb u n Hr Hn Hmd. apply (Hb u n); try done.
  by eapply rtc_l.
Qed.

Lemma bounded_mono v k k' :
  (k ≤ k')%nat → bounded s rank v k → bounded s rank v k'.
Proof. intros Hle Hb u n Hr Hn Hmd. pose proof (Hb u n Hr Hn Hmd). lia. Qed.

(** Along the edges the identifiers decrease, or the rank does. *)
Lemma edges_decrease v w :
  tc (edge s) v w →
  ∀ k, bounded s rank v k →
       (w < v ∧ bounded s rank w k)
       ∨ ∃ k', (k' < k)%nat ∧ bounded s rank w k'.
Proof.
  assert (∀ v w k, edge s v w → bounded s rank v k →
            (w < v ∧ bounded s rank w k)
            ∨ ∃ k', (k' < k)%nat ∧ bounded s rank w k') as Hedge.
  { intros a b k (n & Hn & Hbr) Hb.
    destruct (ok_branches _ Hok a n Hn) as (_ & _ & Hh & Hl).
    destruct Hbr as [<- | [<- | [Hmd Hm]]].
    - left. split; [done|]. apply (bounded_pointer a); [|done].
      exists n. split; [done | by left].
    - left. split; [done|]. apply (bounded_pointer a); [|done].
      exists n. split; [done | by right].
    - right. exists (rank (index n)). split; [|by apply module_bounded].
      by apply (Hb a n). }
  induction 1 as [v w He|v u w He _ IH]; intros k Hb; [by apply Hedge|].
  destruct (Hedge v u k He Hb) as [[Hlt Hbu] | (k' & Hlt & Hbu)].
  - destruct (IH k Hbu) as [[Hlt' Hbw] | (k' & Hlt' & Hbw)].
    + left. split; [lia | done].
    + right. by exists k'.
  - right. destruct (IH k' Hbu) as [[_ Hbw] | (k'' & Hlt' & Hbw)].
    + by exists k'.
    + exists k''. split; [lia | done].
Qed.

Lemma bounded_acyclic k : ∀ v, bounded s rank v k → ¬ tc (edge s) v v.
Proof.
  induction (lt_wf k) as [k _ IH]. intros v Hb Hc.
  destruct (edges_decrease v v Hc k Hb) as [[Hlt _] | (k' & Hlt & Hb')];
    [lia|].
  by apply (IH k' Hlt v).
Qed.

(** Every vertex has a bound: the module table is finite. *)
Lemma bounded_exists v : ∃ k, bounded s rank v k.
Proof.
  exists (S (max_list ((λ e : Z * Z, rank e.1) <$> map_to_list (modules_ s)))).
  intros w n _ Hn Hmd.
  destruct (Hentries w n Hn Hmd) as (m & Hm).
  apply Nat.lt_succ_r, max_list_elem_of_le.
  apply list_elem_of_fmap. exists (index n, m). split; [done|].
  by apply elem_of_map_to_list.
Qed.

(** No module holds itself. *)
Lemma nesting_acyclic v : ¬ tc (edge s) v v.
Proof. destruct (bounded_exists v) as (k & Hb). by apply (bounded_acyclic k). Qed.

End Nesting.
(** ** The cut sets of the diagram *)

Lemma concat_reverse_cons {A} (e : list A) es :
  concat (reverse (e :: es)) = concat (reverse es) ++ e.
Proof. rewrite reverse_cons, concat_app. cbn. by rewrite app_nil_r. Qed.

(** A set of the family with an expansion of each element is a cut set,
    when the expansions of the modules are cut sets of the modules. *)
Lemma cut_of_expanded_step s k :
  module_flags_ok s → module_entries_ok s →
  (∀ x m e, modules_ s !! x = Some m → expansion s k x e → expanded s m e) →
  ∀ v c, cut_of s k v c → expanded s v c.
Proof.
  intros Hmf Hme Hmod v c (X & es & HX & Hes & ->).
  revert es Hes. induction HX as [|v n X Ht Hn _ IH|v n X Ht Hn _ IH];
    intros es Hes.
  - apply Forall2_nil_inv_l in Hes as ->. constructor.
  - apply Forall2_cons_inv_l in Hes as (e & es' & He & Hes & ->).
    rewrite concat_reverse_cons.
    destruct (modules_ s !! index n) as [m|] eqn:Hm.
    + apply (expanded_module s v n m); try done; [|by apply IH|by eapply Hmod].
      destruct (module n) eqn:Hmd; [done|].
      rewrite (Hmf v n Hn Hmd) in Hm. done.
    + apply (expansion_var _ _ _ _ Hm) in He as ->.
      apply (expanded_high s v n); try done; [|by apply IH].
      destruct (module n) eqn:Hmd; [|done].
      destruct (Hme v n Hn Hmd) as (m & Hm'). congruence.
  - apply (expanded_low s v n); try done. by apply IH.
Qed.

Lemma cut_of_expanded s k :
  module_flags_ok s → module_entries_ok s →
  ∀ v c, cut_of s k v c → expanded s v c.
Proof.
  intros Hmf Hme. induction k as [|k IH];
    apply cut_of_expanded_step; try done; intros x m e Hm He.
  - by destruct (proj1 (expansion_module _ _ _ _ _ Hm) He) as (k0 & ? & _).
  - destruct (proj1 (expansion_module _ _ _ _ _ Hm) He)
      as (k0 & [= <-] & Hc).
    by apply IH.
Qed.

Lemma expanded_iff_cut_of s v c :
  module_flags_ok s → module_entries_ok s →
  expanded s v c ↔ ∃ k, cut_of s k v c.
Proof.
  intros Hmf Hme. split; [by apply expanded_cut_of|].
  intros (k & Hc). by apply (cut_of_expanded s k).
Qed.

(** The cut sets of the minimized diagram are the minimal cut sets of the
    diagram. *)
Section Minimized.

Variables s sm : Zbdd.
Hypothesis Hmodules :
  ∀ x v, modules_ sm !! x = Some v →
         ∃ m, modules_ s !! x = Some m
              ∧ ∀ X, in_family sm v X ↔ minimal_family s m X.
Hypothesis Hnone : ∀ x, modules_ sm !! x = None → modules_ s !! x = None.

Lemma expansion_minimized k :
  ∀ x e, expansion sm k x e ↔ min_expansion s k x e.
Proof.
  induction k as [|k IH]; intros x e;
    destruct (modules_ sm !! x) as [v|] eqn:Hv; cbn; rewrite Hv.
  - destruct (Hmodules x v Hv) as (m & -> & _). done.
  - by rewrite (Hnone x Hv).
  - destruct (Hmodules x v Hv) as (m & -> & Hfam).
    split; intros (X & es & HX & Hes & ->); exists X, es;
      (split_and!; [by apply Hfam | | done]);
      (eapply Forall2_impl; [done|]); intros y e He; by apply IH.
  - by rewrite (Hnone x Hv).
Qed.

Lemma cut_of_minimized k r v c :
  (∀ X, in_family sm r X ↔ minimal_family s v X) →
  cut_of sm k r c ↔ min_cut_of s k v c.
Proof.
  intros Hfam.
  split; intros (X & es & HX & Hes & ->); exists X, es;
    (split_and!; [by apply Hfam | | done]);
    (eapply Forall2_impl; [done|]); intros y e He;
    by apply expansion_minimized.
Qed.

End Minimized.
(** ** The cut sets of Analyze are the minimal cut sets of the diagram *)

Lemma in_family_same_nodes s s' v X :
  nodes s' = nodes s → in_family s v X → in_family s' v X.
Proof.
  intros Hn H. induction H as [|v n X Ht Hv _ IH|v n X Ht Hv _ IH].
  - constructor.
  - eapply in_family_high; [done | by rewrite Hn | done].
  - eapply in_family_low; [done | by rewrite Hn | done].
Qed.

Lemma store_ok_reset s s' :
  store_ok s → nodes s' = nodes s → set_id_ s' = set_id_ s →
  unique_table_ s' = ∅ → store_ok s'.
Proof.
  intros [A B C D E F G P] Hn Hi Hu.
  split; unfold vertex, above; rewrite ?Hn, ?Hi, ?Hu; try done.
Qed.

(** Two states without marks that differ in marks only have the same
    nodes. *)
Lemma marks_clear_nodes s s' :
  marks_only s s' → marks_clear s → marks_clear s' → nodes s' = nodes s.
Proof.
  intros Hmo Hc Hc'. apply map_eq. intros v.
  assert ((unmarked <$> nodes s') !! v = (unmarked <$> nodes s) !! v) as Hv
    by (by rewrite (mo_nodes _ _ Hmo)).
  rewrite !lookup_fmap in Hv.
  destruct (nodes s' !! v) as [n'|] eqn:Hn',
           (nodes s !! v) as [n|] eqn:Hn; try done.
  cbn in Hv. injection Hv as Hi Ho Hh Hl Hmd Hmin Hcs.
  pose proof (Hc v n Hn) as Hm. pose proof (Hc' v n' Hn') as Hm'.
  destruct n, n'. cbn in *. by subst.
Qed.

(** The generation starts in a state in which it has been nowhere. *)
Lemma gen_state_refl s0 : gen_state s0 s0.
Proof. split; try done. intros w. by left. Qed.

Lemma targets_ok_refl s0 : targets_ok s0 s0.
Proof.
  intros p n _ _ _. split_and!; [by right; left | by right; left |].
  intros _ m _. right. by left.
Qed.

(** C1, amended: Analyze starts from a diagram whose invariants hold, whose
    nodes are unmarked and hold no cut sets, whose module flags agree with
    the module table and whose modules are nested, with a limit order that
    fits an [int]; the owner count of a vertex is at most two only when the
    vertex has no owner but its caller.  Then the list that Analyze leaves
    in [cut_sets_] holds exactly the minimal cut sets of the diagram (a
    minimal set of the family of the root, each module replaced by a
    minimal cut set of the module) of at most [limit_order] elements. *)
Theorem Analyze_minimal_cut_sets use_count rank fuel s s' :
  (∀ t v, use_count t v ≤ 2 → lonely t v) →
  sem_ok s → flags_ok s → marks_clear s → caches_empty s →
  module_flags_ok s → module_entries_ok s → nesting_ok s rank →
  0 ≤ limit_order s < 2 ^ 31 →
  vertex s (root_ s) →
  (∀ x m, modules_ s !! x = Some m → vertex s m) →
  Analyze use_count fuel s = Ok tt s' →
  ∀ c, c ∈ cut_sets_ s'
       ↔ (∃ k, min_cut_of s k (root_ s) c) ∧ size c ≤ limit_order s.
Proof.
  intros Hcount Hsem Hfl Hclear Hcaches Hmf Hme Hnest Hlimit Hroot Hmods H.
  pose proof (sem_store _ Hsem) as Hok.
  unfold Analyze in H. inv_bind H as u1 s1 Hmin.
  apply Analyze_minimize_run in Hmin
    as (sm & [Hsem2 Hfl2 Hmf2 Hext Hmo Hpost Hmodules Hnone Hme2 Hclear1]);
    try done.
  specialize (Hme2 Hme). specialize (Hclear1 Hclear).
  pose proof (sem_store _ Hsem2) as Hok2.
  do 5 inv_modify H. inv_get H as r. cbn in H.
  inv_bind H as l s2 Hrun. do 2 inv_modify H.
  apply modify_Ok in H as ->. cbn.
  set (s0 := set_subsume_table (λ _, ∅)
               (set_or_table (λ _, ∅)
                  (set_and_table (λ _, ∅)
                     (set_unique_table (λ _, ∅)
                        (set_minimal_results (λ _, ∅) s1))))) in *.
  assert (nodes s0 = nodes sm) as Hnodes.
  { apply (marks_clear_nodes (set_root (root_ s1) sm) s1); try done.
    by apply (marks_clear_extends s sm). }
  assert (modules_ s0 = modules_ sm) as Hmods0
    by exact (mo_modules _ _ Hmo).
  assert (limit_order s0 = limit_order s) as Hlim0.
  { cbn. by rewrite (mo_limit _ _ Hmo), <- (ext_limit _ _ Hext). }
  assert (store_ok s0) as Hok0.
  { apply (store_ok_reset sm); [done | done | | done].
    exact (mo_set_id _ _ Hmo). }
  assert (marks_clear s0) as Hclear0 by done.
  assert (caches_empty s0) as Hcaches0.
  { intros v n Hn. rewrite Hnodes in Hn.
    by apply (caches_empty_extends s sm Hext Hcaches v n). }
  assert (module_flags_ok s0) as Hmf0.
  { intros v n Hn. rewrite Hnodes in Hn. rewrite Hmods0.
    exact (Hmf2 v n Hn). }
  assert (module_entries_ok s0) as Hme0.
  { intros v n Hn. rewrite Hnodes in Hn. rewrite Hmods0.
    exact (Hme2 v n Hn). }
  assert (∀ v X, in_family s0 v X ↔ in_family sm v X) as Hfam0.
  { intros v X. split; by apply in_family_same_nodes. }
  assert (∀ m X, vertex s m →
                 minimal_family sm m X ↔ minimal_family s m X) as Hminimal.
  { intros m X Hm. unfold minimal_family.
    rewrite (in_family_extends_iff s sm m X Hok Hext Hm).
    split; intros [HX Hmin]; (split; [done|]); intros Y HY; apply Hmin;
      by apply (in_family_extends_iff s sm m Y Hok Hext Hm). }
  assert (∀ x v, modules_ s0 !! x = Some v →
                 ∃ m, modules_ s !! x = Some m
                      ∧ ∀ X, in_family s0 v X ↔ minimal_family s m X)
    as Hmodules0.
  { intros x v Hv. rewrite Hmods0 in Hv.
    destruct (Hmodules x v Hv) as (m & Hm & Hpost').
    exists m. split; [done|]. intros X.
    rewrite Hfam0, (mp_family _ _ _ Hpost' X). apply Hminimal.
    by apply (Hmods x m). }
  assert (∀ x, modules_ s0 !! x = None → modules_ s !! x = None) as Hnone0.
  { intros x Hx. rewrite Hmods0 in Hx. by apply Hnone. }
  assert (nesting_ok s0 rank) as Hnest0.
  { intros x v X y Hv HX Hy [w Hw].
    destruct (Hmodules0 x v Hv) as (m & Hm & Hfam).
    apply Hfam in HX as [HX _].
    apply (Hnest x m X y); try done.
    destruct (Hmodules0 y w Hw) as (m' & Hm' & _). by eexists. }
  pose proof (nesting_acyclic s0 rank Hok0 Hme0 Hnest0) as Hacyclic.
  rewrite <- Hlim0 in Hlimit.
  apply (GenerateCutSets_exact use_count s0 Hcount Hok0 Hclear0 Hcaches0
           Hacyclic Hlimit) in Hrun as (Hexact & _).
  - intros c. rewrite (Hexact c). unfold cut_set. rewrite <- Hlim0.
    rewrite (expanded_iff_cut_of s0 (root_ s1) c Hmf0 Hme0).
    assert (∀ X, in_family s0 (root_ s1) X
                 ↔ minimal_family s (root_ s) X) as Hfam_root.
    { intros X. rewrite Hfam0, (mp_family _ _ _ Hpost X).
      by apply Hminimal. }
    split; intros [(k & Hc) Hsize]; (split; [|done]); exists k;
      by apply (cut_of_minimized s s0 Hmodules0 Hnone0 k (root_ s1)
                  (root_ s) c Hfam_root).
  - apply gen_state_refl.
  - apply targets_ok_refl.
  - right. by left.
  - apply (held_root s0 s0).
  - intros w Ho. destruct (fresh_not_opened s0 Hclear0 s0 w); done.
Qed.

Lemma module_entries_okb_sound s :
  module_entries_okb s = true → module_entries_ok s.
Proof.
  intros H v n Hn Hmd.
  pose proof (forallb_map_to_list _ _ _ _ H Hn) as Hv. cbn in Hv.
  rewrite Hmd in Hv. by destruct (modules_ s !! index n).
Qed.

Lemma modules_okb_sound s :
  modules_okb s = true → ∀ x m, modules_ s !! x = Some m → vertex s m.
Proof.
  intros H x m Hm.
  pose proof (forallb_map_to_list _ _ _ _ H Hm) as Hv. cbn in Hv.
  by apply vertexb_vertex.
Qed.

(** The listed family holds every set of the family. *)
Lemma family_complete fuel :
  ∀ s v L X, family fuel s v = Some L → in_family s v X → X ∈ L.
Proof.
  induction fuel as [|fuel IH]; intros s v L X HL HX; [done|].
  cbn -[terminal] in HL.
  destruct HX as [|v n X Ht Hn HX|v n X Ht Hn HX].
  - injection HL as <-. by left.
  - rewrite Ht, Hn in HL.
    destruct (family fuel s (n~>low)) as [l|] eqn:Hl; [|done].
    destruct (family fuel s (n~>high)) as [h|] eqn:Hh; [|done].
    injection HL as <-. apply elem_of_app. right.
    apply list_elem_of_fmap. exists X. split; [done|]. by eapply IH.
  - rewrite Ht, Hn in HL.
    destruct (family fuel s (n~>low)) as [l|] eqn:Hl; [|done].
    destruct (family fuel s (n~>high)) as [h|] eqn:Hh; [|done].
    injection HL as <-. apply elem_of_app. left. by eapply IH.
Qed.

Lemma nesting_okb_sound fuel s rank :
  nesting_okb fuel s rank = true → nesting_ok s rank.
Proof.
  intros H x m X y Hm HX Hy [w Hw].
  pose proof (forallb_map_to_list _ _ _ _ H Hm) as Hv. cbn in Hv.
  destruct (family fuel s m) as [L|] eqn:HL; [|done].
  rewrite forallb_forall in Hv.
  pose proof (family_complete fuel s m L X HL HX) as HXL.
  apply list_elem_of_In in HXL. specialize (Hv X HXL).
  rewrite forallb_forall in Hv. apply list_elem_of_In in Hy.
  specialize (Hv y Hy). rewrite Hw in Hv. by apply Nat.ltb_lt.
Qed.

Lemma Analyze_minimal_cut_sets_witness :
  ∀ c, c ∈ [[3]; [2; 5]; [1; 5]]
       ↔ (∃ k, min_cut_of with_module_state k 6 c) ∧ size c ≤ 3.
Proof.
  assert (Analyze store_use_count 30 with_module_state
          = Ok tt with_module_analyzed) as Hrun by (vm_compute; reflexivity).
  destruct (unflaggedb_sound with_module_state)
    as [Hsem Hfl]; [vm_compute; reflexivity | vm_compute; reflexivity |].
  assert (marks_clear with_module_state) as Hmarks
    by (apply marks_clearb_sound; vm_compute; reflexivity).
  assert (caches_empty with_module_state) as Hcaches
    by (apply caches_emptyb_sound; vm_compute; reflexivity).
  assert (module_flags_ok with_module_state) as Hmf
    by (apply module_flags_okb_sound; vm_compute; reflexivity).
  assert (module_entries_ok with_module_state) as Hme
    by (apply module_entries_okb_sound; vm_compute; reflexivity).
  assert (nesting_ok with_module_state module_rank) as Hnest
    by (apply (nesting_okb_sound 10); vm_compute; reflexivity).
  assert (0 ≤ limit_order with_module_state < 2 ^ 31) as Hlimit
    by (vm_compute; split; [discriminate | reflexivity]).
  assert (vertex with_module_state (root_ with_module_state)) as Hroot
    by (apply vertexb_vertex; vm_compute; reflexivity).
  assert (∀ x m, modules_ with_module_state !! x = Some m →
                 vertex with_module_state m) as Hmods
    by (apply modules_okb_sound; vm_compute; reflexivity).
  exact (Analyze_minimal_cut_sets store_use_count module_rank 30
           with_module_state with_module_analyzed store_use_count_lonely
           Hsem Hfl Hmarks Hcaches Hmf Hme Hnest Hlimit Hroot Hmods Hrun).
Defined.
(** ** The literals of the nodes that the operations create *)

Lemma derived_refl s : derived s s.
Proof. intros v m Hm. by exists v, m. Qed.

Lemma derived_same_nodes s0 s s' :
  nodes s' = nodes s → derived s0 s → derived s0 s'.
Proof. intros Hn Hd v m Hm. rewrite Hn in Hm. exact (Hd v m Hm). Qed.

Lemma derived_literal_flags s s' :
  derived s s' → literal_flags_ok s → literal_flags_ok s'.
Proof.
  intros Hd Hok v w n m Hn Hm Hi.
  destruct (Hd v n Hn) as (v' & n' & Hn' & Hi1 & _ & Hmd1).
  destruct (Hd w m Hm) as (w' & m' & Hm' & Hi2 & _ & Hmd2).
  rewrite Hmd1, Hmd2. eapply Hok; [done | done | congruence].
Qed.

Lemma FetchUniqueTable_derived s0 i h l o md s r s' :
  derived s0 s →
  (∃ w k, nodes s0 !! w = Some k ∧ i = index k ∧ o = order k
          ∧ md = module k) →
  FetchUniqueTable i h l o md s = Ok r s' →
  derived s0 s'.
Proof.
  intros Hd (w & k & Hk & Hi & Ho & Hmd) H.
  apply FetchUniqueTable_Ok in H as [[_ ->] | (Hnone & _ & -> & ->)];
    [done|].
  intros v m Hm. cbn in Hm.
  destruct (decide (set_id_ s = v)) as [<-|Hne].
  - rewrite lookup_insert_eq in Hm. injection Hm as <-. by exists w, k.
  - rewrite lookup_insert_ne in Hm by done. exact (Hd _ _ Hm).
Qed.

Lemma set_minimal_derived s0 v flag u s s' :
  derived s0 s → set_minimal v flag s = Ok u s' → derived s0 s'.
Proof.
  intros Hd H. apply set_minimal_Ok in H as (n & Hn & ->).
  intros w m Hm. cbn in Hm.
  destruct (decide (v = w)) as [<-|Hne].
  - rewrite lookup_insert_eq in Hm. injection Hm as <-. exact (Hd v n Hn).
  - rewrite lookup_insert_ne in Hm by done. exact (Hd _ _ Hm).
Qed.

Lemma Subsume_emit_derived s0 high low hn subhigh sublow s r s' :
  derived s0 s →
  (∃ w k, nodes s0 !! w = Some k ∧ index hn = index k
          ∧ order hn = order k ∧ module hn = module k) →
  Subsume_emit high low hn subhigh sublow s = Ok r s' →
  derived s0 s'.
Proof.
  intros Hd Hsrc H. unfold Subsume_emit in H.
  destruct (terminal subhigh && negb (value subhigh)).
  - inv_modify H. inv_ret H. by eapply derived_same_nodes.
  - inv_assert H as Hne. inv_bind H as new_high s1 Hfetch.
    eapply FetchUniqueTable_derived in Hfetch as Hd1; [|done..].
    inv_ptr H as hn2 Hhn2. inv_bind H as u2 s2 Hset.
    eapply set_minimal_derived in Hset as Hd2; [|done].
    inv_modify H. inv_ret H. by eapply derived_same_nodes.
Qed.

Lemma Subsume_derived fuel :
  ∀ s0 high low s r s',
    derived s0 s → Subsume fuel high low s = Ok r s' → derived s0 s'.
Proof.
  induction fuel as [|fuel IH]; intros s0 high low s r s' Hd H; [done|].
  cbn -[terminal] in H.
  destruct (terminal low); [by inv_ret H|].
  destruct (terminal high); [by inv_ret H|].
  inv_get H as computed.
  destruct (subsume_table_ s !! (high, low)); [by inv_ret H|].
  inv_ptr H as hn Hhn. inv_ptr H as ln Hln.
  pose proof (Hd high hn Hhn) as Hsrc.
  destruct ((order hn >? order ln)
            || (order hn =? order ln) && (index hn <? index ln)).
  { inv_bind H as r1 s1 Hrun. eapply IH in Hrun; [|done].
    inv_modify H. inv_ret H. by eapply derived_same_nodes. }
  destruct ((order hn =? order ln) && (index hn =? index ln)).
  - inv_bind H as sh1 s1 Hrun1. eapply IH in Hrun1; [|done].
    inv_bind H as subhigh s2 Hrun2. eapply IH in Hrun2; [|done].
    inv_bind H as sublow s3 Hrun3. eapply IH in Hrun3; [|done].
    by eapply Subsume_emit_derived.
  - inv_assert H as Hfirst.
    inv_bind H as subhigh s1 Hrun1. eapply IH in Hrun1; [|done].
    inv_bind H as sublow s2 Hrun2. eapply IH in Hrun2; [|done].
    by eapply Subsume_emit_derived.
Qed.

Lemma Minimize_derived fuel :
  ∀ s0 v s r s',
    derived s0 s → Minimize fuel v s = Ok r s' → derived s0 s'.
Proof.
  induction fuel as [|fuel IH]; intros s0 v s r s' Hd H; [done|].
  cbn -[terminal] in H.
  destruct (terminal v); [by inv_ret H|].
  inv_ptr H as n Hn.
  destruct (minimal n); [by inv_ret H|].
  inv_get H as result.
  destruct (minimal_results_ s !! v); [by inv_ret H|].
  pose proof (Hd v n Hn) as Hsrc.
  inv_bind H as h1 s1 Hrun1. eapply IH in Hrun1; [|done].
  inv_bind H as l1 s2 Hrun2. eapply IH in Hrun2; [|done].
  inv_bind H as h2 s3 Hrun3. eapply Subsume_derived in Hrun3; [|done].
  unfold Minimize_emit in H. inv_assert H as Hne.
  destruct (terminal h2 && negb (value h2)).
  - inv_modify H. inv_ret H. by eapply derived_same_nodes.
  - inv_bind H as r1 s4 Hfetch.
    eapply FetchUniqueTable_derived in Hfetch as Hd4; [|done..].
    inv_modify H. inv_bind H as u2 s5 Hset.
    eapply set_minimal_derived in Hset; [|by eapply derived_same_nodes].
    by inv_ret H.
Qed.

Lemma StoreComputeTable_nodes type a b limit r u s s' :
  StoreComputeTable type a b limit r s = Ok u s' → nodes s' = nodes s.
Proof.
  unfold StoreComputeTable. destruct type; intros H; by inv_run H.
Qed.

Lemma drop_complement_branch_state one h s r s' :
  drop_complement_branch one h s = Ok r s' → s' = s.
Proof.
  unfold drop_complement_branch. intros H.
  destruct (terminal h); [by inv_ret H|].
  inv_ptr H as hn Hhn.
  destruct (order hn =? order one).
  - inv_assert H as Hc. by inv_ret H.
  - by inv_ret H.
Qed.

(** The operator overload of [Apply] for two set nodes creates nodes with
    the literal of its first argument, when the recursive calls do so. *)
Lemma Apply_sets_derived (ap : Operator → Z → Z → Z → M Z) (mn : Z → M Z) :
  (∀ s0 t a b l s r s', derived s0 s → ap t a b l s = Ok r s' →
                        derived s0 s') →
  (∀ s0 v s r s', derived s0 s → mn v s = Ok r s' → derived s0 s') →
  ∀ s0 type x y limit s r s',
    derived s0 s → Apply_sets ap mn type x y limit s = Ok r s' →
    derived s0 s'.
Proof.
  intros Hap Hmn s0 type x y limit s r s' Hd H.
  unfold Apply_sets in H.
  inv_ptr H as one Hone. inv_ptr H as two Htwo.
  pose proof (Hd x one Hone) as Hsrc.
  inv_bind H as branches s1 Hbr.
  assert (derived s0 s1) as Hd1.
  { destruct ((order one =? order two) && (index one =? index two)).
    - destruct type; [| |done].
      + inv_bind Hbr as h t1 Hr1. eapply Hap in Hr1; [|done].
        inv_bind Hbr as l t2 Hr2. eapply Hap in Hr2; [|done].
        by inv_ret Hbr.
      + inv_bind Hbr as g t1 Hr1. eapply Hap in Hr1; [|done].
        inv_bind Hbr as x1 t2 Hr2. eapply Hap in Hr2; [|done].
        inv_bind Hbr as y1 t3 Hr3. eapply Hap in Hr3; [|done].
        inv_bind Hbr as h t4 Hr4. eapply Hap in Hr4; [|done].
        inv_bind Hbr as l t5 Hr5. eapply Hap in Hr5; [|done].
        by inv_ret Hbr.
    - inv_assert Hbr as Hc. destruct type; [| |done].
      + destruct ((order one =? order two)
                  && (terminal (one~>high) && terminal (two~>high)));
          [by inv_ret Hbr|].
        inv_bind Hbr as l t1 Hr1. eapply Hap in Hr1; [|done].
        by inv_ret Hbr.
      + inv_bind Hbr as h t1 Hr1.
        assert (derived s0 t1) as Hdt1.
        { destruct (order one =? order two);
            eapply Hap in Hr1; done. }
        inv_bind Hbr as l t2 Hr2. eapply Hap in Hr2; [|done].
        by inv_ret Hbr. }
  destruct branches as [r0|[h l]]; [by inv_ret H|].
  inv_bind H as h' s2 Hdrop.
  apply drop_complement_branch_state in Hdrop as ->.
  unfold reduce_and_fetch in H.
  destruct (h' =? l); [by inv_ret H|].
  destruct (terminal h' && negb (value h')); [by inv_ret H|].
  inv_bind H as n s3 Hfetch.
  eapply FetchUniqueTable_derived in Hfetch; [|done..].
  by eapply Hmn.
Qed.

Lemma Apply_derived fuel :
  ∀ s0 type a b limit s r s',
    derived s0 s → Apply fuel type a b limit s = Ok r s' → derived s0 s'.
Proof.
  induction fuel as [|fuel IH]; intros s0 type a b limit s r s' Hd H;
    [done|].
  cbn -[Z.ltb Z.eqb terminal] in H.
  destruct (limit <? 0); [by inv_ret H|].
  destruct (terminal a && terminal b);
    [by apply Apply_terminals_pure in H as [-> _]|].
  destruct (terminal a); [by apply Apply_terminal_pure in H as [-> _]|].
  destruct (terminal b); [by apply Apply_terminal_pure in H as [-> _]|].
  destruct (a =? b); [by inv_ret H|].
  inv_bind H as result s1 Hfetch.
  apply FetchComputeTable_Ok in Hfetch as [-> _].
  destruct result; [by inv_ret H|].
  inv_ptr H as one Hone. inv_ptr H as two Htwo.
  inv_bind H as r1 s2 Hsets.
  eapply (Apply_sets_derived (Apply fuel) (Minimize fuel)) in Hsets;
    [| done | apply Minimize_derived | done].
  inv_bind H as u s3 Hstore. inv_ret H.
  apply StoreComputeTable_nodes in Hstore.
  by eapply derived_same_nodes.
Qed.



(** ** The results of Apply *)

Lemma keeps_refl s : keeps s s.
Proof. done. Qed.

Lemma keeps_trans s1 s2 s3 : keeps s1 s2 → keeps s2 s3 → keeps s1 s3.
Proof. intros [] []. split; congruence. Qed.

Lemma FetchUniqueTable_keeps i h l o md s r s' :
  FetchUniqueTable i h l o md s = Ok r s' → keeps s s'.
Proof.
  intros H.
  by apply FetchUniqueTable_Ok in H as [[_ ->] | (_ & _ & _ & ->)].
Qed.

Lemma set_minimal_keeps v flag u s s' :
  set_minimal v flag s = Ok u s' → keeps s s'.
Proof. intros H. by apply set_minimal_Ok in H as (n & _ & ->). Qed.

Lemma Subsume_emit_keeps high low hn subhigh sublow s r s' :
  Subsume_emit high low hn subhigh sublow s = Ok r s' → keeps s s'.
Proof.
  intros H. unfold Subsume_emit in H.
  destruct (terminal subhigh && negb (value subhigh)).
  - inv_modify H. by inv_ret H.
  - inv_assert H as Hne. inv_bind H as new_high s1 Hfetch.
    apply FetchUniqueTable_keeps in Hfetch.
    inv_ptr H as hn2 Hhn2. inv_bind H as u2 s2 Hset.
    apply set_minimal_keeps in Hset.
    inv_modify H. inv_ret H.
    eapply keeps_trans; [done|]. eapply keeps_trans; [done|]. done.
Qed.

Lemma Subsume_keeps fuel :
  ∀ high low s r s', Subsume fuel high low s = Ok r s' → keeps s s'.
Proof.
  induction fuel as [|fuel IH]; intros high low s r s' H; [done|].
  cbn -[terminal] in H.
  destruct (terminal low); [by inv_ret H|].
  destruct (terminal high); [by inv_ret H|].
  inv_get H as computed.
  destruct (subsume_table_ s !! (high, low)); [by inv_ret H|].
  inv_ptr H as hn Hhn. inv_ptr H as ln Hln.
  destruct ((order hn >? order ln)
            || (order hn =? order ln) && (index hn <? index ln)).
  { inv_bind H as r1 s1 Hrun. apply IH in Hrun.
    inv_modify H. inv_ret H. eapply keeps_trans; [done|]. done. }
  destruct ((order hn =? order ln) && (index hn =? index ln)).
  - inv_bind H as sh1 s1 Hrun1. apply IH in Hrun1.
    inv_bind H as subhigh s2 Hrun2. apply IH in Hrun2.
    inv_bind H as sublow s3 Hrun3. apply IH in Hrun3.
    apply Subsume_emit_keeps in H.
    eauto using keeps_trans.
  - inv_assert H as Hfirst.
    inv_bind H as subhigh s1 Hrun1. apply IH in Hrun1.
    inv_bind H as sublow s2 Hrun2. apply IH in Hrun2.
    apply Subsume_emit_keeps in H.
    eauto using keeps_trans.
Qed.

Lemma Minimize_keeps fuel :
  ∀ v s r s', Minimize fuel v s = Ok r s' → keeps s s'.
Proof.
  induction fuel as [|fuel IH]; intros v s r s' H; [done|].
  cbn -[terminal] in H.
  destruct (terminal v); [by inv_ret H|].
  inv_ptr H as n Hn.
  destruct (minimal n); [by inv_ret H|].
  inv_get H as result.
  destruct (minimal_results_ s !! v); [by inv_ret H|].
  inv_bind H as h1 s1 Hrun1. apply IH in Hrun1.
  inv_bind H as l1 s2 Hrun2. apply IH in Hrun2.
  inv_bind H as h2 s3 Hrun3. apply Subsume_keeps in Hrun3.
  assert (keeps s s3) as Hk by eauto using keeps_trans.
  eapply keeps_trans; [done|].
  unfold Minimize_emit in H. inv_assert H as Hne.
  destruct (terminal h2 && negb (value h2)).
  - inv_modify H. by inv_ret H.
  - inv_bind H as r1 s4 Hfetch. apply FetchUniqueTable_keeps in Hfetch.
    inv_modify H. inv_bind H as u2 s5 Hset.
    apply set_minimal_keeps in Hset. inv_ret H.
    eapply keeps_trans; [done|]. eapply keeps_trans; [|done]. done.
Qed.

(** *** Supports *)

Lemma support_extends_iff s s' v i :
  store_ok s → extends s s' → vertex s v →
  support s' v i ↔ support s v i.
Proof.
  intros Hok Hext Hv. unfold support.
  split; intros (X & HX & Hi); exists X; (split; [|done]);
    by apply (in_family_extends_iff s s' v X Hok Hext Hv).
Qed.

Lemma support_high s v n i :
  terminal v = false → nodes s !! v = Some n →
  support s (n~>high) i → support s v i.
Proof.
  intros Ht Hn (X & HX & Hi). exists (index n :: X).
  split; [by eapply in_family_high | by apply list_elem_of_further].
Qed.

Lemma support_low s v n i :
  terminal v = false → nodes s !! v = Some n →
  support s (n~>low) i → support s v i.
Proof.
  intros Ht Hn (X & HX & Hi). exists X.
  split; [by eapply in_family_low | done].
Qed.

Lemma support_index s v n :
  store_ok s → nodes s !! v = Some n → support s v (index n).
Proof.
  intros Hok Hn.
  destruct (ok_branches _ Hok v n Hn) as (Hvh & _).
  destruct (ok_reduced _ Hok v n Hn) as (Hne & _).
  destruct (family_nonempty s _ Hok Hvh Hne) as (X & HX).
  exists (index n :: X). split; [|by apply list_elem_of_here].
  eapply in_family_high; [|done..].
  by eapply store_ok_not_terminal.
Qed.

Lemma support_node s v n i :
  terminal v = false → nodes s !! v = Some n →
  support s v i →
  i = index n ∨ support s (n~>high) i ∨ support s (n~>low) i.
Proof.
  intros Ht Hn (X & HX & Hi).
  apply (in_family_node s v n X Ht Hn) in HX as [HX | (X' & -> & HX)].
  - right. right. by exists X.
  - apply elem_of_cons in Hi as [-> | Hi]; [by left|].
    right. left. by exists X'.
Qed.

Lemma support_terminal s v i : terminal v = true → ¬ support s v i.
Proof.
  intros Ht (X & HX & Hi). apply terminal_iff in Ht as [-> | ->].
  - by apply in_family_kEmpty in HX.
  - apply in_family_kBase in HX as ->. by apply not_elem_of_nil in Hi.
Qed.

(** *** The ordering of the operands *)

Lemma above_restrict s s' n v :
  extends s s' → vertex s v → above s' n v → above s n v.
Proof.
  intros Hext [Ht | [m Hm]] Hab; [by left|].
  destruct Hab as [Ht | (m' & Hm' & Hb)]; [by left|].
  destruct (ext_nodes _ _ Hext v m Hm) as (m2 & Hm2 & Hsame).
  assert (m2 = m') as -> by congruence.
  right. exists m. split; [done|].
  destruct Hsame as (Hi & Ho & _). unfold before in *. lia.
Qed.

Lemma above_trans s n v m w :
  store_ok s → nodes s !! v = Some m → above s n v → above s m w →
  above s n w.
Proof.
  intros Hok Hm [Ht | (m' & Hm' & Hb)] Hab.
  - by rewrite (store_ok_not_terminal s v m Hok Hm) in Ht.
  - assert (m' = m) as -> by congruence.
    destruct Hab as [? | (k & Hk & Hb')]; [by left|].
    right. exists k. split; [done|]. by eapply before_trans.
Qed.

(** *** The specification of a result *)

Lemma apply_post_sym s a b r : apply_post s a b r → apply_post s b a r.
Proof.
  intros [Hv Hab Hsup]. split; [done | by auto |].
  intros i Hi. destruct (Hsup i Hi); by auto.
Qed.

Lemma apply_post_left s a b : vertex s a → apply_post s a b a.
Proof. intros Hv. split; [done | by auto | by auto]. Qed.

Lemma apply_post_right s a b : vertex s b → apply_post s a b b.
Proof. intros Hv. split; [done | by auto | by auto]. Qed.

Lemma apply_post_terminal s a b r :
  terminal r = true → apply_post s a b r.
Proof.
  intros Ht. split; [by left | by left |].
  intros i Hi. by destruct (support_terminal s r i Ht).
Qed.

Lemma apply_post_extends s s' a b r :
  store_ok s → extends s s' → vertex s a → vertex s b →
  apply_post s a b r → apply_post s' a b r.
Proof.
  intros Hok Hext Ha Hb [Hv Hab Hsup]. split.
  - by eapply vertex_extends.
  - intros n Hna Hnb. eapply above_extends; [done|].
    apply Hab; by eapply above_restrict.
  - intros i Hi. apply (support_extends_iff s s' r i Hok Hext Hv) in Hi.
    destruct (Hsup i Hi) as [H | H]; [left | right];
      by apply (support_extends_iff s s' _ i Hok Hext).
Qed.

Lemma apply_post_compose s x y u v r :
  apply_post s x y u → apply_post s x y v → apply_post s u v r →
  apply_post s x y r.
Proof.
  intros [Hvu Habu Hsu] [Hvv Habv Hsv] [Hvr Habr Hsr]. split; [done | |].
  - intros n Hx Hy. apply Habr; by auto.
  - intros i Hi. destruct (Hsr i Hi); by auto.
Qed.

Lemma apply_post_high s x y v n :
  store_ok s → nodes s !! v = Some n →
  apply_post s x y v → apply_post s x y (n~>high).
Proof.
  intros Hok Hn [Hv Hab Hsup].
  pose proof (store_ok_not_terminal s v n Hok Hn) as Ht.
  split.
  - by destruct (ok_branches _ Hok v n Hn) as (? & _).
  - intros k Hx Hy. eapply above_trans; [done | done | by auto |].
    by destruct (ok_ordered _ Hok v n Hn).
  - intros i Hi. apply Hsup. by eapply support_high.
Qed.

Lemma apply_post_low s x y v n :
  store_ok s → nodes s !! v = Some n →
  apply_post s x y v → apply_post s x y (n~>low).
Proof.
  intros Hok Hn [Hv Hab Hsup].
  pose proof (store_ok_not_terminal s v n Hok Hn) as Ht.
  split.
  - by destruct (ok_branches _ Hok v n Hn) as (_ & ? & _).
  - intros k Hx Hy. eapply above_trans; [done | done | by auto |].
    by destruct (ok_ordered _ Hok v n Hn).
  - intros i Hi. apply Hsup. by eapply support_low.
Qed.

Lemma apply_tables_ok_extends s s' :
  store_ok s → extends s s' →
  and_table_ s' = and_table_ s → or_table_ s' = or_table_ s →
  apply_tables_ok s → apply_tables_ok s'.
Proof.
  intros Hok Hext Hand Hor Htab type x y l r Hr.
  assert (compute_table type s !! (x, y, l) = Some r) as Hr0.
  { destruct type; cbn in *; congruence. }
  destruct (Htab type x y l r Hr0) as (Hx & Hy & Hpost).
  split_and!; [by eapply vertex_extends | by eapply vertex_extends |].
  by eapply apply_post_extends.
Qed.

(** *** Progress *)

Lemma progress_refl s :
  sem_ok s → flags_ok s → apply_tables_ok s → progress s s.
Proof.
  intros. split; try done; [apply extends_refl | apply flags_le_refl].
Qed.

Lemma progress_trans s1 s2 s3 :
  progress s1 s2 → progress s2 s3 → progress s1 s3.
Proof.
  intros [] []. split; try done; try congruence.
  - by eapply extends_trans.
  - by eapply flags_le_trans.
Qed.

(** *** The branches of the expansion *)

Lemma under_extends s s' one x y v :
  store_ok s → extends s s' → vertex s x → vertex s y →
  under s one x y v → under s' one x y v.
Proof.
  intros Hok Hext Hx Hy [Hpost Hab].
  split; [by eapply apply_post_extends | by eapply above_extends].
Qed.

Lemma under_compose s one x y u v r :
  under s one x y u → under s one x y v → apply_post s u v r →
  under s one x y r.
Proof.
  intros [Hu Hau] [Hv Hav] Hr.
  split; [exact (apply_post_compose s x y u v r Hu Hv Hr)|].
  by apply (ap_above _ _ _ _ Hr).
Qed.

Lemma under_terminal s one x y r : terminal r = true → under s one x y r.
Proof. intros Ht. split; [by apply apply_post_terminal | by left]. Qed.

Lemma under_low s one x y v n :
  store_ok s → nodes s !! v = Some n →
  under s one x y v → under s one x y (n~>low).
Proof.
  intros Hok Hn [Hpost Hab]. split; [by eapply apply_post_low|].
  eapply above_trans; [done | done | done |].
  by destruct (ok_ordered _ Hok v n Hn).
Qed.

Lemma under_high s one x y v n :
  store_ok s → nodes s !! v = Some n →
  under s one x y v → under s one x y (n~>high).
Proof.
  intros Hok Hn [Hpost Hab]. split; [by eapply apply_post_high|].
  eapply above_trans; [done | done | done |].
  by destruct (ok_ordered _ Hok v n Hn).
Qed.

(** The branches of the first operand. *)
Lemma under_one_high s one x y :
  store_ok s → nodes s !! x = Some one → under s one x y (one~>high).
Proof.
  intros Hok Hx. split.
  - eapply apply_post_high; [done | done |].
    apply apply_post_left. by eapply vertex_node.
  - by destruct (ok_ordered _ Hok x one Hx).
Qed.

Lemma under_one_low s one x y :
  store_ok s → nodes s !! x = Some one → under s one x y (one~>low).
Proof.
  intros Hok Hx. split.
  - eapply apply_post_low; [done | done |].
    apply apply_post_left. by eapply vertex_node.
  - by destruct (ok_ordered _ Hok x one Hx).
Qed.

(** The second operand, when it comes after the first one. *)
Lemma under_two s one two x y :
  nodes s !! y = Some two → before one two → under s one x y y.
Proof.
  intros Hy Hb. split.
  - apply apply_post_right. by eapply vertex_node.
  - right. by exists two.
Qed.

(** The branches of the second operand, when it carries the literal of the
    first one. *)
Lemma under_two_same s one two x y :
  store_ok s → nodes s !! y = Some two →
  order one = order two → index one = index two →
  under s one x y (two~>high) ∧ under s one x y (two~>low).
Proof.
  intros Hok Hy Ho Hi.
  destruct (ok_ordered _ Hok y two Hy) as [Hah Hal].
  split; split.
  - eapply apply_post_high; [done | done |].
    apply apply_post_right. by eapply vertex_node.
  - by eapply (above_same_level s two one).
  - eapply apply_post_low; [done | done |].
    apply apply_post_right. by eapply vertex_node.
  - by eapply (above_same_level s two one).
Qed.

(** One recursive call of the expansion. *)
Lemma under_call (ap : Operator → Z → Z → Z → M Z) :
  (∀ t a b l s r s',
     sem_ok s → flags_ok s → apply_tables_ok s →
     vertex s a → vertex s b →
     ap t a b l s = Ok r s' → apply_result_ok s a b r s') →
  ∀ one x y s t u v type limit r t',
    progress s t → vertex t x → vertex t y →
    under t one x y u → under t one x y v →
    ap type u v limit t = Ok r t' →
    progress s t' ∧ under t' one x y r
    ∧ (∀ w, under t one x y w → under t' one x y w).
Proof.
  intros Hap one x y s t u v type limit r t' Hpg Hx Hy Hu Hv Hrun.
  apply Hap in Hrun as [Hpg' Hpost];
    [| apply Hpg | apply Hpg | apply Hpg
     | apply Hu | apply Hv].
  assert (store_ok t) as Hok by apply Hpg.
  assert (∀ w, under t one x y w → under t' one x y w) as Htr.
  { intros w Hw. eapply under_extends; [done | apply Hpg' | done..]. }
  split_and!; [by eapply progress_trans | | done].
  exact (under_compose t' one x y u v r (Htr u Hu) (Htr v Hv) Hpost).
Qed.

Lemma order_operands_spec a b na nb :
  order_operands a b na nb = (a, b) ∧ not_after na nb
  ∨ order_operands a b na nb = (b, a) ∧ not_after nb na.
Proof.
  unfold order_operands, not_after.
  destruct (Z.gtb_spec (order na) (order nb)).
  - destruct (Z.eqb_spec (order nb) (order na)); [lia|].
    right. split; [done | lia].
  - destruct (Z.eqb_spec (order na) (order nb)),
      (Z.ltb_spec (index na) (index nb)); cbn.
    + right. split; [done | lia].
    + left. split; [done | lia].
    + left. split; [done | lia].
    + left. split; [done | lia].
Qed.
(** ** Apply keeps the invariants of the engine *)

Lemma same_node_literal n m :
  same_node n m → index n = index m ∧ order n = order m
                  ∧ module n = module m.
Proof. intros (? & ? & _ & _ & ? & _). done. Qed.

Lemma progress_node s t x one :
  progress s t → nodes s !! x = Some one →
  ∃ m, nodes t !! x = Some m ∧ index m = index one
       ∧ order m = order one ∧ m~>high = one~>high ∧ m~>low = one~>low.
Proof.
  intros Hpg Hx.
  destruct (ext_nodes _ _ (pg_extends _ _ Hpg) x one Hx)
    as (m & Hm & Hi & Ho & Hh & Hl & _).
  exists m. split_and!; done.
Qed.

(** The end of the expansion: the reduction rules, the node of the result
    and its minimization. *)
Lemma reduce_and_fetch_ok (mn : Z → M Z) :
  (∀ v s r s', sem_ok s → flags_ok s → vertex s v → mn v s = Ok r s' →
               minimize_result_ok s v r s' ∧ keeps s s') →
  ∀ s t one x y h l r t',
    progress s t → nodes s !! x = Some one → vertex s y →
    under t one x y h → under t one x y l →
    reduce_and_fetch mn one h l t = Ok r t' →
    progress s t' ∧ apply_post t' x y r.
Proof.
  intros Hmn s t one x y h l r t' Hpg Hx Hy [Hh Hah] [Hl Hal] H.
  unfold reduce_and_fetch in H.
  destruct (Z.eqb_spec h l) as [->|Hhl]; [by inv_ret H|].
  destruct (terminal h && negb (value h)) eqn:Hempty; [by inv_ret H|].
  assert (h ≠ kEmpty_) as Hne.
  { intros ->. by rewrite terminal_kEmpty in Hempty. }
  inv_bind H as n t2 Hfetch.
  assert (store_ok t) as Hok by apply Hpg.
  destruct (progress_node s t x one Hpg Hx)
    as (one_t & Hone_t & Hi_t & Ho_t & _).
  assert (vertex t x) as Hxt by (by eapply vertex_node).
  assert (vertex t y) as Hyt
    by (eapply vertex_extends; [apply Hpg | done]).
  pose proof (FetchUniqueTable_keeps _ _ _ _ _ _ _ _ Hfetch) as Hk2.
  assert (above t (mkSetNode (index one) (order one) h l (module one)
                              false false []) h) as Hab1
    by (by eapply (above_same_level t one)).
  assert (above t (mkSetNode (index one) (order one) h l (module one)
                              false false []) l) as Hab2
    by (by eapply (above_same_level t one)).
  assert (∀ w m, nodes t !! w = Some m → index m = index one →
                 order m = order one) as Hord.
  { intros w m Hm Him.
    rewrite <- Ho_t. eapply (ok_order _ Hok); [done | done | congruence]. }
  destruct (FetchUniqueTable_store_ok _ _ _ _ _ _ _ _ Hok
              (ap_vertex _ _ _ _ Hh) (ap_vertex _ _ _ _ Hl) Hne Hhl
              Hab1 Hab2 Hord Hfetch)
    as (Hok2 & Hext2 & (nn & Hnn & Hi & Ho & Hnh & Hnl) & Hcase
        & Hsub & Hmin).
  assert (sem_ok t2) as Hsem2.
  { exact (sem_ok_extends t t2 (pg_sem _ _ Hpg) Hext2 Hok2 Hsub). }
  destruct (FetchUniqueTable_flags _ _ _ _ _ _ _ _ (pg_flags _ _ Hpg)
              Hok Hok2 Hext2 Hcase Hsub Hmin) as [Hfl2 Hle2].
  assert (apply_tables_ok t2) as Htab2.
  { exact (apply_tables_ok_extends t t2 Hok Hext2 (kp_and _ _ Hk2)
             (kp_or _ _ Hk2) (pg_tables _ _ Hpg)). }
  assert (vertex t2 n) as Hn2 by (by eapply vertex_node).
  destruct (Hmn n t2 r t' Hsem2 Hfl2 Hn2 H)
    as [(Hsem3 & Hfl3 & Hext3 & Hle3 & Hpost) Hk3].
  assert (apply_tables_ok t') as Htab3.
  { exact (apply_tables_ok_extends t2 t' Hok2 Hext3 (kp_and _ _ Hk3)
             (kp_or _ _ Hk3) Htab2). }
  assert (extends t t') as Hext by (by eapply extends_trans).
  assert (store_ok t') as Hok3 by apply Hsem3.
  split.
  - split; try done.
    + eapply extends_trans; [apply Hpg | done].
    + eapply flags_le_trans; [apply Hpg|]. by eapply flags_le_trans.
    + rewrite (kp_modules _ _ Hk3), (kp_modules _ _ Hk2). apply Hpg.
    + rewrite (kp_root _ _ Hk3), (kp_root _ _ Hk2). apply Hpg.
  - destruct (ext_nodes _ _ Hext3 n nn Hnn)
      as (nn3 & Hnn3 & Hi3 & Ho3 & Hh3 & Hl3 & _).
    destruct (ext_nodes _ _ Hext x one_t Hone_t)
      as (one3 & Hone3 & Hi1 & Ho1 & _).
    pose proof (store_ok_not_terminal t' n nn3 Hok3 Hnn3) as Htn.
    split.
    + apply Hpost.
    + intros k Hkx Hky.
      eapply above_root_le; [done | | apply Hpost].
      destruct Hkx as [Ht | (m & Hm & Hb)].
      { by rewrite (store_ok_not_terminal t' x one3 Hok3 Hone3) in Ht. }
      assert (m = one3) as -> by congruence.
      right. exists nn3. split; [done|].
      unfold before in *. lia.
    + intros i (X & HX & HiX).
      apply (mp_family _ _ _ Hpost) in HX as [HX _].
      destruct (support_node t' n nn3 i Htn Hnn3) as [-> | [Hs | Hs]].
      { by exists X. }
      * left. replace (index nn3) with (index one3) by congruence.
        by eapply support_index.
      * rewrite <- Hh3, Hnh in Hs.
        apply (ap_support t' x y h); [|done].
        exact (apply_post_extends t t' x y h Hok Hext Hxt Hyt Hh).
      * rewrite <- Hl3, Hnl in Hs.
        apply (ap_support t' x y l); [|done].
        exact (apply_post_extends t t' x y l Hok Hext Hxt Hyt Hl).
Qed.

Lemma drop_complement_branch_ok s one x y h r s' :
  store_ok s → under s one x y h →
  drop_complement_branch one h s = Ok r s' →
  s' = s ∧ under s one x y r.
Proof.
  intros Hok Hu H. unfold drop_complement_branch in H.
  destruct (terminal h); [by inv_ret H|].
  inv_ptr H as hn Hhn.
  destruct (order hn =? order one).
  - inv_assert H as Hc. inv_ret H. split; [done|]. by eapply under_low.
  - by inv_ret H.
Qed.

(** The expansion of Apply for two set nodes, over recursive calls that
    keep the invariants. *)
Lemma Apply_sets_ok (ap : Operator → Z → Z → Z → M Z) (mn : Z → M Z) :
  (∀ t a b l s r s',
     sem_ok s → flags_ok s → apply_tables_ok s →
     vertex s a → vertex s b →
     ap t a b l s = Ok r s' → apply_result_ok s a b r s') →
  (∀ v s r s', sem_ok s → flags_ok s → vertex s v → mn v s = Ok r s' →
               minimize_result_ok s v r s' ∧ keeps s s') →
  ∀ type x y limit s one two r s',
    sem_ok s → flags_ok s → apply_tables_ok s →
    nodes s !! x = Some one → nodes s !! y = Some two →
    not_after one two →
    Apply_sets ap mn type x y limit s = Ok r s' →
    apply_result_ok s x y r s'.
Proof.
  intros Hap Hmn type x y limit s one two r s' Hsem Hfl Htab Hx Hy Hord H.
  unfold Apply_sets in H.
  inv_ptr H as one' Hone. inv_ptr H as two' Htwo.
  assert (one' = one) as -> by congruence.
  assert (two' = two) as -> by congruence.
  clear Hone Htwo.
  assert (store_ok s) as Hok by apply Hsem.
  assert (vertex s x) as Hvx by (by eapply vertex_node).
  assert (vertex s y) as Hvy by (by eapply vertex_node).
  pose proof (progress_refl s Hsem Hfl Htab) as Hpg0.
  pose proof (under_one_high s one x y Hok Hx) as Uoh.
  pose proof (under_one_low s one x y Hok Hx) as Uol.
  pose proof (under_call ap Hap one x y s) as Hcall.
  inv_bind H as branches s1 Hbr.
  assert (progress s s1
          ∧ match branches with
            | inl r0 => terminal r0 = true
            | inr (h, l) => under s1 one x y h ∧ under s1 one x y l
            end) as [Hpg1 Hbranches].
  { destruct ((order one =? order two) && (index one =? index two))
      eqn:Hsame.
    - apply andb_true_iff in Hsame as [Ho Hi].
      apply Z.eqb_eq in Ho, Hi.
      destruct (under_two_same s one two x y Hok Hy Ho Hi) as [Uth Utl].
      destruct type; [| |done].
      + inv_bind Hbr as h t1 Hr1.
        destruct (Hcall _ _ _ _ _ _ _ Hpg0 Hvx Hvy Uoh Uth Hr1)
          as (Hp1 & Uh & Htr1).
        inv_bind Hbr as l t2 Hr2.
        assert (vertex t1 x ∧ vertex t1 y) as [Hx1 Hy1].
        { split; (eapply vertex_extends; [apply Hp1 | done]). }
        destruct (Hcall _ _ _ _ _ _ _ Hp1 Hx1 Hy1 (Htr1 _ Uol)
                    (Htr1 _ Utl) Hr2) as (Hp2 & Ul & Htr2).
        inv_ret Hbr. split; [done|]. split; [by apply Htr2 | done].
      + inv_bind Hbr as g t1 Hr1.
        destruct (Hcall _ _ _ _ _ _ _ Hpg0 Hvx Hvy Uth Utl Hr1)
          as (Hp1 & Ug & Htr1).
        assert (vertex t1 x ∧ vertex t1 y) as [Hx1 Hy1].
        { split; (eapply vertex_extends; [apply Hp1 | done]). }
        inv_bind Hbr as x1 t2 Hr2.
        destruct (Hcall _ _ _ _ _ _ _ Hp1 Hx1 Hy1 (Htr1 _ Uoh) Ug Hr2)
          as (Hp2 & Ux1 & Htr2).
        assert (vertex t2 x ∧ vertex t2 y) as [Hx2 Hy2].
        { split; (eapply vertex_extends; [apply Hp2 | done]). }
        inv_bind Hbr as y1 t3 Hr3.
        destruct (Hcall _ _ _ _ _ _ _ Hp2 Hx2 Hy2
                    (Htr2 _ (Htr1 _ Uol)) (Htr2 _ (Htr1 _ Uth)) Hr3)
          as (Hp3 & Uy1 & Htr3).
        assert (vertex t3 x ∧ vertex t3 y) as [Hx3 Hy3].
        { split; (eapply vertex_extends; [apply Hp3 | done]). }
        inv_bind Hbr as h t4 Hr4.
        destruct (Hcall _ _ _ _ _ _ _ Hp3 Hx3 Hy3 (Htr3 _ Ux1) Uy1 Hr4)
          as (Hp4 & Uh & Htr4).
        assert (vertex t4 x ∧ vertex t4 y) as [Hx4 Hy4].
        { split; (eapply vertex_extends; [apply Hp4 | done]). }
        inv_bind Hbr as l t5 Hr5.
        destruct (Hcall _ _ _ _ _ _ _ Hp4 Hx4 Hy4
                    (Htr4 _ (Htr3 _ (Htr2 _ (Htr1 _ Uol))))
                    (Htr4 _ (Htr3 _ (Htr2 _ (Htr1 _ Utl)))) Hr5)
          as (Hp5 & Ul & Htr5).
        inv_ret Hbr. split; [done|]. split; [by apply Htr5 | done].
    - inv_assert Hbr as Hc.
      assert (before one two) as Hb.
      { apply andb_false_iff in Hsame.
        unfold not_after, before in *. lia. }
      pose proof (under_two s one two x y Hy Hb) as Uy.
      assert (under s one x y (two~>low)) as Utl
        by (by eapply under_low).
      destruct type; [| |done].
      + destruct ((order one =? order two)
                  && (terminal (one~>high) && terminal (two~>high))).
        { inv_ret Hbr. split; [done | done]. }
        inv_bind Hbr as l t1 Hr1.
        destruct (Hcall _ _ _ _ _ _ _ Hpg0 Hvx Hvy Uol Uy Hr1)
          as (Hp1 & Ul & Htr1).
        inv_ret Hbr. split; [done|]. split; [by apply Htr1 | done].
      + inv_bind Hbr as h t1 Hr1.
        assert (progress s t1 ∧ under t1 one x y h
                ∧ (∀ w, under s one x y w → under t1 one x y w))
          as (Hp1 & Uh & Htr1).
        { destruct (order one =? order two).
          - exact (Hcall _ _ _ _ _ _ _ Hpg0 Hvx Hvy Uoh Utl Hr1).
          - exact (Hcall _ _ _ _ _ _ _ Hpg0 Hvx Hvy Uoh Uy Hr1). }
        assert (vertex t1 x ∧ vertex t1 y) as [Hx1 Hy1].
        { split; (eapply vertex_extends; [apply Hp1 | done]). }
        inv_bind Hbr as l t2 Hr2.
        destruct (Hcall _ _ _ _ _ _ _ Hp1 Hx1 Hy1 (Htr1 _ Uol)
                    (Htr1 _ Uy) Hr2) as (Hp2 & Ul & Htr2).
        inv_ret Hbr. split; [done|]. split; [by apply Htr2 | done]. }
  destruct branches as [r0|[h l]].
  { inv_ret H. split; [done|]. by apply apply_post_terminal. }
  destruct Hbranches as [Uh Ul].
  inv_bind H as h' s2 Hdrop.
  apply drop_complement_branch_ok with (x := x) (y := y) in Hdrop
    as [-> Uh']; [| apply Hpg1 | done].
  by eapply (reduce_and_fetch_ok mn Hmn s s1 one x y h' l).
Qed.

(** [Apply] keeps the invariants of the engine; its result is a vertex that
    may stand where both operands may stand, made of the indices of the
    operands. *)
Lemma Apply_run_ok fuel :
  ∀ type a b limit s r s',
    sem_ok s → flags_ok s → apply_tables_ok s →
    vertex s a → vertex s b →
    Apply fuel type a b limit s = Ok r s' →
    apply_result_ok s a b r s'.
Proof.
  induction fuel as [|fuel IH];
    intros type a b limit s r s' Hsem Hfl Htab Ha Hb H; [done|].
  pose proof (progress_refl s Hsem Hfl Htab) as Hpg0.
  cbn -[Z.ltb Z.eqb terminal StoreComputeTable FetchComputeTable
        Apply_sets] in H.
  destruct (limit <? 0).
  { inv_ret H. split; [done|]. by apply apply_post_terminal. }
  destruct (terminal a) eqn:Hta, (terminal b) eqn:Htb;
    cbn -[Z.ltb Z.eqb terminal StoreComputeTable FetchComputeTable
          Apply_sets] in H.
  - split; [|apply apply_post_terminal].
    + by apply Apply_terminals_pure in H as [-> _].
    + unfold Apply_terminals in H.
      destruct type; [| |done];
        match type of H with
        | (if ?c then _ else _) _ = _ => destruct c
        end; by inv_ret H.
  - unfold Apply_terminal in H.
    destruct type; [| |done];
      match type of H with
      | (if ?c then _ else _) _ = _ => destruct c
      end; inv_ret H; (split; [done|]);
      try (by apply apply_post_terminal); by apply apply_post_right.
  - unfold Apply_terminal in H.
    destruct type; [| |done];
      match type of H with
      | (if ?c then _ else _) _ = _ => destruct c
      end; inv_ret H; (split; [done|]);
      try (by apply apply_post_terminal); by apply apply_post_left.
  - destruct (Z.eqb_spec a b) as [->|Hab].
    { inv_ret H. split; [done|]. by apply apply_post_left. }
    inv_bind H as result s1 Hfetch.
    apply FetchComputeTable_Ok in Hfetch
      as (-> & _ & _ & _ & Hlim & Hres).
    assert (type ≠ kNullGate) as Htype by (by intros ->).
    assert (result = compute_table type s
                       !! (Z.min a b, Z.max a b, limit)) as ->.
    { by destruct type. }
    destruct (compute_table type s !! (Z.min a b, Z.max a b, limit))
      as [r0|] eqn:Hentry.
    { inv_ret H. split; [done|].
      destruct (Htab _ _ _ _ _ Hentry) as (_ & _ & Hpost).
      destruct (Z.min_spec a b) as [[? Hmin] | [? Hmin]],
        (Z.max_spec a b) as [[? Hmax] | [? Hmax]];
        rewrite Hmin, Hmax in Hpost; try lia;
        [done | by apply apply_post_sym]. }
    inv_ptr H as one Hone. inv_ptr H as two Htwo.
    inv_bind H as r1 s2 Hsets.
    assert (apply_result_ok s a b r1 s2) as [Hpg Hpost].
    { pose proof (λ v s r s' (Hs : sem_ok s) (Hf : flags_ok s)
                    (Hv : vertex s v) (Hm : Minimize fuel v s = Ok r s'),
                  conj (Minimize_run_ok fuel v s r s' Hs Hf Hv Hm)
                       (Minimize_keeps fuel v s r s' Hm)) as Hmn.
      destruct (order_operands_spec a b one two)
        as [[Heq Hna] | [Heq Hna]];
        rewrite Heq in Hsets; cbn [fst snd] in Hsets.
      - by eapply (Apply_sets_ok (Apply fuel) (Minimize fuel) IH Hmn).
      - destruct (Apply_sets_ok (Apply fuel) (Minimize fuel) IH Hmn
                    type b a limit s two one r1 s2) as [Hpg Hpost];
          try done.
        split; [done | by apply apply_post_sym]. }
    inv_bind H as u s3 Hstore. inv_ret H.
    assert (nodes s3 = nodes s2 ∧ set_id_ s3 = set_id_ s2
            ∧ limit_order s3 = limit_order s2
            ∧ unique_table_ s3 = unique_table_ s2
            ∧ subsume_table_ s3 = subsume_table_ s2
            ∧ minimal_results_ s3 = minimal_results_ s2
            ∧ modules_ s3 = modules_ s2 ∧ root_ s3 = root_ s2
            ∧ ∀ ty k v, compute_table ty s3 !! k = Some v →
                compute_table ty s2 !! k = Some v
                ∨ (k = (Z.min a b, Z.max a b, limit) ∧ v = r1))
      as (Hn & Hid & Hlo & Hut & Hst & Hmr & Hmo & Hro & Hnew).
    { unfold StoreComputeTable in Hstore.
      destruct type; [| |done]; inv_run Hstore; split_and!; try done;
        intros ty k v Hk; destruct ty; cbn in Hk |- *; auto;
        destruct (decide (k = (Z.min a b, Z.max a b, limit))) as [->|Hne];
        try (rewrite lookup_insert_eq in Hk; injection Hk as <-; by right);
        rewrite lookup_insert_ne in Hk by done; by left. }
    destruct (invariants_same_tables s2 s3 Hn Hid Hlo Hut Hst Hmr)
      as (Hext & Hle & Hsem3 & Hfl3).
    assert (store_ok s2) as Hok2 by apply Hpg.
    assert (vertex s2 a ∧ vertex s2 b) as [Ha2 Hb2].
    { split; (eapply vertex_extends; [apply Hpg | done]). }
    assert (apply_post s3 a b r1) as Hpost3
      by (by eapply apply_post_extends).
    split; [|done].
    split.
    + apply Hsem3, Hpg.
    + apply Hfl3; apply Hpg.
    + intros ty x y l v Hk.
      destruct (Hnew ty _ _ Hk) as [Hold | [[= -> -> ->] ->]].
      * destruct (pg_tables _ _ Hpg ty x y l v Hold) as (Hx & Hy & Hp).
        split_and!; [exact (vertex_extends s2 s3 x Hext Hx)
                     | exact (vertex_extends s2 s3 y Hext Hy) |].
        exact (apply_post_extends s2 s3 x y v Hok2 Hext Hx Hy Hp).
      * destruct (Z.min_spec a b) as [[? ->] | [? ->]],
          (Z.max_spec a b) as [[? ->] | [? ->]]; try lia.
        -- split_and!; [exact (vertex_extends s2 s3 a Hext Ha2)
                        | exact (vertex_extends s2 s3 b Hext Hb2) | done].
        -- split_and!; [exact (vertex_extends s2 s3 b Hext Hb2)
                        | exact (vertex_extends s2 s3 a Hext Ha2)
                        | by apply apply_post_sym].
    + eapply extends_trans; [apply Hpg | done].
    + eapply flags_le_trans; [apply Hpg | done].
    + rewrite Hmo. apply Hpg.
    + rewrite Hro. apply Hpg.
Qed.
(** ** Diagrams without complements *)

Lemma below_reachable s r w : below s r w → reachable s r w.
Proof.
  induction 1; [apply reach_root | by eapply reach_high
                | by eapply reach_low].
Qed.

Lemma reachable_trans s a b c :
  reachable s a b → reachable s b c → reachable s a c.
Proof.
  intros Hab Hbc. induction Hbc; [done | by eapply reach_high
                                  | by eapply reach_low
                                  | by eapply reach_module].
Qed.

Lemma reachable_inv s v w :
  reachable s v w →
  w = v
  ∨ ∃ n, terminal v = false ∧ nodes s !! v = Some n
         ∧ (reachable s (n~>high) w ∨ reachable s (n~>low) w
            ∨ (module n = true
               ∧ ∃ m, modules_ s !! index n = Some m ∧ reachable s m w)).
Proof.
  induction 1 as [|v0 n0 Hr IH Ht Hn|v0 n0 Hr IH Ht Hn
                  |v0 n0 m0 Hr IH Ht Hn Hmd Hm]; [by left| | |].
  - right. destruct IH as [-> | (n & Htv & Hnv & Hcase)].
    + exists n0. split_and!; [done | done |]. left. apply reach_root.
    + exists n. split_and!; [done | done |].
      destruct Hcase as [H | [H | (Hm & m & Hmm & H)]].
      * left. by eapply reach_high.
      * right. left. by eapply reach_high.
      * right. right. split; [done|]. exists m. split; [done|].
        by eapply reach_high.
  - right. destruct IH as [-> | (n & Htv & Hnv & Hcase)].
    + exists n0. split_and!; [done | done |]. right. left. apply reach_root.
    + exists n. split_and!; [done | done |].
      destruct Hcase as [H | [H | (Hm & m & Hmm & H)]].
      * left. by eapply reach_low.
      * right. left. by eapply reach_low.
      * right. right. split; [done|]. exists m. split; [done|].
        by eapply reach_low.
  - right. destruct IH as [-> | (n & Htv & Hnv & Hcase)].
    + exists n0. split_and!; [done | done |]. right. right.
      split; [done|]. exists m0. split; [done | apply reach_root].
    + exists n. split_and!; [done | done |].
      destruct Hcase as [H | [H | (Hm' & m & Hmm & H)]].
      * left. by eapply reach_module.
      * right. left. by eapply reach_module.
      * right. right. split; [done|]. exists m. split; [done|].
        by eapply reach_module.
Qed.

Lemma without_complements_terminal s v :
  store_ok s → terminal v = true → without_complements s v.
Proof.
  intros Hok Ht w n Hr Hn.
  apply reachable_inv in Hr as [-> | (m & Htv & _)]; [|congruence].
  by rewrite (store_ok_not_terminal s v n Hok Hn) in Ht.
Qed.

Lemma without_complements_node s v n :
  nodes s !! v = Some n → 0 ≤ index n →
  without_complements s (n~>high) → without_complements s (n~>low) →
  (module n = true →
   ∀ m, modules_ s !! index n = Some m → without_complements s m) →
  without_complements s v.
Proof.
  intros Hn Hi Hh Hl Hm w k Hr Hk.
  apply reachable_inv in Hr as [-> | (n' & Htv & Hn' & Hcase)].
  { assert (k = n) as -> by congruence. done. }
  assert (n' = n) as -> by congruence.
  destruct Hcase as [H | [H | (Hmd & m & Hmm & H)]].
  - by eapply Hh.
  - by eapply Hl.
  - by eapply (Hm Hmd m Hmm).
Qed.

Lemma without_complements_reachable s v w :
  without_complements s v → reachable s v w → without_complements s w.
Proof.
  intros Hv Hr u n Hu Hn. eapply Hv; [|done]. by eapply reachable_trans.
Qed.

(** The vertices that a traversal reaches from a vertex of [s] are the same
    in every extension of [s] with the same module table. *)
Lemma reachable_restrict s s' v w :
  store_ok s → extends s s' → modules_ s' = modules_ s →
  modules_closed s → vertex s v →
  reachable s' v w → reachable s v w ∧ vertex s w.
Proof.
  intros Hok Hext Hmod Hclosed Hv.
  induction 1 as [|v0 n0 Hr IH Ht Hn|v0 n0 Hr IH Ht Hn
                  |v0 n0 m0 Hr IH Ht Hn Hmd Hm].
  - split; [apply reach_root | done].
  - destruct IH as [Hr0 [Htv | [k Hk]]]; [congruence|].
    destruct (ext_nodes _ _ Hext v0 k Hk) as (k' & Hk' & Hsame).
    assert (k' = n0) as -> by congruence.
    destruct Hsame as (_ & _ & Hh & _). rewrite <- Hh.
    split; [by eapply reach_high|].
    by destruct (ok_branches _ Hok v0 k Hk) as (? & _).
  - destruct IH as [Hr0 [Htv | [k Hk]]]; [congruence|].
    destruct (ext_nodes _ _ Hext v0 k Hk) as (k' & Hk' & Hsame).
    assert (k' = n0) as -> by congruence.
    destruct Hsame as (_ & _ & _ & Hl & _). rewrite <- Hl.
    split; [by eapply reach_low|].
    by destruct (ok_branches _ Hok v0 k Hk) as (_ & ? & _).
  - destruct IH as [Hr0 [Htv | [k Hk]]]; [congruence|].
    destruct (ext_nodes _ _ Hext v0 k Hk) as (k' & Hk' & Hsame).
    assert (k' = n0) as -> by congruence.
    destruct Hsame as (Hi & _ & _ & _ & Hmd' & _).
    rewrite Hmod, <- Hi in Hm.
    split; [eapply reach_module; [done | done | done | congruence | done]|].
    by eapply Hclosed.
Qed.

Lemma persists_refl s : persists s s.
Proof. by intros u _ Hu. Qed.

Lemma persists_extends s s' :
  store_ok s → extends s s' → modules_ s' = modules_ s →
  modules_closed s → persists s s'.
Proof.
  intros Hok Hext Hmod Hclosed u Hu Hclean w n Hr Hn.
  destruct (reachable_restrict s s' u w Hok Hext Hmod Hclosed Hu Hr)
    as [Hr0 [Ht | [k Hk]]].
  - destruct (ext_new _ _ Hext w n) as (Hid & _); [|done|].
    + destruct (nodes s !! w) as [k|] eqn:Hk; [|done].
      by rewrite (store_ok_not_terminal s w k Hok Hk) in Ht.
    + apply terminal_iff in Ht. pose proof (ok_set_id _ Hok).
      unfold kEmpty_, kBase_ in Ht. lia.
  - destruct (ext_nodes _ _ Hext w k Hk) as (k' & Hk' & Hi & _).
    assert (k' = n) as -> by congruence.
    rewrite <- Hi. by eapply Hclean.
Qed.

(** A module entry is replaced by a vertex without complements. *)
Lemma persists_set_module s x m :
  without_complements s m →
  persists s (set_modules (insert x m) s).
Proof.
  intros Hm u _ Hu w n Hr Hn. cbn in Hn.
  assert (reachable s u w ∨ reachable s m w) as [H | H];
    [|by eapply Hu | by eapply Hm].
  clear Hn.
  induction Hr as [|v0 n0 Hr IH Ht Hn0|v0 n0 Hr IH Ht Hn0
                   |v0 n0 m0 Hr IH Ht Hn0 Hmd Hm0].
  - left. apply reach_root.
  - cbn in Hn0. destruct IH; [left | right]; by eapply reach_high.
  - cbn in Hn0. destruct IH; [left | right]; by eapply reach_low.
  - cbn in Hn0, Hm0.
    destruct (decide (x = index n0)) as [->|Hne].
    + rewrite lookup_insert_eq in Hm0. injection Hm0 as <-.
      right. apply reach_root.
    + rewrite lookup_insert_ne in Hm0 by done.
      destruct IH; [left | right]; by eapply reach_module.
Qed.

Lemma persists_trans s1 s2 s3 :
  extends s1 s2 → persists s1 s2 → persists s2 s3 → persists s1 s3.
Proof.
  intros Hext H1 H2 u Hu Hclean. apply H2; [|by apply H1].
  by eapply vertex_extends.
Qed.

(** *** Supports and the nodes under a vertex *)

Lemma below_trans s a b c : below s a b → below s b c → below s a c.
Proof.
  intros Hab Hbc. induction Hbc; [done | by eapply below_high
                                  | by eapply below_low].
Qed.

Lemma below_family s v w Y :
  below s v w → in_family s w Y → ∃ X, in_family s v X ∧ Y ⊆ X.
Proof.
  intros Hb. revert Y.
  induction Hb as [|v0 n0 Hb IH Ht Hn0|v0 n0 Hb IH Ht Hn0]; intros Y HY.
  - by exists Y.
  - destruct (IH (index n0 :: Y)) as (X & HX & Hsub);
      [by eapply in_family_high|].
    exists X. split; [done|]. intros i Hi. apply Hsub.
    by apply list_elem_of_further.
  - apply IH. by eapply in_family_low.
Qed.

Lemma below_support s v w n :
  store_ok s → below s v w → nodes s !! w = Some n →
  support s v (index n).
Proof.
  intros Hok Hb Hn.
  destruct (support_index s w n Hok Hn) as (Y & HY & Hi).
  destruct (below_family s v w Y Hb HY) as (X & HX & Hsub).
  exists X. split; [done | by apply Hsub].
Qed.

Lemma support_below s v i :
  support s v i →
  ∃ w n, below s v w ∧ nodes s !! w = Some n ∧ index n = i.
Proof.
  intros (X & HX & Hi).
  induction HX as [|v n X Ht Hn HX IH|v n X Ht Hn HX IH].
  - by apply not_elem_of_nil in Hi.
  - apply elem_of_cons in Hi as [-> | Hi].
    + exists v, n. split_and!; [apply below_root | done | done].
    + destruct (IH Hi) as (w & k & Hb & Hk & Hik).
      exists w, k. split_and!; [|done..].
      eapply below_trans; [|done].
      eapply below_high; [apply below_root | done..].
  - destruct (IH Hi) as (w & k & Hb & Hk & Hik).
    exists w, k. split_and!; [|done..].
    eapply below_trans; [|done].
    eapply below_low; [apply below_root | done..].
Qed.

(** A vertex whose sets are made of the indices of vertices without
    complements is without complements. *)
Lemma without_complements_support s (S : Z → Prop) r :
  store_ok s → literal_flags_ok s →
  (∀ i, support s r i → ∃ v, S v ∧ support s v i) →
  (∀ v, S v → without_complements s v) →
  without_complements s r.
Proof.
  intros Hok Hlit Hsup Hclean.
  assert (∀ w, reachable s r w →
               below s r w ∨ ∃ v, S v ∧ reachable s v w) as Hcases.
  { induction 1 as [|v0 n0 Hr IH Ht Hn0|v0 n0 Hr IH Ht Hn0
                    |v0 n0 m0 Hr IH Ht Hn0 Hmd Hm0].
    - left. apply below_root.
    - destruct IH as [Hb | (v & Hv & Hrv)].
      + left. by eapply below_high.
      + right. exists v. split; [done | by eapply reach_high].
    - destruct IH as [Hb | (v & Hv & Hrv)].
      + left. by eapply below_low.
      + right. exists v. split; [done | by eapply reach_low].
    - right. destruct IH as [Hb | (v & Hv & Hrv)].
      + destruct (Hsup _ (below_support s r v0 n0 Hok Hb Hn0))
          as (v & Hv & Hsv).
        destruct (support_below s v _ Hsv) as (w & k & Hbw & Hk & Hi).
        exists v. split; [done|].
        eapply reach_module;
          [by apply below_reachable | by eapply store_ok_not_terminal
           | done | | by rewrite Hi].
        rewrite <- Hmd. by eapply Hlit.
      + exists v. split; [done | by eapply reach_module]. }
  intros w n Hr Hn.
  destruct (Hcases w Hr) as [Hb | (v & Hv & Hrv)].
  - destruct (Hsup _ (below_support s r w n Hok Hb Hn)) as (v & Hv & Hsv).
    destruct (support_below s v _ Hsv) as (w' & k & Hbw & Hk & Hi).
    rewrite <- Hi. eapply (Hclean v Hv); [by apply below_reachable | done].
  - by eapply (Hclean v Hv).
Qed.
(** ** Complement elimination keeps the invariants of the engine *)

Lemma derived_extends_literal_flags s s' :
  derived s s' → literal_flags_ok s → literal_flags_ok s'.
Proof. apply derived_literal_flags. Qed.

Lemma modules_closed_extends s s' :
  extends s s' → modules_ s' = modules_ s →
  modules_closed s → modules_closed s'.
Proof.
  intros Hext Hmod Hc x m Hm. rewrite Hmod in Hm.
  eapply vertex_extends; [done|]. by eapply Hc.
Qed.

Lemma Apply_engine fuel type a b limit s r s' :
  engine_ok s → vertex s a → vertex s b →
  Apply fuel type a b limit s = Ok r s' →
  engine_ok s' ∧ progress s s' ∧ apply_post s' a b r ∧ persists s s'.
Proof.
  intros [Hsem Hfl Htab Hlit Hmod] Ha Hb H.
  pose proof (Apply_derived fuel s type a b limit s r s' (derived_refl s) H)
    as Hd.
  apply Apply_run_ok in H as [Hpg Hpost]; try done.
  split_and!; [|done|done|].
  - split; [apply Hpg | apply Hpg | apply Hpg
            | by eapply derived_literal_flags |].
    eapply modules_closed_extends; [apply Hpg | apply Hpg | done].
  - apply persists_extends; [apply Hsem | apply Hpg | apply Hpg | done].
Qed.

Lemma Minimize_engine fuel v s r s' :
  engine_ok s → vertex s v →
  Minimize fuel v s = Ok r s' →
  engine_ok s' ∧ extends s s' ∧ flags_le s s' ∧ keeps s s'
  ∧ minimize_post s' v r ∧ persists s s'.
Proof.
  intros [Hsem Hfl Htab Hlit Hmod] Hv H.
  pose proof (Minimize_derived fuel s v s r s' (derived_refl s) H) as Hd.
  pose proof (Minimize_keeps fuel v s r s' H) as Hk.
  apply Minimize_run_ok in H as (Hsem' & Hfl' & Hext & Hle & Hpost);
    try done.
  split_and!; try done.
  - split; [done | done | | by eapply derived_literal_flags |].
    + exact (apply_tables_ok_extends s s' (sem_store _ Hsem) Hext
               (kp_and _ _ Hk) (kp_or _ _ Hk) Htab).
    + eapply modules_closed_extends; [done | apply Hk | done].
  - apply persists_extends; [apply Hsem | done | apply Hk | done].
Qed.

Lemma eliminate_post_step s s' v r :
  store_ok s → extends s s' → persists s s' → vertex s v →
  eliminate_post s v r → eliminate_post s' v r.
Proof.
  intros Hok Hext Hper Hv [Hr Hab Hclean]. split.
  - by eapply vertex_extends.
  - intros n Hn. eapply above_extends; [done|].
    apply Hab. by eapply above_restrict.
  - by apply Hper.
Qed.

Lemma wide_results_ok_step s s' wide :
  store_ok s → extends s s' → persists s s' →
  wide_results_ok s wide → wide_results_ok s' wide.
Proof.
  intros Hok Hext Hper Hwide v r Hr.
  destruct (Hwide v r Hr) as [Hv Hpost].
  split; [by eapply vertex_extends | by eapply eliminate_post_step].
Qed.

Lemma eliminate_post_self s v :
  store_ok s → terminal v = true → eliminate_post s v v.
Proof.
  intros Hok Ht. split; [by left | done |].
  by apply without_complements_terminal.
Qed.

(** The eliminated low branch stands for the node. *)
Lemma eliminate_post_low s v node low :
  store_ok s → nodes s !! v = Some node →
  eliminate_post s (node~>low) low → eliminate_post s v low.
Proof.
  intros Hok Hn [Hv Hab Hclean]. split; [done | | done].
  intros n Hnv. apply Hab.
  eapply above_trans; [done | done | done |].
  by destruct (ok_ordered _ Hok v node Hn).
Qed.

(** OR of the eliminated branches stands for the node. *)
Lemma eliminate_or_ok fuel t v node high low limit r t' :
  engine_ok t → nodes t !! v = Some node →
  eliminate_post t (node~>high) high → eliminate_post t (node~>low) low →
  Apply fuel kOrGate high low limit t = Ok r t' →
  engine_ok t' ∧ progress t t' ∧ eliminate_post t' v r ∧ persists t t'.
Proof.
  intros Heng Hn Hh Hl H.
  assert (store_ok t) as Hok by apply Heng.
  destruct (Apply_engine _ _ _ _ _ _ _ _ Heng (ep_vertex _ _ _ Hh)
              (ep_vertex _ _ _ Hl) H) as (Heng' & Hpg & Hpost & Hper).
  split_and!; try done.
  destruct (ok_ordered _ Hok v node Hn) as [Hah Hal].
  assert (vertex t v) as Hv by (by eapply vertex_node).
  split.
  - apply Hpost.
  - intros n Hnv.
    apply (above_restrict t t' n v (pg_extends _ _ Hpg) Hv) in Hnv.
    apply (ap_above _ _ _ _ Hpost);
      (eapply above_extends; [apply Hpg|]).
    + apply (ep_above _ _ _ Hh). by eapply above_trans.
    + apply (ep_above _ _ _ Hl). by eapply above_trans.
  - apply (without_complements_support t' (λ u, u = high ∨ u = low)).
    + apply Heng'.
    + apply Heng'.
    + intros i Hi.
      destruct (ap_support _ _ _ _ Hpost i Hi); eauto.
    + intros u [-> | ->].
      * apply Hper; [apply Hh | apply Hh].
      * apply Hper; [apply Hl | apply Hl].
Qed.

(** The node of the eliminated branches stands for the node. *)
Lemma eliminate_fetch_ok t v node high low r t' :
  engine_ok t → nodes t !! v = Some node → 0 ≤ index node →
  high ≠ low → high ≠ kEmpty_ →
  eliminate_post t (node~>high) high → eliminate_post t (node~>low) low →
  (module node = true →
   ∀ m, modules_ t !! index node = Some m → without_complements t m) →
  FetchUniqueTable (index node) high low (order node) (module node) t
    = Ok r t' →
  engine_ok t' ∧ extends t t' ∧ flags_le t t' ∧ keeps t t'
  ∧ eliminate_post t' v r ∧ persists t t'.
Proof.
  intros Heng Hn Hpos Hhl Hne Hh Hl Hmodule H.
  destruct Heng as [Hsem Hfl Htab Hlit Hmod].
  assert (store_ok t) as Hok by apply Hsem.
  destruct (ok_ordered _ Hok v node Hn) as [Hah Hal].
  pose proof (FetchUniqueTable_keeps _ _ _ _ _ _ _ _ H) as Hk.
  assert (derived t t') as Hd.
  { eapply FetchUniqueTable_derived; [apply derived_refl | | done].
    by exists v, node. }
  assert (above t (mkSetNode (index node) (order node) high low
                     (module node) false false []) high) as Hab1.
  { eapply (above_same_level t node); [done | done |].
    by apply (ep_above _ _ _ Hh). }
  assert (above t (mkSetNode (index node) (order node) high low
                     (module node) false false []) low) as Hab2.
  { eapply (above_same_level t node); [done | done |].
    by apply (ep_above _ _ _ Hl). }
  assert (∀ w m, nodes t !! w = Some m → index m = index node →
                 order m = order node) as Hord.
  { intros w m Hm Him. by eapply (ok_order _ Hok). }
  destruct (FetchUniqueTable_store_ok _ _ _ _ _ _ _ _ Hok
              (ep_vertex _ _ _ Hh) (ep_vertex _ _ _ Hl) Hne Hhl
              Hab1 Hab2 Hord H)
    as (Hok' & Hext & (nn & Hnn & Hi & Ho & Hnh & Hnl) & Hcase
        & Hsub & Hmin).
  assert (sem_ok t') as Hsem'
    by exact (sem_ok_extends t t' Hsem Hext Hok' Hsub).
  destruct (FetchUniqueTable_flags _ _ _ _ _ _ _ _ Hfl
              Hok Hok' Hext Hcase Hsub Hmin) as [Hfl' Hle].
  assert (persists t t') as Hper.
  { apply persists_extends; [done | done | apply Hk | done]. }
  assert (literal_flags_ok t') as Hlit'
    by (by eapply derived_literal_flags).
  split_and!; try done.
  - split; [done | done | | done |].
    + exact (apply_tables_ok_extends t t' Hok Hext (kp_and _ _ Hk)
               (kp_or _ _ Hk) Htab).
    + eapply modules_closed_extends; [done | apply Hk | done].
  - destruct (ext_nodes _ _ Hext v node Hn)
      as (node' & Hn' & Hi' & Ho' & _ & _ & Hmd' & _).
    split.
    + by eapply vertex_node.
    + intros n [Ht | (m & Hm & Hb)].
      { by rewrite (store_ok_not_terminal t' v node' Hok' Hn') in Ht. }
      assert (m = node') as -> by congruence.
      right. exists nn. split; [done|]. unfold before in *. lia.
    + eapply without_complements_node; [done | lia | | |].
      * rewrite Hnh. apply Hper; [apply Hh | apply Hh].
      * rewrite Hnl. apply Hper; [apply Hl | apply Hl].
      * intros Hmd m Hm.
        assert (module node = true) as Hmdn.
        { rewrite Hmd', <- Hmd. eapply Hlit'; [done | done | congruence]. }
        rewrite (kp_modules _ _ Hk), Hi in Hm.
        apply Hper; [by eapply Hmod | by eapply Hmodule].
Qed.

Lemma engine_ok_set_modules s f :
  engine_ok s → modules_closed (set_modules f s) →
  engine_ok (set_modules f s).
Proof.
  intros [Hsem Hfl Htab Hlit Hmod] Hclosed.
  destruct (invariants_same_tables s (set_modules f s))
    as (Hext & Hle & Hsem' & Hfl'); try done.
  split; [by apply Hsem' | by apply Hfl' | | done | done].
  by apply (apply_tables_ok_extends s (set_modules f s) (sem_store _ Hsem)).
Qed.

Lemma eliminate_result_trans s t v r wide t' :
  store_ok s → extends s t → flags_le s t → root_ t = root_ s →
  persists s t →
  eliminate_result_ok t v r wide t' →
  engine_ok t' ∧ extends s t' ∧ flags_le s t' ∧ root_ t' = root_ s
  ∧ persists s t'.
Proof.
  intros Hok Hext Hle Hroot Hper [Heng Hext' Hle' Hroot' _ _ Hper'].
  split_and!; [done | by eapply extends_trans | by eapply flags_le_trans
               | congruence | by eapply persists_trans].
Qed.

(** [EliminateComplement], over a recursive call that keeps the
    invariants. *)
Lemma EliminateComplement_ok fuel
    (rec : Z → gmap Z Z → M (Z * gmap Z Z)) :
  (∀ v wide s rw s',
     engine_ok s → vertex s v → wide_results_ok s wide →
     rec v wide s = Ok rw s' →
     eliminate_result_ok s v rw.1 rw.2 s') →
  ∀ v node high low wide s rw s',
    engine_ok s → nodes s !! v = Some node →
    eliminate_post s (node~>high) high →
    eliminate_post s (node~>low) low →
    wide_results_ok s wide →
    EliminateComplement fuel rec v high low wide s = Ok rw s' →
    eliminate_result_ok s v rw.1 rw.2 s'.
Proof.
  intros Hrec v node high low wide s rw s' Heng Hn Hh Hl Hwide H.
  assert (store_ok s) as Hok by apply Heng.
  assert (vertex s v) as Hv by (by eapply vertex_node).
  unfold EliminateComplement in H.
  inv_ptr H as node' Hn'. assert (node' = node) as -> by congruence.
  clear Hn'. inv_get H as limit.
  destruct (Z.ltb_spec (index node) 0) as [Hneg | Hpos].
  { inv_bind H as r t Hrun. inv_ret H.
    destruct (eliminate_or_ok _ _ _ _ _ _ _ _ _ Heng Hn Hh Hl Hrun)
      as (Heng' & Hpg & Hpost & Hper).
    split; try done; try apply Hpg.
    eapply wide_results_ok_step; [done | apply Hpg | done | done]. }
  destruct (Z.eqb_spec high low) as [Heq | Hhl].
  { inv_ret H. split; try done;
      [apply extends_refl | apply flags_le_refl
       | by eapply eliminate_post_low | apply persists_refl]. }
  destruct (terminal high && negb (value high)) eqn:Hempty.
  { inv_ret H. split; try done;
      [apply extends_refl | apply flags_le_refl
       | by eapply eliminate_post_low | apply persists_refl]. }
  assert (high ≠ kEmpty_) as Hne.
  { intros ->. by rewrite terminal_kEmpty in Hempty. }
  inv_bind H as folded t Hfold.
  (* the module of the node *)
  assert (∃ nt,
            engine_ok t ∧ extends s t ∧ flags_le s t ∧ root_ t = root_ s
            ∧ persists s t ∧ wide_results_ok t folded.2
            ∧ nodes t !! v = Some nt
            ∧ index nt = index node ∧ order nt = order node
            ∧ module nt = module node
            ∧ nt~>high = node~>high ∧ nt~>low = node~>low
            ∧ match folded.1 with
              | Some r => eliminate_post t v r
              | None =>
                  module node = true →
                  ∀ m, modules_ t !! index node = Some m →
                       without_complements t m
              end) as Hfolded.
  { destruct (module node) eqn:Hmd.
    2:{ inv_ret Hfold. exists node.
        split_and!; try done;
          [apply extends_refl | apply flags_le_refl | apply persists_refl].  }
    inv_get Hfold as entry.
    destruct (modules_ s !! index node) as [module_root|] eqn:Hentry;
      [|done].
    inv_bind Hfold as mw s1 Hmw.
    apply Hrec in Hmw as [Heng1 Hext1 Hle1 Hroot1 Hpost1 Hwide1 Hper1];
      [| done | by eapply (eg_modules _ Heng) | done].
    inv_bind Hfold as m s2 Hmin.
    destruct (Minimize_engine _ _ _ _ _ Heng1 (ep_vertex _ _ _ Hpost1) Hmin)
      as (Heng2 & Hext2 & Hle2 & Hk2 & Hpost2 & Hper2).
    inv_modify Hfold.
    set (s3 := set_modules (insert (index node) m) s2) in *.
    assert (store_ok s1) as Hok1 by apply Heng1.
    assert (store_ok s2) as Hok2 by apply Heng2.
    assert (without_complements s2 m) as Hclean2.
    { apply (without_complements_support s2 (λ w0, w0 = mw.1));
        [done | apply Heng2 | |].
      - intros i (X & HX & Hi). exists mw.1. split; [done|].
        apply (mp_family _ _ _ Hpost2) in HX as [HX _]. by exists X.
      - intros w0 ->. apply Hper2; [apply Hpost1 | apply Hpost1]. }
    assert (persists s2 s3) as Hper3 by (by apply persists_set_module).
    assert (modules_closed s3) as Hclosed3.
    { intros x m' Hm'. unfold s3 in Hm'. cbn in Hm'.
      destruct (decide (index node = x)) as [<-|Hx].
      - rewrite lookup_insert_eq in Hm'. injection Hm' as <-.
        apply (mp_vertex _ _ _ Hpost2).
      - rewrite lookup_insert_ne in Hm' by done.
        by eapply (eg_modules _ Heng2). }
    pose proof (engine_ok_set_modules s2 _ Heng2 Hclosed3) as Heng3.
    destruct (invariants_same_tables s2 s3) as (Hext3 & Hle3 & _);
      try done.
    assert (extends s s3) as Hext.
    { eapply extends_trans; [done|]. by eapply extends_trans. }
    assert (flags_le s s3) as Hle.
    { eapply flags_le_trans; [done|]. by eapply flags_le_trans. }
    assert (persists s1 s3) as Hper13
      by exact (persists_trans s1 s2 s3 Hext2 Hper2 Hper3).
    assert (persists s s3) as Hper
      by exact (persists_trans s s1 s3 Hext1 Hper1 Hper13).
    assert (extends s1 s3) as Hext13 by (by eapply extends_trans).
    assert (wide_results_ok s3 mw.2) as Hwide3.
    { exact (wide_results_ok_step s1 s3 _ Hok1 Hext13 Hper13 Hwide1). }
    assert (root_ s3 = root_ s) as Hroot.
    { unfold s3. cbn. rewrite (kp_root _ _ Hk2). done. }
    destruct (ext_nodes _ _ Hext v node Hn)
      as (n3 & Hn3 & Hi3 & Ho3 & Hh3 & Hl3 & Hmd3 & _).
    assert (eliminate_post s3 (n3~>high) high) as Hh'.
    { rewrite <- Hh3.
      apply (eliminate_post_step s s3); [done | done | done | | done].
      by destruct (ok_branches _ Hok v node Hn) as (? & _). }
    assert (eliminate_post s3 (n3~>low) low) as Hl'.
    { rewrite <- Hl3.
      apply (eliminate_post_step s s3); [done | done | done | | done].
      by destruct (ok_branches _ Hok v node Hn) as (_ & ? & _). }
    assert (without_complements s3 m) as Hclean3.
    { apply Hper3; [apply Hpost2 | done]. }
    destruct (terminal m) eqn:Htm.
    - destruct (negb (value m)).
      + inv_ret Hfold. exists n3. split_and!; try done; try congruence.
        cbn. apply (eliminate_post_low s3 v n3 low);
          [apply (sem_store _ (eg_sem _ Heng3)) | done | done].
      + inv_bind Hfold as r s4 Hrun. inv_ret Hfold. cbn.
        destruct (eliminate_or_ok _ _ _ _ _ _ _ _ _ Heng3 Hn3 Hh' Hl' Hrun)
          as (Heng4 & Hpg4 & Hpost4 & Hper4).
        destruct (ext_nodes _ _ (pg_extends _ _ Hpg4) v n3 Hn3)
          as (n4 & Hn4 & Hi4 & Ho4 & Hh4 & Hl4 & Hmd4 & _).
        exists n4. split_and!; try done; try congruence.
        * eapply extends_trans; [done | apply Hpg4].
        * eapply flags_le_trans; [done | apply Hpg4].
        * rewrite (pg_root _ _ Hpg4). done.
        * exact (persists_trans s s3 s4 Hext Hper Hper4).
        * eapply wide_results_ok_step;
            [apply Heng3 | apply Hpg4 | done | done].
    - inv_ret Hfold. exists n3. split_and!; try done; try congruence.
      cbn. intros _ m' Hm'. unfold s3 in Hm'. cbn in Hm'.
      rewrite lookup_insert_eq in Hm'. by injection Hm' as <-. }
  destruct Hfolded as (nt & Hengt & Hextt & Hlet & Hroott & Hpert & Hwidet
                       & Hnt & Hit & Hot & Hmdt & Hht & Hlt & Hcase).
  assert (eliminate_post t (nt~>high) high) as Hh'.
  { rewrite Hht.
    apply (eliminate_post_step s t); [done | done | done | | done].
    by destruct (ok_branches _ Hok v node Hn) as (? & _). }
  assert (eliminate_post t (nt~>low) low) as Hl'.
  { rewrite Hlt.
    apply (eliminate_post_step s t); [done | done | done | | done].
    by destruct (ok_branches _ Hok v node Hn) as (_ & ? & _). }
  destruct (folded.1) as [r|] eqn:Hfirst.
  { inv_ret H. cbn. split; done. }
  inv_bind H as r t' Hfetch. inv_ret H. cbn.
  rewrite <- Hit, <- Hot, <- Hmdt in Hfetch.
  destruct (eliminate_fetch_ok t v nt high low r t') as
    (Heng' & Hext' & Hle' & Hk' & Hpost' & Hper'); try done; try lia.
  { rewrite Hmdt, Hit. done. }
  split; try done.
  - by eapply extends_trans.
  - by eapply flags_le_trans.
  - rewrite (kp_root _ _ Hk'). done.
  - eapply wide_results_ok_step; [apply Hengt | done | done | done].
  - exact (persists_trans s t t' Hextt Hpert Hper').
Qed.

(** [EliminateComplements] keeps the invariants of the engine and returns a
    vertex without complements. *)
Lemma EliminateComplements_run_ok fuel :
  ∀ v wide s rw s',
    engine_ok s → vertex s v → wide_results_ok s wide →
    EliminateComplements fuel v wide s = Ok rw s' →
    eliminate_result_ok s v rw.1 rw.2 s'.
Proof.
  induction fuel as [|fuel IH]; intros v wide s rw s' Heng Hv Hwide H;
    [done|].
  assert (store_ok s) as Hok by apply Heng.
  cbn -[terminal] in H.
  destruct (terminal v) eqn:Ht.
  { inv_ret H. cbn. split; try done;
      [apply extends_refl | apply flags_le_refl
       | by apply eliminate_post_self | apply persists_refl]. }
  destruct (wide !! v) as [r|] eqn:Hentry.
  { inv_ret H. cbn. destruct (Hwide v r Hentry) as [_ Hpost].
    split; try done;
      [apply extends_refl | apply flags_le_refl | apply persists_refl]. }
  inv_ptr H as node Hn.
  destruct (ok_branches _ Hok v node Hn) as (Hvh & Hvl & _).
  inv_bind H as hw s1 Hrun1.
  apply IH in Hrun1 as [Heng1 Hext1 Hle1 Hroot1 Hpost1 Hwide1 Hper1];
    try done.
  inv_bind H as lw s2 Hrun2.
  apply IH in Hrun2 as [Heng2 Hext2 Hle2 Hroot2 Hpost2 Hwide2 Hper2];
    [| done | by eapply vertex_extends | done].
  inv_bind H as rw' s3 Hrun3.
  destruct (ext_nodes _ _ (extends_trans _ _ _ Hext1 Hext2) v node Hn)
    as (n2 & Hn2 & Hi2 & Ho2 & Hh2 & Hl2 & _).
  apply (EliminateComplement_ok fuel (EliminateComplements fuel) IH
           v n2) in Hrun3
    as [Heng3 Hext3 Hle3 Hroot3 Hpost3 Hwide3 Hper3]; try done.
  2:{ rewrite <- Hh2.
      eapply eliminate_post_step;
        [apply Heng1 | done | done | by eapply vertex_extends | done]. }
  2:{ by rewrite <- Hl2. }
  inv_ret H. cbn.
  assert (extends s s3) as Hext.
  { eapply extends_trans; [done|]. by eapply extends_trans. }
  split; try done.
  - eapply flags_le_trans; [done|]. by eapply flags_le_trans.
  - congruence.
  - intros w r Hr.
    destruct (decide (v = w)) as [<-|Hne].
    + rewrite lookup_insert_eq in Hr. injection Hr as <-.
      split; [by eapply vertex_extends | done].
    + rewrite lookup_insert_ne in Hr by done. by apply Hwide3.
  - exact (persists_trans s s1 s3 Hext1 Hper1
             (persists_trans s1 s2 s3 Hext2 Hper2 Hper3)).
Qed.
(** ** Complement elimination (claim C9) *)

Lemma apply_tables_ok_empty s :
  and_table_ s = ∅ → or_table_ s = ∅ → apply_tables_ok s.
Proof.
  intros Hand Hor type x y l r Hr.
  destruct type; cbn in Hr; rewrite ?Hand, ?Hor in Hr; done.
Qed.


(** ** The construction from a Boolean graph keeps the invariants *)

Lemma IGate_nested_ind (P : IGate → Prop) :
  (∀ i t o m p st vars args,
     Forall (λ a : Z * IGate, P a.2) args →
     P (mkIGate i t o m p st vars args)) →
  ∀ g, P g.
Proof.
  intros H. fix IH 1. intros [i t o m p st vars args]. apply H.
  induction args as [|[j h] rest IHr]; constructor; [apply IH | apply IHr].
Qed.

Lemma ConvertGraph_unfold fuel gate gates s :
  ConvertGraph fuel gate gates s
  = (assert (negb (bool_decide (is_Some (gate_state gate)))) ;;
     match gates !! gate_index gate with
     | Some (result, count) =>
         assert (count <? parents_size gate) ;;
         let count := count + 1 in
         if count =? parents_size gate
         then ret (result, delete (gate_index gate) gates)
         else ret (result, <[gate_index gate := (result, count)]> gates)
     | None =>
         let* vars := fetch_variables (variable_args gate) in
         let* converted := convert_args fuel (gate_args gate) gates in
         let* args := get (fun s => sort_args s (vars ++ fst converted)) in
         match args with
         | [] => fail NullPointer
         | first :: rest =>
             let* result := apply_args fuel (gate_type gate) first rest in
             modify (set_and_table (fun _ => ∅)) ;;
             modify (set_or_table (fun _ => ∅)) ;;
             modify (set_subsume_table (fun _ => ∅)) ;;
             modify (set_minimal_results (fun _ => ∅)) ;;
             (if IsModule gate then emplace_module (gate_index gate) result
              else ret tt) ;;
             let gates := snd converted in
             let gates :=
               if parents_size gate >? 1 then
                 match gates !! gate_index gate with
                 | Some _ => gates
                 | None => <[gate_index gate := (result, 1)]> gates
                 end
               else gates in
             ret (result, gates)
         end
     end) s.
Proof.
  destruct gate as [i t o m p st vars args].
  cbn -[fetch_variables convert_args apply_args sort_args].
  apply bind_ext; [done|]. intros _ s1 _.
  destruct (gates !! i) as [[result count]|]; [done|].
  apply bind_ext; [done|]. intros vs s2 _.
  apply bind_ext; [|done].
  clear. revert gates s2.
  induction args as [|[j h] rest IH]; intros gates s2; [done|].
  cbn -[ConvertGraph].
  apply bind_ext; [done|]. intros _ s3 _.
  apply bind_ext; [done|]. intros rg s4 _.
  apply bind_ext; [done|]. intros arg s5 _.
  apply bind_ext; [apply IH | done].
Qed.

Lemma build_ok_engine ord md s : build_ok ord md s → engine_ok s.
Proof.
  intros [Hsem Hfl Htab Hord Hlit Hmod Hmarks].
  split; try done.
  intros v w n m Hn Hm Hi. rewrite (Hlit v n Hn), (Hlit w m Hm).
  by rewrite Hi.
Qed.

Lemma structure_ok_invariants s : store_ok s → flags_ok s → structure_ok s.
Proof.
  intros Hok Hfl v n Hn.
  destruct (ok_reduced _ Hok v n Hn) as [Hne Hhl].
  destruct (ok_ordered _ Hok v n Hn) as [Hah Hal].
  assert (∀ c, above s n c →
               (minimal n = true → minimal_vertex s c) →
               branch_ok s n c) as Hbranch.
  { intros c [Ht | (m & Hm & Hb)] Hmin; [by left|].
    right. exists m. split_and!; [done | done |].
    intros Hnm. destruct (Hmin Hnm) as [Ht | (m' & Hm' & Hmm)].
    - by rewrite (store_ok_not_terminal s c m Hok Hm) in Ht.
    - congruence. }
  split_and!; [done | done | |].
  - apply Hbranch; [done|]. intros Hmin.
    by destruct (fl_closed _ Hfl v n Hn Hmin).
  - apply Hbranch; [done|]. intros Hmin.
    by destruct (fl_closed _ Hfl v n Hn Hmin).
Qed.

(** The invariants in a state with the nodes of [s] whose tables hold
    entries of the tables of [s]. *)
Lemma build_ok_reset ord md s s' :
  build_ok ord md s →
  nodes s' = nodes s → set_id_ s' = set_id_ s →
  limit_order s' = limit_order s → unique_table_ s' = unique_table_ s →
  (∀ k r, subsume_table_ s' !! k = Some r → subsume_table_ s !! k = Some r) →
  (∀ k r, minimal_results_ s' !! k = Some r →
          minimal_results_ s !! k = Some r) →
  (∀ type k r, compute_table type s' !! k = Some r →
               compute_table type s !! k = Some r) →
  modules_closed s' →
  build_ok ord md s'.
Proof.
  intros [Hsem Hfl Htab Hord Hlit Hmod Hmarks] Hn Hid Hlim Hut Hst Hmr Hct
    Hclosed.
  assert (store_ok s) as Hok by apply Hsem.
  assert (store_ok s') as Hok' by (by eapply store_ok_same_nodes).
  assert (extends s s') as Hext by (by apply extends_same_nodes).
  assert (flags_le s s') as Hle.
  { intros v Hv. by eapply minimal_vertex_extends_same. }
  split.
  - eapply sem_ok_step; [done | done | done |].
    intros h l r Hr. left. destruct (Hst _ _ Hr). done.
  - eapply flags_ok_step; [done | done | done | done | | |].
    + intros v m Hm Hmin. left. exists m. split; [by rewrite <- Hn | done].
    + intros k r Hr. left. by apply Hst.
    + intros v r Hr. left. by apply Hmr.
  - intros type x y l r Hr. apply Hct in Hr.
    destruct (Htab type x y l r Hr) as (Hx & Hy & Hpost).
    split_and!; [by eapply vertex_extends | by eapply vertex_extends |].
    exact (apply_post_extends s s' x y r Hok Hext Hx Hy Hpost).
  - intros v n Hv. rewrite Hn in Hv. by eapply Hord.
  - intros v n Hv. rewrite Hn in Hv. by eapply Hlit.
  - done.
  - intros v n Hv. rewrite Hn in Hv. by eapply Hmarks.
Qed.

Lemma build_ok_derived ord md s s' :
  build_ok ord md s → derived s s' →
  (∀ v n, nodes s' !! v = Some n → order n = ord (index n))
  ∧ (∀ v n, nodes s' !! v = Some n → module n = md (index n)).
Proof.
  intros Hb Hd. split; intros v n Hn;
    destruct (Hd v n Hn) as (w & k & Hk & Hi & Ho & Hmd).
  - rewrite Ho, Hi. by eapply (bd_orders _ _ _ Hb).
  - rewrite Hmd, Hi. by eapply (bd_literals _ _ _ Hb).
Qed.

(** The node of a variable or of a module. *)
Lemma build_fetch_leaf ord md i o mdl s r s' :
  build_ok ord md s → o = ord i → mdl = md i →
  FetchUniqueTable i kBase_ kEmpty_ o mdl s = Ok r s' →
  build_ok ord md s' ∧ extends s s' ∧ keeps s s'
  ∧ is_Some (nodes s' !! r).
Proof.
  intros Hb Ho Hmdl H.
  pose proof Hb as [Hsem Hfl Htab Hord Hlit Hmod Hmarks].
  assert (store_ok s) as Hok by apply Hsem.
  pose proof (FetchUniqueTable_keeps _ _ _ _ _ _ _ _ H) as Hk.
  assert (∀ w m, nodes s !! w = Some m → index m = i → order m = o)
    as Hcons.
  { intros w m Hm Hi. rewrite Ho, <- Hi. by eapply Hord. }
  destruct (FetchUniqueTable_store_ok i kBase_ kEmpty_ o mdl s r s' Hok)
    as (Hok' & Hext & (nn & Hnn & Hi & Hon & Hnh & Hnl) & Hcase
        & Hsub & Hmin); try done; try (by left).
  assert (sem_ok s') as Hsem'
    by exact (sem_ok_extends s s' Hsem Hext Hok' Hsub).
  destruct (FetchUniqueTable_flags _ _ _ _ _ _ _ _ Hfl
              Hok Hok' Hext Hcase Hsub Hmin) as [Hfl' Hle].
  split_and!; [|done|done|by exists nn].
  split; try done.
  - exact (apply_tables_ok_extends s s' Hok Hext (kp_and _ _ Hk)
             (kp_or _ _ Hk) Htab).
  - intros v n Hn.
    destruct Hcase as [[_ ->] | [Hnone Hnodes]]; [by eapply Hord|].
    rewrite Hnodes in Hn.
    destruct (decide (r = v)) as [<-|Hne].
    + rewrite lookup_insert_eq in Hn. by injection Hn as <-.
    + rewrite lookup_insert_ne in Hn by done. by eapply Hord.
  - intros v n Hn.
    destruct Hcase as [[_ ->] | [Hnone Hnodes]]; [by eapply Hlit|].
    rewrite Hnodes in Hn.
    destruct (decide (r = v)) as [<-|Hne].
    + rewrite lookup_insert_eq in Hn. by injection Hn as <-.
    + rewrite lookup_insert_ne in Hn by done. by eapply Hlit.
  - eapply modules_closed_extends; [done | apply Hk | done].
  - by eapply marks_clear_extends.
Qed.

Lemma build_apply ord md fuel type a b limit s r s' :
  build_ok ord md s → vertex s a → vertex s b →
  Apply fuel type a b limit s = Ok r s' →
  build_ok ord md s' ∧ progress s s' ∧ vertex s' r.
Proof.
  intros Hb Ha Hb' H.
  pose proof (Apply_derived fuel s type a b limit s r s' (derived_refl s) H)
    as Hd.
  destruct (build_ok_derived ord md s s' Hb Hd) as [Hord Hlit].
  apply Apply_run_ok in H as [Hpg Hpost];
    [| apply Hb | apply Hb | apply Hb | done | done].
  split_and!; [|done|apply Hpost].
  split; [apply Hpg | apply Hpg | apply Hpg | done | done | |].
  - eapply modules_closed_extends; [apply Hpg | apply Hpg | apply Hb].
  - eapply marks_clear_extends; [apply Hpg | apply Hb].
Qed.

Lemma apply_args_ok ord md fuel type :
  ∀ args result s r s',
    build_ok ord md s → vertex s result → Forall (vertex s) args →
    apply_args fuel type result args s = Ok r s' →
    build_ok ord md s' ∧ extends s s' ∧ modules_ s' = modules_ s
    ∧ root_ s' = root_ s ∧ vertex s' r.
Proof.
  induction args as [|arg rest IH]; intros result s r s' Hb Hr Hargs H.
  - inv_ret H. split_and!; try done. apply extends_refl.
  - change (apply_args fuel type result (arg :: rest) s)
      with ((let* limit := get limit_order in
             let* r := Apply fuel type result arg limit in
             apply_args fuel type r rest) s) in H.
    inv_get H as limit. inv_bind H as r1 s1 Hrun.
    apply Forall_cons in Hargs as [Harg Hrest].
    destruct (build_apply _ _ _ _ _ _ _ _ _ _ Hb Hr Harg Hrun)
      as (Hb1 & Hpg & Hr1).
    apply IH in H as (Hb2 & Hext & Hmod & Hroot & Hr2); [|done|done|].
    + split_and!; [done | | | | done].
      * eapply extends_trans; [apply Hpg | done].
      * rewrite Hmod. apply Hpg.
      * rewrite Hroot. apply Hpg.
    + eapply Forall_impl; [done|]. intros v Hv.
      eapply vertex_extends; [apply Hpg | done].
Qed.

Lemma fetch_variables_ok ord md :
  ∀ vars s vs s',
    build_ok ord md s →
    forallb (λ vo : Z * Z,
               (vo.2 =? ord vo.1) && (0 <? vo.2) && negb (md vo.1)) vars
      = true →
    fetch_variables vars s = Ok vs s' →
    build_ok ord md s' ∧ extends s s' ∧ keeps s s'
    ∧ Forall (vertex s') vs.
Proof.
  induction vars as [|[i o] rest IH]; intros s vs s' Hb Hvars H.
  - inv_ret H. split_and!; try done. apply extends_refl.
  - cbn in Hvars. apply andb_true_iff in Hvars as [Hvar Hrest].
    apply andb_true_iff in Hvar as [Hvar Hmd].
    apply andb_true_iff in Hvar as [Ho Hpos].
    apply Z.eqb_eq in Ho. apply negb_true_iff in Hmd. cbn in Ho, Hmd.
    change (fetch_variables ((i, o) :: rest) s)
      with ((let* v := FetchUniqueTable i kBase_ kEmpty_ o false in
             let* vs := fetch_variables rest in
             ret (v :: vs)) s) in H.
    inv_bind H as v s1 Hfetch.
    destruct (build_fetch_leaf ord md i o false s v s1 Hb Ho) as
      (Hb1 & Hext1 & Hk1 & Hv); [done | done |].
    inv_bind H as vs1 s2 Hrun.
    apply IH in Hrun as (Hb2 & Hext2 & Hk2 & Hvs); [|done|done].
    inv_ret H. split_and!; [done | by eapply extends_trans
                            | by eapply keeps_trans |].
    constructor; [|done].
    eapply vertex_extends; [done|]. by right.
Qed.

(** The sorted arguments are the arguments. *)
Lemma insert_back_elem s x sorted y :
  y ∈ insert_back s x sorted → y = x ∨ y ∈ sorted.
Proof.
  induction sorted as [|z rest IH]; cbn.
  - intros Hy. apply list_elem_of_singleton in Hy. by left.
  - destruct (args_before s x z).
    + intros Hy. apply elem_of_cons in Hy as [-> | Hy].
      * right. apply list_elem_of_here.
      * destruct (IH Hy) as [-> | Hr]; [by left|].
        right. by apply list_elem_of_further.
    + intros Hy. apply elem_of_cons in Hy as [-> | Hy]; [by left|].
      by right.
Qed.

Lemma insert_arg_elem s sorted x y :
  y ∈ insert_arg s sorted x → y = x ∨ y ∈ sorted.
Proof.
  unfold insert_arg. destruct (last sorted) as [first|].
  - destruct (args_before s x first).
    + intros Hy. apply elem_of_app in Hy as [Hy | Hy]; [by right|].
      apply list_elem_of_singleton in Hy. by left.
    + apply insert_back_elem.
  - intros Hy. apply list_elem_of_singleton in Hy. by left.
Qed.

Lemma sort_args_elem s args y : y ∈ sort_args s args → y ∈ args.
Proof.
  unfold sort_args. rewrite elem_of_reverse.
  assert (∀ acc, y ∈ foldl (insert_arg s) acc args → y ∈ acc ∨ y ∈ args)
    as Hfold.
  { induction args as [|a rest IH]; intros acc Hy; [by left|].
    cbn in Hy. destruct (IH _ Hy) as [Hacc | Hrest].
    - destruct (insert_arg_elem _ _ _ _ Hacc) as [-> | Hacc'].
      + right. apply list_elem_of_here.
      + by left.
    - right. by apply list_elem_of_further. }
  intros Hy. destruct (Hfold [] Hy) as [Hnil | Hargs]; [|done].
  by apply not_elem_of_nil in Hnil.
Qed.

Lemma gates_ok_extends s s' gates :
  extends s s' → gates_ok s gates → gates_ok s' gates.
Proof.
  intros Hext Hg i r c Hr. eapply vertex_extends; [done|]. by eapply Hg.
Qed.

(** The end of [ConvertGraph]: the tables are cleared and the module is
    registered. *)
Lemma build_ok_cleared ord md s f :
  build_ok ord md s →
  modules_closed (set_modules f s) →
  build_ok ord md
    (set_modules f
       (set_minimal_results (λ _, ∅)
          (set_subsume_table (λ _, ∅)
             (set_or_table (λ _, ∅) (set_and_table (λ _, ∅) s))))).
Proof.
  intros Hb Hclosed.
  apply (build_ok_reset ord md s); try done.
  intros type k r Hr. by destruct type.
Qed.

Lemma ConvertGraph_run_ok ord md fuel :
  ∀ g gates s rg s',
    graph_okb ord md g = true → build_ok ord md s → gates_ok s gates →
    ConvertGraph fuel g gates s = Ok rg s' →
    build_ok ord md s' ∧ extends s s' ∧ root_ s' = root_ s
    ∧ gates_ok s' rg.2 ∧ vertex s' rg.1.
Proof.
  induction g as [i t o m p st vars args IH] using IGate_nested_ind.
  intros gates s rg s' Hg Hb Hgates H.
  rewrite ConvertGraph_unfold in H. cbn [gate_state gate_index parents_size
    variable_args gate_args gate_type IsModule] in H.
  inv_assert H as Hstate.
  destruct (gates !! i) as [[result count]|] eqn:Hentry.
  { inv_assert H as Hcount.
    assert (vertex s result) as Hres by (by eapply Hgates).
    destruct (count + 1 =? p); inv_ret H; cbn;
      (split_and!; [done | apply extends_refl | done | | done]).
    - intros j r c Hr. apply lookup_delete_Some in Hr as [_ Hr].
      by eapply Hgates.
    - intros j r c Hr. destruct (decide (i = j)) as [<-|Hne].
      + rewrite lookup_insert_eq in Hr. by injection Hr as <- <-.
      + rewrite lookup_insert_ne in Hr by done. by eapply Hgates. }
  cbn in Hg. apply andb_true_iff in Hg as [Hvars Hargs].
  inv_bind H as vs s1 Hfetch.
  destruct (fetch_variables_ok ord md vars s vs s1 Hb Hvars Hfetch)
    as (Hb1 & Hext1 & Hk1 & Hvs).
  inv_bind H as converted s2 Hconv.
  assert (build_ok ord md s2 ∧ extends s1 s2 ∧ root_ s2 = root_ s1
          ∧ gates_ok s2 converted.2 ∧ Forall (vertex s2) converted.1)
    as (Hb2 & Hext2 & Hroot2 & Hgates2 & Hcs).
  { assert (gates_ok s1 gates) as Hgates1 by (by eapply gates_ok_extends).
    clear Hfetch Hvars Hvs Hentry H Hgates Hb Hext1 Hk1.
    revert gates s1 converted s2 Hb1 Hgates1 Hconv.
    induction args as [|[j h] rest IHrest];
      intros gates s1 converted s2 Hb1 Hgates1 Hconv.
    - inv_ret Hconv. split_and!; try done. apply extends_refl.
    - apply Forall_cons in IH as [IHh IHtail]. cbn in IHh.
      apply andb_true_iff in Hargs as [Hargs Htail].
      apply andb_true_iff in Hargs as [Hmodule Hh].
      change (convert_args fuel ((j, h) :: rest) gates s1)
        with ((assert (0 <? j) ;;
               let* rg := ConvertGraph fuel h gates in
               let* arg :=
                 if IsModule h then
                   if terminal (fst rg) then ret (fst rg)
                   else FetchUniqueTable j kBase_ kEmpty_ (gate_order h) true
                 else ret (fst rg) in
               let* tail := convert_args fuel rest (snd rg) in
               ret (arg :: fst tail, snd tail)) s1) in Hconv.
      inv_assert Hconv as Hj.
      inv_bind Hconv as rg1 t1 Hrun.
      apply IHh in Hrun as (Hbt1 & Hextt1 & Hroott1 & Hgt1 & Hvt1);
        [|done..].
      inv_bind Hconv as arg t2 Harg.
      assert (build_ok ord md t2 ∧ extends t1 t2 ∧ root_ t2 = root_ t1
              ∧ vertex t2 arg) as (Hbt2 & Hextt2 & Hroott2 & Hvarg).
      { destruct (IsModule h).
        - destruct (terminal rg1.1).
          + inv_ret Harg. split_and!; try done. apply extends_refl.
          + cbn in Hmodule.
            apply andb_true_iff in Hmodule as [Hmodule Hmdj].
            apply andb_true_iff in Hmodule as [Hoj Hposj].
            apply Z.eqb_eq in Hoj.
            destruct (build_fetch_leaf ord md j (gate_order h) true
                        t1 arg t2 Hbt1 Hoj) as (? & ? & Hk & ?);
              [done | done |].
            split_and!; [done | done | apply Hk | by right].
        - inv_ret Harg. split_and!; try done. apply extends_refl. }
      inv_bind Hconv as tail t3 Hrest.
      apply IHrest in Hrest as (Hbt3 & Hextt3 & Hroott3 & Hgt3 & Hvt3);
        [| done | done | done | by eapply gates_ok_extends].
      inv_ret Hconv. cbn.
      split_and!; [done | | congruence | done |].
      + eapply extends_trans; [done|]. by eapply extends_trans.
      + constructor; [by eapply vertex_extends | done]. }
  inv_get H as sorted.
  destruct (sort_args s2 (vs ++ converted.1)) as [|first rest] eqn:Hsort;
    [done|].
  assert (Forall (vertex s2) (first :: rest)) as Hsorted.
  { apply Forall_forall. intros y Hy. rewrite <- Hsort in Hy.
    apply sort_args_elem, elem_of_app in Hy as [Hy | Hy].
    - eapply vertex_extends; [done|].
      by eapply (proj1 (Forall_forall _ _) Hvs).
    - by eapply (proj1 (Forall_forall _ _) Hcs). }
  apply Forall_cons in Hsorted as [Hfirst Hrest].
  inv_bind H as result s3 Hfold.
  destruct (apply_args_ok ord md fuel t rest first s2 result s3 Hb2 Hfirst
              Hrest Hfold) as (Hb3 & Hext3 & Hmod3 & Hroot3 & Hres).
  do 4 inv_modify H.
  inv_bind H as u5 s4 Hemplace.
  assert (extends s s3) as Hext.
  { eapply extends_trans; [done|]. by eapply extends_trans. }
  set (s3' := set_minimal_results (λ _, ∅)
                (set_subsume_table (λ _, ∅)
                   (set_or_table (λ _, ∅) (set_and_table (λ _, ∅) s3))))
    in *.
  assert (build_ok ord md s4 ∧ nodes s4 = nodes s3
          ∧ set_id_ s4 = set_id_ s3 ∧ limit_order s4 = limit_order s3
          ∧ root_ s4 = root_ s3) as (Hb4 & Hn4 & Hid4 & Hlim4 & Hroot4).
  { destruct m.
    - unfold emplace_module in Hemplace. inv_run Hemplace.
      split_and!; try done.
      apply (build_ok_cleared ord md s3); [done|].
      intros x v Hv. cbn in Hv.
      destruct (modules_ s3 !! i) eqn:Hi; [by eapply (bd_modules _ _ _ Hb3)|].
      destruct (decide (i = x)) as [<-|Hne].
      + rewrite lookup_insert_eq in Hv. by injection Hv as <-.
      + rewrite lookup_insert_ne in Hv by done.
        by eapply (bd_modules _ _ _ Hb3).
    - inv_ret Hemplace. split_and!; try done.
      replace s3' with (set_modules (λ m, m) s3') by (by destruct s3).
      apply (build_ok_cleared ord md s3); [done|].
      apply (bd_modules _ _ _ Hb3). }
  assert (extends s3 s4) as Hext4 by (by apply extends_same_nodes).
  assert (vertex s4 result) as Hres4 by (by eapply vertex_extends).
  inv_ret H. cbn.
  split_and!; [done | by eapply extends_trans | | | done].
  - rewrite Hroot4, Hroot3, Hroot2. apply Hk1.
  - assert (gates_ok s4 converted.2) as Hg4.
    { eapply gates_ok_extends; [|done]. by eapply extends_trans. }
    destruct (p >? 1); [|done].
    destruct (converted.2 !! i); [done|].
    intros j r c Hr. destruct (decide (i = j)) as [<-|Hne].
    + rewrite lookup_insert_eq in Hr. by injection Hr as <- <-.
    + rewrite lookup_insert_ne in Hr by done. by eapply Hg4.
Qed.
(** ** The constructor and the minimization phase establish the invariants *)

(** The traversals change nodes only. *)
Lemma only_nodes_trans s1 s2 s3 :
  s2 = set_nodes (λ _, nodes s2) s1 → s3 = set_nodes (λ _, nodes s3) s2 →
  s3 = set_nodes (λ _, nodes s3) s1.
Proof. intros -> ->. by destruct s1. Qed.

Lemma only_nodes_refl s : s = set_nodes (λ _, nodes s) s.
Proof. by destruct s. Qed.

Lemma set_mark_only_nodes v flag u s s' :
  set_mark v flag s = Ok u s' → s' = set_nodes (λ _, nodes s') s.
Proof.
  intros H. apply set_mark_Ok in H as (n & Hn & ->). by destruct s.
Qed.

Lemma ClearMarks_only_nodes fuel :
  ∀ v s u s', ClearMarks fuel v s = Ok u s' →
              s' = set_nodes (λ _, nodes s') s.
Proof.
  induction fuel as [|fuel IH]; intros v s u s' H; [done|].
  cbn -[terminal] in H.
  destruct (terminal v); [inv_ret H; apply only_nodes_refl|].
  inv_ptr H as n Hn.
  destruct (negb (mark n)); [inv_ret H; apply only_nodes_refl|].
  inv_bind H as u1 s1 Hset. apply set_mark_only_nodes in Hset.
  inv_bind H as um s2 Hmodule. inv_bind H as uh s3 Hhigh.
  assert (s2 = set_nodes (λ _, nodes s2) s1) as H2.
  { destruct (module n).
    - inv_bind Hmodule as m sm Hfind.
      apply find_module_Ok in Hfind as [Hm ->]. by apply IH in Hmodule.
    - inv_ret Hmodule. apply only_nodes_refl. }
  apply IH in Hhigh. apply IH in H.
  eauto using only_nodes_trans.
Qed.

Lemma TestStructure_only_nodes fuel :
  ∀ v s u s', TestStructure fuel v s = Ok u s' →
              s' = set_nodes (λ _, nodes s') s.
Proof.
  induction fuel as [|fuel IH]; intros v s u s' H; [done|].
  cbn -[terminal] in H.
  destruct (terminal v); [inv_ret H; apply only_nodes_refl|].
  inv_ptr H as n Hn.
  destruct (mark n); [inv_ret H; apply only_nodes_refl|].
  inv_bind H as u1 s1 Hset. apply set_mark_only_nodes in Hset.
  inv_assert H as Hc1. inv_assert H as Hc2. inv_assert H as Hc3.
  inv_assert H as Hc4. inv_assert H as Hc5.
  inv_bind H as hn t1 Hhn. apply branch_node_Ok in Hhn as [-> _].
  inv_bind H as ln t2 Hln. apply branch_node_Ok in Hln as [-> _].
  inv_assert H as Hc6. inv_assert H as Hc7. inv_assert H as Hc8.
  inv_assert H as Hc9. inv_assert H as Hc10.
  inv_bind H as um s2 Hmodule. inv_bind H as uh s3 Hhigh.
  assert (s2 = set_nodes (λ _, nodes s2) s1) as H2.
  { destruct (module n).
    - inv_bind Hmodule as m sm Hfind.
      apply find_module_Ok in Hfind as [Hm ->].
      inv_assert Hmodule as Hc11. by apply IH in Hmodule.
    - inv_ret Hmodule. apply only_nodes_refl. }
  apply IH in Hhigh. apply IH in H.
  eauto using only_nodes_trans.
Qed.

(** From a store without marks, the check of the structure and the
    traversals that clear the marks before and after it give the state back
    as it was. *)
Lemma traversals_restore fuel r s u s' :
  store_ok s → marks_clear s →
  (ClearMarks fuel r ;; TestStructure fuel r ;; ClearMarks fuel r) s
    = Ok u s' →
  s' = s.
Proof.
  intros Hok Hc H.
  inv_bind H as u1 s1 Hclear1. inv_bind H as u2 s2 Htest.
  pose proof (ClearMarks_only_nodes _ _ _ _ _ Hclear1) as Ho1.
  pose proof (TestStructure_only_nodes _ _ _ _ _ Htest) as Ho2.
  pose proof (ClearMarks_only_nodes _ _ _ _ _ H) as Ho3.
  apply ClearMarks_ok in Hclear1 as [Hmo1 Hc1].
  pose proof (TestStructure_ok _ _ _ _ _ Htest) as (Hmo2 & _).
  pose proof (ClearMarks_ok _ _ _ _ _ H) as [Hmo3 _].
  assert (marks_clear s') as Hc'.
  { eapply (traversal_clears fuel fuel r s1); [| by apply Hc1 | done..].
    intros w n Hn.
    destruct (marks_only_lookup _ _ _ _ (marks_only_sym _ _ Hmo1) Hn)
      as (m & Hm & _).
    by eapply store_ok_not_terminal. }
  assert (marks_only s s') as Hmo.
  { eapply marks_only_trans; [done|]. by eapply marks_only_trans. }
  pose proof (marks_clear_nodes s s' Hmo Hc Hc') as Hnodes.
  rewrite (only_nodes_trans _ _ _ (only_nodes_trans _ _ _ Ho1 Ho2) Ho3).
  rewrite Hnodes. by destruct s.
Qed.

Lemma ClearMarks_restore fuel r s u s' :
  marks_clear s → ClearMarks fuel r s = Ok u s' → s' = s.
Proof.
  intros Hc H.
  pose proof (ClearMarks_only_nodes _ _ _ _ _ H) as Ho.
  apply ClearMarks_ok in H as [Hmo Hc'].
  rewrite Ho, (marks_clear_nodes s s' Hmo Hc (Hc' Hc)). by destruct s.
Qed.

Lemma check_root_restore fuel s u s' :
  store_ok s → marks_clear s → check_root fuel s = Ok u s' → s' = s.
Proof.
  intros Hok Hc H. unfold check_root in H. inv_get H as r.
  inv_bind H as u1 s1 Hclear1. inv_bind H as u2 s2 Htest.
  inv_bind H as u3 s3 Hclear2. inv_bind H as u4 s4 Hclear3.
  assert (s3 = s) as ->.
  { eapply (traversals_restore fuel (root_ s)); [done | done |].
    unfold bind. rewrite Hclear1, Htest. exact Hclear2. }
  apply ClearMarks_restore in Hclear3 as ->; [|done].
  by apply ClearMarks_restore in H as ->.
Qed.

(** *** The engine at its start *)

Lemma build_ok_init ord md limit : build_ok ord md (Zbdd_init limit).
Proof.
  assert (store_ok (Zbdd_init limit)) as Hok.
  { apply store_okb_sound. reflexivity. }
  destruct (unflaggedb_sound (Zbdd_init limit)) as [Hsem Hfl];
    [reflexivity | reflexivity |].
  split; try done.
  by apply apply_tables_ok_empty.
Qed.

Lemma engine_ok_set_root s r : engine_ok s → engine_ok (set_root r s).
Proof.
  intros [Hsem Hfl Htab Hlit Hmod].
  destruct (invariants_same_tables s (set_root r s))
    as (Hext & Hle & Hsem' & Hfl'); try done.
  split; [by apply Hsem' | by apply Hfl' | | done | done].
  by apply (apply_tables_ok_extends s (set_root r s) (sem_store _ Hsem)).
Qed.

(** *** The constructor *)

(** The construction proper, before the check of the structure: the state
    satisfies the invariants of the engine, holds no mark, and its root is a
    vertex. *)
Lemma Zbdd_of_graph_ok ord md fuel g coherent limit u s1 :
  graph_okb ord md g = true →
  Zbdd_of_graph fuel g coherent (Zbdd_init limit) = Ok u s1 →
  engine_ok s1 ∧ marks_clear s1 ∧ vertex s1 (root_ s1).
Proof.
  intros Hg H. unfold Zbdd_of_graph in H.
  pose proof (build_ok_init ord md limit) as Hb0.
  inv_bind H as u0 t Hbuild.
  assert (engine_ok t ∧ marks_clear t ∧ vertex t (root_ t))
    as (Heng & Hmarks & Hroot).
  { destruct (gate_state g) as [state|].
    { inv_run Hbuild. split_and!.
      - apply engine_ok_set_root. by eapply build_ok_engine.
      - done.
      - left. by destruct state. }
    destruct (gate_type g) eqn:Htype.
    3:{ inv_assert Hbuild as Hone. inv_assert Hbuild as Hnone.
        destruct (variable_args g) as [|[child o] rest] eqn:Hvars;
          [done|].
        destruct (child <? 0).
        { inv_run Hbuild. split_and!.
          - apply engine_ok_set_root. by eapply build_ok_engine.
          - done.
          - by left. }
        inv_bind Hbuild as v t1 Hfetch. inv_run Hbuild.
        destruct g as [i ty o' m p st vars args]. cbn in *. subst vars.
        cbn in Hg. apply andb_true_iff in Hg as [Hv _].
        apply andb_true_iff in Hv as [Hv _].
        apply andb_true_iff in Hv as [Hv Hmd].
        apply andb_true_iff in Hv as [Ho Hpos].
        apply Z.eqb_eq in Ho. apply negb_true_iff in Hmd. cbn in Ho, Hmd.
        destruct (build_fetch_leaf ord md child o false _ v t1 Hb0 Ho)
          as (Hb1 & Hext & Hk & Hv); [done | done |].
        split_and!.
        - apply engine_ok_set_root. by eapply build_ok_engine.
        - apply (bd_marks _ _ _ Hb1).
        - by right. }
    all: inv_bind Hbuild as rg t1 Hconv;
      apply (ConvertGraph_run_ok ord md) in Hconv
        as (Hb1 & Hext1 & Hroot1 & Hgates1 & Hv1); [|done|done|done];
      inv_modify Hbuild;
      pose proof (engine_ok_set_root t1 rg.1 (build_ok_engine _ _ _ Hb1))
        as Heng1;
      (destruct (negb coherent);
       [| inv_ret Hbuild; split_and!; [done | apply Hb1 | done]]);
      inv_bind Hbuild as uc1 t2 Hc1; inv_bind Hbuild as ut t3 Htest;
      inv_bind Hbuild as uc2 t4 Hc2;
      (assert (t4 = set_root rg.1 t1) as ->;
       [ eapply (traversals_restore fuel rg.1);
         [apply Heng1 | apply Hb1 |];
         unfold bind; rewrite Hc1, Htest; exact Hc2 |]);
      inv_bind Hbuild as rw t5 Hrun; inv_run Hbuild;
      apply EliminateComplements_run_ok in Hrun
        as [Heng5 Hext5 _ _ Hpost5 _ _]; [| done | done | done];
      (split_and!;
       [ by apply engine_ok_set_root
       | exact (marks_clear_extends (set_root rg.1 t1) t5 Hext5
                  (bd_marks _ _ _ Hb1))
       | apply Hpost5 ]). }
  apply check_root_restore in H as ->; [done | apply Heng | done].
Qed.

(** *** The minimization phase *)

Lemma minimize_modules_engine fuel entries :
  ∀ s u s',
    sem_ok s → flags_ok s → Forall (λ e : Z * Z, vertex s e.2) entries →
    minimize_modules fuel entries s = Ok u s' →
    sem_ok s' ∧ flags_ok s' ∧ extends s s' ∧ root_ s' = root_ s.
Proof.
  induction entries as [|[x v] rest IH]; intros s u s' Hsem Hfl Hvs H.
  - inv_ret H. split_and!; try done. apply extends_refl.
  - apply Forall_cons in Hvs as [Hv Hrest]. cbn in Hv.
    change (minimize_modules fuel ((x, v) :: rest) s)
      with ((let* m := Minimize fuel v in
             modify (set_modules (insert x m)) ;;
             minimize_modules fuel rest) s) in H.
    inv_bind H as m s1 Hmin.
    pose proof (Minimize_keeps _ _ _ _ _ Hmin) as Hk.
    apply Minimize_run_ok in Hmin as (Hsem1 & Hfl1 & Hext1 & Hle1 & Hpost);
      [|done..].
    inv_modify H.
    destruct (invariants_same_tables s1 (set_modules (insert x m) s1))
      as (Hext2 & Hle2 & Hsem2 & Hfl2); try done.
    apply IH in H as (Hsem3 & Hfl3 & Hext3 & Hroot3);
      [| by apply Hsem2 | by apply Hfl2 |].
    + split_and!; [done | done | | ].
      * eapply extends_trans; [done|]. by eapply extends_trans.
      * rewrite Hroot3. cbn. apply Hk.
    + eapply Forall_impl; [done|]. intros e He. cbn in He.
      exact (vertex_extends s1 _ _ Hext2 (vertex_extends s s1 _ Hext1 He)).
Qed.

Lemma structure_ok_marks s s' :
  marks_only s s' → structure_ok s → structure_ok s'.
Proof.
  intros Hmo Hs v n Hn.
  destruct (marks_only_lookup _ _ _ _ (marks_only_sym _ _ Hmo) Hn)
    as (m & Hm & Heq).
  eapply node_ok_marks; [done | | by eapply Hs]. done.
Qed.

(** The minimizations of Analyze, before the check of the structure. *)
Lemma minimizations_ok fuel s u t r s' :
  sem_ok s → flags_ok s → modules_closed s → vertex s (root_ s) →
  minimize_modules fuel (map_to_list (modules_ s)) s = Ok u t →
  Minimize fuel (root_ t) t = Ok r s' →
  sem_ok s' ∧ flags_ok s'.
Proof.
  intros Hsem Hfl Hmod Hroot Hmodules Hmin.
  apply minimize_modules_engine in Hmodules
    as (Hsem1 & Hfl1 & Hext1 & Hroot1); [|done|done|].
  2:{ apply Forall_forall. intros [x v] Hxv.
      apply elem_of_map_to_list in Hxv. by eapply Hmod. }
  apply Minimize_run_ok in Hmin as (Hsem2 & Hfl2 & _); try done.
  rewrite Hroot1. by eapply vertex_extends.
Qed.

Lemma Analyze_minimize_structure fuel s u s2 :
  sem_ok s → flags_ok s → modules_closed s → vertex s (root_ s) →
  Analyze_minimize fuel s = Ok u s2 → structure_ok s2.
Proof.
  intros Hsem Hfl Hmod Hroot H. unfold Analyze_minimize in H.
  inv_get H as entries. inv_bind H as u1 t Hmodules.
  inv_get H as r0. inv_bind H as r s1 Hmin.
  destruct (minimizations_ok _ _ _ _ _ _ Hsem Hfl Hmod Hroot Hmodules Hmin)
    as [Hsem1 Hfl1].
  inv_modify H. inv_bind H as mr s1' Hflag.
  assert (s1' = set_root r s1) as ->.
  { destruct (terminal r); [by inv_ret Hflag|].
    inv_ptr Hflag as n Hn. by inv_ret Hflag. }
  inv_assert H as Hmr.
  inv_bind H as uc1 t1 Hc1. inv_bind H as ut t2 Htest.
  inv_bind H as uc2 t3 Hc2. inv_bind H as uc3 t4 Hc3.
  apply ClearMarks_ok in Hc1 as [Hmo1 _].
  apply TestStructure_ok in Htest as (Hmo2 & _).
  apply ClearMarks_ok in Hc2 as [Hmo3 _].
  apply ClearMarks_ok in Hc3 as [Hmo4 _].
  apply ClearMarks_ok in H as [Hmo5 _].
  assert (marks_only (set_root r s1) s2) as Hmo.
  { eapply marks_only_trans; [done|]. eapply marks_only_trans; [done|].
    eapply marks_only_trans; [done|]. by eapply marks_only_trans. }
  eapply structure_ok_marks; [done|].
  apply (structure_ok_invariants s1); [apply Hsem1 | done].
Qed.
(** ** The structural invariants (claim C8) *)

(** Claim C8: the construction from a Boolean graph and the minimization
    phase of Analyze establish the structural invariants.  For a graph whose
    variables and modules have one positive order each, in the states that
    ConvertGraph, the complement elimination after it, the constructor as a
    whole, the minimizations of Analyze and the minimization phase as a
    whole leave, every SetNode of the store, and so every SetNode that can
    be reached from the root or through the module table, has a high branch
    that is not EMPTY and that differs from its low branch; along both
    edges the order of the node is smaller than the order of the branch, or
    the orders are the same and the index of the node is greater; and the
    branches of a node that is flagged minimal are terminals or flagged
    minimal.  The invariants come from the operations that create and flag
    the nodes: the proof makes no use of the assertions of TestStructure,
    which ConvertGraph, EliminateComplements and Minimize do not call. *)
Theorem construction_invariants ord md fuel g coherent limit :
  graph_okb ord md g = true →
  (∀ rg s, ConvertGraph fuel g ∅ (Zbdd_init limit) = Ok rg s →
     structure_ok s
     ∧ ∀ rw s', EliminateComplements fuel rg.1 ∅ s = Ok rw s' →
                structure_ok s')
  ∧ (∀ s1, Zbdd_of_graph fuel g coherent (Zbdd_init limit) = Ok tt s1 →
       structure_ok s1
       ∧ (∀ u t r s',
            minimize_modules fuel (map_to_list (modules_ s1)) s1 = Ok u t →
            Minimize fuel (root_ t) t = Ok r s' →
            structure_ok s')
       ∧ (∀ s2, Analyze_minimize fuel s1 = Ok tt s2 → structure_ok s2)).
Proof.
  intros Hg. split.
  - intros rg s H.
    apply (ConvertGraph_run_ok ord md) in H as (Hb & _ & _ & _ & Hv);
      [| done | apply build_ok_init | done].
    split.
    + apply structure_ok_invariants; [apply Hb | apply Hb].
    + intros rw s' Hrun.
      apply EliminateComplements_run_ok in Hrun as [Heng _ _ _ _ _ _];
        [| by eapply build_ok_engine | done | done].
      apply structure_ok_invariants; [apply Heng | apply Heng].
  - intros s1 H.
    destruct (Zbdd_of_graph_ok ord md fuel g coherent limit tt s1 Hg H)
      as (Heng & Hmarks & Hroot).
    split_and!.
    + apply structure_ok_invariants; [apply Heng | apply Heng].
    + intros u t r s' Hmodules Hmin.
      destruct (minimizations_ok fuel s1 u t r s') as [Hsem Hfl];
        try done; try apply Heng.
      apply structure_ok_invariants; [apply Hsem | done].
    + intros s2 Hrun.
      eapply Analyze_minimize_structure; [| | | | done];
        try done; apply Heng.
Qed.

Lemma construction_invariants_witness :
  (∃ s2, Zbdd_of_graph 30 module_gate true (Zbdd_init 3)
           = Ok tt module_gate_built
         ∧ structure_ok module_gate_built
         ∧ Analyze_minimize 30 module_gate_built = Ok tt s2
         ∧ structure_ok s2)
  ∧ (∃ s1, Zbdd_of_graph 40 noncoherent_gate false (Zbdd_init 5) = Ok tt s1
           ∧ structure_ok s1).
Proof.
  split.
  - assert (Zbdd_of_graph 30 module_gate true (Zbdd_init 3)
            = Ok tt module_gate_built) as Hbuilt
      by (vm_compute; reflexivity).
    destruct (construction_invariants Z.abs (λ i, i =? 101) 30 module_gate
                true 3) as [_ H]; [vm_compute; reflexivity|].
    destruct (H module_gate_built Hbuilt) as (Hs1 & _ & Hs2).
    destruct (Analyze_minimize 30 module_gate_built) as [[] s2|e] eqn:Hrun;
      [|vm_compute in Hrun; discriminate Hrun].
    exists s2. split_and!; [done | done | done | by apply Hs2].
  - destruct (Zbdd_of_graph 40 noncoherent_gate false (Zbdd_init 5))
      as [[] s1|e] eqn:Hrun; [|vm_compute in Hrun; discriminate Hrun].
    exists s1. split; [done|].
    destruct (construction_invariants Z.abs (λ i, i =? 101) 40
                noncoherent_gate false 5) as [_ H];
      [vm_compute; reflexivity|].
    by destruct (H s1 Hrun) as (Hs1 & _).
Defined.
